(** * dragonfly-wasm: plugin host core

    A shallow embedding of the event dispatcher (pkg/events/dispatcher.go),
    the plugin manager's dependency resolver, instance construction and
    event-result parsing (internal/manager), the storage backends, and the
    instance pool (internal/runtime), together with the properties the
    specification states about them.

    Conventions.
    - Go [int], [int64] and [time.Duration] are 64-bit two's complement:
      values are [Z] and every arithmetic result is passed through
      [wrap_int]; [uint64] and [uint32] results go through [wrap_uint64]
      and [wrap_uint32].
    - [[]byte] is [list byte]; Go strings are [string] (byte sequences).
    - Go maps are [gmap]s.  A nil map reads like the empty map; where the
      source distinguishes a nil map (the zero [DispatchResult]) the field
      is an [option].
    - Mutexes are not modelled: every operation is one atomic step of a
      sequential state machine. *)

From Stdlib Require Import ZArith Lia Ascii String List.
From Stdlib.Strings Require Import Byte.
From stdpp Require Import base option list gmap strings fin_maps sorting.

Local Open Scope Z_scope.

(** ** Go machine integers *)

Module GoInt.

Definition wrap_int (z : Z) : Z := (z + 2 ^ 63) mod 2 ^ 64 - 2 ^ 63.
Definition wrap_uint64 (z : Z) : Z := z mod 2 ^ 64.
Definition wrap_uint32 (z : Z) : Z := z mod 2 ^ 32.

Definition MinInt : Z := - 2 ^ 63.
Definition MaxInt : Z := 2 ^ 63 - 1.

End GoInt.

(** ** pkg/plugin: manifest data *)

Module plugin.

(** [type EventType string] *)
Definition EventType := string.
Definition EventPlayerChat : EventType := "player_chat"%string.

(** [type Priority int] *)
Definition Priority := Z.
Definition PriorityNormal : Priority := 0.
Definition PriorityHigh : Priority := 100.

Module Dependency.
Record t := mk { ID : string; Optional : bool }.
End Dependency.

Module ResourceLimits.
Record t := mk { MaxMemoryMB : Z; MaxExecutionMs : Z; MaxFuel : Z }.
End ResourceLimits.

(** [DefaultResourceLimits] *)
Definition DefaultResourceLimits : ResourceLimits.t :=
  ResourceLimits.mk 64 100 1000000.

Module Manifest.
Record t := mk {
  ID : string;
  Dependencies : list Dependency.t;
  Limits : ResourceLimits.t;
  LoadAfter : list string
}.
End Manifest.

(** [type State int] with its eight constants. *)
Inductive State :=
  | StateUnloaded | StateLoading | StateLoaded | StateEnabling
  | StateEnabled | StateDisabling | StateDisabled | StateError.

End plugin.

(** ** pkg/events: the dispatcher *)

Module events.

Module EventResult.
Record t := mk {
  Cancelled : bool;
  Modifications : gmap string string;
  Error : string
}.
End EventResult.

(** [type Handler func(ctx, data []byte)], returning a pointer to an
    [EventResult] and an [error].  A handler is called at most once per
    [Dispatch]; what it returns on that call is a function of the
    serialized event.  Both components are optional as in Go: a nil
    result and a nil error. *)
Definition Handler := list byte -> option EventResult.t * option string.

Module Subscription.
Record t := mk {
  PluginID : string;
  Priority : plugin.Priority;
  Handler : events.Handler;
  IgnoreCancelled : bool
}.
End Subscription.

Module DispatchResult.
Record t := mk {
  Cancelled : bool;
  Modifications : option (gmap string string);
  Handlers : Z;
  Duration : Z;
  Errors : list string
}.
(** [&DispatchResult{}] *)
Definition zero : t := mk false None 0 0 [].
End DispatchResult.

Module Dispatcher.
Record t := mk {
  subscriptions : gmap string (list Subscription.t);
  eventCount : gmap string Z;
  cancelCount : gmap string Z;
  dispatchTimes : gmap string Z
}.
End Dispatcher.

Definition NewDispatcher : Dispatcher.t := Dispatcher.mk ∅ ∅ ∅ ∅.

(** The comparison function handed to [slices.SortFunc] in [Subscribe]:
    [int(a.Priority - b.Priority)], a subtraction of two Go [int]s. *)
Definition cmpPriority (a b : Subscription.t) : Z :=
  GoInt.wrap_int (Subscription.Priority a - Subscription.Priority b).

(** [slices.SortFunc] belongs to the Go standard library.  For slices of at
    most [maxInsertion] = 12 elements it runs [insertionSortCmpFunc]:
<<
    for i := a + 1; i < b; i++ {
      for j := i; j > a && (cmp(data[j], data[j-1]) < 0); j-- {
        data[j], data[j-1] = data[j-1], data[j]
      }
    }
>>
    The inner loop lets [data[i]] sink leftwards through the already
    processed prefix.  [sink] does that on the prefix held in reverse
    (nearest neighbour first).  Longer slices take the pivoting branches of
    the library's pattern-defeating quicksort, which are not transcribed:
    what is stated below about [Subscribe] concerns lists of at most
    [maxInsertion] subscriptions. *)
Definition maxInsertion : nat := 12.

Section InsertionSort.
Context {A : Type} (cmp : A -> A -> Z).

Fixpoint sink (x : A) (rev_prefix : list A) : list A :=
  match rev_prefix with
  | [] => [x]
  | y :: ys => if cmp x y <? 0 then y :: sink x ys else x :: y :: ys
  end.

Definition insertionSortCmpFunc (data : list A) : list A :=
  rev (fold_left (fun acc x => sink x acc) data []).

End InsertionSort.

Definition SortFunc {A : Type} (data : list A) (cmp : A -> A -> Z) : list A :=
  insertionSortCmpFunc cmp data.

(** [d.subscriptions[event]], where a missing key reads as the nil slice. *)
Definition subs_of (d : Dispatcher.t) (event : plugin.EventType)
  : list Subscription.t :=
  default [] (Dispatcher.subscriptions d !! event).

Definition Subscribe (d : Dispatcher.t) (event : plugin.EventType)
    (sub : Subscription.t) : Dispatcher.t :=
  Dispatcher.mk
    (<[event := SortFunc (subs_of d event ++ [sub]) cmpPriority]>
       (Dispatcher.subscriptions d))
    (Dispatcher.eventCount d)
    (Dispatcher.cancelCount d)
    (Dispatcher.dispatchTimes d).

(** [for k, v := range handlerResult.Modifications { result.Modifications[k] = v }] *)
Definition merge_modifications (into : option (gmap string string))
    (from : gmap string string) : option (gmap string string) :=
  match into with
  | Some m => Some (from ∪ m)
  | None => None
  end.

(** One iteration of the [for _, sub := range subs] loop of [Dispatch].
    [calls] records the positions (in the snapshot) of the subscriptions
    whose handler was called. *)
Definition dispatch_body (serialized : list byte) (i : nat)
    (sub : Subscription.t) (st : DispatchResult.t * list nat)
  : DispatchResult.t * list nat :=
  let '(result, calls) := st in
  if DispatchResult.Cancelled result && Subscription.IgnoreCancelled sub
  then (result, calls)
  else
    let '(handlerResult, err) := Subscription.Handler sub serialized in
    match err with
    | Some e =>
        (DispatchResult.mk
           (DispatchResult.Cancelled result)
           (DispatchResult.Modifications result)
           (DispatchResult.Handlers result)
           (DispatchResult.Duration result)
           (DispatchResult.Errors result ++ [e]),
         calls ++ [i])
    | None =>
        let handlers := GoInt.wrap_int (DispatchResult.Handlers result + 1) in
        match handlerResult with
        | Some hr =>
            (DispatchResult.mk
               (if EventResult.Cancelled hr then true
                else DispatchResult.Cancelled result)
               (merge_modifications (DispatchResult.Modifications result)
                  (EventResult.Modifications hr))
               handlers
               (DispatchResult.Duration result)
               (DispatchResult.Errors result),
             calls ++ [i])
        | None =>
            (DispatchResult.mk
               (DispatchResult.Cancelled result)
               (DispatchResult.Modifications result)
               handlers
               (DispatchResult.Duration result)
               (DispatchResult.Errors result),
             calls ++ [i])
        end
    end.

Fixpoint dispatch_loop (serialized : list byte) (i : nat)
    (subs : list Subscription.t) (st : DispatchResult.t * list nat)
  : DispatchResult.t * list nat :=
  match subs with
  | [] => st
  | sub :: rest =>
      dispatch_loop serialized (S i) rest (dispatch_body serialized i sub st)
  end.

(** [&DispatchResult{Modifications: make(map[string]string)}] *)
Definition fresh_result : DispatchResult.t :=
  DispatchResult.mk false (Some ∅) 0 0 [].

(** [m[k]++] and [m[k] += v] on the metric maps. *)
Definition bump_uint64 (k : string) (m : gmap string Z) : gmap string Z :=
  <[k := GoInt.wrap_uint64 (default 0 (m !! k) + 1)]> m.
Definition add_duration (k : string) (v : Z) (m : gmap string Z)
  : gmap string Z :=
  <[k := GoInt.wrap_int (default 0 (m !! k) + v)]> m.

Module DispatchOutcome.
Record t := mk {
  result : DispatchResult.t;
  dispatcher : Dispatcher.t;
  (** the handlers called, in call order, each named by the event it is
      subscribed to and its position in that event's subscription list *)
  called : list (plugin.EventType * nat)
}.
End DispatchOutcome.

(** [Dispatcher.Dispatch].  [serialized] is [[]byte(data.String())] and
    [elapsed] is the value [time.Since(start)] yields after the loop. *)
Definition Dispatch (d : Dispatcher.t) (event : plugin.EventType)
    (serialized : list byte) (elapsed : Z) : DispatchOutcome.t :=
  let subs := subs_of d event in
  if (length subs =? 0)%nat then
    DispatchOutcome.mk DispatchResult.zero d []
  else
    let '(result, calls) := dispatch_loop serialized 0 subs (fresh_result, []) in
    let result :=
      DispatchResult.mk
        (DispatchResult.Cancelled result)
        (DispatchResult.Modifications result)
        (DispatchResult.Handlers result)
        elapsed
        (DispatchResult.Errors result) in
    let d' :=
      Dispatcher.mk
        (Dispatcher.subscriptions d)
        (bump_uint64 event (Dispatcher.eventCount d))
        (if DispatchResult.Cancelled result
         then bump_uint64 event (Dispatcher.cancelCount d)
         else Dispatcher.cancelCount d)
        (add_duration event elapsed (Dispatcher.dispatchTimes d)) in
    DispatchOutcome.mk result d' (map (pair event) calls).

(** The accumulated result at the moment the subscription at position [i]
    is considered: the loop state after the first [i] subscriptions. *)
Definition accumulated (d : Dispatcher.t) (event : plugin.EventType)
    (serialized : list byte) (i : nat) : DispatchResult.t :=
  fst (dispatch_loop serialized 0 (take i (subs_of d event)) (fresh_result, [])).

(** Priorities for which the comparison of [Subscribe] cannot wrap, and
    the ascending order on subscriptions. *)
Definition in_range (s : Subscription.t) : Prop :=
  - 2 ^ 62 <= Subscription.Priority s < 2 ^ 62.
Definition prio_le (a b : Subscription.t) : Prop :=
  Subscription.Priority a <= Subscription.Priority b.

End events.

(** ** pkg/config: effective limits *)

Module config.

Module PerformanceConfig.
Record t := mk { PoolSize : Z }.
End PerformanceConfig.

Module Config.
Record t := mk {
  DefaultLimits : plugin.ResourceLimits.t;
  GlobalLimits : plugin.ResourceLimits.t;
  Performance : PerformanceConfig.t
}.
End Config.

(** [Config.GetEffectiveLimits]: a zero field inherits the default, then
    every field is capped by the global limit. *)
Definition GetEffectiveLimits (c : Config.t) (limits : plugin.ResourceLimits.t)
  : plugin.ResourceLimits.t :=
  let pick (v dflt : Z) := if v =? 0 then dflt else v in
  let dl := Config.DefaultLimits c in
  let gl := Config.GlobalLimits c in
  plugin.ResourceLimits.mk
    (Z.min (pick (plugin.ResourceLimits.MaxMemoryMB limits)
                 (plugin.ResourceLimits.MaxMemoryMB dl))
           (plugin.ResourceLimits.MaxMemoryMB gl))
    (Z.min (pick (plugin.ResourceLimits.MaxExecutionMs limits)
                 (plugin.ResourceLimits.MaxExecutionMs dl))
           (plugin.ResourceLimits.MaxExecutionMs gl))
    (Z.min (pick (plugin.ResourceLimits.MaxFuel limits)
                 (plugin.ResourceLimits.MaxFuel dl))
           (plugin.ResourceLimits.MaxFuel gl)).

(** [DefaultConfig], restricted to the fields above. *)
Definition DefaultConfig : Config.t :=
  Config.mk plugin.DefaultResourceLimits
    (plugin.ResourceLimits.mk 256 1000 10000000)
    (PerformanceConfig.mk 4).

End config.

(** ** The engine manifest handed to [extism.NewPlugin] *)

Module extism.

Module ManifestMemory.
(** [MaxPages] is a [uint32] count of 64 KiB WebAssembly pages. *)
Record t := mk { MaxPages : Z }.
End ManifestMemory.

Module Manifest.
(** [Memory] is a pointer: [None] is nil, no limit requested. *)
Record t := mk { Memory : option ManifestMemory.t }.
End Manifest.

Definition page_size : Z := 65536.
Definition MiB : Z := 1048576.

(** The largest page count of a 32-bit guest: 4 GiB. *)
Definition max_pages : Z := 65536.

(** The cap on linear memory, in bytes, that the engine enforces for a
    manifest.  The engine sets a limit only for a memory section whose
    [MaxPages] is above zero: [None], no cap, when the manifest carries
    no memory section and also when it carries one with [MaxPages = 0].
    A count above [max_pages] is more than a guest can address; what the
    engine does with such a count is not part of this development, and
    what is stated below about a cap concerns counts up to
    [max_pages]. *)
Definition memory_cap_bytes (m : Manifest.t) : option Z :=
  match Manifest.Memory m with
  | Some mem =>
      if 0 <? ManifestMemory.MaxPages mem
      then Some (ManifestMemory.MaxPages mem * page_size)
      else None
  | None => None
  end.

End extism.

(** ** internal/manager: the plugin manager *)

Module manager.

Import plugin.

(** The [extismManifest] that [Manager.loadPlugin] builds:
    [MaxPages: uint32(limits.MaxMemoryMB * 16)] on the effective limits. *)
Definition loadPlugin_extismManifest (cfg : config.Config.t)
    (manifest : Manifest.t) : extism.Manifest.t :=
  let limits := config.GetEffectiveLimits cfg (Manifest.Limits manifest) in
  extism.Manifest.mk
    (Some (extism.ManifestMemory.mk
       (GoInt.wrap_uint32
          (GoInt.wrap_int (ResourceLimits.MaxMemoryMB limits * 16))))).

(** [parseEventResult] of the manager. *)
Definition parseEventResult (data : list byte) : events.EventResult.t :=
  events.EventResult.mk
    (match data with
     | b :: _ => Byte.eqb b x01
     | [] => false
     end)
    ∅
    ""%string.

(** What the handler closure of [createEventHandler] reads from its
    [LoadedPlugin]: the plugin state and the guest behind
    [Instance.Call], which maps an export name and an input to output
    bytes and an optional error. *)
Module LoadedPlugin.
Record t := mk {
  State : plugin.State;
  Call : string -> list byte -> list byte * option string
}.
End LoadedPlugin.

(** [append([]byte(eventType), 0)] followed by the payload. *)
Definition envelope (eventType : EventType) (data : list byte) : list byte :=
  (list_byte_of_string eventType ++ [x00]) ++ data.

(** [Manager.createEventHandler].  [timed_out] tells which arm of the
    [select] fires: the context deadline or the guest's answer.  The
    metrics bookkeeping of the closure is left out. *)
Definition createEventHandler (loaded : LoadedPlugin.t) (eventType : EventType)
    (timed_out : bool) : events.Handler :=
  fun data =>
    match LoadedPlugin.State loaded with
    | StateEnabled | StateLoaded =>
        if timed_out then
          (None, Some ("handler timeout for " ++ eventType)%string)
        else
          let '(output, err) :=
            LoadedPlugin.Call loaded "handle_event"%string
              (envelope eventType data) in
          match err with
          | Some e => (None, Some e)
          | None => (Some (parseEventResult output), None)
          end
    | _ => (None, None)
    end.

(** *** Dependency resolution: [Manager.sortByDependencies] *)

(** [sort.Strings] of the Go standard library: ascending order under the
    bytewise comparison of strings.  The ascending arrangement of a list of
    strings is unique, so the library's algorithm is immaterial; a merge
    sort stands for it. *)
Definition string_le (a b : string) : Prop := String.leb a b = true.

#[global] Instance string_le_dec : RelDecision string_le.
Proof. intros a b. unfold string_le. apply _. Defined.

Definition sort_Strings (l : list string) : list string :=
  merge_sort string_le l.

Inductive SortResult :=
  | Sorted (order : list (option Manifest.t))
  | MissingDependency (id dep : string)
  | CircularDependency
  | OutOfFuel.

(** [manifestMap]: later manifests overwrite earlier ones with the same id. *)
Definition manifestMap_of (manifests : list Manifest.t)
  : gmap string Manifest.t :=
  fold_left (fun mm m => <[Manifest.ID m := m]> mm) manifests ∅.

(** The two maps of the first loop.  In-degrees count slice elements and
    stay far below 2^63, so they do not wrap. *)
Module Graph.
Record t := mk {
  inDegree : gmap string Z;
  dependents : gmap string (list string)
}.
End Graph.

(** [inDegree[to]++; dependents[from] = append(dependents[from], to)] *)
Definition add_edge (from to : string) (g : Graph.t) : Graph.t :=
  Graph.mk
    (<[to := default 0 (Graph.inDegree g !! to) + 1]> (Graph.inDegree g))
    (<[from := default [] (Graph.dependents g !! from) ++ [to]]>
       (Graph.dependents g)).

(** [for _, dep := range manifest.Dependencies { ... }], with the early
    return on a missing non-optional dependency. *)
Fixpoint scan_Dependencies (mm : gmap string Manifest.t) (id : string)
    (deps : list Dependency.t) (g : Graph.t) : (string * string) + Graph.t :=
  match deps with
  | [] => inr g
  | dep :: rest =>
      let exists_ := bool_decide (is_Some (mm !! Dependency.ID dep)) in
      if negb (Dependency.Optional dep) && negb exists_ then
        inl (id, Dependency.ID dep)
      else
        scan_Dependencies mm id rest
          (if exists_ then add_edge (Dependency.ID dep) id g else g)
  end.

(** [for _, id := range manifest.LoadAfter { ... }] *)
Fixpoint scan_LoadAfter (mm : gmap string Manifest.t) (id : string)
    (after : list string) (g : Graph.t) : Graph.t :=
  match after with
  | [] => g
  | a :: rest =>
      scan_LoadAfter mm id rest
        (if bool_decide (is_Some (mm !! a)) then add_edge a id g else g)
  end.

(** The body of the first [for _, manifest := range manifests] loop. *)
Definition scan_manifest (mm : gmap string Manifest.t) (m : Manifest.t)
    (g : Graph.t) : (string * string) + Graph.t :=
  let id := Manifest.ID m in
  let g :=
    match Graph.inDegree g !! id with
    | Some _ => g
    | None => Graph.mk (<[id := 0]> (Graph.inDegree g)) (Graph.dependents g)
    end in
  match scan_Dependencies mm id (Manifest.Dependencies m) g with
  | inl e => inl e
  | inr g => inr (scan_LoadAfter mm id (Manifest.LoadAfter m) g)
  end.

Fixpoint build_graph (mm : gmap string Manifest.t) (manifests : list Manifest.t)
    (g : Graph.t) : (string * string) + Graph.t :=
  match manifests with
  | [] => inr g
  | m :: rest =>
      match scan_manifest mm m g with
      | inl e => inl e
      | inr g => build_graph mm rest g
      end
  end.

(** The initial queue: the ids of in-degree zero, in map iteration order
    (unspecified in Go), then sorted. *)
Definition initial_queue (inDegree : gmap string Z) : list string :=
  sort_Strings
    (map fst (filter (fun kv => snd kv = 0) (map_to_list inDegree))).

(** [for _, dependent := range dependents[id] { ... }] *)
Fixpoint release_dependents (deps : list string) (inDegree : gmap string Z)
    (queue : list string) : gmap string Z * list string :=
  match deps with
  | [] => (inDegree, queue)
  | dependent :: rest =>
      let deg := default 0 (inDegree !! dependent) - 1 in
      let inDegree := <[dependent := deg]> inDegree in
      if deg =? 0 then
        release_dependents rest inDegree (sort_Strings (queue ++ [dependent]))
      else
        release_dependents rest inDegree queue
  end.

(** [for len(queue) > 0 { ... }].  Every iteration appends one element to
    [result]; [fuel] bounds the number of iterations. *)
Fixpoint kahn_loop (fuel : nat) (mm : gmap string Manifest.t)
    (dependents : gmap string (list string)) (inDegree : gmap string Z)
    (queue : list string) (result : list (option Manifest.t))
  : option (list (option Manifest.t)) :=
  match queue with
  | [] => Some result
  | id :: queue =>
      match fuel with
      | O => None
      | S fuel =>
          let result := result ++ [mm !! id] in
          let '(inDegree, queue) :=
            release_dependents (default [] (dependents !! id)) inDegree queue in
          kahn_loop fuel mm dependents inDegree queue result
      end
  end.

Definition sortByDependencies (manifests : list Manifest.t) : SortResult :=
  let mm := manifestMap_of manifests in
  match build_graph mm manifests (Graph.mk ∅ ∅) with
  | inl (id, dep) => MissingDependency id dep
  | inr g =>
      match kahn_loop (length manifests) mm (Graph.dependents g)
              (Graph.inDegree g) (initial_queue (Graph.inDegree g)) [] with
      | None => OutOfFuel
      | Some result =>
          if (length result =? length manifests)%nat then Sorted result
          else CircularDependency
      end
  end.

(** *** The loader's resolver: [Loader.ResolveDependencies]

    A second resolver, depth first.  Of a [DiscoveredPlugin] only the
    manifest matters here.  [visited] and [visiting] are the sets of ids
    mapped to [true]; the recursion of [visit] is bounded by [fuel]. *)
Module VisitState.
Record t := mk {
  sorted : list Manifest.t;
  visited : gset string;
  visiting : gset string
}.
End VisitState.

Inductive ResolveResult :=
  | Resolved (sorted : list Manifest.t)
  | ResolveError (msg : string)
  | ResolveOutOfFuel.

(** The first loop: a non-optional dependency that is not discovered. *)
Fixpoint first_missing (pm : gmap string Manifest.t) (plugins : list Manifest.t)
  : option (string * string) :=
  match plugins with
  | [] => None
  | dp :: rest =>
      match
        List.find
          (fun dep => negb (bool_decide (is_Some (pm !! Dependency.ID dep)))
                      && negb (Dependency.Optional dep))
          (Manifest.Dependencies dp)
      with
      | Some dep => Some (Manifest.ID dp, Dependency.ID dep)
      | None => first_missing pm rest
      end
  end.

(** The closure [visit].  [inl] carries the error it returns. *)
Fixpoint visit (fuel : nat) (pm : gmap string Manifest.t) (id : string)
    (st : VisitState.t) : option (string + VisitState.t) :=
  match fuel with
  | O => None
  | S fuel =>
      if decide (id ∈ VisitState.visited st) then Some (inr st)
      else if decide (id ∈ VisitState.visiting st) then
        Some (inl ("circular dependency detected involving: " ++ id)%string)
      else
        match pm !! id with
        | None => Some (inr st)
        | Some dp =>
            let st :=
              VisitState.mk (VisitState.sorted st) (VisitState.visited st)
                ({[id]} ∪ VisitState.visiting st) in
            let visit_each :=
              fix go (targets : list string) (st : VisitState.t) :=
                match targets with
                | [] => Some (inr st)
                | target :: rest =>
                    match visit fuel pm target st with
                    | Some (inr st) => go rest st
                    | other => other
                    end
                end in
            match
              visit_each
                (map Dependency.ID (Manifest.Dependencies dp)
                 ++ Manifest.LoadAfter dp) st
            with
            | Some (inr st) =>
                Some (inr (VisitState.mk
                             (VisitState.sorted st ++ [dp])
                             ({[id]} ∪ VisitState.visited st)
                             (VisitState.visiting st ∖ {[id]})))
            | other => other
            end
        end
  end.

(** The last loop: [visit] on every plugin, in the order given. *)
Fixpoint visit_plugins (fuel : nat) (pm : gmap string Manifest.t)
    (plugins : list Manifest.t) (st : VisitState.t) : ResolveResult :=
  match plugins with
  | [] => Resolved (VisitState.sorted st)
  | dp :: rest =>
      match visit fuel pm (Manifest.ID dp) st with
      | None => ResolveOutOfFuel
      | Some (inl e) => ResolveError e
      | Some (inr st) => visit_plugins fuel pm rest st
      end
  end.

Definition ResolveDependencies (plugins : list Manifest.t) : ResolveResult :=
  let pluginMap := manifestMap_of plugins in
  match first_missing pluginMap plugins with
  | Some (id, dep) =>
      ResolveError
        ("plugin " ++ id ++ " requires missing dependency: " ++ dep)%string
  | None =>
      visit_plugins (S (length plugins)) pluginMap plugins
        (VisitState.mk [] ∅ ∅)
  end.

End manager.

(** ** internal/runtime: instances and the instance pool *)

Module runtime.

(** The [extism.Manifest] that [NewInstance] stores in [inst.manifest] and
    passes to [extism.NewPlugin]: only the [Wasm] field is set.  The
    effective limits are computed and then discarded ([_ = limits]). *)
Definition NewInstance_manifest (cfg : config.Config.t)
    (manifest : plugin.Manifest.t) : extism.Manifest.t :=
  let limits := config.GetEffectiveLimits cfg (plugin.Manifest.Limits manifest) in
  let _ := limits in
  extism.Manifest.mk None.

(** [parseEventResult] of the runtime package. *)
Definition parseEventResult (data : list byte) : events.EventResult.t :=
  events.EventResult.mk
    (match data with
     | b :: _ => if Byte.eqb b x01 then true else false
     | [] => false
     end)
    ∅
    ""%string.

(** *** The instance pool

    [p.instances] is a buffered channel of capacity [size]: [instances]
    is its buffer in FIFO order and [chan_closed] tells whether [close]
    was called on it.  Instances are named by numbers; [destroyed] logs
    the instances on which [Instance.Close] was called. *)
Module Pool.
Record t := mk {
  instances : list nat;
  chan_closed : bool;
  size : Z;
  created : Z;
  closed : bool;
  destroyed : list nat
}.
End Pool.

Definition Size (p : Pool.t) : Z := Pool.size p.
Definition Available (p : Pool.t) : Z := Z.of_nat (length (Pool.instances p)).

(** What a call does from the caller's side. *)
Inductive Outcome :=
  | Returned (inst : option nat) (err : option string)
  | Blocks
  | Panics.

Definition ErrPoolExhausted : string := "instance pool exhausted".
Definition ErrPoolClosed : string := "instance pool is closed".
Definition ctxErr : string := "context canceled".

(** [Pool.Close]: idempotent; closes the channel and drains it, closing
    every buffered instance. *)
Definition Close (p : Pool.t) : Pool.t * Outcome :=
  if Pool.closed p then (p, Returned None None)
  else
    (Pool.mk [] true (Pool.size p) (Pool.created p) true
       (Pool.destroyed p ++ Pool.instances p),
     Returned None None).

(** [NewPool].  [create i] is the outcome of the [i]-th call of
    [createInstance]: an instance or a failure.  [NewPool] returns the
    pool and a nil error; or, when a call of [createInstance] fails, it
    closes the pool it was filling and returns nil and the error; or it
    panics, in [make(chan *Instance, size)], when the size it settles on
    is negative. *)
Inductive NewPoolOutcome :=
  | PoolReturned (p : Pool.t)
  | PoolFailed (i : nat) (closed : Pool.t)
  | PoolPanics.

Fixpoint fill (n : nat) (i : nat) (create : nat -> option nat) (p : Pool.t)
  : NewPoolOutcome :=
  match n with
  | O => PoolReturned p
  | S n =>
      match create i with
      | None => PoolFailed i (fst (Close p))
      | Some inst =>
          fill n (S i) create
            (Pool.mk (Pool.instances p ++ [inst]) (Pool.chan_closed p)
               (Pool.size p) (Pool.created p + 1) (Pool.closed p)
               (Pool.destroyed p))
      end
  end.

Definition NewPool (cfg : config.Config.t) (size : Z)
    (create : nat -> option nat) : NewPoolOutcome :=
  let size :=
    if size <=? 0
    then config.PerformanceConfig.PoolSize (config.Config.Performance cfg)
    else size in
  if size <? 0 then PoolPanics
  else fill (Z.to_nat size) 0 create (Pool.mk [] false size 0 false []).

(** [Pool.Acquire].  [ctx_done] tells whether the context is done;
    [pick_ctx] is the runtime's choice when both the receive and
    [ctx.Done()] are ready. *)
Definition Acquire (ctx_done pick_ctx : bool) (p : Pool.t) : Pool.t * Outcome :=
  if Pool.closed p then (p, Returned None (Some ErrPoolClosed))
  else
    match Pool.instances p with
    | inst :: rest =>
        if ctx_done && pick_ctx then (p, Returned None (Some ctxErr))
        else
          (Pool.mk rest (Pool.chan_closed p) (Pool.size p) (Pool.created p)
             (Pool.closed p) (Pool.destroyed p),
           Returned (Some inst) None)
    | [] =>
        if ctx_done then (p, Returned None (Some ctxErr))
        else (p, Returned None (Some ErrPoolExhausted))
    end.

(** [Pool.AcquireWait]: as [Acquire] without the [default] arm, so it
    blocks while the buffer is empty and the context is live. *)
Definition AcquireWait (ctx_done pick_ctx : bool) (p : Pool.t)
  : Pool.t * Outcome :=
  if Pool.closed p then (p, Returned None (Some ErrPoolClosed))
  else
    match Pool.instances p with
    | inst :: rest =>
        if ctx_done && pick_ctx then (p, Returned None (Some ctxErr))
        else
          (Pool.mk rest (Pool.chan_closed p) (Pool.size p) (Pool.created p)
             (Pool.closed p) (Pool.destroyed p),
           Returned (Some inst) None)
    | [] =>
        if ctx_done then (p, Returned None (Some ctxErr))
        else (p, Blocks)
    end.

(** [Pool.Release]: on a closed pool the instance is closed; otherwise a
    non-blocking send, which succeeds when the buffer has room, and the
    [default] arm closes the instance.  A send on a closed channel
    panics. *)
Definition Release (inst : nat) (p : Pool.t) : Pool.t * Outcome :=
  let destroy :=
    Pool.mk (Pool.instances p) (Pool.chan_closed p) (Pool.size p)
      (Pool.created p) (Pool.closed p) (Pool.destroyed p ++ [inst]) in
  if Pool.closed p then (destroy, Returned None None)
  else if Pool.chan_closed p then (p, Panics)
  else if Z.of_nat (length (Pool.instances p)) <? Pool.size p then
    (Pool.mk (Pool.instances p ++ [inst]) (Pool.chan_closed p) (Pool.size p)
       (Pool.created p) (Pool.closed p) (Pool.destroyed p),
     Returned None None)
  else (destroy, Returned None None).

Inductive Op :=
  | OpAcquire (ctx_done pick_ctx : bool)
  | OpAcquireWait (ctx_done pick_ctx : bool)
  | OpRelease (inst : nat)
  | OpClose.

Definition step (p : Pool.t) (op : Op) : Pool.t * Outcome :=
  match op with
  | OpAcquire c k => Acquire c k p
  | OpAcquireWait c k => AcquireWait c k p
  | OpRelease inst => Release inst p
  | OpClose => Close p
  end.

(** A sequence of calls, one after the other. *)
Definition run (ops : list Op) (p : Pool.t) : Pool.t :=
  fold_left (fun p op => fst (step p op)) ops p.

(** What the channel and the mutex-guarded flag guarantee between
    calls. *)
Definition pool_inv (p : Pool.t) : Prop :=
  Z.of_nat (length (Pool.instances p)) <= Pool.size p ∧
  Pool.chan_closed p = Pool.closed p.

End runtime.

(** ** Library functions the file-backed store goes through *)

(** *** [path/filepath], where the separator is the slash *)
Module filepath.

(** The elements of a path: what stands between its separators. *)
Fixpoint elements (path : string) : list string :=
  match path with
  | EmptyString => [EmptyString]
  | String c rest =>
      if Ascii.eqb c "/"%char then EmptyString :: elements rest
      else
        match elements rest with
        | e :: es => String c e :: es
        | [] => [String c EmptyString]
        end
  end.

(** A cleaned path: whether it is rooted, and its elements.  The path
    ["."] is the one that is not rooted and has no element. *)
Definition Path : Type := bool * list string.

Definition is_rooted (path : string) : bool :=
  match path with
  | String c _ => Ascii.eqb c "/"%char
  | EmptyString => false
  end.

(** [Clean], by the rules of its documentation: empty elements and ["."]
    go; [".."] goes together with the element before it, unless that is
    a [".."] too; a [".."] at the front of a rooted path goes.  [stack]
    holds the elements kept so far, the last one first. *)
Definition clean_step (rooted : bool) (stack : list string) (e : string)
  : list string :=
  if String.eqb e "" || String.eqb e "." then stack
  else if String.eqb e ".." then
    match stack with
    | top :: under => if String.eqb top ".." then e :: stack else under
    | [] => if rooted then [] else [e]
    end
  else e :: stack.

Definition Clean (path : string) : Path :=
  (is_rooted path,
   rev (fold_left (clean_step (is_rooted path)) (elements path) [])).

(** [Join]: the elements from the first one that is not empty on are
    joined with separators and cleaned; [None] is the empty string,
    returned when every element is empty. *)
Fixpoint Join (elem : list string) : option Path :=
  match elem with
  | [] => None
  | e :: rest =>
      if String.eqb e "" then Join rest
      else Some (Clean (String.concat "/" elem))
  end.

(** [path] is [p] or lies below it. *)
Definition below (p path : Path) : bool :=
  bool_decide (fst path = fst p ∧ take (length (snd p)) (snd path) = snd p).


(** A name of a directory entry: one element, which [Clean] keeps. *)
Definition is_name (name : string) : bool :=
  negb (String.eqb name "") && negb (String.eqb name ".")
  && negb (String.eqb name "..")
  && forallb (fun c => negb (Ascii.eqb c "/"%char) && negb (Ascii.eqb c zero))
       (list_ascii_of_string name).

End filepath.

(** *** [encoding/json] on a [map[string][]byte]

    [Marshal] writes the keys in ascending order.  A key is written as a
    JSON string, in which every byte that is not part of a well-formed
    UTF-8 sequence is replaced by U+FFFD; a value is written in base 64.
    [Unmarshal] reads the keys and values back as written, a later entry
    replacing an earlier one with the same key.  [reread] is what
    [Unmarshal] reads from what [Marshal] wrote. *)
Module json.

Definition byte_in (lo hi : N) (c : ascii) : bool :=
  (lo <=? N_of_ascii c)%N && (N_of_ascii c <=? hi)%N.
Definition continuation (c : ascii) : bool := byte_in 128 191 c.

(** The first two bytes of a well-formed sequence of three and of four
    bytes. *)
Definition start3 (b0 b1 : ascii) : bool :=
  (byte_in 224 224 b0 && byte_in 160 191 b1)
  || (byte_in 225 236 b0 && continuation b1)
  || (byte_in 237 237 b0 && byte_in 128 159 b1)
  || (byte_in 238 239 b0 && continuation b1).
Definition start4 (b0 b1 : ascii) : bool :=
  (byte_in 240 240 b0 && byte_in 144 191 b1)
  || (byte_in 241 243 b0 && continuation b1)
  || (byte_in 244 244 b0 && byte_in 128 143 b1).

(** U+FFFD in UTF-8, followed by [rest]. *)
Definition replacement (rest : string) : string :=
  String (ascii_of_N 239) (String (ascii_of_N 191) (String (ascii_of_N 189) rest)).

(** A string as it comes back: well-formed sequences stay, every other
    byte becomes U+FFFD. *)
Fixpoint sanitize (s : string) : string :=
  match s with
  | EmptyString => EmptyString
  | String b0 r0 =>
      if (N_of_ascii b0 <? 128)%N then String b0 (sanitize r0)
      else
        match r0 with
        | String b1 r1 =>
            if byte_in 194 223 b0 && continuation b1
            then String b0 (String b1 (sanitize r1))
            else
              match r1 with
              | String b2 r2 =>
                  if start3 b0 b1 && continuation b2
                  then String b0 (String b1 (String b2 (sanitize r2)))
                  else
                    match r2 with
                    | String b3 r3 =>
                        if start4 b0 b1 && continuation b2 && continuation b3
                        then String b0 (String b1 (String b2
                               (String b3 (sanitize r3))))
                        else replacement (sanitize r0)
                    | EmptyString => replacement (sanitize r0)
                    end
              | EmptyString => replacement (sanitize r0)
              end
        | EmptyString => replacement (sanitize r0)
        end
  end.

(** A key that comes back as it is: well-formed UTF-8. *)
Definition safe (key : string) : bool := String.eqb (sanitize key) key.

Definition reread (pluginData : gmap string (list byte))
  : gmap string (list byte) :=
  fold_left
    (fun acc key => <[sanitize key := default [] (pluginData !! key)]> acc)
    (manager.sort_Strings (map fst (map_to_list pluginData))) ∅.

End json.

(** ** Storage backends *)

Module storage.

Definition Namespace := gmap string (list byte).

(** *** [MemoryStorage] *)
Module MemoryStorage.
Record t := mk { data : gmap string (gmap string (list byte)) }.
End MemoryStorage.

Definition NewMemoryStorage : MemoryStorage.t := MemoryStorage.mk ∅.

(** [Get] returns [(value, exists, nil)]; a nil slice reads as [[]]. *)
Definition lookup_entry (data : gmap string (gmap string (list byte)))
    (pluginID key : string) : list byte * bool :=
  match data !! pluginID with
  | Some pluginData =>
      match pluginData !! key with
      | Some value => (value, true)
      | None => ([], false)
      end
  | None => ([], false)
  end.

(** [s.data[pluginID][key] = value], creating the inner map when the entry
    is nil. *)
Definition store_entry (data : gmap string (gmap string (list byte)))
    (pluginID key : string) (value : list byte)
  : gmap string (gmap string (list byte)) :=
  <[pluginID := <[key := value]> (default ∅ (data !! pluginID))]> data.

(** [if pluginData, ok := s.data[pluginID]; ok { delete(pluginData, key) }] *)
Definition remove_entry (data : gmap string (gmap string (list byte)))
    (pluginID key : string) : gmap string (gmap string (list byte)) :=
  match data !! pluginID with
  | Some pluginData => <[pluginID := delete key pluginData]> data
  | None => data
  end.

Module Mem.
Definition Get (s : MemoryStorage.t) (pluginID key : string)
  : list byte * bool * option string :=
  (lookup_entry (MemoryStorage.data s) pluginID key, None).
Definition Set_ (s : MemoryStorage.t) (pluginID key : string)
    (value : list byte) : MemoryStorage.t * option string :=
  (MemoryStorage.mk (store_entry (MemoryStorage.data s) pluginID key value),
   None).
Definition Delete (s : MemoryStorage.t) (pluginID key : string)
  : MemoryStorage.t * option string :=
  (MemoryStorage.mk (remove_entry (MemoryStorage.data s) pluginID key), None).
Definition Clear (s : MemoryStorage.t) (pluginID : string)
  : MemoryStorage.t * option string :=
  (MemoryStorage.mk (delete pluginID (MemoryStorage.data s)), None).
End Mem.

(** *** [FileStorage]

    [disk] stands for the files of the machine that hold JSON: it maps
    the cleaned path of a file to what [json.Unmarshal] reads from it.
    Paths that differ name different files: the file system tells names
    apart byte by byte and has no links, and a path that is not rooted
    is not led out of the working directory and back.  File operations
    can fail: [io_ok] is the outcome the operating system gives to the
    call at hand.  A call that fails is one that fails before it changes
    a file, as for a missing permission; a write that breaks off half-way
    is not covered. *)
Module FileStorage.
Record t := mk {
  basePath : string;
  data : gmap string (gmap string (list byte));
  disk : gmap filepath.Path (gmap string (list byte))
}.
End FileStorage.

(** [FileStorage.persist].  [os.MkdirAll] fails on the empty path; the
    file written is [filepath.Join(pluginPath, "data.json")], which for
    a [pluginPath] that is not empty is the join of the three
    elements. *)
Definition persist (s : FileStorage.t) (pluginID : string) (io_ok : bool)
  : FileStorage.t * option string :=
  match filepath.Join [FileStorage.basePath s; pluginID],
        filepath.Join [FileStorage.basePath s; pluginID; "data.json"%string]
  with
  | Some pluginPath, Some file =>
      if io_ok then
        (FileStorage.mk (FileStorage.basePath s) (FileStorage.data s)
           (<[file := json.reread
                        (default ∅ (FileStorage.data s !! pluginID))]>
              (FileStorage.disk s)),
         None)
      else (s, Some "write data.json"%string)
  | _, _ => (s, Some "mkdir: no such file or directory"%string)
  end.

(** [os.RemoveAll]: nothing to do for the empty path, refused for ["."],
    and otherwise every file at or below the path goes. *)
Definition RemoveAll (path : option filepath.Path) (io_ok : bool)
    (disk : gmap filepath.Path (gmap string (list byte)))
  : gmap filepath.Path (gmap string (list byte)) * option string :=
  match path with
  | None => (disk, None)
  | Some path =>
      if bool_decide (path = (false, []))
      then (disk, Some "RemoveAll: invalid argument"%string)
      else if io_ok then
        (filter (fun kv => filepath.below path (fst kv) = false) disk, None)
      else (disk, Some "remove directory"%string)
  end.

Module File.
Definition Get (s : FileStorage.t) (pluginID key : string)
  : list byte * bool * option string :=
  (lookup_entry (FileStorage.data s) pluginID key, None).
Definition Set_ (s : FileStorage.t) (pluginID key : string)
    (value : list byte) (io_ok : bool) : FileStorage.t * option string :=
  persist
    (FileStorage.mk (FileStorage.basePath s)
       (store_entry (FileStorage.data s) pluginID key value)
       (FileStorage.disk s))
    pluginID io_ok.
Definition Delete (s : FileStorage.t) (pluginID key : string) (io_ok : bool)
  : FileStorage.t * option string :=
  match FileStorage.data s !! pluginID with
  | Some pluginData =>
      persist
        (FileStorage.mk (FileStorage.basePath s)
           (<[pluginID := delete key pluginData]> (FileStorage.data s))
           (FileStorage.disk s))
        pluginID io_ok
  | None => (s, None)
  end.
Definition Clear (s : FileStorage.t) (pluginID : string) (io_ok : bool)
  : FileStorage.t * option string :=
  let '(disk, err) :=
    RemoveAll (filepath.Join [FileStorage.basePath s; pluginID]) io_ok
      (FileStorage.disk s) in
  (FileStorage.mk (FileStorage.basePath s)
     (delete pluginID (FileStorage.data s)) disk,
   err).
End File.

End storage.

(** ** Notions used to state what the resolver returns *)

Module resolver.

Import plugin.

Definition ids (ms : list Manifest.t) : list string := map Manifest.ID ms.

(** [must_precede ms b a]: some manifest with id [a] names [b] among its
    dependencies or in [load_after], and [b] is the id of a manifest of
    [ms].  These are the edges the first loop of [sortByDependencies]
    records (an optional dependency that is present counts too). *)
Definition must_precede (ms : list Manifest.t) (b a : string) : Prop :=
  b ∈ ids ms ∧
  ∃ m, m ∈ ms ∧ Manifest.ID m = a ∧
       (b ∈ map Dependency.ID (Manifest.Dependencies m) ∨
        b ∈ Manifest.LoadAfter m).

(** No id reaches itself along one or more edges. *)
Definition acyclic (ms : list Manifest.t) : Prop :=
  ∀ x, ¬ tc (must_precede ms) x x.

(** Every non-optional dependency names a manifest of [ms]. *)
Definition no_missing (ms : list Manifest.t) : Prop :=
  ∀ m dep, m ∈ ms → dep ∈ Manifest.Dependencies m →
           Dependency.Optional dep = false → Dependency.ID dep ∈ ids ms.

(** The edges in the order the first loop records them, as pairs
    (earlier, later). *)
Definition edges_of (mm : gmap string Manifest.t) (m : Manifest.t)
  : list (string * string) :=
  map (fun d => (Dependency.ID d, Manifest.ID m))
    (filter (fun d => is_Some (mm !! Dependency.ID d)) (Manifest.Dependencies m))
  ++ map (fun a => (a, Manifest.ID m))
       (filter (fun a => is_Some (mm !! a)) (Manifest.LoadAfter m)).

Definition all_edges (mm : gmap string Manifest.t) (ms : list Manifest.t)
  : list (string * string) :=
  flat_map (edges_of mm) ms.

(** Occurrences of [v] in [l]. *)
Definition occ (v : string) (l : list string) : nat :=
  length (filter (fun y => y = v) l).

(** The targets of the edges that leave [u], in recording order. *)
Definition succs (E : list (string * string)) (u : string) : list string :=
  map snd (filter (fun e => fst e = u) E).

(** The edges into [v] whose source is not yet in [done]. *)
Definition pending (E : list (string * string)) (done : list string) (v : string)
  : nat :=
  length (filter (fun e => snd e = v ∧ fst e ∉ done) E).

(** The two maps hold the graph with edges [E] over the ids [nodes]. *)
Definition represents (g : manager.Graph.t) (E : list (string * string))
    (nodes : list string) : Prop :=
  (∀ v, manager.Graph.inDegree g !! v =
        if decide (v ∈ nodes) then Some (Z.of_nat (pending E [] v)) else None) ∧
  (∀ u, default [] (manager.Graph.dependents g !! u) = succs E u) ∧
  (∀ u v, (u, v) ∈ E → v ∈ nodes).

(** Position [i] of [order] respects the edges, and holds the least id
    among those that could stand there. *)
Definition respects_edges (ms : list Manifest.t) (order : list string) : Prop :=
  ∀ i a b, order !! i = Some a → must_precede ms b a → b ∈ take i order.

Definition least_ready_first (ms : list Manifest.t) (order : list string)
  : Prop :=
  ∀ i x y, order !! i = Some x → y ∈ ids ms → y ∉ take i order →
           (∀ b, must_precede ms b y → b ∈ take i order) →
           manager.string_le x y.

End resolver.

(** ** Auxiliary notions used in the statements *)

Module scenarios.

Import events.

(** A dispatch in the words of the specification.  The subscriptions of
    the event are gone through in their order with the flag
    [cancelled_so_far], which starts out false.  A handler is skipped
    when the flag is set and its [ignore_cancelled] is true; otherwise it
    is invoked with the payload.  An invoked handler that returns,
    without an error, a result that is cancelled sets the flag.
    [invocations] lists the invoked handlers in the order they are
    invoked: the position of each in the subscription list and what it
    returned. *)
Definition Answer := (option EventResult.t * option string)%type.

Definition cancels (answer : Answer) : bool :=
  match answer with
  | (Some hr, None) => EventResult.Cancelled hr
  | _ => false
  end.

Fixpoint invocations (payload : list byte) (cancelled_so_far : bool)
    (i : nat) (subs : list Subscription.t) : list (nat * Answer) :=
  match subs with
  | [] => []
  | H :: rest =>
      if cancelled_so_far && Subscription.IgnoreCancelled H
      then invocations payload cancelled_so_far (S i) rest
      else
        let answer := Subscription.Handler H payload in
        (i, answer)
          :: invocations payload (cancelled_so_far || cancels answer) (S i)
               rest
  end.

(** The flag at the moment the subscription at position [i] is
    considered: one of the handlers invoked before it cancelled. *)
Definition cancelled_so_far (payload : list byte)
    (subs : list Subscription.t) (i : nat) : bool :=
  existsb (fun x => cancels (snd x)) (invocations payload false 0 (take i subs)).

(** The errors among the answers, in order. *)
Definition returned_errors (answers : list Answer) : list string :=
  omap snd answers.

(** The value merged under key [k], if any. *)
Definition modification (r : DispatchResult.t) (k : string) : option string :=
  match DispatchResult.Modifications r with
  | Some m => m !! k
  | None => None
  end.

(** What a subscription's handler contributes to the merge: the
    modifications of its result when it returns one without error. *)
Definition returned_modifications (serialized : list byte)
    (sub : Subscription.t) : gmap string string :=
  match Subscription.Handler sub serialized with
  | (Some hr, None) => EventResult.Modifications hr
  | _ => ∅
  end.

(** The merge as the specification words it: the handlers that ran, taken
    in the order they ran, each one overwriting the keys set before it. *)
Definition merge_in_order (serialized : list byte)
    (subs : list Subscription.t) (calls : list nat) : gmap string string :=
  fold_left
    (fun acc i =>
       match subs !! i with
       | Some sub => returned_modifications serialized sub ∪ acc
       | None => acc
       end)
    calls ∅.

(** A handler that answers with a fixed result and no error. *)
Definition answers (cancelled : bool) (mods : gmap string string) : Handler :=
  fun _ => (Some (EventResult.mk cancelled mods ""%string), None).

(** Two subscriptions on [player_chat], made in this order. *)
Definition two_handlers (h1 h2 : Subscription.t) : Dispatcher.t :=
  Subscribe (Subscribe NewDispatcher plugin.EventPlayerChat h1)
    plugin.EventPlayerChat h2.

(** S4: [H1] at priority 0 cancels; [H2] at priority 100 with
    [ignore_cancelled = false]. *)
Definition S4_H1 : Subscription.t :=
  Subscription.mk "plugin.one" 0 (answers true ∅) false.
Definition S4_H2 : Subscription.t :=
  Subscription.mk "plugin.two" 100 (answers false ∅) false.

(** S6 at the dispatcher: the handlers hand over their modifications. *)
Definition S6_H1 : Subscription.t :=
  Subscription.mk "plugin.one" 0
    (answers false {["message"%string := "hello"%string]}) false.
Definition S6_H2 : Subscription.t :=
  Subscription.mk "plugin.two" 100
    (answers false {["message"%string := "world"%string]}) false.

(** S6 through the manager: two enabled guests whose [handle_event]
    answers with the byte 0 followed by the JSON object that maps
    [message] to the given word. *)
Definition dquote : string := String (ascii_of_nat 34) EmptyString.
Definition json_message (word : string) : string :=
  ("{" ++ dquote ++ "message" ++ dquote ++ ":" ++ dquote ++ word ++ dquote
   ++ "}")%string.
Definition guest_output (word : string) : list byte :=
  x00 :: list_byte_of_string (json_message word).
Definition guest (word : string) : manager.LoadedPlugin.t :=
  manager.LoadedPlugin.mk plugin.StateEnabled
    (fun _ _ => (guest_output word, None)).
Definition S6_G1 : Subscription.t :=
  Subscription.mk "plugin.one" 0
    (manager.createEventHandler (guest "hello") plugin.EventPlayerChat false)
    false.
Definition S6_G2 : Subscription.t :=
  Subscription.mk "plugin.two" 100
    (manager.createEventHandler (guest "world") plugin.EventPlayerChat false)
    false.

(** Two subscriptions whose priorities are far apart. *)
Definition far_low : Subscription.t :=
  Subscription.mk "plugin.low" GoInt.MinInt (answers false ∅) false.
Definition near_one : Subscription.t :=
  Subscription.mk "plugin.one" 1 (answers false ∅) false.

(** A manifest that asks for 64 MB. *)
Definition manifest_64 : plugin.Manifest.t :=
  plugin.Manifest.mk "a.one" [] (plugin.ResourceLimits.mk 64 0 0) [].

(** S1: [a.one] depends on [a.two]; [a.three] loads after [a.one]. *)
Definition a_one : plugin.Manifest.t :=
  plugin.Manifest.mk "a.one" [plugin.Dependency.mk "a.two" false]
    (plugin.ResourceLimits.mk 0 0 0) [].
Definition a_two : plugin.Manifest.t :=
  plugin.Manifest.mk "a.two" [] (plugin.ResourceLimits.mk 0 0 0) [].
Definition a_three : plugin.Manifest.t :=
  plugin.Manifest.mk "a.three" [] (plugin.ResourceLimits.mk 0 0 0) ["a.one"%string].

(** S2: [p.x] depends optionally on [p.y], which is absent.
    S3: [p.a] and [p.b] depend on each other. *)
Definition p_x : plugin.Manifest.t :=
  plugin.Manifest.mk "p.x" [plugin.Dependency.mk "p.y" true]
    (plugin.ResourceLimits.mk 0 0 0) [].
Definition p_a : plugin.Manifest.t :=
  plugin.Manifest.mk "p.a" [plugin.Dependency.mk "p.b" false]
    (plugin.ResourceLimits.mk 0 0 0) [].
Definition p_b : plugin.Manifest.t :=
  plugin.Manifest.mk "p.b" [plugin.Dependency.mk "p.a" false]
    (plugin.ResourceLimits.mk 0 0 0) [].

End scenarios.

(** * The rest of the code *)

(** ** pkg/events: the other operations of the dispatcher *)

Module dispatcher.

Import events.

(** [slices.DeleteFunc]: drops the elements [del] holds for and keeps the
    others in their order. *)
Definition DeleteFunc {A : Type} (s : list A) (del : A -> bool) : list A :=
  List.filter (fun x => negb (del x)) s.

(** The predicate of both unsubscribe functions:
    [s.PluginID == pluginID]. *)
Definition owned_by (pluginID : string) (s : Subscription.t) : bool :=
  String.eqb (Subscription.PluginID s) pluginID.

(** [Dispatcher.Unsubscribe]: every entry of the map is rewritten. *)
Definition Unsubscribe (d : Dispatcher.t) (pluginID : string) : Dispatcher.t :=
  Dispatcher.mk
    ((fun subs => DeleteFunc subs (owned_by pluginID))
       <$> Dispatcher.subscriptions d)
    (Dispatcher.eventCount d)
    (Dispatcher.cancelCount d)
    (Dispatcher.dispatchTimes d).

(** [Dispatcher.UnsubscribeEvent]: the entry of [event] is written, also
    when it was missing. *)
Definition UnsubscribeEvent (d : Dispatcher.t) (pluginID : string)
    (event : plugin.EventType) : Dispatcher.t :=
  Dispatcher.mk
    (<[event := DeleteFunc (subs_of d event) (owned_by pluginID)]>
       (Dispatcher.subscriptions d))
    (Dispatcher.eventCount d)
    (Dispatcher.cancelCount d)
    (Dispatcher.dispatchTimes d).

Definition HasSubscribers (d : Dispatcher.t) (event : plugin.EventType) : bool :=
  (0 <? length (subs_of d event))%nat.

Definition SubscriberCount (d : Dispatcher.t) (event : plugin.EventType) : Z :=
  Z.of_nat (length (subs_of d event)).

Module EventMetrics.
Record t := mk {
  EventType : plugin.EventType;
  TotalCount : Z;
  CancelCount : Z;
  TotalDuration : Z
}.
End EventMetrics.

(** [Dispatcher.GetMetrics]: one record per key of [eventCount], in map
    iteration order (unspecified in Go). *)
Definition GetMetrics (d : Dispatcher.t) : list EventMetrics.t :=
  map
    (fun kv =>
       EventMetrics.mk (fst kv) (snd kv)
         (default 0 (Dispatcher.cancelCount d !! fst kv))
         (default 0 (Dispatcher.dispatchTimes d !! fst kv)))
    (map_to_list (Dispatcher.eventCount d)).

(** [Dispatcher.ResetMetrics]: [clear] on the three metric maps. *)
Definition ResetMetrics (d : Dispatcher.t) : Dispatcher.t :=
  Dispatcher.mk (Dispatcher.subscriptions d) ∅ ∅ ∅.

(** The calls a client can make, and a sequence of them. *)
Inductive Op :=
  | OpSubscribe (event : plugin.EventType) (sub : Subscription.t)
  | OpUnsubscribe (pluginID : string)
  | OpUnsubscribeEvent (pluginID : string) (event : plugin.EventType)
  | OpDispatch (event : plugin.EventType) (serialized : list byte) (elapsed : Z)
  | OpResetMetrics.

Definition step (d : Dispatcher.t) (op : Op) : Dispatcher.t :=
  match op with
  | OpSubscribe event sub => Subscribe d event sub
  | OpUnsubscribe pluginID => Unsubscribe d pluginID
  | OpUnsubscribeEvent pluginID event => UnsubscribeEvent d pluginID event
  | OpDispatch event serialized elapsed =>
      DispatchOutcome.dispatcher (Dispatch d event serialized elapsed)
  | OpResetMetrics => ResetMetrics d
  end.

Definition run (ops : list Op) (d : Dispatcher.t) : Dispatcher.t :=
  fold_left step ops d.

(** What the handler of a subscription reports on the serialized event:
    its error, and whether it cancels (a result without error whose
    [Cancelled] is set). *)
Definition handler_error (serialized : list byte) (sub : Subscription.t)
  : option string :=
  snd (Subscription.Handler sub serialized).

Definition cancels (serialized : list byte) (sub : Subscription.t) : bool :=
  match Subscription.Handler sub serialized with
  | (Some hr, None) => EventResult.Cancelled hr
  | _ => false
  end.

(** The errors of the handlers called, in call order. *)
Definition errors_of (serialized : list byte) (subs : list Subscription.t)
    (calls : list nat) : list string :=
  flat_map
    (fun i =>
       match subs !! i with
       | Some sub =>
           match handler_error serialized sub with
           | Some e => [e]
           | None => []
           end
       | None => []
       end)
    calls.

(** The subscription's handler is a closure made by
    [Manager.createEventHandler]. *)
Definition from_manager (sub : Subscription.t) : Prop :=
  exists loaded eventType timed_out,
    Subscription.Handler sub
    = manager.createEventHandler loaded eventType timed_out.

(** Every event with a cancel count or a duration has an event count. *)
Definition metric_keys_closed (d : Dispatcher.t) : Prop :=
  forall e, is_Some (Dispatcher.cancelCount d !! e) \/
            is_Some (Dispatcher.dispatchTimes d !! e) ->
            is_Some (Dispatcher.eventCount d !! e).

End dispatcher.

(** ** internal/handler: the caller of [Dispatch] *)

Module handler.

Import events.

(** [PlayerHandler.dispatchEvent].  [jsonData] is what [json.Marshal]
    makes of the event data, [None] when it fails.  Returns the pair
    (cancelled, modifications) and the dispatcher afterwards. *)
Definition dispatchEvent (d : Dispatcher.t) (eventType : plugin.EventType)
    (jsonData : option (list byte)) (elapsed : Z)
  : (bool * option (gmap string string)) * Dispatcher.t :=
  if negb (dispatcher.HasSubscribers d eventType) then ((false, None), d)
  else
    match jsonData with
    | None => ((false, None), d)
    | Some data =>
        let out := Dispatch d eventType data elapsed in
        ((DispatchResult.Cancelled (DispatchOutcome.result out),
          DispatchResult.Modifications (DispatchOutcome.result out)),
         DispatchOutcome.dispatcher out)
    end.

(** [PlayerHandler.HandleChat]: whether [ctx.Cancel()] is called, the
    message afterwards, and the dispatcher afterwards. *)
Definition HandleChat (d : Dispatcher.t) (message : string)
    (jsonData : option (list byte)) (elapsed : Z)
  : bool * string * Dispatcher.t :=
  let '((cancelled, mods), d') :=
    dispatchEvent d plugin.EventPlayerChat jsonData elapsed in
  (cancelled,
   match mods with
   | Some m => default message (m !! "message"%string)
   | None => message
   end,
   d').

End handler.

(** ** pkg/plugin: versions *)

Module version.

Module Version.
Record t := mk { Major : Z; Minor : Z; Patch : Z }.
End Version.

(** [cmp.Compare] on two Go [int]s. *)
Definition cmp_Compare (x y : Z) : Z :=
  if x <? y then -1 else if y <? x then 1 else 0.

(** [Version.Compare] *)
Definition Compare (v other : Version.t) : Z :=
  let c := cmp_Compare (Version.Major v) (Version.Major other) in
  if negb (c =? 0) then c
  else
    let c := cmp_Compare (Version.Minor v) (Version.Minor other) in
    if negb (c =? 0) then c
    else cmp_Compare (Version.Patch v) (Version.Patch other).

End version.

(** ** Regular expressions

    [regexp.MatchString] on a pattern anchored with [^] and [$] decides
    whether the whole text belongs to the language of the pattern.  The
    patterns of this code base use literal characters, character classes,
    concatenation, [*] and [+] only; all their classes hold ASCII
    characters, so matching byte by byte agrees with matching rune by
    rune. *)

Module regex.

Inductive re :=
  | Void
  | Eps
  | Class (p : ascii -> bool)
  | Cat (r s : re)
  | Alt (r s : re)
  | Star (r : re).

(** [r+] *)
Definition Plus (r : re) : re := Cat r (Star r).

(** The language of a pattern. *)
Inductive matches : re -> list ascii -> Prop :=
  | MEps : matches Eps []
  | MClass p c : p c = true -> matches (Class p) [c]
  | MCat r s u v : matches r u -> matches s v -> matches (Cat r s) (u ++ v)
  | MAltL r s u : matches r u -> matches (Alt r s) u
  | MAltR r s u : matches s u -> matches (Alt r s) u
  | MStarNil r : matches (Star r) []
  | MStarApp r u v :
      matches r u -> matches (Star r) v -> matches (Star r) (u ++ v).

(** The matcher: Brzozowski derivatives. *)
Fixpoint nullable (r : re) : bool :=
  match r with
  | Void => false
  | Eps => true
  | Class _ => false
  | Cat r s => nullable r && nullable s
  | Alt r s => nullable r || nullable s
  | Star _ => true
  end.

Fixpoint deriv (c : ascii) (r : re) : re :=
  match r with
  | Void => Void
  | Eps => Void
  | Class p => if p c then Eps else Void
  | Cat r s =>
      if nullable r then Alt (Cat (deriv c r) s) (deriv c s)
      else Cat (deriv c r) s
  | Alt r s => Alt (deriv c r) (deriv c s)
  | Star r => Cat (deriv c r) (Star r)
  end.

Fixpoint matchb (r : re) (text : list ascii) : bool :=
  match text with
  | [] => nullable r
  | c :: rest => matchb (deriv c r) rest
  end.

Definition MatchString (r : re) (s : string) : bool :=
  matchb r (list_ascii_of_string s).

(** The classes [[a-z]], [[a-z0-9_]] and the literal dot. *)
Definition between (lo hi : nat) (c : ascii) : bool :=
  (lo <=? nat_of_ascii c)%nat && (nat_of_ascii c <=? hi)%nat.
Definition lower (c : ascii) : bool := between 97 122 c.
Definition digit (c : ascii) : bool := between 48 57 c.
Definition word (c : ascii) : bool :=
  lower c || digit c || Ascii.eqb c "_"%char.
Definition dot (c : ascii) : bool := Ascii.eqb c "."%char.

End regex.

(** ** pkg/plugin: the manifest and its checks *)

Module manifest.

Module EventSubscription.
Record t := mk {
  Event : plugin.EventType;
  Priority : plugin.Priority;
  IgnoreCancelled : bool
}.
End EventSubscription.

(** The fields of [Manifest] that [Validate], [SubscribedTo],
    [GetEventPriority] and the manager's registration read. *)
Module Manifest.
Record t := mk {
  ID : string;
  Name : string;
  EntryPoint : string;
  Events : list EventSubscription.t
}.
End Manifest.

(** [pluginIDRegex].  The pattern of the source is, between [^] and [$],
    a segment (a character of a-z, then characters of a-z, 0-9 and
    underscore, any number of them) followed by a group under [+]: an
    escaped dot and a segment. *)
Definition segment_re : regex.re :=
  regex.Cat (regex.Class regex.lower) (regex.Star (regex.Class regex.word)).
Definition pluginIDRegex : regex.re :=
  regex.Cat segment_re
    (regex.Plus (regex.Cat (regex.Class regex.dot) segment_re)).

Inductive ValidateError :=
  | ErrIDRequired
  | ErrInvalidID (id : string)
  | ErrNameRequired
  | ErrEntryPointRequired.

(** [Manifest.Validate]: the first failing check is the error returned. *)
Definition Validate (m : Manifest.t) : option ValidateError :=
  if String.eqb (Manifest.ID m) "" then Some ErrIDRequired
  else if negb (regex.MatchString pluginIDRegex (Manifest.ID m)) then
    Some (ErrInvalidID (Manifest.ID m))
  else if String.eqb (Manifest.Name m) "" then Some ErrNameRequired
  else if String.eqb (Manifest.EntryPoint m) "" then Some ErrEntryPointRequired
  else None.

(** [Manifest.SubscribedTo] *)
Fixpoint subscribed (events : list EventSubscription.t)
    (event : plugin.EventType) : bool :=
  match events with
  | [] => false
  | e :: rest =>
      if String.eqb (EventSubscription.Event e) event then true
      else subscribed rest event
  end.
Definition SubscribedTo (m : Manifest.t) (event : plugin.EventType) : bool :=
  subscribed (Manifest.Events m) event.

(** [Manifest.GetEventPriority] *)
Fixpoint priority_of (events : list EventSubscription.t)
    (event : plugin.EventType) : plugin.Priority :=
  match events with
  | [] => plugin.PriorityNormal
  | e :: rest =>
      if String.eqb (EventSubscription.Event e) event
      then EventSubscription.Priority e
      else priority_of rest event
  end.
Definition GetEventPriority (m : Manifest.t) (event : plugin.EventType)
  : plugin.Priority :=
  priority_of (Manifest.Events m) event.

(** A segment of a plugin id: a lower-case letter followed by lower-case
    letters, digits and underscores.  A well-formed id is a segment
    followed by one or more segments, each behind a dot. *)
Definition segment (seg : list ascii) : Prop :=
  exists c rest, seg = c :: rest /\ regex.lower c = true /\
                 Forall (fun x => regex.word x = true) rest.

Definition well_formed_id (id : list ascii) : Prop :=
  exists first more,
    more <> [] /\ segment first /\ Forall segment more /\
    id = first ++ concat (map (fun seg => "."%char :: seg) more).

End manifest.

(** ** pkg/config: which plugins are enabled *)

Module enablement.

(** [slices.Contains] on strings. *)
Definition Contains (l : list string) (x : string) : bool :=
  existsb (String.eqb x) l.

(** [Config.IsPluginEnabled], reading [c.EnabledPlugins] and
    [c.DisabledPlugins]. *)
Definition IsPluginEnabled (EnabledPlugins DisabledPlugins : list string)
    (id : string) : bool :=
  if Contains DisabledPlugins id then false
  else if (length EnabledPlugins =? 0)%nat then true
  else Contains EnabledPlugins id.

End enablement.

(** ** pkg/plugin: per-plugin metrics *)

Module metrics.

Module Metrics.
Record t := mk {
  TotalCalls : Z;
  TotalExecutionTime : Z;
  AverageExecutionTime : Z;
  MaxExecutionTime : Z;
  LastExecutionTime : Z;
  MemoryUsageBytes : Z;
  PeakMemoryBytes : Z;
  EventsHandled : gmap plugin.EventType Z;
  EventsCancelled : gmap plugin.EventType Z;
  ErrorCount : Z;
  LastError : string;
  LastErrorTime : Z
}.
End Metrics.

Definition NewMetrics : Metrics.t := Metrics.mk 0 0 0 0 0 0 0 ∅ ∅ 0 "" 0.

(** [Metrics.RecordCall].  [time.Duration(m.TotalCalls)] converts the
    [uint64] counter to [int64]; the division truncates toward zero and
    panics on a zero divisor, which is [None] here. *)
Definition RecordCall (m : Metrics.t) (duration : Z) : option Metrics.t :=
  let calls := GoInt.wrap_uint64 (Metrics.TotalCalls m + 1) in
  let total := GoInt.wrap_int (Metrics.TotalExecutionTime m + duration) in
  let longest :=
    if Metrics.MaxExecutionTime m <? duration then duration
    else Metrics.MaxExecutionTime m in
  let divisor := GoInt.wrap_int calls in
  if divisor =? 0 then None
  else
    Some (Metrics.mk calls total (GoInt.wrap_int (Z.quot total divisor))
            longest duration
            (Metrics.MemoryUsageBytes m) (Metrics.PeakMemoryBytes m)
            (Metrics.EventsHandled m) (Metrics.EventsCancelled m)
            (Metrics.ErrorCount m) (Metrics.LastError m)
            (Metrics.LastErrorTime m)).

(** [Metrics.RecordEvent] *)
Definition RecordEvent (m : Metrics.t) (event : plugin.EventType)
    (cancelled : bool) : Metrics.t :=
  Metrics.mk (Metrics.TotalCalls m) (Metrics.TotalExecutionTime m)
    (Metrics.AverageExecutionTime m) (Metrics.MaxExecutionTime m)
    (Metrics.LastExecutionTime m)
    (Metrics.MemoryUsageBytes m) (Metrics.PeakMemoryBytes m)
    (events.bump_uint64 event (Metrics.EventsHandled m))
    (if cancelled then events.bump_uint64 event (Metrics.EventsCancelled m)
     else Metrics.EventsCancelled m)
    (Metrics.ErrorCount m) (Metrics.LastError m) (Metrics.LastErrorTime m).

(** [Metrics.RecordError]; [err] is [err.Error()] and [now] the clock. *)
Definition RecordError (m : Metrics.t) (err : string) (now : Z) : Metrics.t :=
  Metrics.mk (Metrics.TotalCalls m) (Metrics.TotalExecutionTime m)
    (Metrics.AverageExecutionTime m) (Metrics.MaxExecutionTime m)
    (Metrics.LastExecutionTime m)
    (Metrics.MemoryUsageBytes m) (Metrics.PeakMemoryBytes m)
    (Metrics.EventsHandled m) (Metrics.EventsCancelled m)
    (GoInt.wrap_uint64 (Metrics.ErrorCount m + 1)) err now.

(** [Metrics.RecordError] on a nil error: the counter is incremented,
    then [err.Error()] panics.  This is what the metrics hold when the
    panic is raised. *)
Definition RecordError_nil (m : Metrics.t) : Metrics.t :=
  Metrics.mk (Metrics.TotalCalls m) (Metrics.TotalExecutionTime m)
    (Metrics.AverageExecutionTime m) (Metrics.MaxExecutionTime m)
    (Metrics.LastExecutionTime m)
    (Metrics.MemoryUsageBytes m) (Metrics.PeakMemoryBytes m)
    (Metrics.EventsHandled m) (Metrics.EventsCancelled m)
    (GoInt.wrap_uint64 (Metrics.ErrorCount m + 1))
    (Metrics.LastError m) (Metrics.LastErrorTime m).

(** [Metrics.RecordMemory] *)
Definition RecordMemory (m : Metrics.t) (bytes : Z) : Metrics.t :=
  Metrics.mk (Metrics.TotalCalls m) (Metrics.TotalExecutionTime m)
    (Metrics.AverageExecutionTime m) (Metrics.MaxExecutionTime m)
    (Metrics.LastExecutionTime m)
    bytes
    (if Metrics.PeakMemoryBytes m <? bytes then bytes
     else Metrics.PeakMemoryBytes m)
    (Metrics.EventsHandled m) (Metrics.EventsCancelled m)
    (Metrics.ErrorCount m) (Metrics.LastError m) (Metrics.LastErrorTime m).

(** A sequence of recordings on one [Metrics] value. *)
Inductive Op :=
  | OpRecordCall (duration : Z)
  | OpRecordEvent (event : plugin.EventType) (cancelled : bool)
  | OpRecordError (err : string) (now : Z)
  | OpRecordMemory (bytes : Z).

Definition step (m : Metrics.t) (op : Op) : option Metrics.t :=
  match op with
  | OpRecordCall d => RecordCall m d
  | OpRecordEvent e c => Some (RecordEvent m e c)
  | OpRecordError e now => Some (RecordError m e now)
  | OpRecordMemory b => Some (RecordMemory m b)
  end.

Fixpoint run (ops : list Op) (m : Metrics.t) : option Metrics.t :=
  match ops with
  | [] => Some m
  | op :: rest =>
      match step m op with
      | Some m => run rest m
      | None => None
      end
  end.

(** What a sequence of recordings holds: the durations of the calls, the
    sizes given to [RecordMemory], and how often an event was recorded,
    cancelled or not. *)
Definition durations (ops : list Op) : list Z :=
  flat_map (fun op => match op with OpRecordCall d => [d] | _ => [] end) ops.
Definition sizes (ops : list Op) : list Z :=
  flat_map (fun op => match op with OpRecordMemory b => [b] | _ => [] end) ops.
Definition recorded (event : plugin.EventType) (only_cancelled : bool)
    (ops : list Op) : Z :=
  Z.of_nat (length (List.filter
    (fun op => match op with
               | OpRecordEvent e c =>
                   String.eqb e event && (negb only_cancelled || c)
               | _ => false
               end) ops)).
Definition sum (l : list Z) : Z := fold_right Z.add 0 l.
Definition maximum (l : list Z) : Z := fold_right Z.max 0 l.

(** What the handler closure of [Manager.createEventHandler] records on
    the metrics of its plugin on one call; [ctx_err] is [ctx.Err()] of
    the context with the deadline, [elapsed] is [time.Since(start)] and
    [now] the clock.  The returned value of the closure is
    [manager.createEventHandler]. *)
Definition createEventHandler_metrics (loaded : manager.LoadedPlugin.t)
    (eventType : plugin.EventType) (timed_out : bool) (ctx_err : string)
    (data : list byte) (elapsed now : Z) (m : Metrics.t) : option Metrics.t :=
  match manager.LoadedPlugin.State loaded with
  | plugin.StateEnabled | plugin.StateLoaded =>
      if timed_out then Some (RecordError m ctx_err now)
      else
        let '(output, err) :=
          manager.LoadedPlugin.Call loaded "handle_event"%string
            (manager.envelope eventType data) in
        match RecordCall m elapsed with
        | None => None
        | Some m =>
            match err with
            | Some e => Some (RecordError m e now)
            | None =>
                Some (RecordEvent m eventType
                        (events.EventResult.Cancelled
                           (manager.parseEventResult output)))
            end
        end
  | _ => Some m
  end.

(** One call of a handler closure of the plugin. *)
Module Invocation.
Record t := mk {
  loaded : manager.LoadedPlugin.t;
  eventType : plugin.EventType;
  timed_out : bool;
  ctx_err : string;
  data : list byte;
  elapsed : Z;
  now : Z
}.
End Invocation.

Definition returned (inv : Invocation.t)
  : option events.EventResult.t * option string :=
  manager.createEventHandler (Invocation.loaded inv) (Invocation.eventType inv)
    (Invocation.timed_out inv) (Invocation.data inv).

Fixpoint invoke (invs : list Invocation.t) (m : Metrics.t)
  : option Metrics.t :=
  match invs with
  | [] => Some m
  | inv :: rest =>
      match createEventHandler_metrics (Invocation.loaded inv)
              (Invocation.eventType inv) (Invocation.timed_out inv)
              (Invocation.ctx_err inv)
              (Invocation.data inv) (Invocation.elapsed inv)
              (Invocation.now inv) m with
      | Some m => invoke rest m
      | None => None
      end
  end.

(** Counting the calls of a sequence by what the closure returned. *)
Definition count (P : Invocation.t -> bool) (invs : list Invocation.t) : Z :=
  Z.of_nat (length (List.filter P invs)).
Definition answered (event : plugin.EventType) (inv : Invocation.t) : bool :=
  String.eqb (Invocation.eventType inv) event &&
  match returned inv with (Some _, _) => true | _ => false end.
Definition answered_cancelled (event : plugin.EventType) (inv : Invocation.t)
  : bool :=
  String.eqb (Invocation.eventType inv) event &&
  match returned inv with
  | (Some r, _) => events.EventResult.Cancelled r
  | _ => false
  end.
Definition failed (inv : Invocation.t) : bool :=
  match returned inv with (_, Some _) => true | _ => false end.
Definition reached_guest_answer (inv : Invocation.t) : bool :=
  match returned inv with
  | (None, None) => false
  | _ => negb (Invocation.timed_out inv)
  end.

End metrics.

(** ** internal/runtime/instance.go: one instance and its life cycle *)

Module instance.

Import plugin.

(** The guest behind [i.plugin]: which exports exist, and what a call of
    an export returns (output bytes and an optional error).  Each
    operation below takes the guest as it behaves at that moment. *)
Module Guest.
Record t := mk {
  FunctionExists : string -> bool;
  Call : string -> list byte -> list byte * option string
}.
End Guest.

(** The errors the methods build, by the format they are built with. *)
Inductive Error :=
  | ErrCannotEnable (s : State)   (* cannot enable plugin in state: %s *)
  | ErrCannotDisable (s : State)  (* cannot disable plugin in state: %s *)
  | ErrOnEnable (err : string)    (* on_enable: %w *)
  | ErrTimedOut (timeout : Z)     (* plugin call timed out after %v *)
  | ErrGuest (err : string).      (* the guest's error, as returned *)

(** A method returns a value, returns an error, or panics. *)
Inductive Result (A : Type) :=
  | Ok (a : A)
  | Err (e : Error)
  | Panic.
Arguments Ok {A} a.
Arguments Err {A} e.
Arguments Panic {A}.

(** [Instance], with what [i.info] points to inlined.  [closes] counts
    the calls of [i.plugin.Close()]; [guest_calls] logs the calls made
    on the guest and [calls_on_closed] counts those made after the
    engine plugin was closed. *)
Module Instance.
Record t := mk {
  Manifest : manifest.Manifest.t;
  Limits : ResourceLimits.t;
  State : plugin.State;
  Metrics : metrics.Metrics.t;
  EnabledAt : Z;
  DisabledAt : Z;
  lastCall : Z;
  callCount : Z;
  errorCount : Z;
  closes : nat;
  guest_calls : list (string * list byte);
  calls_on_closed : nat
}.
End Instance.

Definition set_State (s : State) (i : Instance.t) : Instance.t :=
  Instance.mk (Instance.Manifest i) (Instance.Limits i) s (Instance.Metrics i)
    (Instance.EnabledAt i) (Instance.DisabledAt i) (Instance.lastCall i)
    (Instance.callCount i) (Instance.errorCount i) (Instance.closes i)
    (Instance.guest_calls i) (Instance.calls_on_closed i).

Definition set_Metrics (m : metrics.Metrics.t) (i : Instance.t) : Instance.t :=
  Instance.mk (Instance.Manifest i) (Instance.Limits i) (Instance.State i) m
    (Instance.EnabledAt i) (Instance.DisabledAt i) (Instance.lastCall i)
    (Instance.callCount i) (Instance.errorCount i) (Instance.closes i)
    (Instance.guest_calls i) (Instance.calls_on_closed i).

Definition set_EnabledAt (now : Z) (i : Instance.t) : Instance.t :=
  Instance.mk (Instance.Manifest i) (Instance.Limits i) (Instance.State i)
    (Instance.Metrics i) now (Instance.DisabledAt i) (Instance.lastCall i)
    (Instance.callCount i) (Instance.errorCount i) (Instance.closes i)
    (Instance.guest_calls i) (Instance.calls_on_closed i).

Definition set_DisabledAt (now : Z) (i : Instance.t) : Instance.t :=
  Instance.mk (Instance.Manifest i) (Instance.Limits i) (Instance.State i)
    (Instance.Metrics i) (Instance.EnabledAt i) now (Instance.lastCall i)
    (Instance.callCount i) (Instance.errorCount i) (Instance.closes i)
    (Instance.guest_calls i) (Instance.calls_on_closed i).

(** [i.errorCount++] *)
Definition bump_errorCount (i : Instance.t) : Instance.t :=
  Instance.mk (Instance.Manifest i) (Instance.Limits i) (Instance.State i)
    (Instance.Metrics i) (Instance.EnabledAt i) (Instance.DisabledAt i)
    (Instance.lastCall i) (Instance.callCount i)
    (GoInt.wrap_uint64 (Instance.errorCount i + 1)) (Instance.closes i)
    (Instance.guest_calls i) (Instance.calls_on_closed i).

(** [i.lastCall = start; i.callCount++] *)
Definition begin_call (start : Z) (i : Instance.t) : Instance.t :=
  Instance.mk (Instance.Manifest i) (Instance.Limits i) (Instance.State i)
    (Instance.Metrics i) (Instance.EnabledAt i) (Instance.DisabledAt i)
    start (GoInt.wrap_uint64 (Instance.callCount i + 1))
    (Instance.errorCount i) (Instance.closes i)
    (Instance.guest_calls i) (Instance.calls_on_closed i).

(** [i.plugin.Call(funcName, input)] reaches the guest. *)
Definition guest_call (funcName : string) (input : list byte)
    (i : Instance.t) : Instance.t :=
  Instance.mk (Instance.Manifest i) (Instance.Limits i) (Instance.State i)
    (Instance.Metrics i) (Instance.EnabledAt i) (Instance.DisabledAt i)
    (Instance.lastCall i) (Instance.callCount i) (Instance.errorCount i)
    (Instance.closes i)
    (Instance.guest_calls i ++ [(funcName, input)])
    (if (0 <? Instance.closes i)%nat then S (Instance.calls_on_closed i)
     else Instance.calls_on_closed i).

(** [i.plugin.Close()] *)
Definition plugin_Close (i : Instance.t) : Instance.t :=
  Instance.mk (Instance.Manifest i) (Instance.Limits i) (Instance.State i)
    (Instance.Metrics i) (Instance.EnabledAt i) (Instance.DisabledAt i)
    (Instance.lastCall i) (Instance.callCount i) (Instance.errorCount i)
    (S (Instance.closes i))
    (Instance.guest_calls i) (Instance.calls_on_closed i).

(** [Pool.createInstance]: [NewInfo], then [StateLoaded], then
    [NewInstance], which fails when [extism.NewPlugin] does. *)
Definition createInstance (m : manifest.Manifest.t) (limits : ResourceLimits.t)
    (create_ok : bool) : option Instance.t :=
  if create_ok then
    Some (Instance.mk m limits StateLoaded metrics.NewMetrics 0 0 0 0 0 0 [] 0)
  else None.

(** [time.Duration(limits.MaxExecutionMs) * time.Millisecond] *)
Definition call_timeout (cfg : config.Config.t) (i : Instance.t) : Z :=
  GoInt.wrap_int
    (ResourceLimits.MaxExecutionMs
       (config.GetEffectiveLimits cfg (Instance.Limits i)) * 1000000).

(** [Instance.Call].  [parent_err] is what [ctx.Err()] returns on the
    context the caller gave; [timed_out] tells which arm of the [select]
    fires: [callCtx.Done()], or the answer of the guest.  [RecordError]
    calls [err.Error()], which panics on a nil error, after it has
    incremented the error counter of the metrics. *)
Definition Call (cfg : config.Config.t) (g : Guest.t)
    (parent_err : option string) (timed_out : bool) (start elapsed now : Z)
    (funcName : string) (input : list byte) (i : Instance.t)
  : Instance.t * Result (list byte) :=
  let timeout := call_timeout cfg i in
  let i := guest_call funcName input (begin_call start i) in
  if timed_out then
    let i := bump_errorCount i in
    match parent_err with
    | None =>
        (set_Metrics (metrics.RecordError_nil (Instance.Metrics i)) i, Panic)
    | Some e =>
        (set_Metrics (metrics.RecordError (Instance.Metrics i) e now) i,
         Err (ErrTimedOut timeout))
    end
  else
    let '(result, err) := Guest.Call g funcName input in
    match metrics.RecordCall (Instance.Metrics i) elapsed with
    | None => (i, Panic)
    | Some m =>
        let i := set_Metrics m i in
        match err with
        | Some e =>
            let i := bump_errorCount i in
            (set_Metrics (metrics.RecordError (Instance.Metrics i) e now) i,
             Err (ErrGuest e))
        | None => (i, Ok result)
        end
    end.

(** [Instance.HandleEvent] *)
Definition HandleEvent (cfg : config.Config.t) (g : Guest.t)
    (parent_err : option string) (timed_out : bool) (start elapsed now : Z)
    (event : EventType) (data : list byte) (i : Instance.t)
  : Instance.t * Result (option events.EventResult.t) :=
  if negb (manifest.SubscribedTo (Instance.Manifest i) event) then (i, Ok None)
  else
    match Call cfg g parent_err timed_out start elapsed now
            ("on_" ++ event)%string data i with
    | (i, Ok result) =>
        let eventResult := runtime.parseEventResult result in
        (set_Metrics
           (metrics.RecordEvent (Instance.Metrics i) event
              (events.EventResult.Cancelled eventResult)) i,
         Ok (Some eventResult))
    | (i, Err e) => (i, Err e)
    | (i, Panic) => (i, Panic)
    end.

(** [Instance.Enable] *)
Definition Enable (g : Guest.t) (now : Z) (i : Instance.t)
  : Instance.t * option Error :=
  match Instance.State i with
  | StateLoaded | StateDisabled =>
      let i := set_State StateEnabling i in
      if Guest.FunctionExists g "on_enable" then
        let i := guest_call "on_enable" [] i in
        match snd (Guest.Call g "on_enable" []) with
        | Some err => (set_State StateError i, Some (ErrOnEnable err))
        | None => (set_EnabledAt now (set_State StateEnabled i), None)
        end
      else (set_EnabledAt now (set_State StateEnabled i), None)
  | s => (i, Some (ErrCannotEnable s))
  end.

(** [Instance.Disable]: a failing [on_disable] is logged and ignored. *)
Definition Disable (g : Guest.t) (now : Z) (i : Instance.t)
  : Instance.t * option Error :=
  match Instance.State i with
  | StateEnabled =>
      let i := set_State StateDisabling i in
      let i :=
        if Guest.FunctionExists g "on_disable"
        then guest_call "on_disable" [] i else i in
      (set_DisabledAt now (set_State StateDisabled i), None)
  | s => (i, Some (ErrCannotDisable s))
  end.

(** [Instance.Close] *)
Definition Close (g : Guest.t) (i : Instance.t) : Instance.t * option Error :=
  let i :=
    match Instance.State i with
    | StateEnabled =>
        let i := set_State StateDisabling i in
        if Guest.FunctionExists g "on_disable"
        then guest_call "on_disable" [] i else i
    | _ => i
    end in
  (set_State StateUnloaded (plugin_Close i), None).

Definition IsEnabled (i : Instance.t) : bool :=
  match Instance.State i with StateEnabled => true | _ => false end.

(** The life-cycle calls, one after the other. *)
Inductive Op :=
  | OpEnable (g : Guest.t) (now : Z)
  | OpDisable (g : Guest.t) (now : Z)
  | OpClose (g : Guest.t).

Definition step (i : Instance.t) (op : Op) : Instance.t * option Error :=
  match op with
  | OpEnable g now => Enable g now i
  | OpDisable g now => Disable g now i
  | OpClose g => Close g i
  end.

Definition run (ops : list Op) (i : Instance.t) : Instance.t :=
  fold_left (fun i op => fst (step i op)) ops i.

(** The states an instance rests in between calls. *)
Definition resting (s : State) : bool :=
  match s with
  | StateLoaded | StateEnabled | StateDisabled | StateError | StateUnloaded =>
      true
  | _ => false
  end.

Definition is_Close (op : Op) : bool :=
  match op with OpClose _ => true | _ => false end.

End instance.

(** ** internal/runtime/runtime.go: the registry of plugin instances *)

Module plugin_runtime.

(** [types.PluginState] *)
Inductive PluginState :=
  | StateUnloaded | StateLoading | StateLoaded
  | StateEnabled | StateDisabled | StateError.

(** The sentinel errors of [types] that the runtime wraps, and the
    errors that come from the engine or the guest. *)
Inductive BaseError :=
  | ErrPluginNotFound
  | ErrPluginAlreadyLoaded
  | ErrPluginNotEnabled
  | ErrInvalidWASM
  | ErrMissingExport (export : string)
  | ErrPluginTimeout
  | ErrGuest (err : string).

(** [types.PluginError] *)
Module PluginError.
Record t := mk { PluginID : string; Op : string; Err : BaseError }.
End PluginError.
Definition NewPluginError (id op : string) (err : BaseError) : PluginError.t :=
  PluginError.mk id op err.

Module PluginMetrics.
Record t := mk {
  EventsProcessed : Z;
  TotalProcessingTime : Z;
  Errors : Z;
  LastEventTime : Z
}.
End PluginMetrics.

(** [PluginMetrics.recordSuccess], [recordError] and
    [AverageProcessingTime]. *)
Definition recordSuccess (m : PluginMetrics.t) (duration now : Z)
  : PluginMetrics.t :=
  PluginMetrics.mk
    (GoInt.wrap_uint64 (PluginMetrics.EventsProcessed m + 1))
    (GoInt.wrap_int (PluginMetrics.TotalProcessingTime m + duration))
    (PluginMetrics.Errors m) now.
Definition recordError (m : PluginMetrics.t) : PluginMetrics.t :=
  PluginMetrics.mk (PluginMetrics.EventsProcessed m)
    (PluginMetrics.TotalProcessingTime m)
    (GoInt.wrap_uint64 (PluginMetrics.Errors m + 1))
    (PluginMetrics.LastEventTime m).
Definition AverageProcessingTime (m : PluginMetrics.t) : option Z :=
  if PluginMetrics.EventsProcessed m =? 0 then Some 0
  else
    let divisor := GoInt.wrap_int (PluginMetrics.EventsProcessed m) in
    if divisor =? 0 then None
    else Some (GoInt.wrap_int
                 (Z.quot (PluginMetrics.TotalProcessingTime m) divisor)).

(** [PluginInstance]; [closes], [guest_calls] and [calls_on_closed]
    record what happened to [p.Plugin], as for [instance.Instance]. *)
Module PluginInstance.
Record t := mk {
  ID : string;
  State : PluginState;
  LoadedAt : Z;
  Metrics : PluginMetrics.t;
  closes : nat;
  guest_calls : list (string * list byte);
  calls_on_closed : nat
}.
End PluginInstance.

Module RuntimeConfig.
Record t := mk {
  MaxMemoryBytes : Z;
  EventTimeout : Z;
  EnableFuel : bool;
  MaxFuel : Z
}.
End RuntimeConfig.

(** [DefaultRuntimeConfig]: 64 MiB, 100 ms. *)
Definition DefaultRuntimeConfig : RuntimeConfig.t :=
  RuntimeConfig.mk (Z.shiftl 64 20) (100 * 1000000) false 1000000.

(** [Runtime].  The instances are objects behind pointers that callers
    keep: [heap] holds the objects, a pointer is a position in it, and
    [instances] maps an id to a pointer. *)
Module Runtime.
Record t := mk {
  config : RuntimeConfig.t;
  instances : gmap string nat;
  heap : list PluginInstance.t
}.
End Runtime.

Definition NewRuntime (cfg : RuntimeConfig.t) : Runtime.t :=
  Runtime.mk cfg ∅ [].

(** The memory section of the engine manifest that [LoadPlugin] builds:
    [MaxPages: uint32(r.config.MaxMemoryBytes / 65536)]. *)
Definition LoadPlugin_extismManifest (cfg : RuntimeConfig.t)
  : extism.Manifest.t :=
  extism.Manifest.mk
    (Some (extism.ManifestMemory.mk
       (GoInt.wrap_uint32
          (GoInt.wrap_int (Z.quot (RuntimeConfig.MaxMemoryBytes cfg) 65536))))).

(** [Runtime.verifyExports]: the first required export that is missing. *)
Definition verifyExports (exports : string -> bool) : option BaseError :=
  match List.find (fun export => negb (exports export))
          ["plugin_init"%string; "handle_event"%string] with
  | Some export => Some (ErrMissingExport export)
  | None => None
  end.

(** [Runtime.LoadPlugin].  [new_plugin] is the outcome of
    [extism.NewPlugin]: a failure, or a plugin with its exports. *)
Definition LoadPlugin (r : Runtime.t) (id : string)
    (new_plugin : option (string -> bool)) (now : Z)
  : Runtime.t * (nat + PluginError.t) :=
  match Runtime.instances r !! id with
  | Some _ => (r, inr (NewPluginError id "load" ErrPluginAlreadyLoaded))
  | None =>
      match new_plugin with
      | None => (r, inr (NewPluginError id "create plugin" ErrInvalidWASM))
      | Some exports =>
          match verifyExports exports with
          | Some err => (r, inr (NewPluginError id "verify exports" err))
          | None =>
              let p := length (Runtime.heap r) in
              (Runtime.mk (Runtime.config r)
                 (<[id := p]> (Runtime.instances r))
                 (Runtime.heap r ++
                  [PluginInstance.mk id StateLoaded now
                     (PluginMetrics.mk 0 0 0 0) 0 [] 0]),
               inl p)
          end
      end
  end.

(** [instance.Plugin.Close(); instance.State = types.StateUnloaded] *)
Definition close_instance (inst : PluginInstance.t) : PluginInstance.t :=
  PluginInstance.mk (PluginInstance.ID inst) StateUnloaded
    (PluginInstance.LoadedAt inst) (PluginInstance.Metrics inst)
    (S (PluginInstance.closes inst)) (PluginInstance.guest_calls inst)
    (PluginInstance.calls_on_closed inst).

(** [Runtime.UnloadPlugin] *)
Definition UnloadPlugin (r : Runtime.t) (id : string)
  : Runtime.t * option PluginError.t :=
  match Runtime.instances r !! id with
  | None => (r, Some (NewPluginError id "unload" ErrPluginNotFound))
  | Some p =>
      (Runtime.mk (Runtime.config r) (delete id (Runtime.instances r))
         (alter close_instance p (Runtime.heap r)),
       None)
  end.

(** [Runtime.GetInstance] *)
Definition GetInstance (r : Runtime.t) (id : string) : option nat :=
  Runtime.instances r !! id.

(** [Runtime.Close]: every registered instance is closed and removed. *)
Definition registered (r : Runtime.t) (p : nat) : Prop :=
  exists id, Runtime.instances r !! id = Some p.

#[global] Instance registered_dec r p : Decision (registered r p).
Proof.
  unfold registered.
  destruct (decide (Exists (fun kv => snd kv = p)
                      (map_to_list (Runtime.instances r)))) as [H|H].
  - left. apply Exists_exists in H as ([id q] & Hin & Hq). simpl in Hq.
    exists id. apply elem_of_map_to_list in Hin. by subst.
  - right. intros [id Hid]. apply H, Exists_exists. exists (id, p).
    split; [by apply elem_of_map_to_list|done].
Defined.

Definition Close (r : Runtime.t) : Runtime.t :=
  Runtime.mk (Runtime.config r) ∅
    (imap (fun p inst => if decide (registered r p) then close_instance inst
                         else inst)
       (Runtime.heap r)).

(** [PluginInstance.Call] on the object behind a pointer. *)
Definition instance_Call (g : instance.Guest.t) (timed_out : bool)
    (function : string) (input : list byte) (elapsed now : Z)
    (inst : PluginInstance.t)
  : PluginInstance.t * (list byte + PluginError.t) :=
  match PluginInstance.State inst with
  | StateEnabled | StateLoaded =>
      let inst :=
        PluginInstance.mk (PluginInstance.ID inst) (PluginInstance.State inst)
          (PluginInstance.LoadedAt inst) (PluginInstance.Metrics inst)
          (PluginInstance.closes inst)
          (PluginInstance.guest_calls inst ++ [(function, input)])
          (if (0 <? PluginInstance.closes inst)%nat
           then S (PluginInstance.calls_on_closed inst)
           else PluginInstance.calls_on_closed inst) in
      let with_metrics m :=
        PluginInstance.mk (PluginInstance.ID inst) (PluginInstance.State inst)
          (PluginInstance.LoadedAt inst) m
          (PluginInstance.closes inst) (PluginInstance.guest_calls inst)
          (PluginInstance.calls_on_closed inst) in
      if timed_out then
        (with_metrics (recordError (PluginInstance.Metrics inst)),
         inr (NewPluginError (PluginInstance.ID inst) "call" ErrPluginTimeout))
      else
        match instance.Guest.Call g function input with
        | (_, Some err) =>
            (with_metrics (recordError (PluginInstance.Metrics inst)),
             inr (NewPluginError (PluginInstance.ID inst) "call"
                    (ErrGuest err)))
        | (output, None) =>
            (with_metrics
               (recordSuccess (PluginInstance.Metrics inst) elapsed now),
             inl output)
        end
  | _ =>
      (inst,
       inr (NewPluginError (PluginInstance.ID inst) "call" ErrPluginNotEnabled))
  end.

(** [PluginInstance.Enable] and [PluginInstance.Disable] *)
Definition set_State (s : PluginState) (inst : PluginInstance.t)
  : PluginInstance.t :=
  PluginInstance.mk (PluginInstance.ID inst) s
    (PluginInstance.LoadedAt inst) (PluginInstance.Metrics inst)
    (PluginInstance.closes inst) (PluginInstance.guest_calls inst)
    (PluginInstance.calls_on_closed inst).
Definition instance_Enable (inst : PluginInstance.t) : PluginInstance.t :=
  match PluginInstance.State inst with
  | StateLoaded | StateDisabled => set_State StateEnabled inst
  | _ => inst
  end.
Definition instance_Disable (inst : PluginInstance.t) : PluginInstance.t :=
  match PluginInstance.State inst with
  | StateEnabled => set_State StateDisabled inst
  | _ => inst
  end.
Definition instance_IsEnabled (inst : PluginInstance.t) : bool :=
  match PluginInstance.State inst with StateEnabled => true | _ => false end.

(** A method call on the object behind the pointer [p]. *)
Definition on_pointer (r : Runtime.t) (p : nat)
    (f : PluginInstance.t -> PluginInstance.t) : Runtime.t :=
  Runtime.mk (Runtime.config r) (Runtime.instances r)
    (alter f p (Runtime.heap r)).

(** [Runtime.CallPlugin]: the timeout is [r.config.EventTimeout]. *)
Definition CallPlugin (r : Runtime.t) (id : string) (g : instance.Guest.t)
    (timed_out : bool) (function : string) (input : list byte)
    (elapsed now : Z) : Runtime.t * (list byte + PluginError.t) :=
  match GetInstance r id with
  | None => (r, inr (NewPluginError id "call" ErrPluginNotFound))
  | Some p =>
      match Runtime.heap r !! p with
      | Some inst =>
          let '(inst', out) :=
            instance_Call g timed_out function input elapsed now inst in
          (on_pointer r p (fun _ => inst'), out)
      | None => (r, inr (NewPluginError id "call" ErrPluginNotFound))
      end
  end.

(** The calls a program can make, on the runtime and on the pointers it
    got from it. *)
Inductive Op :=
  | OpLoadPlugin (id : string) (new_plugin : option (string -> bool))
      (now : Z)
  | OpUnloadPlugin (id : string)
  | OpCallPlugin (id : string) (g : instance.Guest.t) (timed_out : bool)
      (function : string) (input : list byte) (elapsed now : Z)
  | OpClose
  | OpCall (p : nat) (g : instance.Guest.t) (timed_out : bool)
      (function : string) (input : list byte) (elapsed now : Z)
  | OpEnable (p : nat)
  | OpDisable (p : nat).

Definition step (r : Runtime.t) (op : Op) : Runtime.t :=
  match op with
  | OpLoadPlugin id new_plugin now => fst (LoadPlugin r id new_plugin now)
  | OpUnloadPlugin id => fst (UnloadPlugin r id)
  | OpCallPlugin id g timed_out function input elapsed now =>
      fst (CallPlugin r id g timed_out function input elapsed now)
  | OpClose => Close r
  | OpCall p g timed_out function input elapsed now =>
      on_pointer r p
        (fun inst =>
           fst (instance_Call g timed_out function input elapsed now inst))
  | OpEnable p => on_pointer r p instance_Enable
  | OpDisable p => on_pointer r p instance_Disable
  end.

Definition run (ops : list Op) (r : Runtime.t) : Runtime.t :=
  fold_left step ops r.

Definition live (s : PluginState) : bool :=
  match s with
  | StateLoaded | StateEnabled | StateDisabled => true
  | _ => false
  end.

(** What the registry keeps between calls: an id is mapped to an object
    of that id; a registered object is open and loaded, enabled or
    disabled; an object that is no longer registered was closed once
    and is unloaded; no guest was called after it was closed; and no two
    ids share an object. *)
Definition registry_inv (r : Runtime.t) : Prop :=
  (forall id p, Runtime.instances r !! id = Some p ->
     exists inst, Runtime.heap r !! p = Some inst /\
                  PluginInstance.ID inst = id) /\
  (forall p inst, Runtime.heap r !! p = Some inst -> registered r p ->
     PluginInstance.closes inst = 0%nat /\
     live (PluginInstance.State inst) = true) /\
  (forall p inst, Runtime.heap r !! p = Some inst -> ~ registered r p ->
     PluginInstance.closes inst = 1%nat /\
     PluginInstance.State inst = StateUnloaded) /\
  (forall p inst, Runtime.heap r !! p = Some inst ->
     PluginInstance.calls_on_closed inst = 0%nat) /\
  (forall id id' p, Runtime.instances r !! id = Some p ->
     Runtime.instances r !! id' = Some p -> id = id').

End plugin_runtime.

(** ** The instance pool: callers and [WithInstance] *)

Module pool.

Import runtime.

(** The instance a call hands to its caller, and the instance a caller
    hands to the pool. *)
Definition acquired (o : Outcome) : list nat :=
  match o with
  | Returned (Some inst) _ => [inst]
  | _ => []
  end.
Definition released (op : Op) : list nat :=
  match op with
  | OpRelease inst => [inst]
  | _ => []
  end.

(** The instances handed out by a sequence of calls, in order. *)
Fixpoint handed_out (ops : list Op) (p : Pool.t) : list nat :=
  match ops with
  | [] => []
  | op :: rest =>
      acquired (snd (step p op)) ++ handed_out rest (fst (step p op))
  end.
Definition given_back (ops : list Op) : list nat := flat_map released ops.

(** What the function given to [WithInstance] does: the calls made on
    the pool while it runs, and whether it returns (an error or nil) or
    panics. *)
Inductive FnOutcome :=
  | FnReturned (err : option string)
  | FnPanicked.

(** [Pool.WithInstance]: the deferred [Release] runs when [fn] returns
    and when it panics. *)
Definition WithInstance (ctx_done pick_ctx : bool)
    (fn : nat -> list Op * FnOutcome) (p : Pool.t) : Pool.t * Outcome :=
  match AcquireWait ctx_done pick_ctx p with
  | (p, Returned (Some inst) _) =>
      let '(ops, out) := fn inst in
      let p := run ops p in
      match Release inst p with
      | (p, Panics) => (p, Panics)
      | (p, _) =>
          (p, match out with
              | FnReturned err => Returned None err
              | FnPanicked => Panics
              end)
      end
  | (p, o) => (p, o)
  end.


End pool.

(** ** The file-backed store: opening, closing, sequences of calls *)

Module file_storage.

Import storage.



(** [FileStorage.Close]: [persist] for every plugin id of [s.data], in
    the order [ids] in which the [range] statement yields them, up to the
    first failure.  [io id] is the outcome of the write for [id]. *)
Fixpoint persist_each (s : FileStorage.t) (ids : list string)
    (io : string -> bool) : FileStorage.t * option string :=
  match ids with
  | [] => (s, None)
  | id :: rest =>
      match persist s id (io id) with
      | (s, None) => persist_each s rest io
      | (s, Some err) => (s, Some ("persist " ++ id ++ ": " ++ err)%string)
      end
  end.
Definition Close (s : FileStorage.t) (ids : list string) (io : string -> bool)
  : FileStorage.t * option string :=
  persist_each s ids io.

(** Calls on the store, each with the outcome of its file operation. *)
Inductive Op :=
  | OpSet (pluginID key : string) (value : list byte) (io_ok : bool)
  | OpDelete (pluginID key : string) (io_ok : bool)
  | OpClear (pluginID : string) (io_ok : bool).

Definition step (s : FileStorage.t) (op : Op) : FileStorage.t * option string :=
  match op with
  | OpSet p k v io => File.Set_ s p k v io
  | OpDelete p k io => File.Delete s p k io
  | OpClear p io => File.Clear s p io
  end.

Definition run (ops : list Op) (s : FileStorage.t) : FileStorage.t :=
  fold_left (fun s op => fst (step s op)) ops s.

Definition io_ok (op : Op) : bool :=
  match op with
  | OpSet _ _ _ io => io
  | OpDelete _ _ io => io
  | OpClear _ io => io
  end.






End file_storage.

(** ** The loader's resolver: notions used to state what it returns *)

Module loader.

Import plugin manager.

(** The ids [visit] descends into from a plugin: its dependencies, then
    its [load_after] ids. *)
Definition targets (dp : Manifest.t) : list string :=
  map Dependency.ID (Manifest.Dependencies dp) ++ Manifest.LoadAfter dp.

(** The two inner loops of [visit], over a given way to visit one id. *)
Definition visit_each
    (v : string -> VisitState.t -> option (string + VisitState.t))
  : list string -> VisitState.t -> option (string + VisitState.t) :=
  fix go (targets : list string) (st : VisitState.t) :=
    match targets with
    | [] => Some (inr st)
    | target :: rest =>
        match v target st with
        | Some (inr st) => go rest st
        | other => other
        end
    end.

(** What the three variables of [ResolveDependencies] hold between two
    calls of [visit]: [visited] is the set of ids of [sorted]; no id
    stands twice in [sorted]; every entry is the discovered plugin of
    its id; every entry stands behind the discovered plugins it names;
    and the ids being visited are discovered and not yet sorted. *)
Definition well_formed (pm : gmap string Manifest.t) (st : VisitState.t)
  : Prop :=
  (forall x, x ∈ VisitState.visited st <->
             x ∈ resolver.ids (VisitState.sorted st)) /\
  NoDup (resolver.ids (VisitState.sorted st)) /\
  (forall m, m ∈ VisitState.sorted st -> pm !! Manifest.ID m = Some m) /\
  (forall i m b, VisitState.sorted st !! i = Some m -> b ∈ targets m ->
                 is_Some (pm !! b) ->
                 b ∈ take i (resolver.ids (VisitState.sorted st))) /\
  (forall x, x ∈ VisitState.visiting st ->
             (x ∉ VisitState.visited st) /\ is_Some (pm !! x)).

(** What a call of [visit] on [id], respectively the two inner loops
    over the ids [ts], leave behind: they return; an error they return
    witnesses a cycle; and on success the variables are well formed,
    [visiting] is as before, [sorted] was only extended, and the
    discovered ids among those visited are sorted. *)
Definition visit_post (ms : list Manifest.t) (ts : list string)
    (st : VisitState.t) (r : option (string + VisitState.t)) : Prop :=
  match r with
  | None => False
  | Some (inl _) => exists x, tc (resolver.must_precede ms) x x
  | Some (inr st') =>
      well_formed (manifestMap_of ms) st' /\
      VisitState.visiting st' = VisitState.visiting st /\
      VisitState.sorted st `prefix_of` VisitState.sorted st' /\
      (forall t, t ∈ ts -> is_Some (manifestMap_of ms !! t) ->
                 t ∈ VisitState.visited st')
  end.

End loader.

(** ** internal/manager: loading, enabling, disabling, unloading *)

Module lifecycle.

Import plugin.

(** [plugin.Manifest] with the fields the manager reads.  The resolver
    and the validation work on the records of their own that hold the
    fields they read. *)
Module FullManifest.
Record t := mk {
  ID : string;
  Name : string;
  EntryPoint : string;
  Events : list manifest.EventSubscription.t;
  Dependencies : list Dependency.t;
  Limits : ResourceLimits.t;
  LoadAfter : list string
}.
End FullManifest.

Definition resolver_view (m : FullManifest.t) : Manifest.t :=
  Manifest.mk (FullManifest.ID m) (FullManifest.Dependencies m)
    (FullManifest.Limits m) (FullManifest.LoadAfter m).
Definition manifest_view (m : FullManifest.t) : manifest.Manifest.t :=
  manifest.Manifest.mk (FullManifest.ID m) (FullManifest.Name m)
    (FullManifest.EntryPoint m) (FullManifest.Events m).

(** [LoadedPlugin], with [Info] inlined, without its time stamps and
    paths; [closes] counts the calls of [Instance.Close()]. *)
Module Loaded.
Record t := mk {
  Manifest : FullManifest.t;
  State : plugin.State;
  Metrics : metrics.Metrics.t;
  closes : nat
}.
End Loaded.

(** A call of an export of a guest: the object whose instance was
    called, the export, the input, and whether the instance had been
    closed before. *)
Module GuestCall.
Record t := mk {
  target : nat;
  export : string;
  input : list byte;
  on_closed : bool
}.
End GuestCall.

(** [Manager].  The [LoadedPlugin] objects live in [heap], a pointer is
    a position in it; the handler closures and the callers of
    [GetPlugin] hold such pointers.  [trace] logs the guest calls in the
    order they are made. *)
Module Manager.
Record t := mk {
  dispatcher : events.Dispatcher.t;
  plugins : gmap string nat;
  loadOrder : list string;
  heap : list Loaded.t;
  trace : list GuestCall.t
}.
End Manager.

Definition New : Manager.t :=
  Manager.mk events.NewDispatcher ∅ [] [] [].

Inductive Error :=
  | ErrAlreadyLoaded (id : string)
  | ErrCreateDataDir
  | ErrCreateInstance
  | ErrMissingExport (export : string)
  | ErrInitTimedOut
  | ErrInitFailed (err : string)
  | ErrNotFound (id : string)
  | ErrCannotEnable (id : string) (s : State)
  | ErrEnableCallback (err : string)
  | ErrCreatePluginDir
  | ErrReadPluginDir
  | ErrMissingDependency (id dep : string)
  | ErrCircularDependency.

Definition set_State (s : State) (o : Loaded.t) : Loaded.t :=
  Loaded.mk (Loaded.Manifest o) s (Loaded.Metrics o) (Loaded.closes o).
Definition close_instance (o : Loaded.t) : Loaded.t :=
  Loaded.mk (Loaded.Manifest o) (Loaded.State o) (Loaded.Metrics o)
    (S (Loaded.closes o)).
Definition record_error (err : string) (now : Z) (o : Loaded.t) : Loaded.t :=
  Loaded.mk (Loaded.Manifest o) (Loaded.State o)
    (metrics.RecordError (Loaded.Metrics o) err now) (Loaded.closes o).

Definition set_dispatcher (d : events.Dispatcher.t) (m : Manager.t)
  : Manager.t :=
  Manager.mk d (Manager.plugins m) (Manager.loadOrder m) (Manager.heap m)
    (Manager.trace m).

(** A write through the pointer [p]. *)
Definition update (p : nat) (f : Loaded.t -> Loaded.t) (m : Manager.t)
  : Manager.t :=
  Manager.mk (Manager.dispatcher m) (Manager.plugins m) (Manager.loadOrder m)
    (alter f p (Manager.heap m)) (Manager.trace m).

Definition is_closed (m : Manager.t) (p : nat) : bool :=
  match Manager.heap m !! p with
  | Some o => (0 <? Loaded.closes o)%nat
  | None => false
  end.

(** [loaded.Instance.Call(export, input)] *)
Definition guest_call (p : nat) (export : string) (input : list byte)
    (m : Manager.t) : Manager.t :=
  Manager.mk (Manager.dispatcher m) (Manager.plugins m) (Manager.loadOrder m)
    (Manager.heap m)
    (Manager.trace m ++ [GuestCall.mk p export input (is_closed m p)]).

(** [Manager.registerEventHandlers].  [closure p event] stands for the
    function value [m.createEventHandler(loaded, event)] of the object
    behind [p]. *)
Definition registerEventHandlers
    (closure : nat -> EventType -> events.Handler)
    (d : events.Dispatcher.t) (p : nat) (manifest : FullManifest.t)
  : events.Dispatcher.t :=
  fold_left
    (fun d sub =>
       events.Subscribe d (manifest.EventSubscription.Event sub)
         (events.Subscription.mk (FullManifest.ID manifest)
            (manifest.EventSubscription.Priority sub)
            (closure p (manifest.EventSubscription.Event sub))
            (manifest.EventSubscription.IgnoreCancelled sub)))
    (FullManifest.Events manifest) d.

(** [Manager.loadPlugin].  [mkdir_ok] is the outcome of [os.MkdirAll],
    [new_plugin] that of [extism.NewPlugin] (a failure, or an instance
    with its exports), [init_err] the error of the call of
    [plugin_init], and [init_ctx_done] tells whether [initCtx.Err()] is
    set after it. *)
Definition loadPlugin (closure : nat -> EventType -> events.Handler)
    (m : Manager.t) (manifest : FullManifest.t) (mkdir_ok : bool)
    (new_plugin : option (string -> bool)) (init_err : option string)
    (init_ctx_done : bool) : Manager.t * option Error :=
  let id := FullManifest.ID manifest in
  match Manager.plugins m !! id with
  | Some _ => (m, Some (ErrAlreadyLoaded id))
  | None =>
      if negb mkdir_ok then (m, Some ErrCreateDataDir)
      else
        match new_plugin with
        | None => (m, Some ErrCreateInstance)
        | Some exports =>
            let p := length (Manager.heap m) in
            let m :=
              Manager.mk (Manager.dispatcher m) (Manager.plugins m)
                (Manager.loadOrder m)
                (Manager.heap m ++
                 [Loaded.mk manifest StateLoading metrics.NewMetrics 0])
                (Manager.trace m) in
            if negb (exports "plugin_init"%string) then
              (update p close_instance m,
               Some (ErrMissingExport "plugin_init"))
            else if negb (exports "handle_event"%string) then
              (update p close_instance m,
               Some (ErrMissingExport "handle_event"))
            else
              let m := guest_call p "plugin_init" [] m in
              match init_err with
              | Some err =>
                  (update p close_instance m,
                   Some (if init_ctx_done then ErrInitTimedOut
                         else ErrInitFailed err))
              | None =>
                  let m := update p (set_State StateLoaded) m in
                  (Manager.mk
                     (registerEventHandlers closure (Manager.dispatcher m) p
                        manifest)
                     (<[id := p]> (Manager.plugins m))
                     (Manager.loadOrder m ++ [id])
                     (Manager.heap m) (Manager.trace m),
                   None)
              end
        end
  end.

(** [Manager.EnablePlugin] *)
Definition EnablePlugin (m : Manager.t) (id : string) (g : instance.Guest.t)
    (now : Z) : Manager.t * option Error :=
  match Manager.plugins m !! id with
  | None => (m, Some (ErrNotFound id))
  | Some p =>
      match Manager.heap m !! p with
      | None => (m, Some (ErrNotFound id))
      | Some loaded =>
          match Loaded.State loaded with
          | StateEnabled => (m, None)
          | StateLoaded | StateDisabled =>
              let m := update p (set_State StateEnabling) m in
              if instance.Guest.FunctionExists g "on_enable" then
                let m := guest_call p "on_enable" [] m in
                match snd (instance.Guest.Call g "on_enable" []) with
                | Some err =>
                    (update p (record_error err now)
                       (update p (set_State StateError) m),
                     Some (ErrEnableCallback err))
                | None => (update p (set_State StateEnabled) m, None)
                end
              else (update p (set_State StateEnabled) m, None)
          | s => (m, Some (ErrCannotEnable id s))
          end
      end
  end.

(** [Manager.DisablePlugin]: what [on_disable] returns is dropped. *)
Definition DisablePlugin (m : Manager.t) (id : string) (g : instance.Guest.t)
  : Manager.t * option Error :=
  match Manager.plugins m !! id with
  | None => (m, Some (ErrNotFound id))
  | Some p =>
      match Manager.heap m !! p with
      | None => (m, Some (ErrNotFound id))
      | Some loaded =>
          match Loaded.State loaded with
          | StateEnabled =>
              let m := update p (set_State StateDisabling) m in
              let m :=
                if instance.Guest.FunctionExists g "on_disable"
                then guest_call p "on_disable" [] m else m in
              (update p (set_State StateDisabled) m, None)
          | _ => (m, None)
          end
      end
  end.

(** [Manager.UnloadPlugin] *)
Definition UnloadPlugin (m : Manager.t) (id : string) (g : instance.Guest.t)
  : Manager.t * option Error :=
  match Manager.plugins m !! id with
  | None => (m, Some (ErrNotFound id))
  | Some p =>
      match Manager.heap m !! p with
      | None => (m, Some (ErrNotFound id))
      | Some loaded =>
          let '(m, err) :=
            match Loaded.State loaded with
            | StateEnabled => DisablePlugin m id g
            | _ => (m, None)
            end in
          match err with
          | Some e => (m, Some e)
          | None =>
              let m :=
                update p (set_State StateUnloaded) (update p close_instance m)
              in
              (Manager.mk
                 (dispatcher.Unsubscribe (Manager.dispatcher m) id)
                 (delete id (Manager.plugins m))
                 (dispatcher.DeleteFunc (Manager.loadOrder m)
                    (fun s => String.eqb s id))
                 (Manager.heap m) (Manager.trace m),
               None)
          end
      end
  end.

(** [Manager.EnableAll]: in load order; failures are logged, the
    function returns nil.  [g id] is the guest of the plugin [id]. *)
Definition EnableAll (m : Manager.t) (g : string -> instance.Guest.t) (now : Z)
  : Manager.t :=
  fold_left (fun m id => fst (EnablePlugin m id (g id) now))
    (Manager.loadOrder m) m.

(** [Manager.DisableAll]: in reverse load order. *)
Definition DisableAll (m : Manager.t) (g : string -> instance.Guest.t)
  : Manager.t :=
  fold_left (fun m id => fst (DisablePlugin m id (g id)))
    (rev (Manager.loadOrder m)) m.

(** [Manager.Close]: [DisableAll], then every instance in the plugin map
    is closed and its entry deleted. *)
Definition registered (m : Manager.t) (p : nat) : Prop :=
  exists id, Manager.plugins m !! id = Some p.

#[global] Instance registered_decision m p : Decision (registered m p).
Proof.
  unfold registered.
  destruct (decide (Exists (fun kv => snd kv = p)
                      (map_to_list (Manager.plugins m)))) as [H|H].
  - left. apply Exists_exists in H as ([id q] & Hin & Hq). simpl in Hq.
    exists id. apply elem_of_map_to_list in Hin. by subst.
  - right. intros [id Hid]. apply H, Exists_exists. exists (id, p).
    split; [by apply elem_of_map_to_list|done].
Defined.

Definition Close (m : Manager.t) (g : string -> instance.Guest.t)
  : Manager.t :=
  let m := DisableAll m g in
  Manager.mk (Manager.dispatcher m) ∅ (Manager.loadOrder m)
    (imap (fun p o => if decide (registered m p) then close_instance o else o)
       (Manager.heap m))
    (Manager.trace m).

(** [Manager.GetPlugin] and [Manager.GetAllPlugins]; [None] is the nil
    pointer. *)
Definition GetPlugin (m : Manager.t) (id : string) : option nat :=
  Manager.plugins m !! id.
Definition GetAllPlugins (m : Manager.t) : list (option nat) :=
  map (fun id => Manager.plugins m !! id) (Manager.loadOrder m).

(** One call of the closure [createEventHandler(loaded, eventType)] of
    the object behind [p]: what it returns is
    [manager.createEventHandler], what it records is
    [metrics.createEventHandler_metrics]; [answer] is what the guest
    returns.  [None]: the closure panics. *)
Definition call_handler (m : Manager.t) (p : nat) (eventType : EventType)
    (timed_out : bool) (ctx_err : string)
    (answer : list byte * option string) (data : list byte) (elapsed now : Z)
  : option (Manager.t * (option events.EventResult.t * option string)) :=
  match Manager.heap m !! p with
  | None => None
  | Some o =>
      let loaded := manager.LoadedPlugin.mk (Loaded.State o)
                      (fun _ _ => answer) in
      match metrics.createEventHandler_metrics loaded eventType timed_out
              ctx_err data elapsed now (Loaded.Metrics o) with
      | None => None
      | Some ms =>
          let m :=
            match Loaded.State o with
            | StateEnabled | StateLoaded =>
                guest_call p "handle_event"
                  (manager.envelope eventType data) m
            | _ => m
            end in
          Some (update p (fun o => Loaded.mk (Loaded.Manifest o)
                                     (Loaded.State o) ms (Loaded.closes o)) m,
                manager.createEventHandler loaded eventType timed_out data)
      end
  end.

(** [Manager.LoadAll].  [ReadDir] is the outcome of [os.ReadDir]: the
    directory does not exist (it is then created, which may fail), some
    other failure, or for every sub-directory what reading and parsing
    its [plugin.toml] gives.  [outcome id] tells how loading the plugin
    [id] goes. *)
Inductive ReadDir :=
  | DirNotExist (mkdir_ok : bool)
  | DirError
  | DirEntries (entries : list (option FullManifest.t)).

Module LoadOutcome.
Record t := mk {
  mkdir_ok : bool;
  new_plugin : option (string -> bool);
  init_err : option string;
  init_ctx_done : bool
}.
End LoadOutcome.

Definition candidates (enabled disabled : list string)
    (entries : list (option FullManifest.t)) : list FullManifest.t :=
  flat_map
    (fun entry =>
       match entry with
       | Some manifest =>
           match manifest.Validate (manifest_view manifest) with
           | Some _ => []
           | None =>
               if enablement.IsPluginEnabled enabled disabled
                    (FullManifest.ID manifest)
               then [manifest] else []
           end
       | None => []
       end)
    entries.

(** The manifest the resolver returns for an id is the one the map of
    manifests holds: the last one with that id. *)
Definition manifest_of (cands : list FullManifest.t) (id : string)
  : option FullManifest.t :=
  List.find (fun c => String.eqb (FullManifest.ID c) id) (rev cands).

Definition load_each (closure : nat -> EventType -> events.Handler)
    (outcome : string -> LoadOutcome.t) (sorted : list FullManifest.t)
    (m : Manager.t) : Manager.t :=
  fold_left
    (fun m manifest =>
       let o := outcome (FullManifest.ID manifest) in
       fst (loadPlugin closure m manifest (LoadOutcome.mkdir_ok o)
              (LoadOutcome.new_plugin o) (LoadOutcome.init_err o)
              (LoadOutcome.init_ctx_done o)))
    sorted m.

Definition LoadAll (closure : nat -> EventType -> events.Handler)
    (m : Manager.t) (enabled disabled : list string) (dir : ReadDir)
    (outcome : string -> LoadOutcome.t) : Manager.t * option Error :=
  match dir with
  | DirNotExist mkdir_ok =>
      (m, if mkdir_ok then None else Some ErrCreatePluginDir)
  | DirError => (m, Some ErrReadPluginDir)
  | DirEntries entries =>
      let cands := candidates enabled disabled entries in
      match manager.sortByDependencies (map resolver_view cands) with
      | manager.Sorted order =>
          (load_each closure outcome
             (omap (fun om =>
                      match om with
                      | Some pm => manifest_of cands (Manifest.ID pm)
                      | None => None
                      end) order)
             m,
           None)
      | manager.MissingDependency id dep =>
          (m, Some (ErrMissingDependency id dep))
      | _ => (m, Some ErrCircularDependency)
      end
  end.

(** The calls on a manager, one after the other. *)
Inductive Op :=
  | OpLoad (manifest : FullManifest.t) (o : LoadOutcome.t)
  | OpEnable (id : string) (g : instance.Guest.t) (now : Z)
  | OpDisable (id : string) (g : instance.Guest.t)
  | OpUnload (id : string) (g : instance.Guest.t)
  | OpEnableAll (g : string -> instance.Guest.t) (now : Z)
  | OpDisableAll (g : string -> instance.Guest.t)
  | OpLoadAll (enabled disabled : list string) (dir : ReadDir)
      (outcome : string -> LoadOutcome.t).

Definition step (closure : nat -> EventType -> events.Handler)
    (m : Manager.t) (op : Op) : Manager.t :=
  match op with
  | OpLoad manifest o =>
      fst (loadPlugin closure m manifest (LoadOutcome.mkdir_ok o)
             (LoadOutcome.new_plugin o) (LoadOutcome.init_err o)
             (LoadOutcome.init_ctx_done o))
  | OpEnable id g now => fst (EnablePlugin m id g now)
  | OpDisable id g => fst (DisablePlugin m id g)
  | OpUnload id g => fst (UnloadPlugin m id g)
  | OpEnableAll g now => EnableAll m g now
  | OpDisableAll g => DisableAll m g
  | OpLoadAll enabled disabled dir outcome =>
      fst (LoadAll closure m enabled disabled dir outcome)
  end.

Definition run (closure : nat -> EventType -> events.Handler)
    (ops : list Op) (m : Manager.t) : Manager.t :=
  fold_left (step closure) ops m.

(** The states of a plugin that is in the plugin map. *)
Definition settled (s : State) : bool :=
  match s with
  | StateLoaded | StateEnabled | StateDisabled | StateError => true
  | _ => false
  end.

(** What the manager keeps between calls: the load order lists the keys
    of the plugin map, each once; a key maps to an object of that id,
    open and settled, and no two keys share an object; an object that is
    not in the map was closed once and is neither loaded nor enabled;
    every subscription of the dispatcher belongs to a plugin of the map
    and holds a closure of its object; and no guest was called after it
    was closed. *)
Definition manager_inv (closure : nat -> EventType -> events.Handler)
    (m : Manager.t) : Prop :=
  NoDup (Manager.loadOrder m) /\
  (forall id, id ∈ Manager.loadOrder m <-> is_Some (Manager.plugins m !! id)) /\
  (forall id p, Manager.plugins m !! id = Some p ->
     exists o, Manager.heap m !! p = Some o /\
               FullManifest.ID (Loaded.Manifest o) = id /\
               Loaded.closes o = 0%nat /\ settled (Loaded.State o) = true) /\
  (forall id id' p, Manager.plugins m !! id = Some p ->
     Manager.plugins m !! id' = Some p -> id = id') /\
  (forall p o, Manager.heap m !! p = Some o -> ~ registered m p ->
     Loaded.closes o = 1%nat /\
     (Loaded.State o = StateLoading \/ Loaded.State o = StateUnloaded)) /\
  (forall event sub, sub ∈ events.subs_of (Manager.dispatcher m) event ->
     exists p, Manager.plugins m !! events.Subscription.PluginID sub = Some p /\
               events.Subscription.Handler sub = closure p event) /\
  (forall c, c ∈ Manager.trace m -> GuestCall.on_closed c = false).

(** A call that leaves the dispatcher, the plugin map and the load order
    as they are, changes only objects that are in the plugin map, keeps
    them open and settled, and calls only open guests. *)
Definition gentle (m m' : Manager.t) : Prop :=
  Manager.dispatcher m' = Manager.dispatcher m /\
  Manager.plugins m' = Manager.plugins m /\
  Manager.loadOrder m' = Manager.loadOrder m /\
  (forall q,
     match Manager.heap m' !! q with
     | Some o' =>
         exists o, Manager.heap m !! q = Some o /\
                   (o' = o \/
                    (registered m q /\
                     Loaded.Manifest o' = Loaded.Manifest o /\
                     Loaded.closes o' = Loaded.closes o /\
                     settled (Loaded.State o') = true))
     | None => Manager.heap m !! q = None
     end) /\
  (forall c, c ∈ Manager.trace m' ->
             c ∈ Manager.trace m \/ GuestCall.on_closed c = false).

(** No subscription slice is longer than what [slices.SortFunc] sorts by
    insertion. *)
Definition within_insertion (m : Manager.t) : bool :=
  forallb (fun kv => (length (snd kv) <=? events.maxInsertion)%nat)
    (map_to_list (events.Dispatcher.subscriptions (Manager.dispatcher m))).

(** Two closures made for two objects are two function values. *)
Definition distinct_closures (closure : nat -> EventType -> events.Handler)
  : Prop :=
  forall p q event, closure p event = closure q event -> p = q.

(** The states of a manager that is not closed: it starts empty; any of
    its methods above may be called; and any handler the dispatcher
    holds may be called, as [Dispatch] does.  A handler that panics ends
    the program: nothing in the repository recovers. *)
Inductive reachable (closure : nat -> EventType -> events.Handler)
  : Manager.t -> Prop :=
  | reach_New : reachable closure New
  | reach_step m op :
      reachable closure m ->
      within_insertion (step closure m op) = true ->
      reachable closure (step closure m op)
  | reach_handle m event sub p timed_out ctx_err answer data elapsed now m' r :
      reachable closure m ->
      sub ∈ events.subs_of (Manager.dispatcher m) event ->
      events.Subscription.Handler sub = closure p event ->
      call_handler m p event timed_out ctx_err answer data elapsed now
        = Some (m', r) ->
      reachable closure m'.

End lifecycle.

(** * Properties *)

Import events.

(** ** Machine integers in range *)

Lemma wrap_int_small z : GoInt.MinInt <= z <= GoInt.MaxInt -> GoInt.wrap_int z = z.
Proof.
  unfold GoInt.wrap_int, GoInt.MinInt, GoInt.MaxInt. intros H.
  rewrite Z.mod_small; lia.
Qed.

Lemma wrap_uint32_small z : 0 <= z < 2 ^ 32 -> GoInt.wrap_uint32 z = z.
Proof. unfold GoInt.wrap_uint32. intros H. now apply Z.mod_small. Qed.

Lemma wrap_uint64_small z : 0 <= z < 2 ^ 64 -> GoInt.wrap_uint64 z = z.
Proof. unfold GoInt.wrap_uint64. intros H. now apply Z.mod_small. Qed.

(** ** The dispatch loop *)

Lemma dispatch_loop_app ser i l1 l2 st :
  dispatch_loop ser i (l1 ++ l2) st =
  dispatch_loop ser (i + length l1) l2 (dispatch_loop ser i l1 st).
Proof.
  revert i st. induction l1 as [|s l1 IH]; intros i st; simpl.
  - by rewrite Nat.add_0_r.
  - rewrite IH. f_equal. lia.
Qed.

Lemma dispatch_loop_snoc ser l s st :
  dispatch_loop ser 0 (l ++ [s]) st =
  dispatch_body ser (length l) s (dispatch_loop ser 0 l st).
Proof. by rewrite dispatch_loop_app. Qed.

(** What one iteration does to the list of calls. *)
Lemma dispatch_body_calls ser i sub r c :
  snd (dispatch_body ser i sub (r, c)) =
  if DispatchResult.Cancelled r && Subscription.IgnoreCancelled sub
  then c else c ++ [i].
Proof.
  unfold dispatch_body.
  destruct (DispatchResult.Cancelled r && Subscription.IgnoreCancelled sub);
    [done|].
  destruct (Subscription.Handler sub ser) as [[hr|] [e|]]; done.
Qed.

Lemma dispatch_loop_calls ser subs j :
  j ∈ snd (dispatch_loop ser 0 subs (fresh_result, [])) ↔
  ∃ H, subs !! j = Some H ∧
       DispatchResult.Cancelled
         (fst (dispatch_loop ser 0 (take j subs) (fresh_result, [])))
       && Subscription.IgnoreCancelled H = false.
Proof.
  induction subs as [|s l IH] using rev_ind.
  - simpl. split; [by intros ?%elem_of_nil|]. by intros (H & ? & _).
  - rewrite dispatch_loop_snoc.
    destruct (dispatch_loop ser 0 l (fresh_result, [])) as [r c] eqn:Hl.
    rewrite dispatch_body_calls. simpl in IH.
    assert (Hbound : j ∈ c → (j < length l)%nat).
    { intros (H & HH & _)%IH. by eapply lookup_lt_Some. }
    destruct (decide (j < length l)%nat) as [Hlt|Hge].
    + rewrite lookup_app_l by done. rewrite take_app_le by lia.
      rewrite <- IH.
      destruct (DispatchResult.Cancelled r && Subscription.IgnoreCancelled s);
        [done|].
      rewrite elem_of_app, list_elem_of_singleton. split; [|tauto].
      intros [?| ->]; [done|lia].
    + destruct (decide (j = length l)) as [-> |Hne].
      * rewrite lookup_app_r by lia. rewrite Nat.sub_diag. simpl.
        rewrite take_app_length. rewrite Hl. simpl.
        destruct (DispatchResult.Cancelled r && Subscription.IgnoreCancelled s)
          eqn:Hskip.
        -- split; [intros ?%Hbound; lia|]. intros (H & [= <-] & ?). congruence.
        -- rewrite elem_of_app, list_elem_of_singleton. split; [|tauto].
           intros _. by exists s.
      * assert (Hnone : (l ++ [s]) !! j = None).
        { apply lookup_ge_None. rewrite length_app. simpl. lia. }
        rewrite Hnone. split; [|by intros (H & ? & _)].
        destruct (DispatchResult.Cancelled r && Subscription.IgnoreCancelled s).
        -- intros ?%Hbound. lia.
        -- rewrite elem_of_app, list_elem_of_singleton.
           intros [?%Hbound| ->]; lia.
Qed.

Lemma Dispatch_called d event ser elapsed :
  DispatchOutcome.called (Dispatch d event ser elapsed) =
  map (pair event)
    (snd (dispatch_loop ser 0 (subs_of d event) (fresh_result, []))).
Proof.
  unfold Dispatch.
  destruct (subs_of d event) as [|s l] eqn:Hs; [done|].
  simpl length. simpl Nat.eqb. cbv iota.
  by destruct (dispatch_loop ser 0 (s :: l) (fresh_result, [])).
Qed.

Import scenarios.

Lemma invocations_elem payload subs :
  ∀ c i j a,
    (j, a) ∈ invocations payload c i subs ↔
    ∃ k H, j = (i + k)%nat ∧ subs !! k = Some H ∧
           a = Subscription.Handler H payload ∧
           (c || existsb (λ x, cancels (snd x))
                   (invocations payload c i (take k subs)))
           && Subscription.IgnoreCancelled H = false.
Proof.
  induction subs as [|H0 rest IH]; intros c i j a.
  - simpl. split; [by intros ?%elem_of_nil|]. by intros (k & H & _ & ? & _).
  - cbn [invocations].
    destruct (c && Subscription.IgnoreCancelled H0) eqn:Hskip.
    + rewrite IH. split.
      * intros (k & H & -> & Hk & -> & Hc). exists (S k), H.
        split; [lia|]. split; [done|]. split; [done|].
        cbn [take invocations]. by rewrite Hskip.
      * intros ([|k] & H & -> & Hk & -> & Hc).
        -- simpl in Hk, Hc. injection Hk as <-.
           rewrite orb_false_r in Hc. congruence.
        -- exists k, H. split; [lia|]. split; [done|]. split; [done|].
           cbn [take invocations] in Hc. by rewrite Hskip in Hc.
    + rewrite elem_of_cons, IH. split.
      * intros [[= -> ->]|(k & H & -> & Hk & -> & Hc)].
        -- exists 0%nat, H0. split; [lia|]. split; [done|]. split; [done|].
           simpl. by rewrite orb_false_r.
        -- exists (S k), H. split; [lia|]. split; [done|]. split; [done|].
           cbn [take invocations]. rewrite Hskip.
           cbn [existsb snd]. by rewrite orb_assoc.
      * intros ([|k] & H & -> & Hk & -> & Hc).
        -- simpl in Hk. injection Hk as <-. left. f_equal. lia.
        -- right. exists k, H. split; [lia|]. split; [done|]. split; [done|].
           cbn [take invocations] in Hc. rewrite Hskip in Hc.
           cbn [existsb snd] in Hc. by rewrite orb_assoc in Hc.
Qed.

Lemma invocations_lookup payload subs j a :
  (j, a) ∈ invocations payload false 0 subs ↔
  ∃ H, subs !! j = Some H ∧ a = Subscription.Handler H payload ∧
       (cancelled_so_far payload subs j = false ∨
        Subscription.IgnoreCancelled H = false).
Proof.
  rewrite invocations_elem. unfold cancelled_so_far. simpl. split.
  - intros (k & H & -> & Hk & -> & Hc). exists H.
    split; [done|]. split; [done|]. by apply andb_false_iff.
  - intros (H & Hk & -> & Hc). exists j, H.
    split; [done|]. split; [done|]. split; [done|]. by apply andb_false_iff.
Qed.

(** One iteration of the loop on a subscription that is not skipped: the
    position is logged, and the flag and the errors take up what the
    handler returned on the payload. *)
Lemma dispatch_body_invoked ser i H r calls :
  DispatchResult.Cancelled r && Subscription.IgnoreCancelled H = false →
  let st := dispatch_body ser i H (r, calls) in
  snd st = calls ++ [i] ∧
  DispatchResult.Cancelled (fst st)
  = DispatchResult.Cancelled r || cancels (Subscription.Handler H ser) ∧
  DispatchResult.Errors (fst st)
  = DispatchResult.Errors r ++ returned_errors [Subscription.Handler H ser].
Proof.
  intros Hskip. unfold dispatch_body. rewrite Hskip.
  destruct (Subscription.Handler H ser) as [[hr|] [e|]]; simpl;
    rewrite ?orb_false_r, ?app_nil_r; try done.
  split; [done|]. split; [|done].
  by destruct (EventResult.Cancelled hr), (DispatchResult.Cancelled r).
Qed.

(** The loop of [Dispatch] against the specification's reading: the
    positions it logs are those of the invoked handlers, the flag of its
    result is the flag of the specification, and the errors it collects
    are the errors the invoked handlers returned. *)
Lemma dispatch_loop_invocations ser subs :
  ∀ i r calls,
    let st := dispatch_loop ser i subs (r, calls) in
    let invoked := invocations ser (DispatchResult.Cancelled r) i subs in
    snd st = calls ++ map fst invoked ∧
    DispatchResult.Cancelled (fst st)
    = DispatchResult.Cancelled r || existsb (λ x, cancels (snd x)) invoked ∧
    DispatchResult.Errors (fst st)
    = DispatchResult.Errors r ++ returned_errors (map snd invoked).
Proof.
  induction subs as [|H0 rest IH]; intros i r calls.
  - simpl. by rewrite !app_nil_r, orb_false_r.
  - cbn [dispatch_loop invocations].
    destruct (DispatchResult.Cancelled r && Subscription.IgnoreCancelled H0)
      eqn:Hskip.
    + unfold dispatch_body. rewrite Hskip. apply IH.
    + destruct (dispatch_body_invoked ser i H0 r calls Hskip)
        as (B1 & B2 & B3).
      destruct (dispatch_body ser i H0 (r, calls)) as [r' calls'].
      cbn [fst snd] in B1, B2, B3.
      destruct (IH (S i) r' calls') as (IH1 & IH2 & IH3).
      rewrite IH1, IH2, IH3, B1, B2, B3.
      cbn [map fst snd existsb]. unfold returned_errors.
      cbn [omap list_omap].
      rewrite <- !app_assoc, orb_assoc. split; [done|]. split; [done|].
      by destruct (Subscription.Handler H0 ser).2.
Qed.

Lemma take_take_le {A} (l : list A) k i :
  (k ≤ i)%nat → take k (take i l) = take k l.
Proof. intros Hle. rewrite take_take. f_equal. lia. Qed.

(** C1.  [Dispatch] of event [event] with payload [serialized] invokes
    exactly the handlers subscribed to [event] for which, at the moment
    the handler is considered, the result accumulated so far is not
    cancelled or the handler's [IgnoreCancelled] flag is false, each one
    once and in the order of the subscription list; a subscribed handler
    is left out only when the accumulated result is cancelled and its
    flag is true.  The accumulated result is cancelled at that moment
    exactly when a handler invoked before returned, without an error, a
    cancelled result: the flag of the loop is the flag of the
    specification.  That the handlers are invoked shows in the result:
    it is cancelled exactly when an invoked handler cancelled, and its
    errors are the errors the invoked handlers returned on the payload,
    in order. *)
Theorem C1_dispatch_calls_exactly (d : Dispatcher.t) (event : plugin.EventType)
    (serialized : list byte) (elapsed : Z) :
  let out := Dispatch d event serialized elapsed in
  let subs := subs_of d event in
  let invoked := invocations serialized false 0 subs in
  DispatchOutcome.called out = map (λ x, (event, fst x)) invoked ∧
  (∀ i a, (i, a) ∈ invoked →
          ∃ H, subs !! i = Some H ∧
               a = Subscription.Handler H serialized) ∧
  (∀ e i,
     (e, i) ∈ DispatchOutcome.called out ↔
     e = event ∧
     ∃ H, subs !! i = Some H ∧
          (cancelled_so_far serialized subs i = false ∨
           Subscription.IgnoreCancelled H = false)) ∧
  (∀ i H, subs !! i = Some H →
          (event, i) ∉ DispatchOutcome.called out →
          cancelled_so_far serialized subs i = true ∧
          Subscription.IgnoreCancelled H = true) ∧
  (∀ i, cancelled_so_far serialized subs i = true ↔
        ∃ j H, (j < i)%nat ∧ (event, j) ∈ DispatchOutcome.called out ∧
               subs !! j = Some H ∧
               cancels (Subscription.Handler H serialized) = true) ∧
  (∀ i, DispatchResult.Cancelled (accumulated d event serialized i)
        = cancelled_so_far serialized subs i) ∧
  DispatchResult.Cancelled (DispatchOutcome.result out)
  = existsb (λ x, cancels (snd x)) invoked ∧
  DispatchResult.Errors (DispatchOutcome.result out)
  = returned_errors (map snd invoked).
Proof.
  intros out subs invoked.
  assert (Hcalled : DispatchOutcome.called out
                    = map (λ x, (event, fst x)) invoked).
  { subst out. rewrite Dispatch_called. fold subs.
    destruct (dispatch_loop_invocations serialized subs 0 fresh_result [])
      as (-> & _ & _).
    simpl. by rewrite map_map. }
  assert (Hin : ∀ e i, (e, i) ∈ DispatchOutcome.called out ↔
                       e = event ∧ ∃ a, (i, a) ∈ invoked).
  { intros e i. rewrite Hcalled, list_elem_of_fmap. split.
    - intros ([j a] & [= -> ->] & Hja). split; [done|]. by exists a.
    - intros (-> & a & Hia). by exists (i, a). }
  assert (Hiff : ∀ e i,
            (e, i) ∈ DispatchOutcome.called out ↔
            e = event ∧
            ∃ H, subs !! i = Some H ∧
                 (cancelled_so_far serialized subs i = false ∨
                  Subscription.IgnoreCancelled H = false)).
  { intros e i. rewrite Hin. split.
    - intros (-> & a & (H & HH & _ & Hc)%invocations_lookup). eauto.
    - intros (-> & H & HH & Hc). split; [done|].
      exists (Subscription.Handler H serialized).
      apply invocations_lookup. eauto. }
  split; [done|]. split; [|split; [done|split; [|split; [|split; [|split]]]]].
  - intros i a (H & HH & -> & _)%invocations_lookup. eauto.
  - intros i H HH Hnot.
    destruct (cancelled_so_far serialized subs i) eqn:Hc,
             (Subscription.IgnoreCancelled H) eqn:Hi;
      try done; exfalso; apply Hnot, Hiff; split; try done; exists H;
      rewrite Hi; auto.
  - intros i. unfold cancelled_so_far at 1. rewrite existsb_exists. split.
    + intros ([j a] & Hja & Hcan). simpl in Hcan.
      apply list_elem_of_In, invocations_lookup in Hja as (H & HH & -> & Hc).
      apply lookup_take_Some in HH as [HH Hlt].
      exists j, H. split; [done|]. split; [|done].
      apply Hiff. split; [done|]. exists H. split; [done|].
      unfold cancelled_so_far in Hc. rewrite take_take_le in Hc by lia.
      done.
    + intros (j & H & Hlt & (_ & H' & HH' & Hc)%Hiff & HH & Hcan).
      rewrite HH in HH'. injection HH' as <-.
      exists (j, Subscription.Handler H serialized). split; [|done].
      apply list_elem_of_In, invocations_lookup. exists H.
      split; [by apply lookup_take_Some|]. split; [done|].
      unfold cancelled_so_far. by rewrite take_take_le by lia.
  - intros i. unfold accumulated, cancelled_so_far. fold subs.
    by destruct (dispatch_loop_invocations serialized (take i subs) 0
                   fresh_result []) as (_ & -> & _).
  - subst out. unfold Dispatch. fold subs. subst invoked.
    destruct subs as [|s l] eqn:Hs; [done|].
    change (length (s :: l) =? 0)%nat with false. cbv iota.
    pose proof (dispatch_loop_invocations serialized (s :: l) 0
                  fresh_result []) as (_ & H2 & _).
    destruct (dispatch_loop serialized 0 (s :: l) (fresh_result, [])).
    exact H2.
  - subst out. unfold Dispatch. fold subs. subst invoked.
    destruct subs as [|s l] eqn:Hs; [done|].
    change (length (s :: l) =? 0)%nat with false. cbv iota.
    pose proof (dispatch_loop_invocations serialized (s :: l) 0
                  fresh_result []) as (_ & _ & H3).
    destruct (dispatch_loop serialized 0 (s :: l) (fresh_result, [])).
    exact H3.
Qed.

(** ** Parsing the guest's answer *)

Lemma byte_eqb_x01 (b : byte) : Byte.eqb b x01 = true ↔ b = x01.
Proof.
  split; [apply Byte.byte_dec_bl | intros ->; reflexivity].
Qed.

(** C8.  For every output of a guest's [handle_event], both
    [parseEventResult] functions set [Cancelled] exactly when the output is
    non-empty and its first byte is 1; the empty output and a first byte
    of 2 give [Cancelled = false]; and the parse always yields a result
    with an empty [Error], whatever the shape of the output. *)
Theorem C8_parseEventResult_cancelled (data : list byte) :
  (EventResult.Cancelled (manager.parseEventResult data) = true ↔
   ∃ rest, data = x01 :: rest) ∧
  (EventResult.Cancelled (runtime.parseEventResult data) = true ↔
   ∃ rest, data = x01 :: rest) ∧
  EventResult.Cancelled (manager.parseEventResult []) = false ∧
  EventResult.Cancelled (runtime.parseEventResult []) = false ∧
  (∀ rest, EventResult.Cancelled (manager.parseEventResult (x02 :: rest)) = false) ∧
  (∀ rest, EventResult.Cancelled (runtime.parseEventResult (x02 :: rest)) = false) ∧
  EventResult.Error (manager.parseEventResult data) = ""%string ∧
  EventResult.Error (runtime.parseEventResult data) = ""%string.
Proof.
  repeat split; try done.
  - destruct data as [|b rest]; simpl; [done|].
    intros ->%byte_eqb_x01. by exists rest.
  - intros (rest & ->). reflexivity.
  - destruct data as [|b rest]; simpl; [done|].
    destruct (Byte.eqb b x01) eqn:Hb; [|done].
    apply byte_eqb_x01 in Hb as ->. by exists rest.
  - intros (rest & ->). reflexivity.
Qed.

(** ** Storage *)

Import storage.

Lemma lookup_store_entry data p k v :
  lookup_entry (store_entry data p k v) p k = (v, true).
Proof.
  unfold lookup_entry, store_entry.
  by rewrite !lookup_insert_eq.
Qed.

Lemma lookup_remove_entry data p k :
  lookup_entry (remove_entry data p k) p k = ([], false).
Proof.
  unfold lookup_entry, remove_entry.
  destruct (data !! p) as [pd|] eqn:Hp.
  - by rewrite lookup_insert_eq, lookup_delete_eq.
  - by rewrite Hp.
Qed.

Lemma persist_data s p io :
  FileStorage.data (fst (persist s p io)) = FileStorage.data s.
Proof.
  unfold persist.
  destruct (filepath.Join [FileStorage.basePath s; p]); [|done].
  destruct (filepath.Join [FileStorage.basePath s; p; _]); [|done].
  by destruct io.
Qed.

Lemma File_Clear_data s p io :
  FileStorage.data (fst (File.Clear s p io)) = delete p (FileStorage.data s).
Proof. unfold File.Clear. by destruct (RemoveAll _ _ _). Qed.

Lemma File_Delete_data s p k io :
  FileStorage.data (fst (File.Delete s p k io)) =
  remove_entry (FileStorage.data s) p k.
Proof.
  unfold File.Delete, remove_entry.
  destruct (FileStorage.data s !! p); [|done].
  by rewrite persist_data.
Qed.

(** C7.  For every plugin id, key and value, and for both the in-memory
    and the file-backed store: [Get] after [Set] returns the value and
    "present", and [Get] after [Delete] reports "absent" (from the state
    the [Set] left, and from any other state).  For the file-backed store
    this holds whether or not the writes to disk succeed. *)
Theorem C7_storage_round_trip (p k : string) (v : list byte) :
  (∀ s : MemoryStorage.t,
     Mem.Get (fst (Mem.Set_ s p k v)) p k = (v, true, None) ∧
     Mem.Get (fst (Mem.Delete (fst (Mem.Set_ s p k v)) p k)) p k
       = ([], false, None) ∧
     Mem.Get (fst (Mem.Delete s p k)) p k = ([], false, None)) ∧
  (∀ (s : FileStorage.t) (io1 io2 : bool),
     File.Get (fst (File.Set_ s p k v io1)) p k = (v, true, None) ∧
     File.Get (fst (File.Delete (fst (File.Set_ s p k v io1)) p k io2)) p k
       = ([], false, None) ∧
     File.Get (fst (File.Delete s p k io2)) p k = ([], false, None)).
Proof.
  split.
  - intros s. unfold Mem.Get, Mem.Set_, Mem.Delete. simpl.
    by rewrite lookup_store_entry, !lookup_remove_entry.
  - intros s io1 io2. unfold File.Get.
    rewrite !File_Delete_data. unfold File.Set_. rewrite persist_data. simpl.
    by rewrite lookup_store_entry, !lookup_remove_entry.
Qed.

(** ** Dispatch with no subscription *)

(** C9.  When the event has no subscription at the moment of the call,
    [Dispatch] returns the zero [DispatchResult] (no handler, not
    cancelled, nil modifications, zero duration, no error), calls nothing
    and leaves the dispatcher, and with it the per-event counters,
    unchanged. *)
Theorem C9_dispatch_no_subscription (d : Dispatcher.t)
    (event : plugin.EventType) (serialized : list byte) (elapsed : Z) :
  subs_of d event = [] →
  Dispatch d event serialized elapsed
    = DispatchOutcome.mk DispatchResult.zero d [] ∧
  DispatchResult.Handlers DispatchResult.zero = 0 ∧
  DispatchResult.Cancelled DispatchResult.zero = false ∧
  DispatchResult.Modifications DispatchResult.zero = None ∧
  DispatchResult.Duration DispatchResult.zero = 0.
Proof.
  intros Hs. unfold Dispatch. rewrite Hs. done.
Qed.

Lemma C9_dispatch_no_subscription_witness :
  subs_of NewDispatcher plugin.EventPlayerChat = [] ∧
  Dispatch NewDispatcher plugin.EventPlayerChat [] 5
    = DispatchOutcome.mk DispatchResult.zero NewDispatcher [].
Proof.
  split; [reflexivity|].
  apply (C9_dispatch_no_subscription NewDispatcher plugin.EventPlayerChat [] 5).
  reflexivity.
Defined.

(** The other path: with at least one subscription in the snapshot the
    event counter is bumped, so the dispatcher does change. *)
Lemma dispatch_some_subscription_counts d event serialized elapsed :
  subs_of d event ≠ [] →
  Dispatcher.eventCount
    (DispatchOutcome.dispatcher (Dispatch d event serialized elapsed)) !! event
  = Some (GoInt.wrap_uint64
            (default 0 (Dispatcher.eventCount d !! event) + 1)).
Proof.
  intros Hs. unfold Dispatch.
  destruct (subs_of d event) as [|s l]; [done|].
  simpl length. simpl Nat.eqb. cbv iota.
  destruct (dispatch_loop serialized 0 (s :: l) (fresh_result, [])) as [r c].
  simpl. unfold bump_uint64. by rewrite lookup_insert_eq.
Qed.

(** ** Scenarios on the dispatcher *)

Import scenarios.

Lemma subs_of_Subscribe d e s :
  subs_of (Subscribe d e s) e = SortFunc (subs_of d e ++ [s]) cmpPriority.
Proof. unfold subs_of at 1, Subscribe. simpl. by rewrite lookup_insert_eq. Qed.

Lemma subs_of_NewDispatcher e : subs_of NewDispatcher e = [].
Proof. unfold subs_of, NewDispatcher. simpl. by rewrite lookup_empty. Qed.

Lemma two_handlers_subs h1 h2 :
  subs_of (two_handlers h1 h2) plugin.EventPlayerChat =
  if cmpPriority h2 h1 <? 0 then [h2; h1] else [h1; h2].
Proof.
  unfold two_handlers. rewrite !subs_of_Subscribe, subs_of_NewDispatcher.
  unfold SortFunc, insertionSortCmpFunc. simpl.
  by destruct (cmpPriority h2 h1 <? 0).
Qed.

Lemma Dispatch_two d event ser elapsed s1 s2 :
  subs_of d event = [s1; s2] →
  Dispatch d event ser elapsed =
  let '(r, c) :=
    dispatch_body ser 1 s2 (dispatch_body ser 0 s1 (fresh_result, [])) in
  DispatchOutcome.mk
    (DispatchResult.mk (DispatchResult.Cancelled r)
       (DispatchResult.Modifications r) (DispatchResult.Handlers r) elapsed
       (DispatchResult.Errors r))
    (Dispatcher.mk (Dispatcher.subscriptions d)
       (bump_uint64 event (Dispatcher.eventCount d))
       (if DispatchResult.Cancelled r
        then bump_uint64 event (Dispatcher.cancelCount d)
        else Dispatcher.cancelCount d)
       (add_duration event elapsed (Dispatcher.dispatchTimes d)))
    (map (pair event) c).
Proof. intros Hs. unfold Dispatch. rewrite Hs. reflexivity. Qed.

(** C2, as the specification states it, fails: in scenario S4 the second
    handler is called too, and two handlers are counted. *)
Lemma C2_counterexample :
  let out := Dispatch (two_handlers S4_H1 S4_H2) plugin.EventPlayerChat [] 0 in
  ¬ (DispatchOutcome.called out = [(plugin.EventPlayerChat, 0%nat)] ∧
     DispatchResult.Cancelled (DispatchOutcome.result out) = true ∧
     DispatchResult.Handlers (DispatchOutcome.result out) = 1).
Proof.
  intros out (Hcalled & _ & _).
  unfold out in Hcalled. rewrite Dispatch_called in Hcalled.
  rewrite two_handlers_subs in Hcalled. vm_compute in Hcalled. discriminate.
Qed.

(** C2, amended.  In scenario S4, with [H1] at priority 0 answering
    "cancelled" and [H2] at priority 100, whatever [H2]'s handler does:
    [Dispatch] calls [H1] and then, when [H2.ignore_cancelled] is false,
    [H2] as well; the result is cancelled; and [Handlers] is 2 when [H2]
    is called and returns without error, 1 otherwise.  [H2] is left out,
    with [Handlers = 1], only when its [ignore_cancelled] flag is true. *)
Theorem C2_dispatch_cancellation (h2 : Handler) (ic1 ic2 : bool)
    (serialized : list byte) (elapsed : Z) :
  let H1 := Subscription.mk "plugin.one" 0 (answers true ∅) ic1 in
  let H2 := Subscription.mk "plugin.two" 100 h2 ic2 in
  let out :=
    Dispatch (two_handlers H1 H2) plugin.EventPlayerChat serialized elapsed in
  DispatchOutcome.called out =
    (plugin.EventPlayerChat, 0%nat) ::
    (if ic2 then [] else [(plugin.EventPlayerChat, 1%nat)]) ∧
  DispatchResult.Cancelled (DispatchOutcome.result out) = true ∧
  DispatchResult.Handlers (DispatchOutcome.result out) =
    (if ic2 then 1
     else match snd (h2 serialized) with Some _ => 1 | None => 2 end).
Proof.
  intros H1 H2 out. unfold out.
  rewrite (Dispatch_two _ _ _ _ H1 H2)
    by (rewrite two_handlers_subs; reflexivity).
  unfold dispatch_body at 2. simpl.
  unfold dispatch_body. simpl.
  destruct ic2; simpl; [done|].
  destruct (h2 serialized) as [[hr|] [e|]]; simpl; try done.
  by destruct (EventResult.Cancelled hr).
Qed.

(** C3 fails on the code: the comparison [int(a.Priority - b.Priority)]
    wraps around.  After subscribing a handler of priority [MinInt] and
    then one of priority 1, the handler of priority 1 stands first and
    [Dispatch] calls it first. *)
Theorem C3_priority_order_overflow :
  let d := two_handlers far_low near_one in
  map Subscription.PluginID (subs_of d plugin.EventPlayerChat)
    = ["plugin.one"; "plugin.low"]%string ∧
  map Subscription.Priority (subs_of d plugin.EventPlayerChat)
    = [1; GoInt.MinInt] ∧
  GoInt.MinInt < 1 ∧
  ∀ serialized elapsed,
    DispatchOutcome.called (Dispatch d plugin.EventPlayerChat serialized elapsed)
    = [(plugin.EventPlayerChat, 0%nat); (plugin.EventPlayerChat, 1%nat)].
Proof.
  intros d. unfold d.
  assert (Hs : subs_of (two_handlers far_low near_one) plugin.EventPlayerChat
               = [near_one; far_low]).
  { rewrite two_handlers_subs. reflexivity. }
  rewrite Hs.
  split; [reflexivity|]. split; [reflexivity|]. split; [reflexivity|].
  intros ser elapsed. rewrite Dispatch_called, Hs. reflexivity.
Qed.

(** *** Subscribing within the safe range *)

Lemma cmpPriority_in_range a b :
  in_range a → in_range b →
  cmpPriority a b = Subscription.Priority a - Subscription.Priority b.
Proof.
  unfold in_range, cmpPriority. change (2 ^ 62) with 4611686018427387904.
  intros Ha Hb. apply wrap_int_small. unfold GoInt.MinInt, GoInt.MaxInt.
  change (2 ^ 63) with 9223372036854775808. lia.
Qed.

Lemma sink_descending s r :
  in_range s → Forall in_range r →
  StronglySorted (flip prio_le) r →
  ∃ r1 r2, r = r1 ++ r2 ∧
           Forall (λ x, Subscription.Priority s < Subscription.Priority x) r1 ∧
           Forall (λ x, prio_le x s) r2 ∧
           sink cmpPriority s r = r1 ++ s :: r2.
Proof.
  intros Hs. induction r as [|y ys IH]; intros Hr Hd.
  - exists [], []. by repeat split.
  - apply Forall_cons in Hr as [Hy Hys].
    apply StronglySorted_inv in Hd as [Hd Hall].
    simpl. rewrite cmpPriority_in_range by done.
    destruct (Subscription.Priority s - Subscription.Priority y <? 0) eqn:Hc.
    + apply Z.ltb_lt in Hc.
      destruct (IH Hys Hd) as (r1 & r2 & -> & H1 & H2 & ->).
      exists (y :: r1), r2. split; [done|].
      split; [constructor; [lia|done]|]. by split.
    + apply Z.ltb_ge in Hc.
      exists [], (y :: ys). split; [done|]. split; [constructor|].
      split; [|done]. constructor; [unfold prio_le; lia|].
      eapply Forall_impl; [exact Hall|].
      intros x Hx. unfold flip, prio_le in *. lia.
Qed.

Lemma StronglySorted_rev {A} (R : relation A) (l : list A) :
  StronglySorted R l → StronglySorted (flip R) (rev l).
Proof.
  induction 1 as [|x l Hs IH Hall]; simpl; [constructor|].
  apply StronglySorted_app_2; [|done|repeat constructor].
  intros x1 x2 Hx1%list_elem_of_In%in_rev%list_elem_of_In
    ->%list_elem_of_singleton.
  unfold flip. by eapply Forall_forall in Hall.
Qed.

Lemma Forall_rev_2 {A} (P : A → Prop) (l : list A) :
  Forall P l → Forall P (rev l).
Proof.
  intros HP. apply Forall_forall.
  intros x Hx%list_elem_of_In%in_rev%list_elem_of_In.
  by eapply Forall_forall in HP.
Qed.

Lemma fold_sink_ascending l :
  Forall in_range l → StronglySorted prio_le l →
  fold_left (λ acc x, sink cmpPriority x acc) l [] = rev l.
Proof.
  induction l as [|x l IH] using rev_ind; intros Hr Hs; [done|].
  apply Forall_app in Hr as [Hr Hx]. apply Forall_cons in Hx as [Hx _].
  pose proof (StronglySorted_app_1_l _ _ _ Hs) as Hl.
  rewrite fold_left_app, rev_app_distr. simpl. rewrite IH by done.
  destruct (rev l) as [|y ys] eqn:Hrev; [done|]. simpl.
  assert (Hy : y ∈ l).
  { apply list_elem_of_In, in_rev. rewrite Hrev. by left. }
  rewrite cmpPriority_in_range;
    [|done|by eapply Forall_forall in Hr].
  assert (Hle : prio_le y x).
  { eapply (StronglySorted_app_1_elem_of _ _ _ _ _ Hs); [done|left]. }
  unfold prio_le in Hle.
  by rewrite (proj2 (Z.ltb_ge _ _)) by lia.
Qed.

(** Where the comparison cannot wrap (all priorities from -2^62 up to, not including, 2^62)
    and the slice stays within the insertion-sort branch of
    [slices.SortFunc], [Subscribe] on an ascending list puts the new
    subscription behind every subscription of lower or equal priority and
    before every one of higher priority, and moves nothing else: the list
    stays ascending and ties keep their insertion order. *)
Lemma Subscribe_in_range_stable d e s :
  let old := subs_of d e in
  (length old < maxInsertion)%nat →
  Forall in_range old → in_range s → StronglySorted prio_le old →
  ∃ l1 l2,
    old = l1 ++ l2 ∧
    Forall (λ x, prio_le x s) l1 ∧
    Forall (λ x, Subscription.Priority s < Subscription.Priority x) l2 ∧
    subs_of (Subscribe d e s) e = l1 ++ s :: l2 ∧
    StronglySorted prio_le (l1 ++ s :: l2).
Proof.
  intros old _ Hr Hs Hsorted.
  rewrite subs_of_Subscribe. fold old.
  unfold SortFunc, insertionSortCmpFunc.
  rewrite fold_left_app. simpl. rewrite fold_sink_ascending by done.
  destruct (sink_descending s (rev old)) as (r1 & r2 & Hrev & H1 & H2 & ->);
    [done|by apply Forall_rev_2|by apply StronglySorted_rev|].
  assert (Hold : old = rev r2 ++ rev r1).
  { rewrite <- rev_app_distr, <- Hrev. by rewrite rev_involutive. }
  exists (rev r2), (rev r1).
  split; [done|]. split; [by apply Forall_rev_2|].
  split; [by apply Forall_rev_2|].
  split; [rewrite rev_app_distr; simpl; by rewrite <- app_assoc|].
  rewrite Hold in Hsorted.
  apply StronglySorted_app_2.
  - intros x1 x2 Hx1 [-> |Hx2]%elem_of_cons.
    + apply (Forall_rev_2 _ _) in H2. by eapply Forall_forall in H2.
    + by eapply (StronglySorted_app_1_elem_of _ _ _ _ _ Hsorted).
  - by eapply StronglySorted_app_1_l.
  - apply StronglySorted_cons. split; [|by eapply StronglySorted_app_1_r].
    apply (Forall_rev_2 _ _) in H1.
    eapply Forall_impl; [exact H1|].
    intros x Hx. unfold prio_le. simpl in Hx. lia.
Qed.

(** ** Modifications *)

Lemma dispatch_body_modifications ser i sub r c m :
  DispatchResult.Modifications r = Some m →
  DispatchResult.Modifications (fst (dispatch_body ser i sub (r, c))) =
  Some (if DispatchResult.Cancelled r && Subscription.IgnoreCancelled sub
        then m else returned_modifications ser sub ∪ m).
Proof.
  intros Hm. unfold dispatch_body, returned_modifications.
  destruct (DispatchResult.Cancelled r && Subscription.IgnoreCancelled sub);
    [done|].
  destruct (Subscription.Handler sub ser) as [[hr|] [e|]]; simpl;
    rewrite ?Hm; simpl; by rewrite ?(left_id_L ∅ (∪)).
Qed.

Lemma merge_in_order_snoc ser l s calls :
  (∀ j, j ∈ calls → (j < length l)%nat) →
  merge_in_order ser (l ++ [s]) calls = merge_in_order ser l calls.
Proof.
  unfold merge_in_order. generalize (∅ : gmap string string).
  induction calls as [|j calls IH]; intros acc Hb; simpl; [done|].
  rewrite lookup_app_l by (apply Hb; left).
  apply IH. intros j' Hj'. apply Hb. by right.
Qed.

Lemma dispatch_loop_modifications ser subs :
  DispatchResult.Modifications
    (fst (dispatch_loop ser 0 subs (fresh_result, []))) =
  Some (merge_in_order ser subs
          (snd (dispatch_loop ser 0 subs (fresh_result, [])))).
Proof.
  induction subs as [|s l IH] using rev_ind; [done|].
  rewrite dispatch_loop_snoc.
  assert (Hb : ∀ j, j ∈ snd (dispatch_loop ser 0 l (fresh_result, [])) →
                    (j < length l)%nat).
  { intros j (H & HH & _)%dispatch_loop_calls. by eapply lookup_lt_Some. }
  destruct (dispatch_loop ser 0 l (fresh_result, [])) as [r c].
  simpl in IH, Hb.
  rewrite (dispatch_body_modifications _ _ _ _ _ _ IH), dispatch_body_calls.
  f_equal.
  destruct (DispatchResult.Cancelled r && Subscription.IgnoreCancelled s).
  - by rewrite merge_in_order_snoc.
  - unfold merge_in_order at 2. rewrite fold_left_app. simpl.
    rewrite lookup_app_r by lia. rewrite Nat.sub_diag. simpl.
    f_equal. symmetry. by apply merge_in_order_snoc.
Qed.

(** C5, as the specification states it, fails: a guest answer that
    carries [message] after the first byte is parsed to a result without
    modifications, and scenario S6 played by two such guests ends without
    a [message] modification. *)
Lemma C5_counterexample :
  EventResult.Modifications
    (manager.parseEventResult (guest_output "hello")) !! "message"%string
    = None ∧
  modification
    (DispatchOutcome.result
       (Dispatch (two_handlers S6_G1 S6_G2) plugin.EventPlayerChat [] 0))
    "message" ≠ Some "world"%string.
Proof.
  split; [reflexivity|].
  rewrite (Dispatch_two _ _ _ _ S6_G1 S6_G2)
    by (rewrite two_handlers_subs; reflexivity).
  vm_compute. discriminate.
Qed.

(** C5, amended.  Both [parseEventResult] functions read the first byte
    only: for every guest output the modifications are empty and no error
    is reported, whatever follows the first byte.  [Dispatch] merges the
    modifications its handlers return, in the order the handlers ran, a
    later handler overwriting an earlier one on the same key; in scenario
    S6, with handlers that return [message = hello] at priority 0 and
    [message = world] at priority 100, the merged [message] is [world]. *)
Theorem C5_modifications_merge :
  (∀ data : list byte,
     EventResult.Modifications (manager.parseEventResult data) = ∅ ∧
     EventResult.Modifications (runtime.parseEventResult data) = ∅ ∧
     EventResult.Error (manager.parseEventResult data) = ""%string) ∧
  (∀ d event serialized elapsed,
     let out := Dispatch d event serialized elapsed in
     DispatchResult.Modifications (DispatchOutcome.result out) =
     if (length (subs_of d event) =? 0)%nat then None
     else Some (merge_in_order serialized (subs_of d event)
                  (map snd (DispatchOutcome.called out)))) ∧
  (∀ serialized elapsed,
     modification
       (DispatchOutcome.result
          (Dispatch (two_handlers S6_H1 S6_H2) plugin.EventPlayerChat
             serialized elapsed))
       "message" = Some "world"%string).
Proof.
  split; [done|]. split.
  - intros d event ser elapsed out. unfold out.
    rewrite Dispatch_called. rewrite map_map. simpl. rewrite map_id.
    unfold Dispatch.
    destruct (subs_of d event) as [|s l] eqn:Hs; [done|].
    simpl length. simpl Nat.eqb. cbv iota.
    pose proof (dispatch_loop_modifications ser (s :: l)) as Hm.
    destruct (dispatch_loop ser 0 (s :: l) (fresh_result, [])) as [r c].
    exact Hm.
  - intros ser elapsed.
    rewrite (Dispatch_two _ _ _ _ S6_H1 S6_H2)
      by (rewrite two_handlers_subs; reflexivity).
    reflexivity.
Qed.

(** ** Memory limits of an instance *)

(** [Manager.loadPlugin] asks for 16 pages per megabyte of the effective
    limit, for a limit from 1 MB up to the 4 GiB a guest can address. *)
Lemma loadPlugin_memory_cap cfg manifest :
  let mb :=
    plugin.ResourceLimits.MaxMemoryMB
      (config.GetEffectiveLimits cfg (plugin.Manifest.Limits manifest)) in
  0 < mb <= 4096 →
  extism.Manifest.Memory (manager.loadPlugin_extismManifest cfg manifest)
    = Some (extism.ManifestMemory.mk (mb * 16)) ∧
  extism.memory_cap_bytes (manager.loadPlugin_extismManifest cfg manifest)
    = Some (mb * extism.MiB).
Proof.
  intros mb Hmb.
  unfold extism.memory_cap_bytes, manager.loadPlugin_extismManifest.
  cbn [extism.Manifest.Memory extism.ManifestMemory.MaxPages]. fold mb.
  rewrite wrap_int_small
    by (unfold GoInt.MinInt, GoInt.MaxInt;
        change (2 ^ 63) with 9223372036854775808; lia).
  rewrite wrap_uint32_small by (change (2 ^ 32) with 4294967296; lia).
  split; [done|].
  destruct (0 <? mb * 16) eqn:Hpos; [|apply Z.ltb_ge in Hpos; lia].
  f_equal. unfold extism.page_size, extism.MiB. lia.
Qed.

(** C6 fails on the code: [runtime.NewInstance] computes the effective
    limits and drops them, so the engine instance it creates has no
    memory cap at all, for every configuration and manifest; on the same
    manifest [Manager.loadPlugin] asks for 64 MiB. *)
Theorem C6_NewInstance_without_memory_cap :
  (∀ cfg manifest,
     extism.memory_cap_bytes (runtime.NewInstance_manifest cfg manifest)
       = None) ∧
  extism.memory_cap_bytes
    (runtime.NewInstance_manifest config.DefaultConfig manifest_64) = None ∧
  extism.memory_cap_bytes
    (manager.loadPlugin_extismManifest config.DefaultConfig manifest_64)
    = Some (64 * extism.MiB).
Proof. repeat split. Qed.

(** ** The instance pool *)

Import runtime.

Lemma fill_inv n i create p p' :
  Z.of_nat (length (Pool.instances p)) + Z.of_nat n <= Pool.size p →
  Pool.chan_closed p = Pool.closed p →
  fill n i create p = PoolReturned p' →
  pool_inv p' ∧ Pool.size p' = Pool.size p.
Proof.
  revert i p. induction n as [|n IH]; intros i p Hlen Hc Hf; simpl in Hf.
  - injection Hf as <-. split; [split|]; [lia|done|done].
  - destruct (create i) as [inst|]; [|done].
    apply IH in Hf; simpl; [done| |done].
    rewrite length_app. simpl. lia.
Qed.

Lemma NewPool_inv cfg size create p :
  NewPool cfg size create = PoolReturned p → pool_inv p.
Proof.
  unfold NewPool.
  set (sz := if size <=? 0 then _ else size).
  destruct (sz <? 0) eqn:Hneg; [done|].
  intros Hf. eapply fill_inv in Hf as [Hinv _]; [done| |done].
  simpl. apply Z.ltb_ge in Hneg. lia.
Qed.

Ltac pool_close :=
  simpl in *; rewrite ?length_app; simpl;
  repeat split; first [congruence | lia].

Lemma step_inv p op :
  pool_inv p →
  pool_inv (fst (step p op)) ∧ Pool.size (fst (step p op)) = Pool.size p.
Proof.
  intros [Hlen Hc]. unfold pool_inv.
  destruct op as [c k|c k|inst|]; simpl;
    unfold Acquire, AcquireWait, Release, Close.
  - destruct (Pool.closed p) eqn:Hcl; [pool_close|].
    destruct (Pool.instances p) as [|x rest] eqn:Hi.
    + destruct c; rewrite <- Hi in *; pool_close.
    + destruct (c && k); [rewrite <- Hi in *|]; pool_close.
  - destruct (Pool.closed p) eqn:Hcl; [pool_close|].
    destruct (Pool.instances p) as [|x rest] eqn:Hi.
    + destruct c; rewrite <- Hi in *; pool_close.
    + destruct (c && k); [rewrite <- Hi in *|]; pool_close.
  - destruct (Pool.closed p) eqn:Hcl; [pool_close|].
    rewrite Hc.
    destruct (Z.of_nat (length (Pool.instances p)) <? Pool.size p) eqn:Hroom;
      [|pool_close].
    apply Z.ltb_lt in Hroom. pool_close.
  - destruct (Pool.closed p) eqn:Hcl; pool_close.
Qed.

Lemma run_inv ops p :
  pool_inv p → pool_inv (run ops p) ∧ Pool.size (run ops p) = Pool.size p.
Proof.
  revert p. induction ops as [|op ops IH]; intros p Hinv; [done|].
  unfold run. simpl. fold (run ops (fst (step p op))).
  destruct (step_inv p op Hinv) as [Hinv' Hsz].
  destruct (IH _ Hinv') as [? ?]. split; [done|congruence].
Qed.

(** C10.  Start from any pool that [NewPool] built and apply any sequence
    of [Acquire], [AcquireWait], [Release] and [Close] calls.  In the state
    reached: [Available() <= Size()] and [Size()] is the size fixed at
    construction; a [Release] returns (it neither blocks nor panics); and
    when the pool is closed, or its buffer already holds [Size()]
    instances, [Release] leaves the buffer as it is and closes the
    released instance. *)
Theorem C10_pool_release_bounded (cfg : config.Config.t) (size : Z)
    (create : nat → option nat) (p0 : Pool.t) (ops : list Op) (inst : nat) :
  NewPool cfg size create = PoolReturned p0 →
  let p := run ops p0 in
  0 <= Available p <= Size p ∧
  Size p = Size p0 ∧
  snd (Release inst p) = Returned None None ∧
  (Pool.closed p = true ∨ Available p = Size p →
   Pool.instances (fst (Release inst p)) = Pool.instances p ∧
   Pool.destroyed (fst (Release inst p)) = Pool.destroyed p ++ [inst]) ∧
  Available (fst (Release inst p)) <= Size (fst (Release inst p)).
Proof.
  intros Hnew p.
  destruct (run_inv ops p0 (NewPool_inv _ _ _ _ Hnew)) as [Hinv Hsz].
  fold p in Hinv, Hsz.
  pose proof (step_inv p (OpRelease inst) Hinv) as [[Hlen' _] Hsz'].
  simpl in Hlen', Hsz'.
  destruct Hinv as [Hlen Hc].
  unfold Available, Size.
  split; [lia|]. split; [done|]. split; [|split; [|lia]].
  - unfold Release. rewrite Hc.
    destruct (Pool.closed p); [done|].
    by destruct (Z.of_nat (length (Pool.instances p)) <? Pool.size p).
  - unfold Release. rewrite Hc.
    destruct (Pool.closed p) eqn:Hcl; [done|].
    intros [?|Hfull]; [done|].
    rewrite Hfull, Z.ltb_irrefl. done.
Qed.

Lemma C10_pool_release_bounded_witness :
  let create := fun i : nat => Some i in
  let ops := [OpAcquire false false; OpRelease 7; OpRelease 0; OpClose;
              OpRelease 1] in
  let p0 := Pool.mk [0%nat; 1%nat] false 2 2 false [] in
  NewPool config.DefaultConfig 2 create = PoolReturned p0 ∧
  0 <= Available (run ops p0) <= Size (run ops p0).
Proof.
  intros create ops p0. split; [reflexivity|].
  apply (C10_pool_release_bounded config.DefaultConfig 2 create p0 ops 0%nat).
  reflexivity.
Defined.

(** ** Dependency resolution *)

Import plugin manager resolver.

(** *** The order on plugin ids *)

Lemma String_leb_trans s1 s2 s3 :
  String.leb s1 s2 = true → String.leb s2 s3 = true → String.leb s1 s3 = true.
Proof.
  unfold String.leb. revert s2 s3.
  induction s1 as [|a s1 IH]; intros [|b s2] [|c s3]; simpl; try done.
  unfold Ascii.compare.
  destruct (N.compare_spec (N_of_ascii a) (N_of_ascii b)),
    (N.compare_spec (N_of_ascii b) (N_of_ascii c)),
    (N.compare_spec (N_of_ascii a) (N_of_ascii c));
    try done; try lia.
  apply IH.
Qed.

#[global] Instance string_le_trans : Transitive string_le.
Proof. intros x y z. apply String_leb_trans. Qed.

#[global] Instance string_le_total : Total string_le.
Proof. intros x y. apply String.leb_total. Qed.

Lemma string_le_refl x : string_le x x.
Proof. by destruct (string_le_total x x). Qed.

Lemma sort_Strings_perm l : sort_Strings l ≡ₚ l.
Proof. apply merge_sort_Permutation. Qed.

Lemma sort_Strings_sorted l : StronglySorted string_le (sort_Strings l).
Proof. apply (StronglySorted_merge_sort string_le). Qed.

Lemma sort_Strings_elem x l : x ∈ sort_Strings l ↔ x ∈ l.
Proof. by rewrite sort_Strings_perm. Qed.

Lemma sort_Strings_NoDup l : NoDup l → NoDup (sort_Strings l).
Proof. by rewrite sort_Strings_perm. Qed.

(** *** The manifest map *)

Lemma manifestMap_of_snoc l m :
  manifestMap_of (l ++ [m]) = <[Manifest.ID m := m]> (manifestMap_of l).
Proof. unfold manifestMap_of. by rewrite fold_left_app. Qed.

Lemma manifestMap_of_is_Some ms id :
  is_Some (manifestMap_of ms !! id) ↔ id ∈ ids ms.
Proof.
  unfold ids. induction ms as [|m l IH] using rev_ind.
  - unfold manifestMap_of. simpl. rewrite lookup_empty.
    split; [by intros [? ?]|by intros ?%elem_of_nil].
  - rewrite manifestMap_of_snoc, map_app, elem_of_app. simpl.
    rewrite list_elem_of_singleton.
    destruct (decide (Manifest.ID m = id)) as [->|Hne].
    + rewrite lookup_insert_eq. split; [auto|by eexists].
    + rewrite lookup_insert_ne by done. rewrite IH. split; [auto|].
      intros [?|?]; [done|congruence].
Qed.

Lemma manifestMap_of_Some ms id m :
  manifestMap_of ms !! id = Some m → m ∈ ms ∧ Manifest.ID m = id.
Proof.
  induction ms as [|x l IH] using rev_ind.
  - unfold manifestMap_of. simpl. by rewrite lookup_empty.
  - rewrite manifestMap_of_snoc, elem_of_app, list_elem_of_singleton.
    destruct (decide (Manifest.ID x = id)) as [<-|Hne].
    + rewrite lookup_insert_eq. intros [= ->]. auto.
    + rewrite lookup_insert_ne by done. intros [? ?]%IH. auto.
Qed.

(** *** Counting edges *)

Lemma pending_app E1 E2 done v : pending (E1 ++ E2) done v = (pending E1 done v + pending E2 done v)%nat.
Proof. unfold pending. by rewrite filter_app, length_app. Qed.

Lemma succs_app E1 E2 u : succs (E1 ++ E2) u = succs E1 u ++ succs E2 u.
Proof. unfold succs. by rewrite filter_app, map_app. Qed.

Lemma pending_single u v w :
  pending [(u, v)] [] w = if decide (v = w) then 1%nat else 0%nat.
Proof.
  unfold pending. rewrite filter_cons, filter_nil. simpl.
  destruct (decide (v = w)) as [->|Hne].
  - rewrite decide_True; [done|]. split; [done|apply not_elem_of_nil].
  - rewrite decide_False; [done|]. by intros [? _].
Qed.

Lemma succs_single u v w :
  succs [(u, v)] w = if decide (u = w) then [v] else [].
Proof.
  unfold succs. rewrite filter_cons, filter_nil. simpl.
  by destruct (decide (u = w)).
Qed.

Lemma elem_of_succs E u v : v ∈ succs E u ↔ (u, v) ∈ E.
Proof.
  unfold succs. rewrite list_elem_of_In, in_map_iff. split.
  - intros ([u' v'] & Hv & Hin). simpl in Hv. subst v'.
    apply list_elem_of_In, list_elem_of_filter in Hin as [Hu Hin].
    simpl in Hu. by subst u'.
  - intros Hin. exists (u, v). split; [done|].
    apply list_elem_of_In, list_elem_of_filter. by split.
Qed.

Lemma pending_zero E done v :
  pending E done v = 0%nat → ∀ u, (u, v) ∈ E → u ∈ done.
Proof.
  unfold pending. intros Hz%length_zero_iff_nil u Hin.
  destruct (decide (u ∈ done)) as [|Hno]; [done|].
  exfalso. eapply (filter_nil_not_elem_of _ _ (u, v)) in Hz; [done|].
  by split.
Qed.

Lemma pending_nonzero E done v :
  pending E done v ≠ 0%nat → ∃ u, (u, v) ∈ E ∧ u ∉ done.
Proof.
  unfold pending.
  destruct (filter _ E) as [|[u w] l] eqn:Hf; [done|]. intros _.
  assert (Hin : (u, w) ∈ filter (λ e, e.2 = v ∧ e.1 ∉ done) E)
    by (rewrite Hf; left).
  apply list_elem_of_filter in Hin as [[Hw Hu] Hin]. simpl in *. subst w.
  by exists u.
Qed.

(** Taking [x] into [done] removes from the count exactly the edges that
    leave [x]. *)
Lemma pending_snoc E done x v :
  x ∉ done →
  pending E done v = (pending E (done ++ [x]) v + occ v (succs E x))%nat.
Proof.
  intros Hx. unfold pending, occ, succs.
  induction E as [|[u w] E IH]; [done|].
  rewrite !filter_cons. simpl.
  destruct (decide (w = v)) as [->|Hw].
  - destruct (decide (u = x)) as [->|Hu].
    + rewrite (decide_True (P := v = v ∧ x ∉ done)) by done.
      rewrite (decide_False (P := v = v ∧ x ∉ done ++ [x])).
      2:{ intros [_ Hn]. apply Hn, elem_of_app. right. left. }
      simpl. rewrite filter_cons. rewrite decide_True by done.
      simpl. rewrite IH. lia.
    + destruct (decide (u ∈ done)) as [Hd|Hd].
      * rewrite (decide_False (P := v = v ∧ u ∉ done)) by tauto.
        rewrite (decide_False (P := v = v ∧ u ∉ done ++ [x])).
        2:{ intros [_ Hn]. apply Hn, elem_of_app. by left. }
        simpl. apply IH.
      * rewrite (decide_True (P := v = v ∧ u ∉ done)) by done.
        rewrite (decide_True (P := v = v ∧ u ∉ done ++ [x])).
        2:{ split; [done|]. rewrite elem_of_app, list_elem_of_singleton. tauto. }
        simpl. by rewrite IH.
  - rewrite (decide_False (P := w = v ∧ u ∉ done)) by tauto.
    rewrite (decide_False (P := w = v ∧ u ∉ done ++ [x])) by tauto.
    destruct (decide (u = x)); simpl; [|apply IH].
    rewrite filter_cons. rewrite decide_False by done. apply IH.
Qed.

(** *** The first loop builds the graph *)

Lemma pending_no_edge E done v : (∀ u, (u, v) ∉ E) → pending E done v = 0%nat.
Proof.
  intros Hno. unfold pending.
  destruct (filter _ E) as [|[u w] l] eqn:Hf; [done|].
  assert (Hin : (u, w) ∈ filter (λ e, e.2 = v ∧ e.1 ∉ done) E)
    by (rewrite Hf; left).
  apply list_elem_of_filter in Hin as [[Hw _] Hin]. simpl in Hw. subst w.
  by destruct (Hno u).
Qed.

Lemma represents_member g E nodes n1 :
  (∀ v, v ∈ nodes ↔ v ∈ n1) → represents g E nodes → represents g E n1.
Proof.
  intros Heq (Hin & Hdep & Hdst). split; [|split].
  - intros v. rewrite Hin.
    destruct (decide (v ∈ nodes)) as [H|H], (decide (v ∈ n1)) as [H1|H1];
      try done; by rewrite Heq in H.
  - done.
  - intros u v ?. apply Heq. eauto.
Qed.

Lemma add_edge_represents g E nodes u v :
  represents g E nodes → v ∈ nodes →
  represents (add_edge u v g) (E ++ [(u, v)]) nodes.
Proof.
  intros (Hin & Hdep & Hdst) Hv. split; [|split].
  - intros w. unfold add_edge. simpl. rewrite pending_app, pending_single.
    destruct (decide (v = w)) as [<-|Hne].
    + rewrite lookup_insert_eq, Hin. rewrite !decide_True by done.
      simpl. f_equal. lia.
    + rewrite lookup_insert_ne by done. rewrite Hin.
      destruct (decide (w ∈ nodes)); [|done]. f_equal. lia.
  - intros w. unfold add_edge. simpl. rewrite succs_app, succs_single.
    destruct (decide (u = w)) as [<-|Hne].
    + by rewrite lookup_insert_eq, <- Hdep.
    + rewrite lookup_insert_ne by done. by rewrite Hdep, app_nil_r.
  - intros a b [?|[= -> ->]%list_elem_of_singleton]%elem_of_app; eauto.
Qed.

Lemma scan_Dependencies_represents mm id deps g E nodes :
  (∀ dep, dep ∈ deps → Dependency.Optional dep = false →
          is_Some (mm !! Dependency.ID dep)) →
  represents g E nodes → id ∈ nodes →
  ∃ g', scan_Dependencies mm id deps g = inr g' ∧
        represents g'
          (E ++ map (λ d, (Dependency.ID d, id))
                  (filter (λ d, is_Some (mm !! Dependency.ID d)) deps))
          nodes.
Proof.
  revert g E. induction deps as [|dep deps IH]; intros g E Hok Hrep Hid.
  - exists g. simpl. by rewrite app_nil_r.
  - simpl. rewrite filter_cons.
    destruct (decide (is_Some (mm !! Dependency.ID dep))) as [Hp|Hp].
    + rewrite bool_decide_eq_true_2 by done.
      rewrite andb_false_r. simpl.
      destruct (IH (add_edge (Dependency.ID dep) id g)
                  (E ++ [(Dependency.ID dep, id)])) as (g' & Hg' & Hrep').
      * intros d Hd. apply Hok. by right.
      * by apply add_edge_represents.
      * done.
      * exists g'. split; [done|]. by rewrite <- app_assoc in Hrep'.
    + rewrite bool_decide_eq_false_2 by done.
      destruct (Dependency.Optional dep) eqn:Hopt; simpl.
      * apply IH; [|done|done]. intros d Hd. apply Hok. by right.
      * destruct Hp. apply Hok; [left|done].
Qed.

Lemma scan_LoadAfter_represents mm id after g E nodes :
  represents g E nodes → id ∈ nodes →
  represents (scan_LoadAfter mm id after g)
    (E ++ map (λ a, (a, id)) (filter (λ a, is_Some (mm !! a)) after))
    nodes.
Proof.
  revert g E. induction after as [|a after IH]; intros g E Hrep Hid.
  - simpl. by rewrite app_nil_r.
  - simpl. rewrite filter_cons.
    destruct (decide (is_Some (mm !! a))) as [Hp|Hp].
    + rewrite bool_decide_eq_true_2 by done. simpl.
      specialize (IH (add_edge a id g) (E ++ [(a, id)])).
      rewrite <- app_assoc in IH. apply IH; [|done].
      by apply add_edge_represents.
    + rewrite bool_decide_eq_false_2 by done. by apply IH.
Qed.

Lemma scan_manifest_represents mm m g E nodes :
  (∀ dep, dep ∈ Manifest.Dependencies m → Dependency.Optional dep = false →
          is_Some (mm !! Dependency.ID dep)) →
  represents g E nodes →
  ∃ g', scan_manifest mm m g = inr g' ∧
        represents g' (E ++ edges_of mm m) (nodes ++ [Manifest.ID m]).
Proof.
  intros Hok Hrep. unfold scan_manifest.
  set (g0 := match Graph.inDegree g !! Manifest.ID m with
             | Some _ => g | None => _ end).
  assert (Hrep0 : represents g0 E (nodes ++ [Manifest.ID m])).
  { destruct Hrep as (Hin & Hdep & Hdst). subst g0.
    pose proof (Hin (Manifest.ID m)) as Hm.
    destruct (decide (Manifest.ID m ∈ nodes)) as [Hmem|Hmem]; rewrite Hm.
    - apply (represents_member _ _ nodes); [|done].
      intros v. rewrite elem_of_app, list_elem_of_singleton.
      split; [auto|]. by intros [?| ->].
    - split; [|split]; simpl.
      + intros v. destruct (decide (Manifest.ID m = v)) as [<-|Hne].
        * rewrite lookup_insert_eq. rewrite decide_True.
          2:{ apply elem_of_app. right. left. }
          rewrite pending_no_edge; [done|]. intros u Hu. by apply Hdst in Hu.
        * rewrite lookup_insert_ne by done. rewrite Hin.
          destruct (decide (v ∈ nodes)) as [H|H].
          -- rewrite decide_True; [done|]. apply elem_of_app. by left.
          -- rewrite decide_False; [done|].
             rewrite elem_of_app, list_elem_of_singleton. intros [?|?]; auto.
      + done.
      + intros u v Hu. apply elem_of_app. left. eauto. }
  assert (Hid : Manifest.ID m ∈ nodes ++ [Manifest.ID m]).
  { apply elem_of_app. right. left. }
  destruct (scan_Dependencies_represents mm (Manifest.ID m)
              (Manifest.Dependencies m) g0 E _ Hok Hrep0 Hid)
    as (g1 & -> & Hrep1).
  eexists. split; [done|]. unfold edges_of. rewrite app_assoc.
  by apply scan_LoadAfter_represents.
Qed.

Lemma build_graph_represents mm ms g E nodes :
  (∀ m dep, m ∈ ms → dep ∈ Manifest.Dependencies m →
            Dependency.Optional dep = false →
            is_Some (mm !! Dependency.ID dep)) →
  represents g E nodes →
  ∃ g', build_graph mm ms g = inr g' ∧
        represents g' (E ++ all_edges mm ms) (nodes ++ ids ms).
Proof.
  revert g E nodes. induction ms as [|m ms IH]; intros g E nodes Hok Hrep.
  - exists g. simpl. by rewrite !app_nil_r.
  - simpl.
    destruct (scan_manifest_represents mm m g E nodes) as (g1 & -> & Hrep1);
      [intros dep; apply Hok; left|done|].
    destruct (IH g1 _ _ (λ m' dep H, Hok m' dep (list_elem_of_further _ _ _ H))
                Hrep1) as (g' & Hg' & Hrep').
    exists g'. split; [done|].
    by rewrite <- !app_assoc in Hrep'.
Qed.

Lemma represents_empty : represents (Graph.mk ∅ ∅) [] [].
Proof.
  split; [|split]; cbn [Graph.inDegree Graph.dependents].
  - intros v. rewrite lookup_empty.
    by destruct (decide (v ∈ [])) as [?%elem_of_nil|].
  - intros u. by rewrite lookup_empty.
  - by intros u v ?%elem_of_nil.
Qed.

Lemma elem_of_all_edges ms u v :
  (u, v) ∈ all_edges (manifestMap_of ms) ms ↔ must_precede ms u v.
Proof.
  unfold all_edges, must_precede.
  rewrite list_elem_of_In, in_flat_map. split.
  - intros (m & Hm%list_elem_of_In & Hin%list_elem_of_In).
    unfold edges_of in Hin. apply elem_of_app in Hin as [Hin|Hin];
      apply list_elem_of_In, in_map_iff in Hin as (x & [= <- <-] & Hx);
      apply list_elem_of_In, list_elem_of_filter in Hx as [Hp Hx];
      apply manifestMap_of_is_Some in Hp; (split; [done|]);
      exists m; (split; [done|]); (split; [done|]).
    + left. apply list_elem_of_In, in_map. by apply list_elem_of_In.
    + by right.
  - intros (Hp & m & Hm & <- & Hor). exists m.
    split; [by apply list_elem_of_In|]. apply list_elem_of_In.
    unfold edges_of. apply elem_of_app.
    apply manifestMap_of_is_Some in Hp.
    destruct Hor as [Hd|Ha]; [left|right].
    + apply list_elem_of_In, in_map_iff in Hd as (d & <- & Hd).
      apply list_elem_of_In, in_map_iff. exists d. split; [done|].
      apply list_elem_of_In, list_elem_of_filter. split; [done|].
      by apply list_elem_of_In.
    + apply list_elem_of_In, in_map_iff. exists u. split; [done|].
      apply list_elem_of_In, list_elem_of_filter. by split.
Qed.

(** *** The inner loop over the dependents of the id taken from the queue *)

Lemma occ_cons d v l :
  occ v (d :: l) = ((if decide (d = v) then 1 else 0) + occ v l)%nat.
Proof. unfold occ. rewrite filter_cons. by destruct (decide (d = v)). Qed.

Lemma release_dependents_spec (cand : string → Prop) (nodes deps : list string) :
  ∀ (cur : string → Z) (inDeg : gmap string Z) (queue : list string),
    (∀ v, v ∈ nodes → inDeg !! v = Some (cur v)) →
    StronglySorted string_le queue → NoDup queue →
    (∀ v, v ∈ queue ↔ cand v ∧ cur v = 0) →
    (∀ d, d ∈ deps → d ∈ nodes ∧ cand d ∧ Z.of_nat (occ d deps) <= cur d) →
    ∃ inDeg' queue',
      release_dependents deps inDeg queue = (inDeg', queue') ∧
      (∀ v, v ∈ nodes → inDeg' !! v = Some (cur v - Z.of_nat (occ v deps))) ∧
      StronglySorted string_le queue' ∧ NoDup queue' ∧
      (∀ v, v ∈ queue' ↔ cand v ∧ cur v - Z.of_nat (occ v deps) = 0).
Proof.
  induction deps as [|d rest IH]; intros cur inDeg queue Hin Hs Hnd Hq Hd.
  - exists inDeg, queue. split; [done|]. unfold occ. simpl.
    split; [|split; [done|split; [done|]]].
    + intros v Hv. rewrite Hin by done. f_equal. lia.
    + intros v. rewrite Hq. by rewrite Z.sub_0_r.
  - destruct (Hd d) as (Hdn & Hdc & Hdo); [left|].
    rewrite occ_cons, decide_True in Hdo by done.
    simpl. rewrite (Hin d Hdn). simpl.
    set (cur1 := λ v, cur v - (if decide (d = v) then 1 else 0)).
    assert (Hin1 : ∀ v, v ∈ nodes →
              <[d := cur d - 1]> inDeg !! v = Some (cur1 v)).
    { intros v Hv. unfold cur1. destruct (decide (d = v)) as [<-|Hne].
      - by rewrite lookup_insert_eq.
      - rewrite lookup_insert_ne by done. rewrite Hin by done. f_equal. lia. }
    assert (Hd1 : ∀ d', d' ∈ rest →
              d' ∈ nodes ∧ cand d' ∧ Z.of_nat (occ d' rest) <= cur1 d').
    { intros d' Hd'. destruct (Hd d') as (? & ? & Ho); [by right|].
      split; [done|]. split; [done|]. unfold cur1.
      rewrite occ_cons in Ho. destruct (decide (d = d')); lia. }
    assert (Hnq : d ∉ queue).
    { intros [_ Hz]%Hq. lia. }
    assert (Hfin : ∀ v, cur1 v - Z.of_nat (occ v rest)
                        = cur v - Z.of_nat (occ v (d :: rest))).
    { intros v. unfold cur1. rewrite occ_cons. destruct (decide (d = v)); lia. }
    destruct (cur d - 1 =? 0) eqn:Hz.
    + apply Z.eqb_eq in Hz.
      destruct (IH cur1 (<[d := cur d - 1]> inDeg) (sort_Strings (queue ++ [d])))
        as (inDeg' & queue' & Heq & H1 & H2 & H3 & H4);
        [done|apply sort_Strings_sorted| | |done|].
      * apply sort_Strings_NoDup, NoDup_app. split; [done|].
        split; [|apply NoDup_singleton].
        intros v Hv ->%list_elem_of_singleton. done.
      * intros v. rewrite sort_Strings_elem, elem_of_app,
          list_elem_of_singleton, Hq. unfold cur1.
        destruct (decide (d = v)) as [<-|Hne].
        -- split; [intros _; split; [done|lia]|auto].
        -- rewrite Z.sub_0_r. split; [intros [?|?]; [done|congruence]|auto].
      * exists inDeg', queue'. split; [done|].
        split; [|split; [done|split; [done|]]].
        -- intros v Hv. rewrite H1 by done. by rewrite Hfin.
        -- intros v. by rewrite H4, Hfin.
    + apply Z.eqb_neq in Hz.
      destruct (IH cur1 (<[d := cur d - 1]> inDeg) queue)
        as (inDeg' & queue' & Heq & H1 & H2 & H3 & H4);
        [done|done|done| |done|].
      * intros v. rewrite Hq. unfold cur1.
        destruct (decide (d = v)) as [<-|Hne].
        -- split; [intros [_ ?]; lia|intros [_ ?]; lia].
        -- by rewrite Z.sub_0_r.
      * exists inDeg', queue'. split; [done|].
        split; [|split; [done|split; [done|]]].
        -- intros v Hv. rewrite H1 by done. by rewrite Hfin.
        -- intros v. by rewrite H4, Hfin.
Qed.

(** *** The main loop *)

Lemma pending_all_done E done v :
  (∀ u, (u, v) ∈ E → u ∈ done) → pending E done v = 0%nat.
Proof.
  intros Hall. unfold pending.
  destruct (filter _ E) as [|[u w] l] eqn:Hf; [done|].
  assert (Hin : (u, w) ∈ filter (λ e, e.2 = v ∧ e.1 ∉ done) E)
    by (rewrite Hf; left).
  apply list_elem_of_filter in Hin as [[Hw Hu] Hin]. simpl in *. subst w.
  exfalso. by apply Hu, Hall.
Qed.

Lemma respects_edges_snoc ms done x :
  respects_edges ms done →
  (∀ b, must_precede ms b x → b ∈ done) →
  respects_edges ms (done ++ [x]).
Proof.
  intros Hr Hx i a b Hi Hb.
  destruct (decide (i < length done)%nat) as [Hlt|Hge].
  - rewrite lookup_app_l in Hi by done. rewrite take_app_le by lia. eauto.
  - assert (i = length done) as ->.
    { apply lookup_lt_Some in Hi. rewrite length_app in Hi. simpl in Hi. lia. }
    rewrite lookup_app_r, Nat.sub_diag in Hi by lia. injection Hi as <-.
    rewrite take_app_length. auto.
Qed.

Lemma least_ready_first_snoc ms done x :
  least_ready_first ms done →
  (∀ y, y ∈ ids ms → y ∉ done → (∀ b, must_precede ms b y → b ∈ done) →
        string_le x y) →
  least_ready_first ms (done ++ [x]).
Proof.
  intros Hl Hx i a y Hi Hy Hny Hpre.
  destruct (decide (i < length done)%nat) as [Hlt|Hge].
  - rewrite lookup_app_l in Hi by done. rewrite take_app_le in Hny, Hpre by lia.
    eauto.
  - assert (i = length done) as ->.
    { apply lookup_lt_Some in Hi. rewrite length_app in Hi. simpl in Hi. lia. }
    rewrite lookup_app_r, Nat.sub_diag in Hi by lia. injection Hi as <-.
    rewrite take_app_length in Hny, Hpre. auto.
Qed.

Lemma kahn_loop_spec ms g :
  let mm := manifestMap_of ms in
  let E := all_edges mm ms in
  let nodes := ids ms in
  represents g E nodes →
  ∀ fuel done inDeg queue,
    NoDup done → (∀ v, v ∈ done → v ∈ nodes) →
    (∀ v, v ∈ nodes → inDeg !! v = Some (Z.of_nat (pending E done v))) →
    StronglySorted string_le queue → NoDup queue →
    (∀ v, v ∈ queue ↔ v ∈ nodes ∧ (v ∉ done) ∧ pending E done v = 0%nat) →
    respects_edges ms done → least_ready_first ms done →
    (length nodes ≤ fuel + length done)%nat →
    ∃ done',
      kahn_loop fuel mm (Graph.dependents g) inDeg queue
        (map (λ id, mm !! id) done) = Some (map (λ id, mm !! id) done') ∧
      NoDup done' ∧ (∀ v, v ∈ done' → v ∈ nodes) ∧
      respects_edges ms done' ∧ least_ready_first ms done' ∧
      (∀ v, v ∈ nodes → v ∉ done' → pending E done' v ≠ 0%nat).
Proof.
  intros mm E nodes (_ & Hdeps & Hdst) fuel.
  induction fuel as [|fuel IH];
    intros done inDeg queue Hnd Hsub Hin Hs Hnq Hq Hr Hl Hfuel.
  - (* no fuel left: every id is in [done], so the queue is empty *)
    destruct queue as [|x q].
    + exists done. simpl. repeat split; try done.
      intros v Hv Hnv Hz. by apply (not_elem_of_nil v), Hq.
    + exfalso. destruct (proj1 (Hq x)) as (Hx & Hnx & _); [left|].
      assert (Hle : (length (x :: done) ≤ length nodes)%nat).
      { apply submseteq_length, NoDup_submseteq.
        - by apply NoDup_cons.
        - intros v [-> | ?]%elem_of_cons; auto. }
      simpl in Hle, Hfuel. lia.
  - destruct queue as [|x q].
    + exists done. simpl. repeat split; try done.
      intros v Hv Hnv Hz. by apply (not_elem_of_nil v), Hq.
    + destruct (proj1 (Hq x)) as (Hx & Hnx & Hzx); [left|].
      apply NoDup_cons in Hnq as [Hxq Hnq].
      pose proof (StronglySorted_inv Hs) as [Hsq Hhd].
      simpl. rewrite Hdeps.
      destruct (release_dependents_spec
                  (λ v, v ∈ nodes ∧ (v ∉ done) ∧ v ≠ x) nodes (succs E x)
                  (λ v, Z.of_nat (pending E done v)) inDeg q)
        as (inDeg' & queue' & -> & H1 & H2 & H3 & H4);
        [done|done|done| | |].
      * intros v. split.
        -- intros Hv. destruct (proj1 (Hq v)) as (? & ? & ?); [by right|].
           split; [|lia]. split; [done|]. split; [done|]. by intros ->.
        -- intros ((Hv & Hnv & Hne) & Hz).
           assert (Hvq : v ∈ x :: q).
           { apply Hq. split; [done|]. split; [done|]. lia. }
           by apply elem_of_cons in Hvq as [-> | ?].
      * intros d Hd%elem_of_succs.
        assert (Hdn : d ∈ nodes) by eauto.
        split; [done|]. split; [split; [done|split]|].
        -- intros [i Hi]%list_elem_of_lookup.
           apply Hnx. apply (subseteq_take i done).
           eapply Hr; [done|]. by apply elem_of_all_edges.
        -- intros ->. apply Hnx. eapply pending_zero; done.
        -- rewrite (pending_snoc E done x d) by done. lia.
      * assert (Hrem : ∀ v, Z.of_nat (pending E done v) - Z.of_nat (occ v (succs E x))
                            = Z.of_nat (pending E (done ++ [x]) v)).
        { intros v. rewrite (pending_snoc E done x v) by done. lia. }
        destruct (IH (done ++ [x]) inDeg' queue') as (done' & Hk & Hrest).
        -- apply NoDup_app. split; [done|]. split; [|apply NoDup_singleton].
           by intros v Hv ->%list_elem_of_singleton.
        -- intros v [?| ->%list_elem_of_singleton]%elem_of_app; auto.
        -- intros v Hv. rewrite H1 by done. by rewrite Hrem.
        -- done.
        -- done.
        -- intros v. rewrite H4, Hrem, elem_of_app, list_elem_of_singleton.
           split.
           ++ intros ((? & ? & ?) & ?). split; [done|]. split; [tauto|lia].
           ++ intros (? & ? & ?). split; [|lia]. split; [done|]. tauto.
        -- apply respects_edges_snoc; [done|].
           intros b Hb%elem_of_all_edges. eapply pending_zero; done.
        -- apply least_ready_first_snoc; [done|].
           intros y Hy Hny Hpre.
           assert (Hyq : y ∈ x :: q).
           { apply Hq. split; [done|]. split; [done|].
             apply pending_all_done. intros u Hu%elem_of_all_edges. auto. }
           apply elem_of_cons in Hyq as [-> |Hyq]; [apply string_le_refl|].
           by eapply Forall_forall in Hhd.
        -- rewrite length_app. simpl. lia.
        -- exists done'. split; [|done].
           rewrite <- Hk. by rewrite map_app.
Qed.

(** *** Without a cycle the queue empties only when every id is placed *)

Lemma StronglySorted_irrefl_NoDup {A} (R : relation A) (l : list A) :
  (∀ x, ¬ R x x) → StronglySorted R l → NoDup l.
Proof.
  intros Hirr. induction 1 as [|x l Hs IH Hall]; [constructor|].
  apply NoDup_cons. split; [|done].
  intros Hx. eapply Forall_forall in Hall; [|done]. by apply (Hirr x).
Qed.

Lemma stuck_all_done ms done :
  acyclic ms →
  (∀ v, v ∈ ids ms → v ∉ done →
        pending (all_edges (manifestMap_of ms) ms) done v ≠ 0%nat) →
  ∀ v, v ∈ ids ms → v ∈ done.
Proof.
  intros Hac Hstuck v Hv.
  destruct (decide (v ∈ done)) as [|Hnv]; [done|]. exfalso.
  set (R := λ u, u ∈ ids ms ∧ u ∉ done).
  assert (Hstep : ∀ u, R u → ∃ w, R w ∧ must_precede ms w u).
  { intros u [Hu Hnu].
    destruct (pending_nonzero _ _ _ (Hstuck u Hu Hnu)) as (w & Hw & Hnw).
    apply elem_of_all_edges in Hw. exists w. split; [|done].
    split; [by destruct Hw|done]. }
  assert (Hchain : ∀ n, ∃ l, length l = S n ∧ Forall R l ∧
                             StronglySorted (tc (must_precede ms)) l).
  { induction n as [|n (l & Hlen & HR & Hs)].
    - exists [v]. split; [done|]. split; [by repeat constructor|].
      by repeat constructor.
    - destruct l as [|h t]; [done|].
      apply Forall_cons in HR as HR'. destruct HR' as [Hh Ht].
      destruct (Hstep h Hh) as (w & Hw & Hwh).
      exists (w :: h :: t). split; [simpl in *; lia|].
      split; [by constructor|].
      constructor; [done|].
      apply StronglySorted_inv in Hs as [_ Hall].
      constructor; [by apply tc_once|].
      eapply Forall_impl; [exact Hall|].
      intros z Hz. by eapply tc_l. }
  destruct (Hchain (length (ids ms))) as (l & Hlen & HR & Hs).
  apply (StronglySorted_irrefl_NoDup _ _ Hac) in Hs.
  assert (Hle : (length l ≤ length (ids ms))%nat).
  { apply submseteq_length, NoDup_submseteq; [done|].
    intros x Hx. eapply Forall_forall in HR; [|done]. by destruct HR. }
  lia.
Qed.

(** An acyclicity certificate: a numbering that grows along every edge. *)
Lemma ranked_acyclic ms (rank : string → nat) :
  (∀ b a, must_precede ms b a → (rank b < rank a)%nat) → acyclic ms.
Proof.
  intros Hrank x Hx.
  assert (Hlt : ∀ a b, tc (must_precede ms) a b → (rank a < rank b)%nat).
  { induction 1 as [a b H|a b c H _ IH]; [by apply Hrank|].
    apply Hrank in H. lia. }
  apply Hlt in Hx. lia.
Qed.

(** *** The initial queue *)

Lemma initial_queue_spec (inDeg : gmap string Z) :
  StronglySorted string_le (initial_queue inDeg) ∧
  NoDup (initial_queue inDeg) ∧
  ∀ v, v ∈ initial_queue inDeg ↔ inDeg !! v = Some 0.
Proof.
  unfold initial_queue. split; [apply sort_Strings_sorted|]. split.
  - apply sort_Strings_NoDup.
    change (NoDup (filter (λ kv, kv.2 = 0) (map_to_list inDeg)).*1).
    eapply sublist_NoDup; [apply (NoDup_fst_map_to_list inDeg)|].
    apply fmap_sublist, sublist_filter.
  - intros v. rewrite sort_Strings_elem, list_elem_of_In, in_map_iff. split.
    + intros ([k z] & Hk & Hin). simpl in Hk. subst k.
      apply list_elem_of_In, list_elem_of_filter in Hin as [Hz Hin].
      simpl in Hz. subst z. by apply elem_of_map_to_list in Hin.
    + intros Hv. exists (v, 0). split; [done|].
      apply list_elem_of_In, list_elem_of_filter. split; [done|].
      by apply elem_of_map_to_list.
Qed.

Lemma lookup_order ms (l : list string) :
  (∀ id, id ∈ l → id ∈ ids ms) →
  ∃ order, map (λ id, manifestMap_of ms !! id) l = map Some order ∧
           ids order = l ∧ ∀ m, m ∈ order → m ∈ ms.
Proof.
  induction l as [|id l IH]; intros Hsub.
  - exists []. split; [done|]. split; [done|]. by intros m ?%elem_of_nil.
  - destruct IH as (order & Hmap & Hids & Hin).
    { intros id' Hid'. apply Hsub. by right. }
    destruct (proj2 (manifestMap_of_is_Some ms id)) as [m Hm]; [apply Hsub; left|].
    destruct (manifestMap_of_Some _ _ _ Hm) as [Hmin Hmid].
    exists (m :: order). simpl. rewrite Hm, Hmap, Hmid.
    split; [done|]. split; [by rewrite <- Hids|].
    intros m' [-> | ?]%elem_of_cons; auto.
Qed.

(** *** The resolver *)

(** C4.  For manifests with pairwise distinct ids, in which every
    non-optional dependency names a manifest of the set and whose
    dependency and [load_after] edges form no cycle,
    [sortByDependencies] returns an order that holds every manifest once;
    in it every non-optional dependency of a manifest, every
    [load_after] id that is present, and in general every recorded edge
    source stands before the manifest itself; optional dependencies and
    [load_after] ids that are absent constrain nothing and raise no
    error; and every position holds the lexicographically least id among
    the ids not yet placed whose predecessors are all placed.  For S1
    ([a.one] depends on [a.two], [a.three] loads after [a.one]) the
    order is [a.two], [a.one], [a.three]. *)
Theorem C4_sortByDependencies_order (ms : list Manifest.t) :
  NoDup (ids ms) → no_missing ms → acyclic ms →
  (∃ order,
     sortByDependencies ms = Sorted (map Some order) ∧
     order ≡ₚ ms ∧
     (∀ i m dep, order !! i = Some m → dep ∈ Manifest.Dependencies m →
                 Dependency.Optional dep = false →
                 Dependency.ID dep ∈ take i (ids order)) ∧
     (∀ i m b, order !! i = Some m → b ∈ Manifest.LoadAfter m →
               b ∈ ids ms → b ∈ take i (ids order)) ∧
     respects_edges ms (ids order) ∧
     least_ready_first ms (ids order)) ∧
  sortByDependencies [a_one; a_two; a_three]
    = Sorted (map Some [a_two; a_one; a_three]).
Proof.
  intros Hnd Hmiss Hac. split; [|vm_compute; reflexivity].
  unfold sortByDependencies.
  set (mm := manifestMap_of ms).
  destruct (build_graph_represents mm ms (Graph.mk ∅ ∅) [] [])
    as (g & Hg & Hrep).
  { intros m dep Hm Hdep Hopt. apply manifestMap_of_is_Some. eauto. }
  { apply represents_empty. }
  simpl in Hrep. rewrite Hg.
  destruct (initial_queue_spec (Graph.inDegree g)) as (Hs & Hnq & Hq).
  pose proof Hrep as (Hin & _ & _).
  destruct (kahn_loop_spec ms g Hrep (length ms) [] (Graph.inDegree g)
              (initial_queue (Graph.inDegree g)))
    as (done' & Hk & Hnd' & Hsub & Hr & Hl & Hstuck).
  { constructor. }
  { by intros v ?%elem_of_nil. }
  { intros v Hv. fold mm. rewrite Hin. by rewrite decide_True. }
  { done. }
  { done. }
  { intros v. rewrite Hq. fold mm. rewrite Hin.
    destruct (decide (v ∈ ids ms)) as [Hv|Hv].
    - split.
      + intros [= Hz]. split; [done|]. split; [apply not_elem_of_nil|lia].
      + intros (_ & _ & ->). done.
    - split; [done|]. by intros (? & _). }
  { by intros i a b ?. }
  { by intros i x y ?. }
  { unfold ids. rewrite length_map. lia. }
  simpl in Hk. fold mm in Hk. rewrite Hk.
  pose proof (stuck_all_done ms done' Hac Hstuck) as Hall.
  assert (Hperm : done' ≡ₚ ids ms).
  { apply NoDup_Permutation; [done|done|]. intros v. split; auto. }
  destruct (lookup_order ms done' Hsub) as (order & Hmap & Hids & Hin').
  fold mm in Hmap. rewrite Hmap.
  assert (Hlen : length order = length ms).
  { rewrite <- (length_map Manifest.ID order). fold (ids order).
    rewrite Hids, Hperm. unfold ids. by rewrite length_map. }
  rewrite length_map, Hlen, Nat.eqb_refl.
  exists order. split; [done|]. rewrite Hids.
  assert (Hpos : ∀ i m, order !! i = Some m →
                        done' !! i = Some (Manifest.ID m) ∧ m ∈ ms).
  { intros i m Hi. split.
    - rewrite <- Hids. unfold ids.
      change (map Manifest.ID order) with (Manifest.ID <$> order).
      by rewrite list_lookup_fmap, Hi.
    - apply Hin'. by eapply list_elem_of_lookup_2. }
  split; [|split; [|split; [|done]]].
  - apply submseteq_length_Permutation; [|lia].
    apply NoDup_submseteq; [|done].
    apply (NoDup_fmap_1 Manifest.ID).
    change (Manifest.ID <$> order) with (ids order). by rewrite Hids.
  - intros i m dep Hi Hdep Hopt. destruct (Hpos i m Hi) as [Hi' Hm].
    apply (Hr i (Manifest.ID m)); [done|].
    split; [by eapply Hmiss|]. exists m. split; [done|]. split; [done|].
    left. apply list_elem_of_In, in_map. by apply list_elem_of_In.
  - intros i m b Hi Hb Hbp. destruct (Hpos i m Hi) as [Hi' Hm].
    apply (Hr i (Manifest.ID m)); [done|].
    split; [done|]. exists m. split; [done|]. split; [done|]. by right.
Qed.

Lemma C4_sortByDependencies_order_witness :
  let ms := [a_one; a_two; a_three] in
  NoDup (ids ms) ∧ no_missing ms ∧ acyclic ms ∧
  ∃ order, sortByDependencies ms = Sorted (map Some order) ∧ order ≡ₚ ms.
Proof.
  intros ms.
  assert (Hnd : NoDup (ids ms)).
  { apply (bool_decide_unpack _). by vm_compute. }
  assert (Hmiss : no_missing ms).
  { intros m dep Hm Hdep _. unfold ms in Hm.
    apply list_elem_of_In in Hm. simpl in Hm.
    destruct Hm as [<- |[<- |[<- |[]]]]; simpl in Hdep;
      try (by apply elem_of_nil in Hdep).
    apply list_elem_of_singleton in Hdep as ->.
    apply (bool_decide_unpack _). by vm_compute. }
  assert (Hac : acyclic ms).
  { apply (ranked_acyclic ms
             (λ s, if String.eqb s "a.two" then 0%nat
                   else if String.eqb s "a.one" then 1%nat else 2%nat)).
    intros b a (_ & m & Hm & <- & Hor). unfold ms in Hm.
    apply list_elem_of_In in Hm. simpl in Hm.
    destruct Hm as [<- |[<- |[<- |[]]]];
      cbn [a_one a_two a_three Manifest.Dependencies Manifest.LoadAfter
           Manifest.ID map Dependency.ID] in Hor |- *;
      destruct Hor as [Hb|Hb];
      try (by apply elem_of_nil in Hb);
      apply list_elem_of_singleton in Hb as ->.
    all: apply Nat.ltb_lt; vm_compute; reflexivity. }
  split; [exact Hnd|]. split; [exact Hmiss|]. split; [exact Hac|].
  destruct (C4_sortByDependencies_order ms Hnd Hmiss Hac)
    as [(order & Ho & Hp & _) _].
  exists order. split; [exact Ho|exact Hp].
Defined.

(** *** The loader's resolver *)

(** The loader's depth-first resolver gives the same order on S1.  It
    takes the plugins in the order discovered, so among independent
    plugins it does not put the lexicographically least id first, as
    [sortByDependencies] does. *)
Lemma ResolveDependencies_S1 :
  ResolveDependencies [a_one; a_two; a_three]
    = Resolved [a_two; a_one; a_three] ∧
  ResolveDependencies [a_two; a_three] = Resolved [a_two; a_three] ∧
  sortByDependencies [a_two; a_three] = Sorted (map Some [a_three; a_two]).
Proof. repeat split; vm_compute; reflexivity. Qed.

(** *** Outside the hypotheses of C4 *)

(** C4, as the specification states it, fails.  The one manifest [a.one],
    which requires [a.two], is a set of manifests whose graph has no
    cycle: it has no edge between present manifests at all.  Yet the
    resolver returns no order for it, but the missing-dependency
    error. *)
Lemma C4_counterexample :
  NoDup (ids [a_one]) ∧ acyclic [a_one] ∧
  sortByDependencies [a_one] = MissingDependency "a.one" "a.two" ∧
  ¬ (∃ order, sortByDependencies [a_one] = Sorted order).
Proof.
  split; [apply NoDup_singleton|]. split.
  - apply (ranked_acyclic [a_one] (λ _, 0%nat)).
    intros b a (Hb & m & Hm & <- & Hor).
    apply list_elem_of_singleton in Hm as ->.
    apply list_elem_of_singleton in Hb as ->.
    destruct Hor as [Hd|Hl]; [|by apply elem_of_nil in Hl].
    by apply list_elem_of_singleton in Hd.
  - split; [vm_compute; reflexivity|]. by intros [order Ho].
Qed.

(** What [sortByDependencies] answers where C4 does not apply: a missing
    non-optional dependency is reported as such; two manifests with the
    same id, and a cycle (S3), are both reported as a circular
    dependency.  An absent optional dependency is dropped (S2). *)
Lemma sortByDependencies_other_inputs :
  sortByDependencies [a_one] = MissingDependency "a.one" "a.two" ∧
  sortByDependencies [a_two; a_two] = CircularDependency ∧
  sortByDependencies [p_a; p_b] = CircularDependency ∧
  sortByDependencies [p_x] = Sorted [Some p_x].
Proof. repeat split; vm_compute; reflexivity. Qed.

(** * Further properties *)

(** ** The dispatcher: unsubscribing *)

Lemma subs_of_Unsubscribe d p e :
  subs_of (dispatcher.Unsubscribe d p) e =
  dispatcher.DeleteFunc (subs_of d e) (dispatcher.owned_by p).
Proof.
  unfold subs_of, dispatcher.Unsubscribe. simpl. rewrite lookup_fmap.
  by destruct (Dispatcher.subscriptions d !! e).
Qed.

Lemma subs_of_UnsubscribeEvent d p e e' :
  subs_of (dispatcher.UnsubscribeEvent d p e) e' =
  if decide (e = e')
  then dispatcher.DeleteFunc (subs_of d e) (dispatcher.owned_by p)
  else subs_of d e'.
Proof.
  unfold subs_of at 1, dispatcher.UnsubscribeEvent. simpl.
  destruct (decide (e = e')) as [<-|Hne].
  - by rewrite lookup_insert_eq.
  - by rewrite lookup_insert_ne.
Qed.

Lemma DeleteFunc_not_owned p (l : list Subscription.t) s :
  In s (dispatcher.DeleteFunc l (dispatcher.owned_by p)) →
  Subscription.PluginID s ≠ p.
Proof.
  unfold dispatcher.DeleteFunc, dispatcher.owned_by.
  intros [_ Hs]%filter_In Heq. apply negb_true_iff, String.eqb_neq in Hs.
  done.
Qed.

Lemma Dispatch_called_lookup d e ser el e' i :
  (e', i) ∈ DispatchOutcome.called (Dispatch d e ser el) →
  e' = e ∧ ∃ H, subs_of d e !! i = Some H.
Proof.
  rewrite Dispatch_called, list_elem_of_In, in_map_iff.
  intros (j & [= <- <-] & Hj). split; [done|].
  apply list_elem_of_In, dispatch_loop_calls in Hj as (H & HH & _). eauto.
Qed.

(** X1.  [Unsubscribe] takes the subscriptions of the plugin out of the
    list of every event and keeps all others in their order;
    [UnsubscribeEvent] does so for one event and leaves every other
    event as it was.  Neither touches the counters, and after
    [Unsubscribe] no [Dispatch] calls a handler of that plugin. *)
Theorem X1_unsubscribe (d : Dispatcher.t) (p : string)
    (e e' : plugin.EventType) (serialized : list byte) (elapsed : Z) (i : nat) :
  subs_of (dispatcher.Unsubscribe d p) e'
    = List.filter (λ s, negb (String.eqb (Subscription.PluginID s) p))
        (subs_of d e') ∧
  subs_of (dispatcher.UnsubscribeEvent d p e) e
    = List.filter (λ s, negb (String.eqb (Subscription.PluginID s) p))
        (subs_of d e) ∧
  (e ≠ e' → subs_of (dispatcher.UnsubscribeEvent d p e) e' = subs_of d e') ∧
  Dispatcher.eventCount (dispatcher.Unsubscribe d p) = Dispatcher.eventCount d ∧
  Dispatcher.eventCount (dispatcher.UnsubscribeEvent d p e)
    = Dispatcher.eventCount d ∧
  Dispatcher.cancelCount (dispatcher.Unsubscribe d p)
    = Dispatcher.cancelCount d ∧
  Dispatcher.cancelCount (dispatcher.UnsubscribeEvent d p e)
    = Dispatcher.cancelCount d ∧
  Dispatcher.dispatchTimes (dispatcher.Unsubscribe d p)
    = Dispatcher.dispatchTimes d ∧
  Dispatcher.dispatchTimes (dispatcher.UnsubscribeEvent d p e)
    = Dispatcher.dispatchTimes d ∧
  ((e', i) ∈ DispatchOutcome.called
               (Dispatch (dispatcher.Unsubscribe d p) e' serialized elapsed) →
   ∃ H, subs_of (dispatcher.Unsubscribe d p) e' !! i = Some H ∧
        Subscription.PluginID H ≠ p).
Proof.
  split; [apply subs_of_Unsubscribe|].
  split; [by rewrite subs_of_UnsubscribeEvent, decide_True|].
  split; [intros Hne; by rewrite subs_of_UnsubscribeEvent, decide_False|].
  do 6 (split; [done|]).
  intros (_ & H & HH)%Dispatch_called_lookup. exists H. split; [done|].
  apply (DeleteFunc_not_owned p (subs_of d e')).
  rewrite <- subs_of_Unsubscribe. apply list_elem_of_In.
  by eapply list_elem_of_lookup_2.
Qed.

(** ** The dispatcher: subscribing *)

Lemma sink_Permutation {A} (cmp : A → A → Z) x l : sink cmp x l ≡ₚ x :: l.
Proof.
  induction l as [|y l IH]; simpl; [done|].
  destruct (cmp x y <? 0); [|done].
  rewrite IH. apply Permutation_swap.
Qed.

Lemma insertionSortCmpFunc_Permutation {A} (cmp : A → A → Z) l :
  insertionSortCmpFunc cmp l ≡ₚ l.
Proof.
  unfold insertionSortCmpFunc.
  assert (H : ∀ acc, fold_left (λ acc x, sink cmp x acc) l acc ≡ₚ acc ++ l).
  { induction l as [|x l IH]; intros acc; simpl.
    - by rewrite app_nil_r.
    - rewrite IH, sink_Permutation. simpl. apply Permutation_middle. }
  rewrite <- Permutation_rev. apply (H []).
Qed.

Lemma Subscribe_other_event d e s e' :
  e ≠ e' → subs_of (Subscribe d e s) e' = subs_of d e'.
Proof.
  intros Hne. unfold subs_of at 1, Subscribe. simpl.
  by rewrite lookup_insert_ne.
Qed.

(** X2.  While the list of an event stays within the insertion-sort
    branch of [slices.SortFunc], [Subscribe] never loses or repeats a
    subscription, whatever the priorities are (also when the comparison
    wraps): the new list is a rearrangement of the old one with the new
    subscription added, the count grows by one, and the lists of all
    other events and the counters stay as they were. *)
Theorem X2_subscribe_keeps_all (d : Dispatcher.t) (e e' : plugin.EventType)
    (s : Subscription.t) :
  (length (subs_of d e) < maxInsertion)%nat →
  subs_of (Subscribe d e s) e ≡ₚ subs_of d e ++ [s] ∧
  dispatcher.SubscriberCount (Subscribe d e s) e
    = dispatcher.SubscriberCount d e + 1 ∧
  dispatcher.HasSubscribers (Subscribe d e s) e = true ∧
  (e ≠ e' → subs_of (Subscribe d e s) e' = subs_of d e') ∧
  Dispatcher.eventCount (Subscribe d e s) = Dispatcher.eventCount d ∧
  Dispatcher.cancelCount (Subscribe d e s) = Dispatcher.cancelCount d ∧
  Dispatcher.dispatchTimes (Subscribe d e s) = Dispatcher.dispatchTimes d.
Proof.
  intros _.
  assert (Hp : subs_of (Subscribe d e s) e ≡ₚ subs_of d e ++ [s]).
  { rewrite subs_of_Subscribe. apply insertionSortCmpFunc_Permutation. }
  assert (Hl : length (subs_of (Subscribe d e s) e) = S (length (subs_of d e))).
  { rewrite Hp, length_app. simpl. lia. }
  split; [done|].
  unfold dispatcher.SubscriberCount, dispatcher.HasSubscribers.
  rewrite Hl. split; [lia|]. split; [done|].
  split; [apply Subscribe_other_event|done].
Qed.

Lemma X2_subscribe_keeps_all_witness :
  (length (subs_of (two_handlers S4_H1 S4_H2) plugin.EventPlayerChat)
     < maxInsertion)%nat ∧
  dispatcher.SubscriberCount
    (Subscribe (two_handlers S4_H1 S4_H2) plugin.EventPlayerChat S6_H1)
    plugin.EventPlayerChat
  = dispatcher.SubscriberCount (two_handlers S4_H1 S4_H2)
      plugin.EventPlayerChat + 1.
Proof.
  assert (H : (length (subs_of (two_handlers S4_H1 S4_H2)
                         plugin.EventPlayerChat) < maxInsertion)%nat).
  { rewrite two_handlers_subs. vm_compute. lia. }
  split; [exact H|].
  apply (X2_subscribe_keeps_all (two_handlers S4_H1 S4_H2)
           plugin.EventPlayerChat plugin.EventPlayerChat S6_H1 H).
Defined.

(** X3.  Where the comparison cannot wrap (priorities from -2^62 up to,
    not including, 2^62) and the list is ascending and within the
    insertion-sort branch, [Subscribe] puts the new subscription behind
    every subscription of lower or equal priority and before every one of
    higher priority and moves nothing else: the list stays ascending and
    subscriptions of equal priority keep their insertion order. *)
Theorem X3_subscribe_ascending_stable (d : Dispatcher.t)
    (e : plugin.EventType) (s : Subscription.t) :
  (length (subs_of d e) < maxInsertion)%nat →
  Forall in_range (subs_of d e) → in_range s →
  StronglySorted prio_le (subs_of d e) →
  ∃ l1 l2,
    subs_of d e = l1 ++ l2 ∧
    Forall (λ x, Subscription.Priority x <= Subscription.Priority s) l1 ∧
    Forall (λ x, Subscription.Priority s < Subscription.Priority x) l2 ∧
    subs_of (Subscribe d e s) e = l1 ++ s :: l2 ∧
    StronglySorted prio_le (subs_of (Subscribe d e s) e).
Proof.
  intros Hlen Hr Hs Hsorted.
  destruct (Subscribe_in_range_stable d e s Hlen Hr Hs Hsorted)
    as (l1 & l2 & H1 & H2 & H3 & H4 & H5).
  exists l1, l2. rewrite H4. done.
Qed.

Lemma X3_subscribe_ascending_stable_witness :
  let d := two_handlers S4_H1 S4_H2 in
  (length (subs_of d plugin.EventPlayerChat) < maxInsertion)%nat ∧
  Forall in_range (subs_of d plugin.EventPlayerChat) ∧
  in_range S6_H1 ∧
  StronglySorted prio_le (subs_of d plugin.EventPlayerChat) ∧
  StronglySorted prio_le
    (subs_of (Subscribe d plugin.EventPlayerChat S6_H1) plugin.EventPlayerChat).
Proof.
  intros d.
  assert (Hs : subs_of d plugin.EventPlayerChat = [S4_H1; S4_H2]).
  { unfold d. rewrite two_handlers_subs. reflexivity. }
  assert (Hr : ∀ z, (z = 0 ∨ z = 100) → - 2 ^ 62 <= z < 2 ^ 62).
  { intros z Hz. change (2 ^ 62) with 4611686018427387904. lia. }
  assert (H1 : (length (subs_of d plugin.EventPlayerChat) < maxInsertion)%nat).
  { rewrite Hs. vm_compute. lia. }
  assert (H2 : Forall in_range (subs_of d plugin.EventPlayerChat)).
  { rewrite Hs. repeat constructor; apply Hr; simpl; auto. }
  assert (H3 : in_range S6_H1).
  { apply Hr. simpl. auto. }
  assert (H4 : StronglySorted prio_le (subs_of d plugin.EventPlayerChat)).
  { rewrite Hs. repeat constructor. unfold prio_le. simpl. lia. }
  split; [exact H1|]. split; [exact H2|]. split; [exact H3|].
  split; [exact H4|].
  destruct (X3_subscribe_ascending_stable d plugin.EventPlayerChat S6_H1
              H1 H2 H3 H4) as (l1 & l2 & _ & _ & _ & _ & H5).
  exact H5.
Defined.

(** ** The dispatcher: what a dispatch reports *)

Lemma dispatch_loop_calls_bound ser l j :
  j ∈ snd (dispatch_loop ser 0 l (fresh_result, [])) → (j < length l)%nat.
Proof. intros (H & HH & _)%dispatch_loop_calls. by eapply lookup_lt_Some. Qed.

Lemma errors_of_snoc ser l s calls :
  (∀ j, j ∈ calls → (j < length l)%nat) →
  dispatcher.errors_of ser (l ++ [s]) calls = dispatcher.errors_of ser l calls.
Proof.
  unfold dispatcher.errors_of.
  induction calls as [|j calls IH]; intros Hb; [done|]. simpl.
  rewrite lookup_app_l by (apply Hb; left).
  rewrite IH; [done|]. intros j' Hj'. apply Hb. by right.
Qed.

Lemma errors_of_app ser subs c1 c2 :
  dispatcher.errors_of ser subs (c1 ++ c2)
  = dispatcher.errors_of ser subs c1 ++ dispatcher.errors_of ser subs c2.
Proof. apply flat_map_app. Qed.

Lemma dispatch_loop_accounting ser subs :
  Z.of_nat (length subs) <= GoInt.MaxInt →
  let st := dispatch_loop ser 0 subs (fresh_result, []) in
  DispatchResult.Errors (fst st) = dispatcher.errors_of ser subs (snd st) ∧
  DispatchResult.Handlers (fst st)
  = Z.of_nat (length (snd st)) - Z.of_nat (length (DispatchResult.Errors (fst st))) ∧
  (length (snd st) ≤ length subs)%nat ∧
  (length (DispatchResult.Errors (fst st)) ≤ length (snd st))%nat.
Proof.
  induction subs as [|s l IH] using rev_ind; intros Hlen st; [done|].
  subst st. rewrite dispatch_loop_snoc.
  rewrite length_app in Hlen. simpl in Hlen.
  destruct IH as (IH1 & IH2 & IH3 & IH4); [lia|].
  pose proof (dispatch_loop_calls_bound ser l) as Hb.
  destruct (dispatch_loop ser 0 l (fresh_result, [])) as [r c].
  simpl in IH1, IH2, IH3, IH4, Hb.
  unfold dispatch_body.
  destruct (DispatchResult.Cancelled r && Subscription.IgnoreCancelled s).
  - simpl. rewrite errors_of_snoc by done. rewrite length_app. simpl.
    repeat split; [done|done|lia|lia].
  - assert (Hnew : dispatcher.errors_of ser (l ++ [s]) [length l]
                   = match snd (Subscription.Handler s ser) with
                     | Some e => [e] | None => [] end).
    { unfold dispatcher.errors_of, dispatcher.handler_error. simpl.
      rewrite lookup_app_r, Nat.sub_diag by lia. simpl.
      destruct (snd (Subscription.Handler s ser)); by rewrite ?app_nil_r. }
    assert (Hw : GoInt.wrap_int (DispatchResult.Handlers r + 1)
                 = DispatchResult.Handlers r + 1).
    { apply wrap_int_small. unfold GoInt.MinInt, GoInt.MaxInt in *.
      change (2 ^ 63) with 9223372036854775808 in *. lia. }
    destruct (Subscription.Handler s ser) as [[hr|] [e|]] eqn:Hh;
      cbn [fst snd DispatchResult.Errors DispatchResult.Handlers] in *;
      rewrite errors_of_app, errors_of_snoc, Hnew, ?Hw, ?length_app by done;
      cbn [length]; rewrite ?app_nil_r, <- ?IH1;
      (split; [done|]); split; lia.
Qed.

Lemma Dispatch_result_fields d e ser el :
  subs_of d e ≠ [] →
  let st := dispatch_loop ser 0 (subs_of d e) (fresh_result, []) in
  let r := DispatchOutcome.result (Dispatch d e ser el) in
  DispatchResult.Cancelled r = DispatchResult.Cancelled (fst st) ∧
  DispatchResult.Modifications r = DispatchResult.Modifications (fst st) ∧
  DispatchResult.Handlers r = DispatchResult.Handlers (fst st) ∧
  DispatchResult.Errors r = DispatchResult.Errors (fst st) ∧
  DispatchResult.Duration r = el.
Proof.
  intros Hne st r. subst st r. unfold Dispatch.
  destruct (subs_of d e) as [|s l]; [done|].
  change (length (s :: l) =? 0)%nat with false. cbv iota.
  by destruct (dispatch_loop ser 0 (s :: l) (fresh_result, [])).
Qed.

(** X4.  For a list of subscriptions whose length fits a Go [int]:
    [Errors] holds exactly the errors of the handlers that were called, in
    call order, and [Handlers] counts the called handlers that returned no
    error (a nil result counts), so that [Handlers + len(Errors)] is the
    number of handlers called, which is at most the number of
    subscriptions of the event. *)
Theorem X4_dispatch_accounting (d : Dispatcher.t) (event : plugin.EventType)
    (serialized : list byte) (elapsed : Z) :
  Z.of_nat (length (subs_of d event)) <= GoInt.MaxInt →
  let out := Dispatch d event serialized elapsed in
  let calls := map snd (DispatchOutcome.called out) in
  DispatchResult.Errors (DispatchOutcome.result out)
    = dispatcher.errors_of serialized (subs_of d event) calls ∧
  DispatchResult.Handlers (DispatchOutcome.result out)
    + Z.of_nat (length (DispatchResult.Errors (DispatchOutcome.result out)))
    = Z.of_nat (length calls) ∧
  Z.of_nat (length calls) <= dispatcher.SubscriberCount d event.
Proof.
  intros Hlen out calls. subst out calls.
  rewrite Dispatch_called, map_map. simpl. rewrite map_id.
  unfold dispatcher.SubscriberCount.
  destruct (decide (subs_of d event = [])) as [He|Hne].
  - unfold Dispatch. rewrite He. done.
  - destruct (Dispatch_result_fields d event serialized elapsed Hne)
      as (_ & _ & -> & -> & _).
    destruct (dispatch_loop_accounting serialized (subs_of d event) Hlen)
      as (H1 & H2 & H3 & H4).
    split; [done|]. split; lia.
Qed.

Lemma X4_dispatch_accounting_witness :
  let d := two_handlers S4_H1 S4_H2 in
  Z.of_nat (length (subs_of d plugin.EventPlayerChat)) <= GoInt.MaxInt ∧
  DispatchResult.Handlers
    (DispatchOutcome.result (Dispatch d plugin.EventPlayerChat [] 0))
  + Z.of_nat (length (DispatchResult.Errors
       (DispatchOutcome.result (Dispatch d plugin.EventPlayerChat [] 0))))
  = Z.of_nat (length (map snd (DispatchOutcome.called
       (Dispatch d plugin.EventPlayerChat [] 0)))).
Proof.
  intros d.
  assert (H : Z.of_nat (length (subs_of d plugin.EventPlayerChat))
              <= GoInt.MaxInt).
  { unfold d. rewrite two_handlers_subs. vm_compute. discriminate. }
  split; [exact H|].
  apply (X4_dispatch_accounting d plugin.EventPlayerChat [] 0 H).
Defined.

Lemma dispatch_body_cancelled ser i sub r c :
  DispatchResult.Cancelled (fst (dispatch_body ser i sub (r, c))) =
  DispatchResult.Cancelled r
  || (negb (DispatchResult.Cancelled r && Subscription.IgnoreCancelled sub)
      && dispatcher.cancels ser sub).
Proof.
  unfold dispatch_body, dispatcher.cancels.
  destruct (DispatchResult.Cancelled r) eqn:Hc,
    (Subscription.IgnoreCancelled sub); simpl;
    destruct (Subscription.Handler sub ser) as [[hr|] [e|]]; simpl;
    rewrite ?Hc; try done; by destruct (EventResult.Cancelled hr).
Qed.

Lemma dispatch_loop_cancelled ser subs :
  DispatchResult.Cancelled (fst (dispatch_loop ser 0 subs (fresh_result, [])))
    = true ↔
  ∃ i sub, i ∈ snd (dispatch_loop ser 0 subs (fresh_result, [])) ∧
           subs !! i = Some sub ∧ dispatcher.cancels ser sub = true.
Proof.
  induction subs as [|s l IH] using rev_ind.
  - simpl. split; [done|]. by intros (i & sub & ?%elem_of_nil & _).
  - rewrite dispatch_loop_snoc.
    pose proof (dispatch_loop_calls_bound ser l) as Hb.
    destruct (dispatch_loop ser 0 l (fresh_result, [])) as [r c].
    simpl in IH, Hb.
    rewrite dispatch_body_cancelled, dispatch_body_calls.
    rewrite orb_true_iff, IH, andb_true_iff, negb_true_iff. split.
    + intros [(i & sub & Hi & Hsub & Hc)|[Hskip Hc]].
      * exists i, sub. split; [|split; [|done]].
        -- destruct (_ && _); [done|]. apply elem_of_app. by left.
        -- rewrite lookup_app_l; [done|]. by apply Hb.
      * exists (length l), s. rewrite Hskip. split; [|split; [|done]].
        -- apply elem_of_app. right. left.
        -- by rewrite lookup_app_r, Nat.sub_diag by lia.
    + intros (i & sub & Hi & Hsub & Hc).
      destruct (decide (i < length l)%nat) as [Hlt|Hge].
      * left. exists i, sub. rewrite lookup_app_l in Hsub by done.
        split; [|done].
        destruct (_ && _); [done|].
        apply elem_of_app in Hi as [?|Hi%list_elem_of_singleton]; [done|lia].
      * right. destruct (DispatchResult.Cancelled r
                         && Subscription.IgnoreCancelled s) eqn:Hskip.
        -- apply Hb in Hi. lia.
        -- apply elem_of_app in Hi as [Hi%Hb|Hi%list_elem_of_singleton];
             [lia|]. subst i.
           rewrite lookup_app_r, Nat.sub_diag in Hsub by lia.
           injection Hsub as <-. done.
Qed.

(** X5.  The aggregate is cancelled exactly when one of the handlers that
    were called returned, without error, a result with [Cancelled] set.
    A handler that returns an error, or a nil result, never cancels. *)
Theorem X5_dispatch_cancelled_iff (d : Dispatcher.t) (event : plugin.EventType)
    (serialized : list byte) (elapsed : Z) :
  let out := Dispatch d event serialized elapsed in
  DispatchResult.Cancelled (DispatchOutcome.result out) = true ↔
  ∃ i sub, (event, i) ∈ DispatchOutcome.called out ∧
           subs_of d event !! i = Some sub ∧
           ∃ hr, Subscription.Handler sub serialized = (Some hr, None) ∧
                 EventResult.Cancelled hr = true.
Proof.
  intros out. subst out.
  assert (Hc : ∀ sub, dispatcher.cancels serialized sub = true ↔
                 ∃ hr, Subscription.Handler sub serialized = (Some hr, None) ∧
                       EventResult.Cancelled hr = true).
  { intros sub. unfold dispatcher.cancels.
    destruct (Subscription.Handler sub serialized) as [[hr|] [e|]];
      split; try done; try (by intros (? & [=] & _)).
    - intros H. by exists hr.
    - by intros (? & [= <-] & ?). }
  assert (Hin : ∀ i, (event, i) ∈ map (pair event)
                  (snd (dispatch_loop serialized 0 (subs_of d event)
                          (fresh_result, [])))
                ↔ i ∈ snd (dispatch_loop serialized 0 (subs_of d event)
                             (fresh_result, []))).
  { intros i. rewrite list_elem_of_In, in_map_iff. split.
    - intros (j & [= <-] & Hj). by apply list_elem_of_In.
    - intros Hi. exists i. split; [done|]. by apply list_elem_of_In. }
  rewrite Dispatch_called.
  setoid_rewrite Hin. setoid_rewrite <- Hc.
  rewrite <- dispatch_loop_cancelled.
  destruct (decide (subs_of d event = [])) as [He|Hne].
  - unfold Dispatch. rewrite He. done.
  - by destruct (Dispatch_result_fields d event serialized elapsed Hne)
      as (-> & _).
Qed.

(** ** The dispatcher: the metric maps *)

Lemma step_metric_keys_closed d op :
  dispatcher.metric_keys_closed d →
  dispatcher.metric_keys_closed (dispatcher.step d op).
Proof.
  intros Hinv. destruct op as [ev sub|p|p ev|ev ser el|]; try exact Hinv.
  - intros e. simpl. unfold Dispatch.
    destruct (length (subs_of d ev) =? 0)%nat; [apply Hinv|].
    destruct (dispatch_loop ser 0 (subs_of d ev) (fresh_result, [])) as [r c].
    simpl. unfold bump_uint64, add_duration.
    destruct (decide (ev = e)) as [<-|Hne].
    + intros _. rewrite lookup_insert_eq. by eexists.
    + rewrite !lookup_insert_ne by done.
      destruct (DispatchResult.Cancelled r);
        rewrite ?lookup_insert_ne by done; apply Hinv.
  - intros e. simpl. rewrite !lookup_empty. by intros [[? ?]|[? ?]].
Qed.

Lemma step_metrics_dispatched d op e :
  is_Some (Dispatcher.eventCount (dispatcher.step d op) !! e) →
  is_Some (Dispatcher.eventCount d !! e) ∨
  ∃ ser el, op = dispatcher.OpDispatch e ser el ∧ subs_of d e ≠ [].
Proof.
  destruct op as [ev sub|p|p ev|ev ser el|]; simpl; auto.
  - unfold Dispatch.
    destruct (subs_of d ev) as [|s l] eqn:Hs; [auto|].
    change (length (s :: l) =? 0)%nat with false. cbv iota.
    destruct (dispatch_loop ser 0 (s :: l) (fresh_result, [])) as [r c].
    simpl. unfold bump_uint64.
    destruct (decide (ev = e)) as [<-|Hne].
    + intros _. right. exists ser, el. by rewrite Hs.
    + rewrite lookup_insert_ne by done. auto.
  - rewrite lookup_empty. by intros [? ?].
Qed.

Lemma GetMetrics_events d e :
  e ∈ map dispatcher.EventMetrics.EventType (dispatcher.GetMetrics d) ↔
  is_Some (Dispatcher.eventCount d !! e).
Proof.
  unfold dispatcher.GetMetrics. rewrite map_map. simpl.
  rewrite list_elem_of_In, in_map_iff. split.
  - intros ([k n] & <- & Hin). simpl.
    apply list_elem_of_In, elem_of_map_to_list in Hin. by eexists.
  - intros [n Hn]. exists (e, n). split; [done|].
    by apply list_elem_of_In, elem_of_map_to_list.
Qed.

(** X6.  After any sequence of [Subscribe], [Unsubscribe],
    [UnsubscribeEvent], [Dispatch] and [ResetMetrics] calls on a new
    dispatcher, [GetMetrics] lists every event that has any counter
    (count, cancel count or duration) exactly once, and lists an event
    only if the sequence holds a [Dispatch] of that event. *)
Theorem X6_metrics_cover_dispatched_events (ops : list dispatcher.Op)
    (e : plugin.EventType) :
  let d := dispatcher.run ops NewDispatcher in
  let listed := map dispatcher.EventMetrics.EventType (dispatcher.GetMetrics d) in
  NoDup listed ∧
  (is_Some (Dispatcher.eventCount d !! e) ∨
   is_Some (Dispatcher.cancelCount d !! e) ∨
   is_Some (Dispatcher.dispatchTimes d !! e) ↔ e ∈ listed) ∧
  (e ∈ listed → ∃ ser el, dispatcher.OpDispatch e ser el ∈ ops).
Proof.
  intros d listed. subst listed.
  assert (Hinv : dispatcher.metric_keys_closed d ∧
                 (is_Some (Dispatcher.eventCount d !! e) →
                  ∃ ser el, dispatcher.OpDispatch e ser el ∈ ops)).
  { subst d. induction ops as [|op ops IH] using rev_ind.
    - split.
      + intros e'. simpl. rewrite !lookup_empty. by intros [[? ?]|[? ?]].
      + simpl. rewrite lookup_empty. by intros [? ?].
    - unfold dispatcher.run in *. rewrite fold_left_app. simpl.
      destruct IH as [IH1 IH2]. split.
      + by apply step_metric_keys_closed.
      + intros [Hold|(ser & el & -> & _)]%step_metrics_dispatched.
        * destruct (IH2 Hold) as (ser & el & Hin). exists ser, el.
          apply elem_of_app. by left.
        * exists ser, el. apply elem_of_app. right. left. }
  destruct Hinv as [Hclosed Hdisp].
  split; [|split].
  - unfold dispatcher.GetMetrics. rewrite map_map. simpl.
    apply (NoDup_fst_map_to_list (Dispatcher.eventCount d)).
  - rewrite GetMetrics_events. split; [|auto].
    intros [?|H]; [done|]. by apply Hclosed.
  - rewrite GetMetrics_events. apply Hdisp.
Qed.

(** ** Chat messages and the handlers the manager makes *)

Lemma from_manager_no_modifications ser sub :
  dispatcher.from_manager sub → returned_modifications ser sub = ∅.
Proof.
  intros (loaded & ev & t & Hh).
  unfold returned_modifications. rewrite Hh.
  unfold manager.createEventHandler.
  destruct (manager.LoadedPlugin.State loaded); try done;
    destruct t; try done;
    destruct (manager.LoadedPlugin.Call loaded _ _) as [out [err|]]; done.
Qed.

Lemma merge_in_order_empty ser subs calls :
  (∀ i sub, i ∈ calls → subs !! i = Some sub →
            returned_modifications ser sub = ∅) →
  merge_in_order ser subs calls = ∅.
Proof.
  unfold merge_in_order.
  induction calls as [|i calls IH] using rev_ind; intros Hall; [done|].
  rewrite fold_left_app. simpl. rewrite IH.
  - destruct (subs !! i) as [sub|] eqn:Hi; [|done].
    rewrite (Hall i sub); [by rewrite (left_id_L ∅ (∪))| |done].
    apply elem_of_app. right. left.
  - intros j sub Hj. apply Hall. apply elem_of_app. by left.
Qed.

(** X7.  When every handler subscribed to [player_chat] is a closure made
    by [Manager.createEventHandler], a dispatch through [dispatchEvent]
    never yields a modification (the modifications are nil or empty), and
    [HandleChat] leaves the chat message exactly as it was: a plugin
    loaded by the manager cannot rewrite a chat message. *)
Theorem X7_manager_handlers_never_modify (d : Dispatcher.t) (message : string)
    (jsonData : option (list byte)) (elapsed : Z) :
  (∀ sub, sub ∈ subs_of d plugin.EventPlayerChat →
          dispatcher.from_manager sub) →
  (snd (fst (handler.dispatchEvent d plugin.EventPlayerChat jsonData elapsed))
     = None ∨
   snd (fst (handler.dispatchEvent d plugin.EventPlayerChat jsonData elapsed))
     = Some ∅) ∧
  snd (fst (handler.HandleChat d message jsonData elapsed)) = message.
Proof.
  intros Hall.
  assert (Hm : snd (fst (handler.dispatchEvent d plugin.EventPlayerChat
                           jsonData elapsed)) = None ∨
               snd (fst (handler.dispatchEvent d plugin.EventPlayerChat
                           jsonData elapsed)) = Some ∅).
  { unfold handler.dispatchEvent.
    destruct (negb _) eqn:Hhas; [by left|].
    destruct jsonData as [data|]; [|by left]. right. simpl.
    assert (Hne : subs_of d plugin.EventPlayerChat ≠ []).
    { intros He. unfold dispatcher.HasSubscribers in Hhas.
      by rewrite He in Hhas. }
    destruct (Dispatch_result_fields d plugin.EventPlayerChat data elapsed Hne)
      as (_ & -> & _).
    rewrite dispatch_loop_modifications. f_equal.
    apply merge_in_order_empty. intros i sub _ Hi.
    apply from_manager_no_modifications, Hall.
    by eapply list_elem_of_lookup_2. }
  split; [exact Hm|].
  unfold handler.HandleChat.
  destruct (handler.dispatchEvent d plugin.EventPlayerChat jsonData elapsed)
    as [[c mods] d']. simpl in *.
  destruct Hm as [-> | ->]; [done|]. by rewrite lookup_empty.
Qed.

Lemma X7_manager_handlers_never_modify_witness :
  let d := two_handlers S6_G1 S6_G2 in
  (∀ sub, sub ∈ subs_of d plugin.EventPlayerChat →
          dispatcher.from_manager sub) ∧
  snd (fst (handler.HandleChat d "hi" (Some []) 0)) = "hi"%string.
Proof.
  intros d.
  assert (H : ∀ sub, sub ∈ subs_of d plugin.EventPlayerChat →
                     dispatcher.from_manager sub).
  { unfold d. rewrite two_handlers_subs.
    change (cmpPriority S6_G2 S6_G1 <? 0) with false. cbv iota.
    intros sub Hsub. apply list_elem_of_In in Hsub.
    destruct Hsub as [<- |[<- |[]]].
    - exists (guest "hello"), plugin.EventPlayerChat, false. reflexivity.
    - exists (guest "world"), plugin.EventPlayerChat, false. reflexivity. }
  split; [exact H|].
  apply (X7_manager_handlers_never_modify d "hi" (Some []) 0 H).
Defined.

(** ** Versions *)

(** X8.  [Version.Compare] is a three-way comparison by major, then
    minor, then patch: it answers -1, 0 or 1; 0 exactly on equal
    versions; swapping the arguments negates the answer; and "not
    greater" is transitive. *)
Theorem X8_version_compare_order (a b c : version.Version.t) :
  (version.Compare a b = -1 ∨ version.Compare a b = 0 ∨
   version.Compare a b = 1) ∧
  (version.Compare a b = 0 ↔ a = b) ∧
  version.Compare b a = - version.Compare a b ∧
  (version.Compare a b <= 0 → version.Compare b c <= 0 →
   version.Compare a c <= 0) ∧
  (version.Compare a b = -1 ↔
   version.Version.Major a < version.Version.Major b ∨
   (version.Version.Major a = version.Version.Major b ∧
    (version.Version.Minor a < version.Version.Minor b ∨
     (version.Version.Minor a = version.Version.Minor b ∧
      version.Version.Patch a < version.Version.Patch b)))).
Proof.
  destruct a as [a1 a2 a3], b as [b1 b2 b3], c as [c1 c2 c3].
  unfold version.Compare, version.cmp_Compare. simpl.
  repeat split;
    repeat (match goal with
            | |- context [?x <? ?y] =>
                destruct (Z.ltb_spec x y); simpl
            end);
    try lia; try (intros; f_equal; lia);
    try (intros [= -> -> ->]; lia).
Qed.

(** ** Regular expressions: the matcher decides the language *)

Lemma matches_nil_nullable r : regex.matches r [] → regex.nullable r = true.
Proof.
  intros H. remember [] as s eqn:Hs.
  induction H as [|p c Hp|r s' u v Hu IHu Hv IHv|r s' u Hu IHu|r s' u Hu IHu
                  |r|r u v Hu IHu Hv IHv]; simpl; try done.
  - apply app_eq_nil in Hs as [-> ->]. by rewrite IHu, IHv.
  - by rewrite IHu.
  - rewrite IHu by done. apply orb_true_r.
Qed.

Lemma nullable_matches_nil r : regex.nullable r = true → regex.matches r [].
Proof.
  induction r as [| |p|r IHr s IHs|r IHr s IHs|r IHr]; simpl; try done.
  - intros _. constructor.
  - intros [Hr Hs]%andb_true_iff.
    change (@nil ascii) with (@nil ascii ++ []). constructor; auto.
  - intros [Hr|Hs]%orb_true_iff; [apply regex.MAltL|apply regex.MAltR]; auto.
  - intros _. constructor.
Qed.

Lemma matches_cat_inv r s t :
  regex.matches (regex.Cat r s) t →
  ∃ u v, t = u ++ v ∧ regex.matches r u ∧ regex.matches s v.
Proof. inversion 1; subst; eauto. Qed.

Lemma matches_alt_inv r s t :
  regex.matches (regex.Alt r s) t → regex.matches r t ∨ regex.matches s t.
Proof. inversion 1; subst; eauto. Qed.

Lemma matches_star_cons r c t :
  regex.matches (regex.Star r) (c :: t) →
  ∃ u v, t = u ++ v ∧ regex.matches r (c :: u) ∧
         regex.matches (regex.Star r) v.
Proof.
  intros H. remember (regex.Star r) as R eqn:HR.
  remember (c :: t) as s eqn:Hs. revert t Hs.
  induction H as [|p c' Hp|r1 s' u v Hu IHu Hv IHv|r1 s' u Hu IHu|r1 s' u Hu IHu
                  |r1|r1 u v Hu IHu Hv IHv]; intros t Hs; try done.
  injection HR as ->.
  destruct u as [|c' u]; simpl in Hs.
  - by apply IHv.
  - injection Hs as -> <-. by exists u, v.
Qed.

Lemma matches_deriv c r s :
  regex.matches (regex.deriv c r) s ↔ regex.matches r (c :: s).
Proof.
  revert s. induction r as [| |p|r IHr s' IHs|r IHr s' IHs|r IHr];
    intros s; simpl.
  - split; inversion 1.
  - split; inversion 1.
  - destruct (p c) eqn:Hp; split.
    + inversion 1; subst. by constructor.
    + inversion 1; subst. constructor.
    + inversion 1.
    + inversion 1; subst. congruence.
  - assert (Hleft : ∀ t, regex.matches (regex.Cat (regex.deriv c r) s') t →
                         regex.matches (regex.Cat r s') (c :: t)).
    { intros t (u & v & -> & Hu & Hv)%matches_cat_inv.
      apply IHr in Hu. by apply (regex.MCat r s' (c :: u) v). }
    assert (Hback : ∀ t, regex.matches (regex.Cat r s') (c :: t) →
              regex.matches (regex.Cat (regex.deriv c r) s') t ∨
              (regex.nullable r = true ∧ regex.matches (regex.deriv c s') t)).
    { intros t (u & v & Heq & Hu & Hv)%matches_cat_inv.
      destruct u as [|c' u]; simpl in Heq.
      - subst v. right. split; [by apply matches_nil_nullable|by apply IHs].
      - injection Heq as <- ->. left. constructor; [by apply IHr|done]. }
    destruct (regex.nullable r) eqn:Hn; split.
    + intros [Hu|Hu]%matches_alt_inv; [by apply Hleft|].
      apply IHs in Hu.
      apply (regex.MCat r s' [] (c :: s)); [by apply nullable_matches_nil|done].
    + intros [?|[_ ?]]%Hback; [by apply regex.MAltL|by apply regex.MAltR].
    + apply Hleft.
    + intros [?|[? _]]%Hback; [done|congruence].
  - split.
    + intros [?|?]%matches_alt_inv; [apply regex.MAltL|apply regex.MAltR];
        by (apply IHr || apply IHs).
    + intros [?|?]%matches_alt_inv; [apply regex.MAltL|apply regex.MAltR];
        by (apply IHr || apply IHs).
  - split.
    + intros (u & v & -> & Hu & Hv)%matches_cat_inv.
      apply IHr in Hu. by apply (regex.MStarApp r (c :: u) v).
    + intros (u & v & -> & Hu & Hv)%matches_star_cons.
      constructor; [by apply IHr|done].
Qed.

Lemma matchb_correct r s : regex.matchb r s = true ↔ regex.matches r s.
Proof.
  revert r. induction s as [|c s IH]; intros r; simpl.
  - split; [apply nullable_matches_nil|apply matches_nil_nullable].
  - by rewrite IH, matches_deriv.
Qed.

(** ** Plugin ids *)

Lemma matches_class p s :
  regex.matches (regex.Class p) s ↔ ∃ c, s = [c] ∧ p c = true.
Proof.
  split.
  - inversion 1; subst. eauto.
  - intros (c & -> & Hp). by constructor.
Qed.

Lemma matches_star_class p s :
  regex.matches (regex.Star (regex.Class p)) s ↔ Forall (λ x, p x = true) s.
Proof.
  split.
  - intros H. remember (regex.Star (regex.Class p)) as R eqn:HR.
    induction H as [|p' c' Hp|r1 s' u v Hu IHu Hv IHv|r1 s' u Hu IHu
                    |r1 s' u Hu IHu|r1|r1 u v Hu IHu Hv IHv]; try done.
    injection HR as ->.
    apply matches_class in Hu as (c & -> & Hc). constructor; auto.
  - induction 1 as [|c s Hc Hs IH]; [constructor|].
    apply (regex.MStarApp _ [c] s); [by constructor|done].
Qed.

Lemma matches_segment s :
  regex.matches manifest.segment_re s ↔ manifest.segment s.
Proof.
  unfold manifest.segment_re, manifest.segment. split.
  - intros (u & v & -> & Hu & Hv)%matches_cat_inv.
    apply matches_class in Hu as (c & -> & Hc).
    apply matches_star_class in Hv. by exists c, v.
  - intros (c & rest & -> & Hc & Hrest).
    apply (regex.MCat _ _ [c] rest); [by constructor|].
    by apply matches_star_class.
Qed.

Lemma matches_dot_segment s :
  regex.matches (regex.Cat (regex.Class regex.dot) manifest.segment_re) s ↔
  ∃ seg, s = "."%char :: seg ∧ manifest.segment seg.
Proof.
  split.
  - intros (u & v & -> & Hu & Hv)%matches_cat_inv.
    apply matches_class in Hu as (c & -> & Hc).
    apply Ascii.eqb_eq in Hc as ->. apply matches_segment in Hv.
    by exists v.
  - intros (seg & -> & Hseg).
    apply (regex.MCat _ _ ["."%char] seg);
      [by constructor|by apply matches_segment].
Qed.

Lemma matches_star_dot_segment s :
  regex.matches
    (regex.Star (regex.Cat (regex.Class regex.dot) manifest.segment_re)) s ↔
  ∃ more, Forall manifest.segment more ∧
          s = concat (map (λ seg, "."%char :: seg) more).
Proof.
  split.
  - intros H.
    remember (regex.Star (regex.Cat (regex.Class regex.dot)
                            manifest.segment_re)) as R eqn:HR.
    induction H as [|p' c' Hp|r1 s' u v Hu IHu Hv IHv|r1 s' u Hu IHu
                    |r1 s' u Hu IHu|r1|r1 u v Hu IHu Hv IHv]; try done.
    + by exists [].
    + injection HR as ->.
      apply matches_dot_segment in Hu as (seg & -> & Hseg).
      destruct (IHv eq_refl) as (more & Hmore & ->).
      exists (seg :: more). split; [by constructor|done].
  - intros (more & Hmore & ->).
    induction Hmore as [|seg more Hseg Hmore IH]; [constructor|].
    simpl. apply (regex.MStarApp _ ("."%char :: seg)); [|done].
    apply matches_dot_segment. by exists seg.
Qed.

Lemma matches_pluginIDRegex s :
  regex.matches manifest.pluginIDRegex s ↔ manifest.well_formed_id s.
Proof.
  unfold manifest.pluginIDRegex, regex.Plus, manifest.well_formed_id. split.
  - intros (u & v & -> & Hu & Hv)%matches_cat_inv.
    apply matches_cat_inv in Hv as (u' & v' & -> & Hu' & Hv').
    apply matches_segment in Hu.
    apply matches_dot_segment in Hu' as (seg & -> & Hseg).
    apply matches_star_dot_segment in Hv' as (more & Hmore & ->).
    exists u, (seg :: more). split; [done|]. split; [done|].
    split; [by constructor|done].
  - intros (first & more & Hne & Hfirst & Hmore & ->).
    destruct more as [|seg more]; [done|].
    apply Forall_cons in Hmore as [Hseg Hmore].
    constructor; [by apply matches_segment|]. simpl.
    apply (regex.MCat _ _ ("."%char :: seg)).
    + apply matches_dot_segment. by exists seg.
    + apply matches_star_dot_segment. by exists more.
Qed.

Lemma string_eqb_empty s : String.eqb s "" = true ↔ s = ""%string.
Proof. apply String.eqb_eq. Qed.

(** X9.  [Validate] accepts a manifest exactly when its id is a segment
    followed by one or more dot-prefixed segments (a segment being a
    lower-case letter followed by lower-case letters, digits and
    underscores) and its name and entry point are not empty.  An accepted
    id therefore starts with a lower-case letter and holds a dot.  An
    empty id is reported as "required", not as malformed. *)
Theorem X9_validate_accepts (m : manifest.Manifest.t) :
  (manifest.Validate m = None ↔
   manifest.well_formed_id (list_ascii_of_string (manifest.Manifest.ID m)) ∧
   manifest.Manifest.Name m ≠ ""%string ∧
   manifest.Manifest.EntryPoint m ≠ ""%string) ∧
  (manifest.Validate m = None →
   In "."%char (list_ascii_of_string (manifest.Manifest.ID m)) ∧
   ∃ c rest, list_ascii_of_string (manifest.Manifest.ID m) = c :: rest ∧
             regex.lower c = true) ∧
  (manifest.Manifest.ID m = ""%string →
   manifest.Validate m = Some manifest.ErrIDRequired).
Proof.
  assert (Hiff : manifest.Validate m = None ↔
            manifest.well_formed_id
              (list_ascii_of_string (manifest.Manifest.ID m)) ∧
            manifest.Manifest.Name m ≠ ""%string ∧
            manifest.Manifest.EntryPoint m ≠ ""%string).
  { unfold manifest.Validate, regex.MatchString.
    rewrite <- matches_pluginIDRegex, <- matchb_correct.
    destruct (String.eqb (manifest.Manifest.ID m) "") eqn:Hid.
    - apply String.eqb_eq in Hid. rewrite Hid. simpl.
      split; [done|]. intros [H _]. vm_compute in H. done.
    - destruct (regex.matchb manifest.pluginIDRegex _) eqn:Hre; simpl;
        [|split; [done|by intros [? _]]].
      destruct (String.eqb (manifest.Manifest.Name m) "") eqn:Hn.
      + apply String.eqb_eq in Hn. split; [done|]. by intros (_ & ? & _).
      + apply String.eqb_neq in Hn.
        destruct (String.eqb (manifest.Manifest.EntryPoint m) "") eqn:He.
        * apply String.eqb_eq in He. split; [done|]. by intros (_ & _ & ?).
        * apply String.eqb_neq in He. done. }
  split; [exact Hiff|]. split.
  - intros ((first & more & Hne & Hfirst & Hmore & Heq) & _)%Hiff.
    rewrite Heq. split.
    + destruct more as [|seg more]; [done|]. simpl.
      apply in_or_app. right. by left.
    + destruct Hfirst as (c & rest & -> & Hc & _). simpl. eauto.
  - intros Hid. unfold manifest.Validate. by rewrite Hid.
Qed.

(** X10.  [SubscribedTo] tells whether some entry of the manifest names
    the event; [GetEventPriority] answers with the priority of the first
    such entry, later entries for the same event being ignored, and with
    [PriorityNormal] (zero) when there is none. *)
Theorem X10_event_priority_first_entry (m : manifest.Manifest.t)
    (event : plugin.EventType) :
  (manifest.SubscribedTo m event = true ↔
   ∃ e, In e (manifest.Manifest.Events m) ∧
        manifest.EventSubscription.Event e = event) ∧
  (manifest.SubscribedTo m event = false →
   manifest.GetEventPriority m event = plugin.PriorityNormal) ∧
  (∀ before e after,
     manifest.Manifest.Events m = before ++ e :: after →
     manifest.EventSubscription.Event e = event →
     (∀ x, In x before → manifest.EventSubscription.Event x ≠ event) →
     manifest.GetEventPriority m event = manifest.EventSubscription.Priority e).
Proof.
  unfold manifest.SubscribedTo, manifest.GetEventPriority.
  generalize (manifest.Manifest.Events m). intros events.
  split; [|split].
  - induction events as [|x events IH]; simpl.
    + split; [done|]. by intros (? & [] & _).
    + destruct (String.eqb_spec (manifest.EventSubscription.Event x) event)
        as [Heq|Hne].
      * split; [|done]. intros _. exists x. auto.
      * rewrite IH. split.
        -- intros (e & ? & ?). exists e. auto.
        -- intros (e & [-> |?] & ?); [done|]. by exists e.
  - induction events as [|x events IH]; simpl; [done|].
    by destruct (String.eqb (manifest.EventSubscription.Event x) event).
  - intros before e after -> He Hbefore.
    induction before as [|x before IH]; simpl.
    + by rewrite (proj2 (String.eqb_eq _ _) He).
    + rewrite (proj2 (String.eqb_neq _ _) (Hbefore x (or_introl eq_refl))).
      apply IH. intros y Hy. apply Hbefore. by right.
Qed.

(** ** Configuration *)

Lemma Contains_In l x : enablement.Contains l x = true ↔ In x l.
Proof.
  unfold enablement.Contains. rewrite existsb_exists. split.
  - intros (y & Hy & ->%String.eqb_eq). done.
  - intros Hx. exists x. split; [done|apply String.eqb_refl].
Qed.

(** X11.  A plugin is enabled exactly when it is not on the disable list
    and the enable list is empty or names it: the disable list wins over
    the enable list, and an empty enable list allows every plugin. *)
Theorem X11_plugin_enabled (EnabledPlugins DisabledPlugins : list string)
    (id : string) :
  (enablement.IsPluginEnabled EnabledPlugins DisabledPlugins id = true ↔
   ¬ In id DisabledPlugins ∧ (EnabledPlugins = [] ∨ In id EnabledPlugins)) ∧
  (In id DisabledPlugins →
   enablement.IsPluginEnabled EnabledPlugins DisabledPlugins id = false).
Proof.
  unfold enablement.IsPluginEnabled.
  destruct (enablement.Contains DisabledPlugins id) eqn:Hd.
  - apply Contains_In in Hd. split; [|done]. split; [done|]. by intros [? _].
  - assert (Hnd : ¬ In id DisabledPlugins).
    { intros H%Contains_In. congruence. }
    split; [|done].
    destruct EnabledPlugins as [|x l]; simpl.
    + split; auto.
    + change (enablement.Contains (x :: l) id = true ↔
              ¬ In id DisabledPlugins ∧ (x :: l = [] ∨ In id (x :: l))).
      rewrite Contains_In. split; [auto|]. by intros [_ [?|?]].
Qed.

(** X12.  The effective limits never exceed the global limits.  A field
    that is zero in the manifest takes the default, capped by the global
    limit; a non-zero field at or below the global limit is kept as it
    is. *)
Theorem X12_effective_limits_capped (c : config.Config.t)
    (limits : plugin.ResourceLimits.t) :
  let eff := config.GetEffectiveLimits c limits in
  let gl := config.Config.GlobalLimits c in
  let dl := config.Config.DefaultLimits c in
  plugin.ResourceLimits.MaxMemoryMB eff <= plugin.ResourceLimits.MaxMemoryMB gl ∧
  plugin.ResourceLimits.MaxExecutionMs eff
    <= plugin.ResourceLimits.MaxExecutionMs gl ∧
  plugin.ResourceLimits.MaxFuel eff <= plugin.ResourceLimits.MaxFuel gl ∧
  (plugin.ResourceLimits.MaxMemoryMB limits = 0 →
   plugin.ResourceLimits.MaxMemoryMB eff
   = Z.min (plugin.ResourceLimits.MaxMemoryMB dl)
       (plugin.ResourceLimits.MaxMemoryMB gl)) ∧
  (plugin.ResourceLimits.MaxMemoryMB limits ≠ 0 →
   plugin.ResourceLimits.MaxMemoryMB limits
     <= plugin.ResourceLimits.MaxMemoryMB gl →
   plugin.ResourceLimits.MaxMemoryMB eff
   = plugin.ResourceLimits.MaxMemoryMB limits) ∧
  (plugin.ResourceLimits.MaxExecutionMs limits ≠ 0 →
   plugin.ResourceLimits.MaxExecutionMs limits
     <= plugin.ResourceLimits.MaxExecutionMs gl →
   plugin.ResourceLimits.MaxExecutionMs eff
   = plugin.ResourceLimits.MaxExecutionMs limits) ∧
  (plugin.ResourceLimits.MaxExecutionMs limits = 0 →
   plugin.ResourceLimits.MaxExecutionMs eff
   = Z.min (plugin.ResourceLimits.MaxExecutionMs dl)
       (plugin.ResourceLimits.MaxExecutionMs gl)) ∧
  (plugin.ResourceLimits.MaxFuel limits = 0 →
   plugin.ResourceLimits.MaxFuel eff
   = Z.min (plugin.ResourceLimits.MaxFuel dl)
       (plugin.ResourceLimits.MaxFuel gl)) ∧
  (plugin.ResourceLimits.MaxFuel limits ≠ 0 →
   plugin.ResourceLimits.MaxFuel limits <= plugin.ResourceLimits.MaxFuel gl →
   plugin.ResourceLimits.MaxFuel eff = plugin.ResourceLimits.MaxFuel limits).
Proof.
  intros eff gl dl. subst eff gl dl. unfold config.GetEffectiveLimits. simpl.
  repeat split; try lia.
  - intros ->. done.
  - intros Hnz Hle. rewrite (proj2 (Z.eqb_neq _ _) Hnz). lia.
  - intros Hnz Hle. rewrite (proj2 (Z.eqb_neq _ _) Hnz). lia.
  - intros ->. done.
  - intros ->. done.
  - intros Hnz Hle. rewrite (proj2 (Z.eqb_neq _ _) Hnz). lia.
Qed.

(** X13.  The id of a validated manifest is a plain path segment: it
    holds only lower-case letters, digits, underscores and dots, every
    dot is followed by a lower-case letter (so the id has no two dots in
    a row and does not end in a dot), and it holds no slash. *)
Theorem X13_validated_id_is_plain (m : manifest.Manifest.t) :
  manifest.Validate m = None →
  let id := list_ascii_of_string (manifest.Manifest.ID m) in
  Forall (λ c, regex.word c = true ∨ c = "."%char) id ∧
  (∀ pre post, id = pre ++ "."%char :: post →
               ∃ c rest, post = c :: rest ∧ regex.lower c = true) ∧
  (∀ pre post, id ≠ pre ++ "."%char :: "."%char :: post) ∧
  ¬ In "/"%char id.
Proof.
  intros Hv id.
  assert (Hwf : manifest.well_formed_id id).
  { unfold manifest.Validate, regex.MatchString in Hv. fold id in Hv.
    destruct (String.eqb (manifest.Manifest.ID m) ""); [done|].
    destruct (regex.matchb manifest.pluginIDRegex id) eqn:Hre; [|done].
    by apply matches_pluginIDRegex, matchb_correct. }
  clearbody id. clear Hv.
  assert (Hlw : ∀ c, regex.lower c = true → regex.word c = true).
  { intros c Hc. unfold regex.word. by rewrite Hc. }
  assert (Hwd : ∀ c, regex.word c = true → c ≠ "."%char).
  { intros c Hc ->. by vm_compute in Hc. }
  assert (Hseg : ∀ seg, manifest.segment seg →
                        Forall (λ c, regex.word c = true) seg).
  { intros seg (c & rest & -> & Hc & Hrest). constructor; auto. }
  destruct Hwf as (first & more & _ & Hfirst & Hmore & ->).
  assert (Hall : Forall (λ c, regex.word c = true ∨ c = "."%char)
                   (first ++ concat (map (λ seg, "."%char :: seg) more))).
  { apply Forall_app. split.
    - eapply Forall_impl; [by apply Hseg|]. by left.
    - clear Hfirst. induction Hmore as [|seg more Hs Hmore IH]; [constructor|].
      simpl. constructor; [by right|]. apply Forall_app. split; [|done].
      eapply Forall_impl; [by apply Hseg|]. by left. }
  assert (Hdots : ∀ pre post,
            first ++ concat (map (λ seg, "."%char :: seg) more)
              = pre ++ "."%char :: post →
            ∃ c rest, post = c :: rest ∧ regex.lower c = true).
  { assert (Htail : ∀ pre post,
              concat (map (λ seg, "."%char :: seg) more)
                = pre ++ "."%char :: post →
              ∃ c rest, post = c :: rest ∧ regex.lower c = true).
    { clear Hfirst Hall.
      induction Hmore as [|seg more Hs Hmore IH]; intros pre post Heq.
      - by destruct pre.
      - simpl in Heq. destruct Hs as (c & rest & -> & Hc & Hrest).
        destruct pre as [|p pre]; simpl in Heq.
        + injection Heq as <-. eauto.
        + injection Heq as <- Heq.
          destruct pre as [|p pre]; simpl in Heq.
          * injection Heq as -> _. by vm_compute in Hc.
          * injection Heq as <- Heq.
            revert pre Heq. induction Hrest as [|w rest Hw Hrest IHr];
              intros pre Heq; simpl in Heq.
            -- by eapply IH.
            -- destruct pre as [|p pre]; simpl in Heq.
               ++ injection Heq as -> _. by apply Hwd in Hw.
               ++ injection Heq as <- Heq. by eapply IHr. }
    pose proof (Hseg first Hfirst) as Hf. clear Hfirst Hall.
    induction Hf as [|w first Hw Hf IHf]; intros pre post Heq; simpl in Heq.
    - by eapply Htail.
    - destruct pre as [|p pre]; simpl in Heq.
      + injection Heq as -> _. by apply Hwd in Hw.
      + injection Heq as <- Heq. by eapply IHf. }
  split; [exact Hall|]. split; [exact Hdots|]. split.
  - intros pre post Heq. apply Hdots in Heq as (c & rest & [= <- _] & Hc).
    by vm_compute in Hc.
  - intros Hin. eapply Forall_forall in Hall; [|by apply list_elem_of_In].
    destruct Hall as [H|H]; [by vm_compute in H|done].
Qed.

Lemma X13_validated_id_is_plain_witness :
  let m := manifest.Manifest.mk "com.example.greeter" "Greeter" "plugin.wasm"
             [] in
  manifest.Validate m = None ∧
  ¬ In "/"%char (list_ascii_of_string (manifest.Manifest.ID m)).
Proof.
  intros m. split; [reflexivity|].
  apply (X13_validated_id_is_plain m). reflexivity.
Defined.

(** ** Metrics *)

Lemma metrics_run_snoc ops op m :
  metrics.run (ops ++ [op]) m =
  match metrics.run ops m with
  | Some m' => metrics.step m' op
  | None => None
  end.
Proof.
  revert m. induction ops as [|o ops IH]; intros m; simpl.
  - by destruct (metrics.step m op).
  - destruct (metrics.step m o); [apply IH|done].
Qed.

Lemma bump_uint64_default k k' (c : gmap string Z) :
  0 <= default 0 (c !! k) < 18446744073709551615 →
  default 0 (bump_uint64 k c !! k') =
  default 0 (c !! k') + (if decide (k = k') then 1 else 0).
Proof.
  intros Hr. unfold bump_uint64.
  destruct (decide (k = k')) as [<- |Hne].
  - rewrite lookup_insert_eq. simpl. unfold GoInt.wrap_uint64.
    change (2 ^ 64) with 18446744073709551616. rewrite Z.mod_small; lia.
  - rewrite lookup_insert_ne by done. lia.
Qed.

Lemma recorded_snoc e only ops op :
  metrics.recorded e only (ops ++ [op]) =
  metrics.recorded e only ops +
  match op with
  | metrics.OpRecordEvent e' c =>
      if String.eqb e' e && (negb only || c) then 1 else 0
  | _ => 0
  end.
Proof.
  unfold metrics.recorded. rewrite List.filter_app, length_app. simpl.
  destruct op as [d|e' c|err now|b]; simpl; try lia.
  destruct (String.eqb e' e && (negb only || c)); simpl; lia.
Qed.

Lemma recorded_bounds e ops :
  0 <= metrics.recorded e true ops <= metrics.recorded e false ops ∧
  metrics.recorded e false ops <= Z.of_nat (length ops).
Proof.
  induction ops as [|op ops IH] using rev_ind.
  - unfold metrics.recorded. simpl. lia.
  - rewrite !recorded_snoc, length_app. simpl.
    destruct op as [d|e' c|err now|b]; simpl; try lia.
    destruct (String.eqb e' e), c; simpl; lia.
Qed.

Lemma maximum_snoc l d :
  metrics.maximum (l ++ [d]) = Z.max (metrics.maximum l) d.
Proof.
  unfold metrics.maximum. induction l as [|x l IH]; simpl; [lia|].
  rewrite IH. lia.
Qed.

Lemma sum_snoc l d : metrics.sum (l ++ [d]) = metrics.sum l + d.
Proof.
  unfold metrics.sum. induction l as [|x l IH]; simpl; [lia|].
  rewrite IH. lia.
Qed.

Lemma maximum_ge l : 0 <= metrics.maximum l ∧ Forall (λ d, d <= metrics.maximum l) l.
Proof.
  unfold metrics.maximum. induction l as [|x l [IH1 IH2]]; simpl.
  - split; [lia|constructor].
  - split; [lia|]. constructor; [lia|].
    eapply Forall_impl; [exact IH2|]. simpl. intros; lia.
Qed.

Lemma sum_le_maximum l :
  metrics.sum l <= Z.of_nat (length l) * metrics.maximum l.
Proof.
  induction l as [|x l IH]; [simpl; lia|].
  destruct (maximum_ge l) as [H0 _].
  change (metrics.sum (x :: l)) with (x + metrics.sum l).
  change (metrics.maximum (x :: l)) with (Z.max x (metrics.maximum l)).
  change (length (x :: l)) with (S (length l)).
  rewrite Nat2Z.inj_succ. nia.
Qed.

(** X14.  On a fresh [Metrics] value, after any recordings that do not
    panic (fewer than 2^64 of them): the handled and the cancelled
    counter of an event hold how often it was recorded, respectively
    recorded as cancelled, so the cancelled counter never exceeds the
    handled one and has no key that the handled map lacks; the memory in
    use never exceeds the peak, which is the largest size recorded. *)
Theorem X14_metrics_counters (ops : list metrics.Op) (m : metrics.Metrics.t) :
  metrics.run ops metrics.NewMetrics = Some m →
  Z.of_nat (length ops) < 2 ^ 64 →
  (∀ e,
     default 0 (metrics.Metrics.EventsHandled m !! e)
       = metrics.recorded e false ops ∧
     default 0 (metrics.Metrics.EventsCancelled m !! e)
       = metrics.recorded e true ops ∧
     default 0 (metrics.Metrics.EventsCancelled m !! e)
       <= default 0 (metrics.Metrics.EventsHandled m !! e)) ∧
  (∀ e, is_Some (metrics.Metrics.EventsCancelled m !! e) →
        is_Some (metrics.Metrics.EventsHandled m !! e)) ∧
  metrics.Metrics.MemoryUsageBytes m <= metrics.Metrics.PeakMemoryBytes m ∧
  metrics.Metrics.PeakMemoryBytes m = metrics.maximum (metrics.sizes ops) ∧
  Forall (λ b, b <= metrics.Metrics.PeakMemoryBytes m) (metrics.sizes ops).
Proof.
  intros Hrun Hlen. change (2 ^ 64) with 18446744073709551616 in Hlen.
  unfold plugin.EventType in *.
  assert (Hinv :
    (∀ e, default 0 (metrics.Metrics.EventsHandled m !! e)
            = metrics.recorded e false ops ∧
          default 0 (metrics.Metrics.EventsCancelled m !! e)
            = metrics.recorded e true ops) ∧
    (∀ e, is_Some (metrics.Metrics.EventsCancelled m !! e) →
          is_Some (metrics.Metrics.EventsHandled m !! e)) ∧
    metrics.Metrics.MemoryUsageBytes m <= metrics.Metrics.PeakMemoryBytes m ∧
    metrics.Metrics.PeakMemoryBytes m = metrics.maximum (metrics.sizes ops)).
  { revert m Hrun Hlen.
    induction ops as [|op ops IH] using rev_ind; intros m Hrun Hlen.
    - injection Hrun as <-. simpl. split; [|split; [|done]].
      + intros e. by rewrite !lookup_empty.
      + intros e. rewrite lookup_empty. by intros [? ?].
    - rewrite metrics_run_snoc in Hrun.
      destruct (metrics.run ops metrics.NewMetrics) as [m0|] eqn:Hm0; [|done].
      rewrite length_app in Hlen. simpl in Hlen.
      destruct (IH m0 eq_refl ltac:(lia)) as (Hev & Hkeys & Hmem & Hpeak).
      unfold metrics.sizes in *. rewrite flat_map_app. simpl.
      rewrite app_nil_r.
      destruct op as [d|e' c|err now|b]; simpl in Hrun.
      + unfold metrics.RecordCall in Hrun.
        destruct (GoInt.wrap_int _ =? 0); [done|]. injection Hrun as <-.
        simpl. rewrite app_nil_r. split; [|done].
        intros e. rewrite !recorded_snoc, !Z.add_0_r. apply Hev.
      + injection Hrun as <-. simpl. rewrite app_nil_r.
        split; [|split; [|done]].
        * intros e. rewrite !recorded_snoc.
          destruct (Hev e) as [Hh Hc]. destruct (Hev e') as [Hh' Hc'].
          pose proof (recorded_bounds e' ops) as Hb.
          assert (Hrh : 0 <= default 0 (metrics.Metrics.EventsHandled m0 !! e')
                        < 18446744073709551615) by lia.
          assert (Hrc : 0 <= default 0 (metrics.Metrics.EventsCancelled m0 !! e')
                        < 18446744073709551615) by lia.
          rewrite (bump_uint64_default _ _ _ Hrh).
          unfold plugin.EventType in *.
          split.
          -- rewrite Hh. destruct (decide (e' = e)) as [-> |Hne].
             ++ by rewrite String.eqb_refl.
             ++ by rewrite (proj2 (String.eqb_neq _ _) Hne).
          -- destruct c.
             ++ rewrite (bump_uint64_default _ _ _ Hrc), Hc.
                destruct (decide (e' = e)) as [-> |Hne].
                ** by rewrite String.eqb_refl.
                ** by rewrite (proj2 (String.eqb_neq _ _) Hne).
             ++ rewrite Hc, andb_false_r. lia.
        * intros e. unfold bump_uint64.
          destruct (decide (e' = e)) as [-> |Hne].
          -- intros _. rewrite lookup_insert_eq. eauto.
          -- rewrite lookup_insert_ne by done. intros He. apply Hkeys.
             destruct c; [|done]. by rewrite lookup_insert_ne in He.
      + injection Hrun as <-. simpl. rewrite app_nil_r. split; [|done].
        intros e. rewrite !recorded_snoc, !Z.add_0_r. apply Hev.
      + injection Hrun as <-. simpl. split; [|split; [done|]].
        * intros e. rewrite !recorded_snoc, !Z.add_0_r. apply Hev.
        * rewrite maximum_snoc, <- Hpeak.
          destruct (Z.ltb_spec (metrics.Metrics.PeakMemoryBytes m0) b); lia. }
  destruct Hinv as (Hev & Hkeys & Hmem & Hpeak).
  split; [|split; [done|split; [done|split; [done|]]]].
  - intros e. destruct (Hev e) as [Hh Hc].
    pose proof (recorded_bounds e ops).
    split; [exact Hh|]. split; [exact Hc|].
    etransitivity; [apply Z.eq_le_incl, Hc|].
    etransitivity; [|apply Z.eq_le_incl; symmetry; apply Hh]. lia.
  - rewrite Hpeak. apply maximum_ge.
Qed.

Lemma X14_metrics_counters_witness :
  let ops := [metrics.OpRecordEvent "player_chat" true;
              metrics.OpRecordMemory 70; metrics.OpRecordCall 5;
              metrics.OpRecordEvent "player_chat" false;
              metrics.OpRecordMemory 30] in
  ∃ m, metrics.run ops metrics.NewMetrics = Some m ∧
       metrics.Metrics.MemoryUsageBytes m <= metrics.Metrics.PeakMemoryBytes m.
Proof.
  intros ops. eexists. split; [reflexivity|].
  eapply (X14_metrics_counters ops); [reflexivity|].
  vm_compute. reflexivity.
Defined.

Lemma durations_snoc ops op :
  metrics.durations (ops ++ [op]) =
  metrics.durations ops ++
  match op with metrics.OpRecordCall d => [d] | _ => [] end.
Proof.
  unfold metrics.durations. rewrite flat_map_app. simpl.
  by rewrite app_nil_r.
Qed.

Lemma durations_length ops :
  (length (metrics.durations ops) ≤ length ops)%nat.
Proof.
  induction ops as [|op ops IH]; [done|].
  destruct op; simpl; lia.
Qed.

Lemma sum_nonneg l : Forall (λ d, 0 <= d) l → 0 <= metrics.sum l.
Proof.
  unfold metrics.sum. induction 1 as [|x l Hx _ IH]; simpl; lia.
Qed.

Lemma wrap_in_range z :
  0 <= z < 9223372036854775808 →
  GoInt.wrap_int z = z ∧ GoInt.wrap_uint64 z = z.
Proof.
  intros H. split.
  - apply wrap_int_small. unfold GoInt.MinInt, GoInt.MaxInt.
    change (2 ^ 63) with 9223372036854775808. lia.
  - apply wrap_uint64_small. change (2 ^ 64) with 18446744073709551616. lia.
Qed.

(** X15.  When the recorded durations are not negative, their sum stays
    below 2^63 and fewer than 2^63 recordings are made, no recording
    panics and the fresh [Metrics] value ends with: the number of calls,
    the sum of the durations, the longest and the last duration, and as
    average the sum divided by the number of calls, rounded down, which
    never exceeds the longest duration. *)
Theorem X15_metrics_call_times (ops : list metrics.Op) :
  Forall (λ d, 0 <= d) (metrics.durations ops) →
  metrics.sum (metrics.durations ops) < 2 ^ 63 →
  Z.of_nat (length ops) < 2 ^ 63 →
  ∃ m, metrics.run ops metrics.NewMetrics = Some m ∧
       metrics.Metrics.TotalCalls m
         = Z.of_nat (length (metrics.durations ops)) ∧
       metrics.Metrics.TotalExecutionTime m
         = metrics.sum (metrics.durations ops) ∧
       metrics.Metrics.MaxExecutionTime m
         = metrics.maximum (metrics.durations ops) ∧
       metrics.Metrics.LastExecutionTime m
         = List.last (metrics.durations ops) 0 ∧
       metrics.Metrics.AverageExecutionTime m
         = metrics.sum (metrics.durations ops)
           / Z.of_nat (length (metrics.durations ops)) ∧
       0 <= metrics.Metrics.AverageExecutionTime m
         <= metrics.Metrics.MaxExecutionTime m.
Proof.
  change (2 ^ 63) with 9223372036854775808. intros Hpos Hsum Hlen.
  assert (Hinv : ∃ m, metrics.run ops metrics.NewMetrics = Some m ∧
       metrics.Metrics.TotalCalls m
         = Z.of_nat (length (metrics.durations ops)) ∧
       metrics.Metrics.TotalExecutionTime m
         = metrics.sum (metrics.durations ops) ∧
       metrics.Metrics.MaxExecutionTime m
         = metrics.maximum (metrics.durations ops) ∧
       metrics.Metrics.LastExecutionTime m
         = List.last (metrics.durations ops) 0 ∧
       metrics.Metrics.AverageExecutionTime m
         = metrics.sum (metrics.durations ops)
           / Z.of_nat (length (metrics.durations ops))).
  { induction ops as [|op ops IH] using rev_ind.
    - exists metrics.NewMetrics. by repeat split.
    - rewrite durations_snoc in Hpos, Hsum. rewrite length_app in Hlen.
      simpl in Hlen. apply Forall_app in Hpos as [Hpos Hop].
      rewrite durations_snoc, metrics_run_snoc.
      pose proof (sum_nonneg _ Hpos) as Hs0.
      pose proof (durations_length ops) as Hdl.
      destruct op as [d|e c|err now|b]; cbn beta iota in *;
        rewrite ?app_nil_r in *.
      + apply Forall_inv in Hop. cbn beta in Hop.
        rewrite sum_snoc in Hsum.
        destruct IH as (m0 & -> & Hn & Ht & Hmx & Hl & Ha); [done|lia|lia|].
        simpl. unfold metrics.RecordCall. rewrite Hn, Ht, Hmx.
        destruct (wrap_in_range
                    (Z.of_nat (length (metrics.durations ops)) + 1))
          as [Hw1 Hw2]; [lia|].
        rewrite Hw2, Hw1.
        destruct (Z.eqb_spec (Z.of_nat (length (metrics.durations ops)) + 1) 0)
          as [?|_]; [lia|].
        destruct (wrap_in_range (metrics.sum (metrics.durations ops) + d))
          as [Hw3 _]; [lia|].
        rewrite Hw3. eexists. split; [reflexivity|]. simpl.
        rewrite length_app, sum_snoc, maximum_snoc, last_last. simpl.
        split; [lia|]. split; [done|]. split.
        { destruct (Z.ltb_spec (metrics.maximum (metrics.durations ops)) d);
            lia. }
        split; [done|].
        rewrite Z.quot_div_nonneg by lia.
        replace (Z.of_nat (length (metrics.durations ops) + 1))
          with (Z.of_nat (length (metrics.durations ops)) + 1) by lia.
        apply wrap_in_range. split.
        * apply Z.div_pos; lia.
        * eapply Z.le_lt_trans; [|exact Hsum].
          apply Z.div_le_upper_bound; nia.
      + destruct IH as (m0 & -> & Hn & Ht & Hmx & Hl & Ha); [done|done|lia|].
        simpl. eexists. split; [reflexivity|]. simpl. done.
      + destruct IH as (m0 & -> & Hn & Ht & Hmx & Hl & Ha); [done|done|lia|].
        simpl. eexists. split; [reflexivity|]. simpl. done.
      + destruct IH as (m0 & -> & Hn & Ht & Hmx & Hl & Ha); [done|done|lia|].
        simpl. eexists. split; [reflexivity|]. simpl. done. }
  destruct Hinv as (m & Hrun & Hn & Ht & Hmx & Hl & Ha).
  exists m. repeat (split; [done|]).
  rewrite Ha, Hmx.
  pose proof (sum_nonneg _ Hpos) as Hs0.
  pose proof (sum_le_maximum (metrics.durations ops)) as Hsm.
  destruct (maximum_ge (metrics.durations ops)) as [Hm0 _].
  destruct (decide (length (metrics.durations ops) = 0%nat)) as [Hz|Hnz].
  - rewrite Hz. simpl. rewrite Z.div_0_r. lia.
  - split.
    + apply Z.div_pos; lia.
    + apply Z.div_le_upper_bound; lia.
Qed.

Lemma X15_metrics_call_times_witness :
  let ops := [metrics.OpRecordCall 4; metrics.OpRecordMemory 9;
              metrics.OpRecordCall 7] in
  ∃ m, metrics.run ops metrics.NewMetrics = Some m ∧
       metrics.Metrics.AverageExecutionTime m = 5.
Proof.
  intros ops.
  destruct (X15_metrics_call_times ops) as (m & Hrun & _ & _ & _ & _ & Ha & _).
  - repeat constructor; lia.
  - reflexivity.
  - reflexivity.
  - exists m. split; [exact Hrun|]. rewrite Ha. reflexivity.
Defined.

Lemma invoke_snoc invs inv m :
  metrics.invoke (invs ++ [inv]) m =
  match metrics.invoke invs m with
  | Some m' =>
      metrics.createEventHandler_metrics (metrics.Invocation.loaded inv)
        (metrics.Invocation.eventType inv) (metrics.Invocation.timed_out inv)
        (metrics.Invocation.ctx_err inv) (metrics.Invocation.data inv)
        (metrics.Invocation.elapsed inv) (metrics.Invocation.now inv) m'
  | None => None
  end.
Proof.
  revert m. induction invs as [|i invs IH]; intros m; simpl.
  - by destruct (metrics.createEventHandler_metrics _ _ _ _ _ _ _ m).
  - destruct (metrics.createEventHandler_metrics _ _ _ _ _ _ _ m);
      [apply IH|done].
Qed.

Lemma count_snoc P invs inv :
  metrics.count P (invs ++ [inv]) =
  metrics.count P invs + (if P inv then 1 else 0).
Proof.
  unfold metrics.count. rewrite List.filter_app, length_app. simpl.
  destruct (P inv); simpl; lia.
Qed.

Lemma count_bounds P invs :
  0 <= metrics.count P invs <= Z.of_nat (length invs).
Proof.
  induction invs as [|inv invs IH] using rev_ind.
  - unfold metrics.count. simpl. lia.
  - rewrite count_snoc, length_app. simpl. destruct (P inv); lia.
Qed.

Ltac msimpl :=
  cbn -[metrics.RecordCall events.bump_uint64 GoInt.wrap_uint64
        GoInt.wrap_int manager.envelope].

Lemma createEventHandler_metrics_step inv m0 :
  0 <= metrics.Metrics.TotalCalls m0 < 9223372036854775807 →
  0 <= metrics.Metrics.ErrorCount m0 < 9223372036854775807 →
  (∀ e, 0 <= default 0 (metrics.Metrics.EventsHandled m0 !! e)
        < 9223372036854775807) →
  (∀ e, 0 <= default 0 (metrics.Metrics.EventsCancelled m0 !! e)
        < 9223372036854775807) →
  ∃ m1,
    metrics.createEventHandler_metrics (metrics.Invocation.loaded inv)
      (metrics.Invocation.eventType inv) (metrics.Invocation.timed_out inv)
      (metrics.Invocation.ctx_err inv) (metrics.Invocation.data inv)
      (metrics.Invocation.elapsed inv) (metrics.Invocation.now inv) m0
    = Some m1 ∧
    metrics.Metrics.TotalCalls m1
      = metrics.Metrics.TotalCalls m0
        + (if metrics.reached_guest_answer inv then 1 else 0) ∧
    metrics.Metrics.ErrorCount m1
      = metrics.Metrics.ErrorCount m0 + (if metrics.failed inv then 1 else 0) ∧
    ∀ e,
      default 0 (metrics.Metrics.EventsHandled m1 !! e)
        = default 0 (metrics.Metrics.EventsHandled m0 !! e)
          + (if metrics.answered e inv then 1 else 0) ∧
      default 0 (metrics.Metrics.EventsCancelled m1 !! e)
        = default 0 (metrics.Metrics.EventsCancelled m0 !! e)
          + (if metrics.answered_cancelled e inv then 1 else 0).
Proof.
  intros Hb1 Hb2 Hb3 Hb4.
  destruct inv as [loaded ev to ce data el now].
  unfold metrics.createEventHandler_metrics, metrics.reached_guest_answer,
    metrics.failed, metrics.answered, metrics.answered_cancelled,
    metrics.returned, manager.createEventHandler. msimpl.
  assert (Hcall : ∀ d, ∃ m1,
            metrics.RecordCall m0 d = Some m1 ∧
            metrics.Metrics.TotalCalls m1
              = metrics.Metrics.TotalCalls m0 + 1 ∧
            metrics.Metrics.ErrorCount m1 = metrics.Metrics.ErrorCount m0 ∧
            metrics.Metrics.EventsHandled m1
              = metrics.Metrics.EventsHandled m0 ∧
            metrics.Metrics.EventsCancelled m1
              = metrics.Metrics.EventsCancelled m0).
  { intros d. unfold metrics.RecordCall.
    destruct (wrap_in_range (metrics.Metrics.TotalCalls m0 + 1))
      as [Hw1 Hw2]; [lia|].
    rewrite Hw2, Hw1.
    destruct (Z.eqb_spec (metrics.Metrics.TotalCalls m0 + 1) 0); [lia|].
    eexists. split; [reflexivity|]. by simpl. }
  assert (Hwe : GoInt.wrap_uint64 (metrics.Metrics.ErrorCount m0 + 1)
                = metrics.Metrics.ErrorCount m0 + 1).
  { apply wrap_in_range. lia. }
  assert (Hbump : ∀ (c : gmap string Z) e,
            0 <= default 0 (c !! ev) < 9223372036854775807 →
            default 0 (bump_uint64 ev c !! e) =
            default 0 (c !! e) + (if String.eqb ev e then 1 else 0)).
  { intros c e Hc.
    rewrite bump_uint64_default
      by (split; [apply Hc|eapply Z.lt_le_trans; [apply Hc|lia]]).
    destruct (String.eqb_spec ev e) as [-> |Hne].
    - by rewrite decide_True.
    - by rewrite decide_False. }
  destruct (manager.LoadedPlugin.State loaded);
    try (exists m0; split; [reflexivity|];
         split; [lia|]; split; [lia|];
         intros e; rewrite !andb_false_r; lia).
  all: destruct to; msimpl.
  all: try (eexists; split; [reflexivity|]; msimpl; rewrite ?Hwe;
            split; [lia|]; split; [lia|];
            intros e; rewrite !andb_false_r; lia).
  all: destruct (manager.LoadedPlugin.Call loaded "handle_event"
                   (manager.envelope ev data)) as [output [e0|]];
    destruct (Hcall el) as (m1 & -> & Hc1 & He1 & Hh1 & Hk1); msimpl.
  all: try (eexists; split; [reflexivity|]; msimpl; rewrite ?He1, ?Hwe;
            split; [lia|]; split; [lia|];
            intros e; rewrite Hh1, Hk1, !andb_false_r; lia).
  all: eexists; split; [reflexivity|]; msimpl;
    split; [lia|]; split; [lia|];
    intros e; rewrite Hh1, Hk1;
    pose proof (Hb3 ev) as Hb3'; pose proof (Hb4 ev) as Hb4';
    unfold plugin.EventType in *;
    rewrite (Hbump _ e Hb3'), andb_true_r;
    (split; [done|]);
    destruct (match output with
              | [] => false
              | b :: _ => Byte.eqb b "001"
              end);
    [rewrite (Hbump _ e Hb4'), andb_true_r; done
    |rewrite andb_false_r; lia].
Qed.

(** X16.  The bookkeeping of the manager's handler closures on the
    metrics of their plugin, over any sequence of fewer than 2^63 calls
    from fresh metrics: no recording panics; [TotalCalls] counts the
    calls the guest answered in time, with a result or an error;
    [ErrorCount] counts the calls in which the closure returned an error
    (time-outs included); for every event, [EventsHandled] counts the
    calls of its handlers that returned a result and [EventsCancelled]
    those whose result is cancelled.  A call made while the plugin is
    neither loaded nor enabled counts nowhere. *)
Theorem X16_handler_bookkeeping (invs : list metrics.Invocation.t) :
  Z.of_nat (length invs) < 2 ^ 63 →
  ∃ m, metrics.invoke invs metrics.NewMetrics = Some m ∧
       metrics.Metrics.TotalCalls m
         = metrics.count metrics.reached_guest_answer invs ∧
       metrics.Metrics.ErrorCount m = metrics.count metrics.failed invs ∧
       ∀ e,
         default 0 (metrics.Metrics.EventsHandled m !! e)
           = metrics.count (metrics.answered e) invs ∧
         default 0 (metrics.Metrics.EventsCancelled m !! e)
           = metrics.count (metrics.answered_cancelled e) invs.
Proof.
  change (2 ^ 63) with 9223372036854775808. intros Hlen.
  induction invs as [|inv invs IH] using rev_ind.
  - exists metrics.NewMetrics. repeat split; by rewrite lookup_empty.
  - rewrite length_app in Hlen. simpl in Hlen.
    destruct IH as (m0 & Hrun & Hcalls & Herr & Hev); [lia|].
    rewrite invoke_snoc, Hrun.
    pose proof (count_bounds metrics.reached_guest_answer invs) as Hb1.
    pose proof (count_bounds metrics.failed invs) as Hb2.
    destruct (createEventHandler_metrics_step inv m0)
      as (m1 & Hm1 & Hc1 & He1 & Hev1).
    + lia.
    + lia.
    + intros e. destruct (Hev e) as [Hh _].
      pose proof (count_bounds (metrics.answered e) invs) as Hb.
      unfold plugin.EventType in *. rewrite Hh. lia.
    + intros e. destruct (Hev e) as [_ Hc].
      pose proof (count_bounds (metrics.answered_cancelled e) invs) as Hb.
      unfold plugin.EventType in *. rewrite Hc. lia.
    + exists m1. split; [exact Hm1|]. rewrite !count_snoc.
      split; [lia|]. split; [lia|].
      intros e. rewrite !count_snoc.
      destruct (Hev1 e) as [Hh1 Hk1]. destruct (Hev e) as [Hh Hk].
      unfold plugin.EventType in *. rewrite Hh1, Hk1, Hh, Hk. done.
Qed.

Lemma X16_handler_bookkeeping_witness :
  let guest := fun (_ : string) (_ : list byte) => ([x01], @None string) in
  let inv := metrics.Invocation.mk
               (manager.LoadedPlugin.mk plugin.StateEnabled guest)
               "player_chat" false "context deadline exceeded" [] 3 0 in
  ∃ m, metrics.invoke [inv; inv] metrics.NewMetrics = Some m ∧
       metrics.Metrics.TotalCalls m = 2.
Proof.
  intros guest inv.
  destruct (X16_handler_bookkeeping [inv; inv]) as (m & Hrun & Hc & _).
  - reflexivity.
  - exists m. split; [exact Hrun|]. rewrite Hc. reflexivity.
Defined.

(** ** The life cycle of an instance *)

Lemma instance_run_snoc ops op i :
  instance.run (ops ++ [op]) i
  = fst (instance.step (instance.run ops i) op).
Proof. unfold instance.run. by rewrite fold_left_app. Qed.

Lemma instance_run_app ops ops' i :
  instance.run (ops ++ ops') i = instance.run ops' (instance.run ops i).
Proof. unfold instance.run. by rewrite fold_left_app. Qed.

Ltac instance_cases g :=
  repeat match goal with
         | |- context [instance.Guest.FunctionExists g ?f] =>
             destruct (instance.Guest.FunctionExists g f)
         | |- context [instance.Guest.Call g ?f ?x] =>
             destruct (instance.Guest.Call g f x) as [? [?|]]
         end.

Lemma instance_step_inv i op :
  instance.resting (instance.Instance.State i) = true →
  (instance.Instance.closes i = 0%nat ↔
   instance.Instance.State i ≠ StateUnloaded) →
  instance.Instance.calls_on_closed i = 0%nat →
  let i' := fst (instance.step i op) in
  instance.resting (instance.Instance.State i') = true ∧
  (instance.Instance.closes i' = 0%nat ↔
   instance.Instance.State i' ≠ StateUnloaded) ∧
  instance.Instance.calls_on_closed i' = 0%nat.
Proof.
  intros Hrest Hcl Hcc.
  destruct i as [m l s me ea da lc cc ec cl gc coc]. simpl in *. subst coc.
  assert (Hcl' : s ≠ StateUnloaded → cl = 0%nat) by (intros; by apply Hcl).
  destruct op as [g now|g now|g]; simpl;
    unfold instance.Enable, instance.Disable, instance.Close; simpl;
    destruct s; try done; simpl; instance_cases g; simpl;
    try rewrite Hcl' by done; simpl;
    repeat split; try done; try lia; try (intros; congruence).
Qed.

(** X17.  An instance as the pool creates it, after any sequence of
    [Enable], [Disable] and [Close] calls and whatever the guest does:
    it rests in one of the states loaded, enabled, disabled, error or
    unloaded; its engine plugin is closed exactly when it is unloaded,
    and none of these calls reached a closed guest.  [Enable] succeeds
    exactly from loaded or disabled when [on_enable] is absent or
    succeeds; [Disable] succeeds exactly from enabled, also when
    [on_disable] fails.  Unloaded is final, and an instance whose
    [on_enable] failed stays in the error state, without any further
    call of the guest, until it is closed. *)
Theorem X17_instance_life_cycle (m : manifest.Manifest.t)
    (limits : ResourceLimits.t) (ok : bool) (i0 : instance.Instance.t)
    (ops : list instance.Op) :
  instance.createInstance m limits ok = Some i0 →
  let i := instance.run ops i0 in
  instance.resting (instance.Instance.State i) = true ∧
  (instance.Instance.closes i = 0%nat ↔
   instance.Instance.State i ≠ StateUnloaded) ∧
  instance.Instance.calls_on_closed i = 0%nat ∧
  (∀ g now,
     snd (instance.Enable g now i) = None ↔
     (instance.Instance.State i = StateLoaded ∨
      instance.Instance.State i = StateDisabled) ∧
     (instance.Guest.FunctionExists g "on_enable" = true →
      snd (instance.Guest.Call g "on_enable" []) = None)) ∧
  (∀ g now,
     snd (instance.Enable g now i) = None →
     instance.Instance.State (fst (instance.Enable g now i)) = StateEnabled) ∧
  (∀ g now,
     (snd (instance.Disable g now i) = None ↔
      instance.Instance.State i = StateEnabled) ∧
     (snd (instance.Disable g now i) = None →
      instance.Instance.State (fst (instance.Disable g now i))
        = StateDisabled)) ∧
  (∀ ops', instance.Instance.State i = StateUnloaded →
           instance.Instance.State (instance.run ops' i) = StateUnloaded) ∧
  (∀ ops', instance.Instance.State i = StateError →
           forallb (λ op, negb (instance.is_Close op)) ops' = true →
           instance.Instance.State (instance.run ops' i) = StateError ∧
           instance.Instance.guest_calls (instance.run ops' i)
             = instance.Instance.guest_calls i).
Proof.
  intros Hnew i.
  assert (Hinv : instance.resting (instance.Instance.State i) = true ∧
                 (instance.Instance.closes i = 0%nat ↔
                  instance.Instance.State i ≠ StateUnloaded) ∧
                 instance.Instance.calls_on_closed i = 0%nat).
  { subst i. unfold instance.createInstance in Hnew.
    destruct ok; [|done]. injection Hnew as <-.
    induction ops as [|op ops IH] using rev_ind.
    - simpl. repeat split; done.
    - rewrite instance_run_snoc. destruct IH as (? & ? & ?).
      by apply instance_step_inv. }
  clearbody i. destruct Hinv as (Hrest & Hcl & Hcc).
  split; [done|]. split; [done|]. split; [done|].
  split; [|split; [|split; [|split]]].
  - intros g now. unfold instance.Enable.
    destruct (instance.Instance.State i); simpl;
      try (split; [done|intros [[?|?] _]; done]).
    all: destruct (instance.Guest.FunctionExists g "on_enable");
      [destruct (instance.Guest.Call g "on_enable" []) as [? [?|]]|]; simpl.
    all: split; try done; try (intros [_ H]; by specialize (H eq_refl));
      try (intros _; split; [auto|done]).
  - intros g now. unfold instance.Enable.
    destruct (instance.Instance.State i); simpl; try done.
    all: destruct (instance.Guest.FunctionExists g "on_enable");
      [destruct (instance.Guest.Call g "on_enable" []) as [? [?|]]|];
      simpl; done.
  - intros g now. unfold instance.Disable.
    destruct (instance.Instance.State i); simpl; try done;
      destruct (instance.Guest.FunctionExists g "on_disable"); simpl; done.
  - intros ops' Hs. induction ops' as [|op ops' IH] using rev_ind; [done|].
    rewrite instance_run_snoc.
    destruct (instance.run ops' i) as [? ? s ? ? ? ? ? ? ? ? ?].
    simpl in IH. subst s. by destruct op.
  - intros ops' Hs Hnc.
    induction ops' as [|op ops' IH] using rev_ind; [done|].
    rewrite forallb_app in Hnc. apply andb_true_iff in Hnc as [Hnc Hop].
    destruct (IH Hnc) as [IHs IHg].
    rewrite instance_run_snoc.
    destruct (instance.run ops' i) as [? ? s ? ? ? ? ? ? ? ? ?].
    simpl in IHs, IHg. subst s. by destruct op.
Qed.

Lemma X17_instance_life_cycle_witness :
  let m := manifest.Manifest.mk "a.b" "n" "p.wasm" [] in
  let g := instance.Guest.mk (λ _, true) (λ _ _, ([], Some "boom"%string)) in
  ∃ i0, instance.createInstance m DefaultResourceLimits true = Some i0 ∧
        instance.resting
          (instance.Instance.State
             (instance.run [instance.OpEnable g 1; instance.OpEnable g 2] i0))
        = true.
Proof.
  intros m g. eexists. split; [reflexivity|].
  eapply (X17_instance_life_cycle m DefaultResourceLimits true).
  reflexivity.
Defined.

(** X18.  [Instance.Call] and [Instance.HandleEvent] at their edges.
    When the deadline of the call fires while the caller's context is
    still live, [Call] panics: it hands the nil [ctx.Err()] to
    [RecordError].  [Call] does not look at the state: the guest is
    called, with the export and the input as given, also on an instance
    that was closed.  [HandleEvent] on an event the manifest does not
    subscribe to answers nil, nil and touches nothing; on a subscribed
    event it calls the export [on_] followed by the event name, with
    the payload as it is, and a result it returns is cancelled exactly
    when the first byte of the output is 1 and carries no
    modification. *)
Theorem X18_instance_call_edges (cfg : config.Config.t) (g : instance.Guest.t)
    (parent_err : option string) (timed_out : bool) (start elapsed now : Z)
    (i : instance.Instance.t) :
  (∀ f input,
     snd (instance.Call cfg g None true start elapsed now f input i)
       = instance.Panic) ∧
  (∀ f input,
     let i' := fst (instance.Call cfg g parent_err timed_out start elapsed now
                      f input i) in
     instance.Instance.guest_calls i'
       = instance.Instance.guest_calls i ++ [(f, input)] ∧
     instance.Instance.State i' = instance.Instance.State i ∧
     instance.Instance.callCount i'
       = GoInt.wrap_uint64 (instance.Instance.callCount i + 1) ∧
     ((0 < instance.Instance.closes i)%nat →
      instance.Instance.calls_on_closed i'
        = S (instance.Instance.calls_on_closed i))) ∧
  (∀ event data,
     manifest.SubscribedTo (instance.Instance.Manifest i) event = false →
     instance.HandleEvent cfg g parent_err timed_out start elapsed now
       event data i = (i, instance.Ok None)) ∧
  (∀ event data,
     manifest.SubscribedTo (instance.Instance.Manifest i) event = true →
     let out := instance.HandleEvent cfg g parent_err timed_out start elapsed
                  now event data i in
     instance.Instance.guest_calls (fst out)
       = instance.Instance.guest_calls i ++ [(("on_" ++ event)%string, data)] ∧
     (∀ r, snd out = instance.Ok r →
           timed_out = false ∧
           ∃ output,
             instance.Guest.Call g ("on_" ++ event)%string data
               = (output, None) ∧
             r = Some (events.EventResult.mk
                         (match output with
                          | b :: _ => Byte.eqb b x01
                          | [] => false
                          end) ∅ ""))).
Proof.
  split; [|split; [|split]].
  - intros f input. unfold instance.Call. done.
  - intros f input. unfold instance.Call. simpl.
    destruct timed_out.
    + destruct parent_err; simpl; repeat split; try done;
        intros Hc; apply Nat.ltb_lt in Hc; by rewrite Hc.
    + destruct (instance.Guest.Call g f input) as [result [e|]];
        destruct (metrics.RecordCall _ elapsed); simpl;
        repeat split; try done;
        intros Hc; apply Nat.ltb_lt in Hc; by rewrite Hc.
  - intros event data Hs. unfold instance.HandleEvent. by rewrite Hs.
  - intros event data Hs. unfold instance.HandleEvent. rewrite Hs. simpl.
    unfold instance.Call.
    destruct timed_out.
    + destruct parent_err; simpl; split; try done.
    + destruct (instance.Guest.Call g ("on_" ++ event) data)
        as [result [e|]] eqn:Hg;
        destruct (metrics.RecordCall _ elapsed); simpl; split; try done.
      intros r [= <-]. split; [done|]. exists result. split; [done|].
      unfold runtime.parseEventResult. do 2 f_equal.
      destruct result as [|b ?]; [done|]. by destruct (Byte.eqb b x01).
Qed.

(** ** The registry of [runtime.go] *)

Lemma registry_on_pointer r p f :
  (∀ inst,
     plugin_runtime.PluginInstance.ID (f inst)
       = plugin_runtime.PluginInstance.ID inst ∧
     plugin_runtime.PluginInstance.closes (f inst)
       = plugin_runtime.PluginInstance.closes inst ∧
     (plugin_runtime.live (plugin_runtime.PluginInstance.State inst) = true →
      plugin_runtime.live (plugin_runtime.PluginInstance.State (f inst))
        = true) ∧
     (plugin_runtime.PluginInstance.State inst = plugin_runtime.StateUnloaded →
      plugin_runtime.PluginInstance.State (f inst)
        = plugin_runtime.StateUnloaded ∧
      plugin_runtime.PluginInstance.calls_on_closed (f inst)
        = plugin_runtime.PluginInstance.calls_on_closed inst) ∧
     (plugin_runtime.PluginInstance.closes inst = 0%nat →
      plugin_runtime.PluginInstance.calls_on_closed (f inst)
        = plugin_runtime.PluginInstance.calls_on_closed inst)) →
  plugin_runtime.registry_inv r →
  plugin_runtime.registry_inv (plugin_runtime.on_pointer r p f).
Proof.
  intros Hf (I1 & I2 & I3 & I4 & I5).
  assert (Hlook : ∀ q inst',
            alter f p (plugin_runtime.Runtime.heap r) !! q = Some inst' →
            ∃ inst, plugin_runtime.Runtime.heap r !! q = Some inst ∧
                    (inst' = inst ∨ inst' = f inst)).
  { intros q inst' Hq. destruct (decide (p = q)) as [<- |Hne].
    - rewrite list_lookup_alter_eq in Hq.
      destruct (plugin_runtime.Runtime.heap r !! p) as [inst|];
        simpl in Hq; [|done].
      injection Hq as <-. exists inst. auto.
    - rewrite list_lookup_alter_ne in Hq by done. eauto. }
  unfold plugin_runtime.registry_inv, plugin_runtime.registered. simpl.
  split; [|split; [|split; [|split]]].
  - intros id q Hid. destruct (I1 id q Hid) as (inst & Hq & Hi).
    destruct (decide (p = q)) as [<- |Hne].
    + exists (f inst). rewrite list_lookup_alter_eq, Hq. split; [done|].
      by rewrite (proj1 (Hf inst)).
    + exists inst. by rewrite list_lookup_alter_ne.
  - intros q inst' Hq Hreg. destruct (Hlook q inst' Hq) as (inst & Hq' & Hor).
    destruct (I2 q inst Hq' Hreg) as [Hc Hl].
    destruct Hor as [-> | ->]; [done|].
    destruct (Hf inst) as (_ & -> & Hlive & _). auto.
  - intros q inst' Hq Hreg. destruct (Hlook q inst' Hq) as (inst & Hq' & Hor).
    destruct (I3 q inst Hq' Hreg) as [Hc Hs].
    destruct Hor as [-> | ->]; [done|].
    destruct (Hf inst) as (_ & -> & _ & Hun & _). split; [done|]. by apply Hun.
  - intros q inst' Hq. destruct (Hlook q inst' Hq) as (inst & Hq' & Hor).
    pose proof (I4 q inst Hq') as Hcc.
    destruct Hor as [-> | ->]; [done|].
    destruct (Hf inst) as (_ & _ & _ & Hun & Hop).
    destruct (decide (plugin_runtime.registered r q)) as [Hreg|Hreg].
    + destruct (I2 q inst Hq' Hreg) as [Hc _]. by rewrite Hop.
    + destruct (I3 q inst Hq' Hreg) as [_ Hs]. by rewrite (proj2 (Hun Hs)).
  - exact I5.
Qed.

Lemma instance_Call_gentle g timed_out function input elapsed now inst :
  let f := λ inst, fst (plugin_runtime.instance_Call g timed_out function
                          input elapsed now inst) in
  plugin_runtime.PluginInstance.ID (f inst)
    = plugin_runtime.PluginInstance.ID inst ∧
  plugin_runtime.PluginInstance.closes (f inst)
    = plugin_runtime.PluginInstance.closes inst ∧
  (plugin_runtime.live (plugin_runtime.PluginInstance.State inst) = true →
   plugin_runtime.live (plugin_runtime.PluginInstance.State (f inst)) = true) ∧
  (plugin_runtime.PluginInstance.State inst = plugin_runtime.StateUnloaded →
   plugin_runtime.PluginInstance.State (f inst)
     = plugin_runtime.StateUnloaded ∧
   plugin_runtime.PluginInstance.calls_on_closed (f inst)
     = plugin_runtime.PluginInstance.calls_on_closed inst) ∧
  (plugin_runtime.PluginInstance.closes inst = 0%nat →
   plugin_runtime.PluginInstance.calls_on_closed (f inst)
     = plugin_runtime.PluginInstance.calls_on_closed inst).
Proof.
  destruct inst as [id s la me cl gc coc]. simpl.
  unfold plugin_runtime.instance_Call. simpl.
  destruct s; simpl; try done.
  all: destruct timed_out; simpl;
    [|destruct (instance.Guest.Call g function input) as [? [?|]]; simpl].
  all: repeat split; try done; by intros ->.
Qed.

Lemma instance_Enable_gentle inst :
  let f := plugin_runtime.instance_Enable in
  plugin_runtime.PluginInstance.ID (f inst)
    = plugin_runtime.PluginInstance.ID inst ∧
  plugin_runtime.PluginInstance.closes (f inst)
    = plugin_runtime.PluginInstance.closes inst ∧
  (plugin_runtime.live (plugin_runtime.PluginInstance.State inst) = true →
   plugin_runtime.live (plugin_runtime.PluginInstance.State (f inst)) = true) ∧
  (plugin_runtime.PluginInstance.State inst = plugin_runtime.StateUnloaded →
   plugin_runtime.PluginInstance.State (f inst)
     = plugin_runtime.StateUnloaded ∧
   plugin_runtime.PluginInstance.calls_on_closed (f inst)
     = plugin_runtime.PluginInstance.calls_on_closed inst) ∧
  (plugin_runtime.PluginInstance.closes inst = 0%nat →
   plugin_runtime.PluginInstance.calls_on_closed (f inst)
     = plugin_runtime.PluginInstance.calls_on_closed inst).
Proof.
  destruct inst as [id s la me cl gc coc]. simpl.
  unfold plugin_runtime.instance_Enable. simpl. by destruct s.
Qed.

Lemma instance_Disable_gentle inst :
  let f := plugin_runtime.instance_Disable in
  plugin_runtime.PluginInstance.ID (f inst)
    = plugin_runtime.PluginInstance.ID inst ∧
  plugin_runtime.PluginInstance.closes (f inst)
    = plugin_runtime.PluginInstance.closes inst ∧
  (plugin_runtime.live (plugin_runtime.PluginInstance.State inst) = true →
   plugin_runtime.live (plugin_runtime.PluginInstance.State (f inst)) = true) ∧
  (plugin_runtime.PluginInstance.State inst = plugin_runtime.StateUnloaded →
   plugin_runtime.PluginInstance.State (f inst)
     = plugin_runtime.StateUnloaded ∧
   plugin_runtime.PluginInstance.calls_on_closed (f inst)
     = plugin_runtime.PluginInstance.calls_on_closed inst) ∧
  (plugin_runtime.PluginInstance.closes inst = 0%nat →
   plugin_runtime.PluginInstance.calls_on_closed (f inst)
     = plugin_runtime.PluginInstance.calls_on_closed inst).
Proof.
  destruct inst as [id s la me cl gc coc]. simpl.
  unfold plugin_runtime.instance_Disable. simpl. by destruct s.
Qed.

Lemma alter_const_lookup {A} (f : A → A) (l : list A) p x :
  l !! p = Some x → alter (λ _, f x) p l = alter f p l.
Proof.
  intros Hp. apply list_eq. intros q.
  destruct (decide (p = q)) as [<- |Hne].
  - by rewrite !list_lookup_alter_eq, Hp.
  - by rewrite !list_lookup_alter_ne.
Qed.

Lemma registry_LoadPlugin r id new_plugin now :
  plugin_runtime.registry_inv r →
  plugin_runtime.registry_inv
    (fst (plugin_runtime.LoadPlugin r id new_plugin now)).
Proof.
  intros Hinv. unfold plugin_runtime.LoadPlugin.
  destruct (plugin_runtime.Runtime.instances r !! id) eqn:Hid; [done|].
  destruct new_plugin as [exports|]; [|done].
  destruct (plugin_runtime.verifyExports exports); [done|]. simpl.
  destruct Hinv as (I1 & I2 & I3 & I4 & I5).
  set (p0 := length (plugin_runtime.Runtime.heap r)).
  assert (Hlt : ∀ id' p, plugin_runtime.Runtime.instances r !! id' = Some p →
                         (p < p0)%nat).
  { intros id' p Hp. destruct (I1 id' p Hp) as (inst & Hl & _).
    by apply lookup_lt_Some in Hl. }
  assert (Hreg : ∀ p, (p < p0)%nat →
            (plugin_runtime.registered
               (plugin_runtime.Runtime.mk (plugin_runtime.Runtime.config r)
                  (<[id := p0]> (plugin_runtime.Runtime.instances r))
                  (plugin_runtime.Runtime.heap r ++
                   [plugin_runtime.PluginInstance.mk id
                      plugin_runtime.StateLoaded now
                      (plugin_runtime.PluginMetrics.mk 0 0 0 0) 0 [] 0])) p
             ↔ plugin_runtime.registered r p)).
  { intros p Hp. unfold plugin_runtime.registered. simpl. split.
    - intros [id' Hid']. destruct (decide (id = id')) as [<- |Hne].
      + rewrite lookup_insert_eq in Hid'. injection Hid' as <-. lia.
      + rewrite lookup_insert_ne in Hid' by done. eauto.
    - intros [id' Hid']. exists id'.
      rewrite lookup_insert_ne; [done|]. intros <-. congruence. }
  unfold plugin_runtime.registry_inv. simpl.
  split; [|split; [|split; [|split]]].
  - intros id' p Hp. destruct (decide (id = id')) as [<- |Hne].
    + rewrite lookup_insert_eq in Hp. injection Hp as <-.
      eexists. split; [by apply list_lookup_middle|done].
    + rewrite lookup_insert_ne in Hp by done.
      destruct (I1 id' p Hp) as (inst & Hl & Hi). exists inst.
      split; [|done]. by apply lookup_app_l_Some.
  - intros p inst Hp Hr.
    destruct (decide (p < p0)%nat) as [Hlt'|Hge].
    + rewrite lookup_app_l in Hp by done. apply Hreg in Hr; [|done]. eauto.
    + assert (p = p0) as -> by (apply lookup_lt_Some in Hp;
        rewrite length_app in Hp; simpl in Hp; lia).
      rewrite list_lookup_middle in Hp by done. by injection Hp as <-.
  - intros p inst Hp Hr.
    destruct (decide (p < p0)%nat) as [Hlt'|Hge].
    + rewrite lookup_app_l in Hp by done.
      apply (I3 p inst Hp). intros Hr'. by apply Hr, Hreg.
    + assert (p = p0) as -> by (apply lookup_lt_Some in Hp;
        rewrite length_app in Hp; simpl in Hp; lia).
      exfalso. apply Hr. exists id. simpl. apply lookup_insert_eq.
  - intros p inst Hp.
    destruct (decide (p < p0)%nat) as [Hlt'|Hge].
    + rewrite lookup_app_l in Hp by done. eauto.
    + assert (p = p0) as -> by (apply lookup_lt_Some in Hp;
        rewrite length_app in Hp; simpl in Hp; lia).
      rewrite list_lookup_middle in Hp by done. by injection Hp as <-.
  - intros id1 id2 p H1 H2.
    destruct (decide (id = id1)) as [<- |Hne1];
      destruct (decide (id = id2)) as [<- |Hne2]; [done| | |].
    + rewrite lookup_insert_eq in H1. injection H1 as <-.
      rewrite lookup_insert_ne in H2 by done. apply Hlt in H2. lia.
    + rewrite lookup_insert_eq in H2. injection H2 as <-.
      rewrite lookup_insert_ne in H1 by done. apply Hlt in H1. lia.
    + rewrite lookup_insert_ne in H1, H2 by done. eauto.
Qed.

Lemma registry_UnloadPlugin r id :
  plugin_runtime.registry_inv r →
  plugin_runtime.registry_inv (fst (plugin_runtime.UnloadPlugin r id)).
Proof.
  intros Hinv. unfold plugin_runtime.UnloadPlugin.
  destruct (plugin_runtime.Runtime.instances r !! id) as [p|] eqn:Hid;
    [|done].
  simpl. destruct Hinv as (I1 & I2 & I3 & I4 & I5).
  assert (Hreg : ∀ q,
            plugin_runtime.registered
              (plugin_runtime.Runtime.mk (plugin_runtime.Runtime.config r)
                 (delete id (plugin_runtime.Runtime.instances r))
                 (alter plugin_runtime.close_instance p
                    (plugin_runtime.Runtime.heap r))) q
            ↔ plugin_runtime.registered r q ∧ q ≠ p).
  { intros q. unfold plugin_runtime.registered. simpl. split.
    - intros [id' Hid']. apply lookup_delete_Some in Hid' as [Hne Hid'].
      split; [eauto|]. intros ->. apply Hne. eauto.
    - intros [[id' Hid'] Hne]. exists id'. apply lookup_delete_Some.
      split; [|done]. intros <-. congruence. }
  unfold plugin_runtime.registry_inv. simpl.
  split; [|split; [|split; [|split]]].
  - intros id' q Hq. apply lookup_delete_Some in Hq as [Hne Hq].
    destruct (I1 id' q Hq) as (inst & Hl & Hi). exists inst.
    split; [|done]. rewrite list_lookup_alter_ne; [done|].
    intros <-. apply Hne. eauto.
  - intros q inst Hq [Hr Hne]%Hreg.
    rewrite list_lookup_alter_ne in Hq by done. eauto.
  - intros q inst Hq Hr.
    destruct (decide (p = q)) as [<- |Hne].
    + rewrite list_lookup_alter_eq in Hq.
      destruct (plugin_runtime.Runtime.heap r !! p) as [inst0|] eqn:Hp;
        simpl in Hq; [|done].
      injection Hq as <-.
      destruct (I2 p inst0 Hp) as [Hc _]; [by exists id|].
      simpl. by rewrite Hc.
    + rewrite list_lookup_alter_ne in Hq by done.
      apply (I3 q inst Hq). intros Hr'. apply Hr, Hreg. split; [done|].
      by intros ->.
  - intros q inst Hq.
    destruct (decide (p = q)) as [<- |Hne].
    + rewrite list_lookup_alter_eq in Hq.
      destruct (plugin_runtime.Runtime.heap r !! p) as [inst0|] eqn:Hp;
        simpl in Hq; [|done].
      injection Hq as <-. simpl. eauto.
    + rewrite list_lookup_alter_ne in Hq by done. eauto.
  - intros id1 id2 q [_ H1]%lookup_delete_Some [_ H2]%lookup_delete_Some.
    eauto.
Qed.

Lemma registry_Close r :
  plugin_runtime.registry_inv r →
  plugin_runtime.registry_inv (plugin_runtime.Close r).
Proof.
  intros (I1 & I2 & I3 & I4 & I5).
  unfold plugin_runtime.registry_inv, plugin_runtime.Close. simpl.
  split; [|split; [|split; [|split]]].
  - intros id p Hp. by rewrite lookup_empty in Hp.
  - intros p inst _ [id Hid]. simpl in Hid. by rewrite lookup_empty in Hid.
  - intros p inst Hp _. rewrite list_lookup_imap in Hp.
    destruct (plugin_runtime.Runtime.heap r !! p) as [inst0|] eqn:Hp0;
      [|done].
    simpl in Hp. injection Hp as <-.
    destruct (decide (plugin_runtime.registered r p)) as [Hr|Hr].
    + destruct (I2 p inst0 Hp0 Hr) as [Hc _]. simpl. by rewrite Hc.
    + by apply (I3 p inst0).
  - intros p inst Hp. rewrite list_lookup_imap in Hp.
    destruct (plugin_runtime.Runtime.heap r !! p) as [inst0|] eqn:Hp0;
      [|done].
    simpl in Hp. injection Hp as <-.
    destruct (decide (plugin_runtime.registered r p)); simpl; eauto.
  - intros id id' p Hp. by rewrite lookup_empty in Hp.
Qed.

Lemma registry_step r op :
  plugin_runtime.registry_inv r →
  plugin_runtime.registry_inv (plugin_runtime.step r op).
Proof.
  intros Hinv.
  destruct op as [id np now|id|id g to fn input el now| |p g to fn input el now
                  |p|p]; simpl.
  - by apply registry_LoadPlugin.
  - by apply registry_UnloadPlugin.
  - unfold plugin_runtime.CallPlugin, plugin_runtime.GetInstance.
    destruct (plugin_runtime.Runtime.instances r !! id) as [p|]; [|done].
    destruct (plugin_runtime.Runtime.heap r !! p) as [inst|] eqn:Hp; [|done].
    destruct (plugin_runtime.instance_Call g to fn input el now inst)
      as [inst' out] eqn:Hcall. simpl.
    replace inst' with
      ((λ x, fst (plugin_runtime.instance_Call g to fn input el now x)) inst)
      by (by rewrite Hcall).
    unfold plugin_runtime.on_pointer.
    rewrite (alter_const_lookup
               (λ x, fst (plugin_runtime.instance_Call g to fn input el now x))
               _ p inst Hp).
    apply (registry_on_pointer r p); [|done].
    intros x. apply instance_Call_gentle.
  - by apply registry_Close.
  - apply registry_on_pointer; [|done].
    intros x. apply instance_Call_gentle.
  - apply registry_on_pointer; [|done]. apply instance_Enable_gentle.
  - apply registry_on_pointer; [|done]. apply instance_Disable_gentle.
Qed.

Lemma registry_run ops r :
  plugin_runtime.registry_inv r →
  plugin_runtime.registry_inv (plugin_runtime.run ops r).
Proof.
  revert r. induction ops as [|op ops IH]; intros r Hinv; [done|].
  simpl. by apply IH, registry_step.
Qed.

(** X19.  The registry of [runtime.go], from [NewRuntime] through any
    sequence of [LoadPlugin], [UnloadPlugin], [CallPlugin], [Close] and
    of [Call], [Enable] and [Disable] on the instances it handed out:
    every registered id maps to an instance of that id that is open and
    loaded, enabled or disabled, and no two ids share an instance; an
    instance that left the registry was closed exactly once and stays
    unloaded; the guest of a closed instance is never called, not even
    through a pointer kept from before.  Loading an id that is
    registered fails and changes nothing; [CallPlugin] on an id that is
    not registered fails and changes nothing; and a call on an instance
    that is neither enabled nor loaded does not reach the guest. *)
Theorem X19_runtime_registry (cfg : plugin_runtime.RuntimeConfig.t)
    (ops : list plugin_runtime.Op) :
  let r := plugin_runtime.run ops (plugin_runtime.NewRuntime cfg) in
  plugin_runtime.registry_inv r ∧
  (∀ id new_plugin now,
     is_Some (plugin_runtime.GetInstance r id) →
     plugin_runtime.LoadPlugin r id new_plugin now
       = (r, inr (plugin_runtime.NewPluginError id "load"
                    plugin_runtime.ErrPluginAlreadyLoaded))) ∧
  (∀ id g timed_out function input elapsed now,
     plugin_runtime.GetInstance r id = None →
     plugin_runtime.CallPlugin r id g timed_out function input elapsed now
       = (r, inr (plugin_runtime.NewPluginError id "call"
                    plugin_runtime.ErrPluginNotFound))) ∧
  (∀ inst g timed_out function input elapsed now,
     plugin_runtime.PluginInstance.State inst ≠ plugin_runtime.StateEnabled →
     plugin_runtime.PluginInstance.State inst ≠ plugin_runtime.StateLoaded →
     plugin_runtime.instance_Call g timed_out function input elapsed now inst
       = (inst, inr (plugin_runtime.NewPluginError
                       (plugin_runtime.PluginInstance.ID inst) "call"
                       plugin_runtime.ErrPluginNotEnabled))).
Proof.
  intros r. split; [|split; [|split]].
  - apply registry_run. unfold plugin_runtime.registry_inv,
      plugin_runtime.registered. simpl.
    split; [|split; [|split; [|split]]].
    + intros id p H. by rewrite lookup_empty in H.
    + by intros p inst H.
    + by intros p inst H.
    + by intros p inst H.
    + intros id id' p H. by rewrite lookup_empty in H.
  - intros id np now [p Hp]. unfold plugin_runtime.LoadPlugin.
    unfold plugin_runtime.GetInstance in Hp. by rewrite Hp.
  - intros id g to fn input el now Hn. unfold plugin_runtime.CallPlugin.
    by rewrite Hn.
  - intros inst g to fn input el now H1 H2.
    unfold plugin_runtime.instance_Call.
    by destruct (plugin_runtime.PluginInstance.State inst).
Qed.

(** X20.  The memory cap of a plugin that [Runtime.LoadPlugin] loads,
    for a configured limit from 0 up to 4 GiB, the most a guest can
    address.  [LoadPlugin] hands the engine the limit in whole 64 KiB
    pages, rounded down.  From 64 KiB on, the cap is the limit rounded
    down to whole pages, so it never exceeds the limit and falls short
    of it by less than a page; the default configuration gives 1024
    pages, 64 MiB.  A limit below 64 KiB rounds down to zero pages, for
    which the engine sets no limit: such a plugin runs without a memory
    cap. *)
Theorem X20_runtime_memory_cap (cfg : plugin_runtime.RuntimeConfig.t) :
  0 <= plugin_runtime.RuntimeConfig.MaxMemoryBytes cfg
    <= extism.max_pages * extism.page_size →
  let limit := plugin_runtime.RuntimeConfig.MaxMemoryBytes cfg in
  let cap :=
    extism.memory_cap_bytes (plugin_runtime.LoadPlugin_extismManifest cfg) in
  extism.Manifest.Memory (plugin_runtime.LoadPlugin_extismManifest cfg)
    = Some (extism.ManifestMemory.mk (limit / 65536)) ∧
  0 <= limit / 65536 <= extism.max_pages ∧
  (limit < 65536 → cap = None) ∧
  (65536 <= limit →
   ∃ bytes, cap = Some bytes ∧ 0 < bytes ∧
            bytes <= limit < bytes + 65536 ∧ bytes mod 65536 = 0) ∧
  extism.memory_cap_bytes
    (plugin_runtime.LoadPlugin_extismManifest
       plugin_runtime.DefaultRuntimeConfig) = Some (64 * extism.MiB).
Proof.
  intros Hr limit cap. subst cap.
  unfold extism.max_pages, extism.page_size in Hr. fold limit in Hr.
  assert (Hq : 0 <= limit / 65536 <= 65536).
  { split; [apply Z.div_pos; lia|].
    apply Z.lt_succ_r, Z.div_lt_upper_bound; lia. }
  assert (Hpages : GoInt.wrap_uint32 (GoInt.wrap_int (Z.quot limit 65536))
                   = limit / 65536).
  { rewrite Z.quot_div_nonneg by lia.
    rewrite wrap_int_small.
    2: { unfold GoInt.MinInt, GoInt.MaxInt.
         change (2 ^ 63) with 9223372036854775808. lia. }
    apply wrap_uint32_small. change (2 ^ 32) with 4294967296. lia. }
  unfold extism.memory_cap_bytes, plugin_runtime.LoadPlugin_extismManifest.
  cbn [extism.Manifest.Memory extism.ManifestMemory.MaxPages].
  fold limit. rewrite Hpages.
  pose proof (Z.div_mod limit 65536 ltac:(lia)) as Hdm.
  pose proof (Z.mod_pos_bound limit 65536 ltac:(lia)) as Hmb.
  split; [done|]. split; [exact Hq|]. split; [|split].
  - intros Hlt. rewrite Z.div_small by lia. done.
  - intros Hge.
    assert (Hpos : 0 < limit / 65536) by (apply Z.div_str_pos; lia).
    apply Z.ltb_lt in Hpos as Hpos'. rewrite Hpos'.
    eexists. split; [reflexivity|]. unfold extism.page_size.
    split; [lia|]. split; [lia|]. by rewrite Z.mod_mul.
  - vm_compute. reflexivity.
Qed.

Lemma X20_runtime_memory_cap_witness :
  let small := plugin_runtime.RuntimeConfig.mk 65535
                 (plugin_runtime.RuntimeConfig.EventTimeout
                    plugin_runtime.DefaultRuntimeConfig)
                 (plugin_runtime.RuntimeConfig.EnableFuel
                    plugin_runtime.DefaultRuntimeConfig)
                 (plugin_runtime.RuntimeConfig.MaxFuel
                    plugin_runtime.DefaultRuntimeConfig) in
  extism.memory_cap_bytes (plugin_runtime.LoadPlugin_extismManifest small)
  = None.
Proof.
  intros small.
  assert (Hr : 0 <= plugin_runtime.RuntimeConfig.MaxMemoryBytes small
               <= extism.max_pages * extism.page_size).
  { vm_compute. split; discriminate. }
  destruct (X20_runtime_memory_cap small Hr) as (_ & _ & Hnone & _).
  apply Hnone. vm_compute. reflexivity.
Defined.

(** ** The instance pool *)

Lemma pool_run_snoc ops op p :
  runtime.run (ops ++ [op]) p = fst (runtime.step (runtime.run ops p) op).
Proof. unfold runtime.run. by rewrite fold_left_app. Qed.

Lemma pool_closed_step p op :
  Pool.closed p = true → Pool.instances p = [] →
  Pool.closed (fst (runtime.step p op)) = true ∧
  Pool.instances (fst (runtime.step p op)) = [] ∧
  match op with
  | OpAcquire _ _ | OpAcquireWait _ _ =>
      runtime.step p op = (p, Returned None (Some runtime.ErrPoolClosed))
  | OpRelease inst =>
      snd (runtime.step p op) = Returned None None ∧
      Pool.destroyed (fst (runtime.step p op)) = Pool.destroyed p ++ [inst]
  | OpClose => runtime.step p op = (p, Returned None None)
  end.
Proof.
  intros Hc Hi. destruct op as [c k|c k|inst|]; simpl;
    unfold runtime.Acquire, runtime.AcquireWait, runtime.Release,
      runtime.Close; rewrite Hc; simpl; done.
Qed.

Lemma pool_drained_step p op :
  (Pool.closed p = true → Pool.instances p = []) →
  Pool.closed (fst (runtime.step p op)) = true →
  Pool.instances (fst (runtime.step p op)) = [].
Proof.
  intros Hd. destruct op as [c k|c k|inst|]; simpl;
    unfold runtime.Acquire, runtime.AcquireWait, runtime.Release,
      runtime.Close;
    destruct (Pool.closed p) eqn:Hc; simpl; auto.
  - destruct (Pool.instances p); [destruct c; simpl; congruence|].
    destruct (c && k); simpl; congruence.
  - destruct (Pool.instances p); [destruct c; simpl; congruence|].
    destruct (c && k); simpl; congruence.
  - destruct (Pool.chan_closed p); simpl; [congruence|].
    destruct (_ <? _); simpl; congruence.
Qed.

Lemma pool_drained_run ops p :
  (Pool.closed p = true → Pool.instances p = []) →
  Pool.closed (runtime.run ops p) = true →
  Pool.instances (runtime.run ops p) = [].
Proof.
  induction ops as [|op ops IH] using rev_ind; intros Hd; [done|].
  rewrite pool_run_snoc. apply pool_drained_step. auto.
Qed.

Lemma NewPool_open cfg size create p :
  runtime.NewPool cfg size create = PoolReturned p → Pool.closed p = false.
Proof.
  unfold runtime.NewPool.
  destruct (_ <? 0); [done|].
  generalize (Z.to_nat (if size <=? 0
                        then config.PerformanceConfig.PoolSize
                               (config.Config.Performance cfg)
                        else size)).
  intros n.
  assert (H : ∀ i q, Pool.closed q = false →
                     runtime.fill n i create q = PoolReturned p →
                     Pool.closed p = false).
  { induction n as [|n IH]; intros i q Hq Hf; simpl in Hf.
    - by injection Hf as <-.
    - destruct (create i); [|done]. by eapply IH in Hf. }
  by apply H.
Qed.

(** X21.  On a pool that [NewPool] built, after any calls: [Pool.Close]
    closes every buffered instance, in buffer order, and empties the
    buffer; a second [Close] changes nothing.  Whatever is called
    afterwards, the pool stays closed and empty: [Acquire] and
    [AcquireWait] answer [ErrPoolClosed] (and do not block), and
    [Release] closes the instance it is given. *)
Theorem X21_pool_close (cfg : config.Config.t) (size : Z)
    (create : nat → option nat) (p0 : Pool.t) (before after : list Op) :
  runtime.NewPool cfg size create = PoolReturned p0 →
  let p := runtime.run before p0 in
  let p' := fst (runtime.Close p) in
  runtime.Close p' = (p', Returned None None) ∧
  Pool.closed p' = true ∧ Pool.instances p' = [] ∧ runtime.Available p' = 0 ∧
  (Pool.closed p = false →
   Pool.destroyed p' = Pool.destroyed p ++ Pool.instances p) ∧
  (let q := runtime.run after p' in
   Pool.closed q = true ∧ Pool.instances q = [] ∧
   (∀ c k, runtime.Acquire c k q
           = (q, Returned None (Some runtime.ErrPoolClosed))) ∧
   (∀ c k, runtime.AcquireWait c k q
           = (q, Returned None (Some runtime.ErrPoolClosed))) ∧
   (∀ inst, snd (runtime.Release inst q) = Returned None None ∧
            Pool.instances (fst (runtime.Release inst q)) = [] ∧
            Pool.destroyed (fst (runtime.Release inst q))
              = Pool.destroyed q ++ [inst])).
Proof.
  intros Hnew p p'.
  assert (Hd : Pool.closed p = true → Pool.instances p = []).
  { apply pool_drained_run. intros Hc.
    by rewrite (NewPool_open _ _ _ _ Hnew) in Hc. }
  assert (Hp' : Pool.closed p' = true ∧ Pool.instances p' = []).
  { subst p'. unfold runtime.Close.
    destruct (Pool.closed p) eqn:Hc; simpl; auto. }
  destruct Hp' as [Hc' Hi'].
  split; [by unfold runtime.Close; rewrite Hc'|].
  split; [done|]. split; [done|].
  split; [by unfold runtime.Available; rewrite Hi'|].
  split.
  { intros Hc. subst p'. unfold runtime.Close. by rewrite Hc. }
  intros q.
  assert (Hq : Pool.closed q = true ∧ Pool.instances q = []).
  { subst q. induction after as [|op ops IH] using rev_ind; [done|].
    rewrite pool_run_snoc. destruct IH as [IH1 IH2].
    destruct (pool_closed_step _ op IH1 IH2) as (? & ? & _). done. }
  destruct Hq as [Hcq Hiq].
  split; [done|]. split; [done|].
  split; [|split].
  - intros c k. apply (pool_closed_step q (OpAcquire c k) Hcq Hiq).
  - intros c k. apply (pool_closed_step q (OpAcquireWait c k) Hcq Hiq).
  - intros inst.
    destruct (pool_closed_step q (OpRelease inst) Hcq Hiq) as (_ & ? & ? & ?).
    done.
Qed.

Lemma X21_pool_close_witness :
  let create := fun i : nat => Some i in
  let p0 := Pool.mk [0%nat; 1%nat] false 2 2 false [] in
  runtime.NewPool config.DefaultConfig 2 create = PoolReturned p0 ∧
  Pool.instances
    (fst (runtime.Close (runtime.run [OpAcquire false false] p0))) = [].
Proof.
  intros create p0. split; [reflexivity|].
  apply (X21_pool_close config.DefaultConfig 2 create p0
           [OpAcquire false false] []).
  reflexivity.
Defined.

Lemma pool_step_conserves p op :
  runtime.pool_inv p →
  Pool.instances (fst (runtime.step p op))
    ++ Pool.destroyed (fst (runtime.step p op))
    ++ pool.acquired (snd (runtime.step p op))
  ≡ₚ Pool.instances p ++ Pool.destroyed p ++ pool.released op.
Proof.
  intros [Hlen Hcc].
  destruct op as [c k|c k|inst|]; simpl;
    unfold runtime.Acquire, runtime.AcquireWait, runtime.Release,
      runtime.Close.
  - destruct (Pool.closed p); simpl; [done|].
    destruct (Pool.instances p) as [|x rest] eqn:Hi;
      [destruct c; simpl; by rewrite Hi|].
    destruct (c && k); simpl; [by rewrite Hi|]. solve_Permutation.
  - destruct (Pool.closed p); simpl; [done|].
    destruct (Pool.instances p) as [|x rest] eqn:Hi;
      [destruct c; simpl; by rewrite Hi|].
    destruct (c && k); simpl; [by rewrite Hi|]. solve_Permutation.
  - rewrite Hcc. destruct (Pool.closed p); simpl; [solve_Permutation|].
    destruct (_ <? _); simpl; solve_Permutation.
  - destruct (Pool.closed p); simpl; [done|]. solve_Permutation.
Qed.

(** X22.  No instance is lost or made twice.  On a pool that [NewPool]
    built, after any sequence of calls, the instances in the buffer,
    those the pool closed and those it handed to callers are, counted
    with repetitions, the instances it was created with and those the
    callers released into it. *)
Theorem X22_pool_conserves_instances (cfg : config.Config.t) (size : Z)
    (create : nat → option nat) (p0 : Pool.t) (ops : list Op) :
  runtime.NewPool cfg size create = PoolReturned p0 →
  let p := runtime.run ops p0 in
  Pool.destroyed p0 = [] ∧
  Pool.instances p ++ Pool.destroyed p ++ pool.handed_out ops p0
    ≡ₚ Pool.instances p0 ++ pool.given_back ops.
Proof.
  intros Hnew p.
  assert (Hd0 : Pool.destroyed p0 = []).
  { revert Hnew. unfold runtime.NewPool. destruct (_ <? 0); [done|].
    generalize (Z.to_nat (if size <=? 0
                          then config.PerformanceConfig.PoolSize
                                 (config.Config.Performance cfg)
                          else size)).
    intros n.
    assert (H : ∀ i q, Pool.destroyed q = [] →
                       runtime.fill n i create q = PoolReturned p0 →
                       Pool.destroyed p0 = []).
    { induction n as [|n IH]; intros i q Hq Hf; simpl in Hf.
      - by injection Hf as <-.
      - destruct (create i); [|done]. by eapply IH in Hf. }
    by apply H. }
  split; [done|].
  pose proof (NewPool_inv _ _ _ _ Hnew) as Hinv.
  assert (Hgen : ∀ q, runtime.pool_inv q →
            Pool.instances (runtime.run ops q)
              ++ Pool.destroyed (runtime.run ops q) ++ pool.handed_out ops q
            ≡ₚ Pool.instances q ++ Pool.destroyed q ++ pool.given_back ops).
  { clear. induction ops as [|op ops IH]; intros q Hinv.
    - simpl. unfold pool.given_back. simpl. by rewrite !app_nil_r.
    - change (runtime.run (op :: ops) q)
        with (runtime.run ops (fst (runtime.step q op))).
      simpl pool.handed_out. unfold pool.given_back. simpl flat_map.
      fold (pool.given_back ops).
      destruct (step_inv q op Hinv) as [Hinv' _].
      specialize (IH _ Hinv').
      pose proof (pool_step_conserves q op Hinv) as Hstep.
      set (q' := fst (runtime.step q op)) in *.
      set (a := pool.acquired (snd (runtime.step q op))) in *.
      transitivity
        ((Pool.instances (runtime.run ops q')
            ++ Pool.destroyed (runtime.run ops q') ++ pool.handed_out ops q')
         ++ a); [solve_Permutation|].
      rewrite IH.
      transitivity
        ((Pool.instances q' ++ Pool.destroyed q' ++ a) ++ pool.given_back ops);
        [solve_Permutation|].
      rewrite Hstep. solve_Permutation. }
  specialize (Hgen p0 Hinv). fold p in Hgen.
  by rewrite Hd0 in Hgen.
Qed.

Lemma X22_pool_conserves_instances_witness :
  let create := fun i : nat => Some i in
  let ops := [OpAcquire false false; OpRelease 7; OpRelease 0; OpClose] in
  let p0 := Pool.mk [0%nat; 1%nat] false 2 2 false [] in
  runtime.NewPool config.DefaultConfig 2 create = PoolReturned p0 ∧
  Pool.instances (runtime.run ops p0) ++ Pool.destroyed (runtime.run ops p0)
    ++ pool.handed_out ops p0
  ≡ₚ [0%nat; 1%nat; 7%nat; 0%nat].
Proof.
  intros create ops p0. split; [reflexivity|].
  destruct (X22_pool_conserves_instances config.DefaultConfig 2 create p0 ops
              eq_refl) as [_ Hperm].
  exact Hperm.
Defined.

(** X23.  [Pool.WithInstance] on a pool that [NewPool] built, after any
    calls.  When the pool is closed, or empty with a context that is
    done, the function is not called and the error of [AcquireWait] is
    returned; on an empty pool with a live context the call blocks.
    On a pool that holds an instance while the context is done, the
    [select] may take either arm: when it takes the context, the
    function is not called and the error of the context is returned.
    Otherwise the function gets the instance at the head of the buffer,
    and whatever it does to the pool and whether it returns or panics,
    the instance is given back: afterwards it is in the buffer or was
    closed by the pool.  When the function leaves the pool alone the
    instance goes to the back of the buffer and as many instances are
    available as before.  The outcome is that of the function. *)
Theorem X23_pool_with_instance (cfg : config.Config.t) (size : Z)
    (create : nat → option nat) (p0 : Pool.t) (ops : list Op)
    (c k : bool) (fn : nat → list Op * pool.FnOutcome) :
  runtime.NewPool cfg size create = PoolReturned p0 →
  let p := runtime.run ops p0 in
  let out := pool.WithInstance c k fn p in
  (Pool.closed p = true →
   out = (p, Returned None (Some runtime.ErrPoolClosed))) ∧
  (Pool.closed p = false → Pool.instances p = [] →
   out = (p, if c then Returned None (Some runtime.ctxErr) else Blocks)) ∧
  (∀ inst rest,
     Pool.closed p = false → Pool.instances p = inst :: rest →
     c && k = false →
     snd out = match snd (fn inst) with
               | pool.FnReturned err => Returned None err
               | pool.FnPanicked => Panics
               end ∧
     (inst ∈ Pool.instances (fst out) ∨ inst ∈ Pool.destroyed (fst out)) ∧
     (fst (fn inst) = [] →
      Pool.instances (fst out) = rest ++ [inst] ∧
      Pool.destroyed (fst out) = Pool.destroyed p ∧
      runtime.Available (fst out) = runtime.Available p)) ∧
  (Pool.closed p = false → Pool.instances p ≠ [] → c && k = true →
   out = (p, Returned None (Some runtime.ctxErr))).
Proof.
  intros Hnew p out.
  destruct (run_inv ops p0 (NewPool_inv _ _ _ _ Hnew)) as [Hinv _].
  fold p in Hinv. subst out. unfold pool.WithInstance, runtime.AcquireWait.
  split; [|split; [|split]].
  4: { intros -> Hne ->. by destruct (Pool.instances p). }
  - by intros ->.
  - intros -> ->. by destruct c.
  - intros inst rest Hc Hi Hck. rewrite Hc, Hi, Hck.
    destruct (fn inst) as [fops fout] eqn:Hfn. simpl.
    set (p1 := Pool.mk rest (Pool.chan_closed p) (Pool.size p)
                 (Pool.created p) false (Pool.destroyed p)).
    assert (Hinv1 : runtime.pool_inv p1).
    { destruct Hinv as [Hlen Hcc]. split; [|simpl; congruence]. simpl.
      rewrite Hi in Hlen. simpl in Hlen. lia. }
    destruct (run_inv fops p1 Hinv1) as [[Hlen2 Hcc2] _].
    set (p2 := runtime.run fops p1) in *.
    unfold runtime.Release. cbv zeta.
    destruct (Pool.closed p2) eqn:Hc2; simpl.
    + split; [by destruct fout|]. split.
      * right. apply elem_of_app. right. by left.
      * intros ->. subst p2. simpl in Hc2. congruence.
    + rewrite Hcc2.
      destruct (Z.of_nat (length (Pool.instances p2)) <? Pool.size p2)
        eqn:Hroom; simpl.
      * split; [by destruct fout|]. split.
        -- left. apply elem_of_app. right. by left.
        -- intros ->. subst p2. simpl. split; [done|]. split; [done|].
           unfold runtime.Available. simpl.
           rewrite Hi, length_app. simpl. lia.
      * split; [by destruct fout|]. split.
        -- right. apply elem_of_app. right. by left.
        -- intros ->. subst p2. simpl in Hroom.
           apply Z.ltb_ge in Hroom. destruct Hinv as [Hlen _].
           rewrite Hi in Hlen. simpl in Hlen. lia.
Qed.

Lemma X23_pool_with_instance_witness :
  let create := fun i : nat => Some i in
  let p0 := Pool.mk [0%nat; 1%nat] false 2 2 false [] in
  let fn := fun _ : nat => (@nil Op, pool.FnPanicked) in
  runtime.NewPool config.DefaultConfig 2 create = PoolReturned p0 ∧
  snd (pool.WithInstance false false fn p0) = Panics ∧
  Pool.instances (fst (pool.WithInstance false false fn p0))
  = [1%nat; 0%nat].
Proof.
  intros create p0 fn. split; [reflexivity|].
  destruct (X23_pool_with_instance config.DefaultConfig 2 create p0 []
              false false fn eq_refl) as (_ & _ & Hmain & _).
  destruct (Hmain 0%nat [1%nat] eq_refl eq_refl eq_refl)
    as (Hout & _ & Hsame).
  split; [exact Hout|]. apply Hsame. reflexivity.
Defined.



(** ** The storage backends *)

Lemma lookup_store_entry_ne data p k v p' k' :
  p' ≠ p ∨ k' ≠ k →
  lookup_entry (store_entry data p k v) p' k' = lookup_entry data p' k'.
Proof.
  intros Hne. unfold lookup_entry, store_entry.
  destruct (decide (p' = p)) as [-> |Hp].
  - destruct Hne as [?|Hk]; [done|].
    rewrite lookup_insert_eq, lookup_insert_ne by done.
    destruct (data !! p); [done|]. simpl. by rewrite lookup_empty.
  - by rewrite lookup_insert_ne.
Qed.

Lemma lookup_remove_entry_ne data p k p' k' :
  p' ≠ p ∨ k' ≠ k →
  lookup_entry (remove_entry data p k) p' k' = lookup_entry data p' k'.
Proof.
  intros Hne. unfold lookup_entry, remove_entry.
  destruct (data !! p) as [pd|] eqn:Hpd; [|done].
  destruct (decide (p' = p)) as [-> |Hp].
  - destruct Hne as [?|Hk]; [done|].
    by rewrite lookup_insert_eq, Hpd, lookup_delete_ne.
  - by rewrite lookup_insert_ne.
Qed.

Lemma lookup_entry_delete data p p' k' :
  lookup_entry (delete p data) p' k' =
  if decide (p' = p) then ([], false) else lookup_entry data p' k'.
Proof.
  unfold lookup_entry. destruct (decide (p' = p)) as [-> |Hp].
  - by rewrite lookup_delete_eq.
  - by rewrite lookup_delete_ne.
Qed.

(** X25.  Both stores keep plugins and keys apart: [Set] and [Delete] on
    one key of one plugin leave every other key of that plugin and every
    key of every other plugin as [Get] saw it before; [Clear] removes
    every key of the plugin and leaves the other plugins alone.  For the
    file-backed store this holds whether or not the file operation
    succeeds. *)
Theorem X25_storage_isolation (p k p' k' : string) (v : list byte) :
  p' ≠ p ∨ k' ≠ k →
  (∀ s : MemoryStorage.t,
     Mem.Get (fst (Mem.Set_ s p k v)) p' k' = Mem.Get s p' k' ∧
     Mem.Get (fst (Mem.Delete s p k)) p' k' = Mem.Get s p' k' ∧
     Mem.Get (fst (Mem.Clear s p)) p k' = ([], false, None) ∧
     (p' ≠ p → Mem.Get (fst (Mem.Clear s p)) p' k' = Mem.Get s p' k')) ∧
  (∀ (s : FileStorage.t) (io : bool),
     File.Get (fst (File.Set_ s p k v io)) p' k' = File.Get s p' k' ∧
     File.Get (fst (File.Delete s p k io)) p' k' = File.Get s p' k' ∧
     File.Get (fst (File.Clear s p io)) p k' = ([], false, None) ∧
     (p' ≠ p → File.Get (fst (File.Clear s p io)) p' k' = File.Get s p' k')).
Proof.
  intros Hne. split.
  - intros s. unfold Mem.Get, Mem.Set_, Mem.Delete, Mem.Clear. simpl.
    rewrite lookup_store_entry_ne, lookup_remove_entry_ne by done.
    rewrite !lookup_entry_delete, decide_True by done.
    repeat split; try done. intros Hp. by rewrite decide_False.
  - intros s io. unfold File.Get. rewrite File_Delete_data, !File_Clear_data.
    unfold File.Set_. rewrite persist_data. simpl.
    rewrite lookup_store_entry_ne, lookup_remove_entry_ne by done.
    rewrite !lookup_entry_delete, decide_True by done.
    repeat split; try done. intros Hp. by rewrite decide_False.
Qed.

Lemma X25_storage_isolation_witness :
  Mem.Get (fst (Mem.Set_ NewMemoryStorage "a.b" "k" [x01])) "a.c" "k"
  = Mem.Get NewMemoryStorage "a.c" "k".
Proof.
  apply (X25_storage_isolation "a.b" "k" "a.c" "k" [x01]).
  left. discriminate.
Defined.








Lemma data_json_is_name : filepath.is_name "data.json" = true.
Proof. reflexivity. Qed.





(** ** The file-backed store, its files *)


















(** Outside names and well-formed keys the files part from memory: a key
    that is not well-formed UTF-8 is written as U+FFFD, so it is not
    found again after the store is opened anew; the ids [a] and
    [b/../a] share one file; and the empty id stands for the base
    directory itself. *)
Lemma file_storage_outside_names :
  let odd := String (ascii_of_N 255) EmptyString in
  json.safe odd = false ∧
  json.reread {[odd := [x01]]}
  = {[json.replacement EmptyString := [x01]]} ∧
  filepath.Join ["data"; "b/../a"; "data.json"]%string
  = filepath.Join ["data"; "a"; "data.json"]%string ∧
  filepath.Join ["data"; "../x"]%string = Some (false, ["x"%string]) ∧
  filepath.Join ["data"; ""]%string = Some (filepath.Clean "data").
Proof. repeat split; vm_compute; reflexivity. Qed.



(** ** What [sortByDependencies] answers, on every input *)

Lemma scan_Dependencies_inl mm id deps g e :
  scan_Dependencies mm id deps g = inl e →
  ∃ d, d ∈ deps ∧ e = (id, Dependency.ID d) ∧
       Dependency.Optional d = false ∧ mm !! Dependency.ID d = None.
Proof.
  revert g. induction deps as [|dep deps IH]; intros g; simpl; [done|].
  destruct (negb (Dependency.Optional dep) &&
            negb (bool_decide (is_Some (mm !! Dependency.ID dep)))) eqn:Hc.
  - intros [= <-]. exists dep. apply andb_true_iff in Hc as [Ho He].
    apply negb_true_iff in Ho, He. apply bool_decide_eq_false in He.
    split; [by left|]. split; [done|]. split; [done|].
    by apply eq_None_not_Some.
  - intros (d & Hd & ?)%IH. exists d. split; [by right|done].
Qed.

Lemma scan_Dependencies_inr mm id deps g g' :
  scan_Dependencies mm id deps g = inr g' →
  ∀ d, d ∈ deps → Dependency.Optional d = false →
       is_Some (mm !! Dependency.ID d).
Proof.
  revert g. induction deps as [|dep deps IH]; intros g; simpl.
  - by intros _ d ?%elem_of_nil.
  - destruct (negb (Dependency.Optional dep) &&
              negb (bool_decide (is_Some (mm !! Dependency.ID dep)))) eqn:Hc;
      [done|].
    intros Hrest d [-> |Hd]%elem_of_cons Hopt; [|by eapply IH].
    rewrite Hopt in Hc. simpl in Hc. apply negb_false_iff in Hc.
    by apply bool_decide_eq_true in Hc.
Qed.

Lemma build_graph_inl mm ms g e :
  build_graph mm ms g = inl e →
  ∃ m d, m ∈ ms ∧ d ∈ Manifest.Dependencies m ∧
         e = (Manifest.ID m, Dependency.ID d) ∧
         Dependency.Optional d = false ∧ mm !! Dependency.ID d = None.
Proof.
  revert g. induction ms as [|m ms IH]; intros g; simpl; [done|].
  unfold scan_manifest.
  destruct (scan_Dependencies mm (Manifest.ID m) (Manifest.Dependencies m) _)
    as [e'|g1] eqn:Hs.
  - intros [= <-]. apply scan_Dependencies_inl in Hs as (d & ? & ? & ? & ?).
    exists m, d. split; [by left|done].
  - intros (m' & d & ? & ?)%IH. exists m', d. split; [by right|done].
Qed.

Lemma build_graph_inr mm ms g g' :
  build_graph mm ms g = inr g' →
  ∀ m d, m ∈ ms → d ∈ Manifest.Dependencies m →
         Dependency.Optional d = false → is_Some (mm !! Dependency.ID d).
Proof.
  revert g. induction ms as [|m ms IH]; intros g; simpl.
  - by intros _ m d ?%elem_of_nil.
  - unfold scan_manifest.
    destruct (scan_Dependencies mm (Manifest.ID m) (Manifest.Dependencies m) _)
      as [e'|g1] eqn:Hs; [done|].
    intros Hrest m' d [-> |Hm]%elem_of_cons; [|by eapply IH].
    by eapply scan_Dependencies_inr.
Qed.

(** The run of the main loop, for every input without a missing
    dependency. *)
Lemma sortByDependencies_run ms :
  no_missing ms →
  ∃ done',
    NoDup done' ∧ (∀ v, v ∈ done' → v ∈ ids ms) ∧
    respects_edges ms done' ∧ least_ready_first ms done' ∧
    (∀ v, v ∈ ids ms → v ∉ done' →
          pending (all_edges (manifestMap_of ms) ms) done' v ≠ 0%nat) ∧
    sortByDependencies ms =
      if (length done' =? length ms)%nat
      then Sorted (map (λ id, manifestMap_of ms !! id) done')
      else CircularDependency.
Proof.
  intros Hmiss. unfold sortByDependencies.
  set (mm := manifestMap_of ms).
  destruct (build_graph_represents mm ms (Graph.mk ∅ ∅) [] [])
    as (g & Hg & Hrep).
  { intros m dep Hm Hdep Hopt. apply manifestMap_of_is_Some. eauto. }
  { apply represents_empty. }
  simpl in Hrep. rewrite Hg.
  destruct (initial_queue_spec (Graph.inDegree g)) as (Hs & Hnq & Hq).
  pose proof Hrep as (Hin & _ & _).
  destruct (kahn_loop_spec ms g Hrep (length ms) [] (Graph.inDegree g)
              (initial_queue (Graph.inDegree g)))
    as (done' & Hk & Hnd' & Hsub & Hr & Hl & Hstuck).
  { constructor. }
  { by intros v ?%elem_of_nil. }
  { intros v Hv. fold mm. rewrite Hin. by rewrite decide_True. }
  { done. }
  { done. }
  { intros v. rewrite Hq. fold mm. rewrite Hin.
    destruct (decide (v ∈ ids ms)) as [Hv|Hv].
    - split.
      + intros [= Hz]. split; [done|]. split; [apply not_elem_of_nil|lia].
      + intros (_ & _ & ->). done.
    - split; [done|]. by intros (? & _). }
  { by intros i a b ?. }
  { by intros i x y ?. }
  { unfold ids. rewrite length_map. lia. }
  simpl in Hk. fold mm in Hk. rewrite Hk.
  exists done'. rewrite length_map. by repeat split.
Qed.

Lemma respects_edges_acyclic ms done :
  NoDup done → (∀ v, v ∈ ids ms → v ∈ done) → respects_edges ms done →
  acyclic ms.
Proof.
  intros Hnd Hall Hr.
  assert (Hpos : ∀ b a, tc (must_precede ms) b a →
            ∃ i j, done !! i = Some a ∧ done !! j = Some b ∧ (j < i)%nat).
  { assert (Hbase : ∀ b a, must_precede ms b a →
              ∃ i j, done !! i = Some a ∧ done !! j = Some b ∧ (j < i)%nat).
    { intros b a Hba. pose proof Hba as (_ & m & Hm & <- & _).
      assert (Ha : Manifest.ID m ∈ done).
      { apply Hall. unfold ids. apply list_elem_of_In, in_map.
        by apply list_elem_of_In. }
      apply list_elem_of_lookup in Ha as [i Hi].
      pose proof (Hr i _ b Hi Hba) as Hb.
      apply list_elem_of_lookup in Hb as [j Hj].
      apply lookup_take_Some in Hj as [Hj Hlt]. eauto. }
    induction 1 as [b a Hba|b c a Hbc _ IH]; [by apply Hbase|].
    destruct IH as (i & k & Hi & Hk & Hlt).
    destruct (Hbase b c Hbc) as (k' & j & Hk' & Hj & Hlt').
    assert (k' = k) as -> by (by eapply NoDup_lookup).
    exists i, j. split; [done|]. split; [done|]. lia. }
  intros x Hx. destruct (Hpos x x Hx) as (i & j & Hi & Hj & Hlt).
  assert (i = j) by (by eapply NoDup_lookup). lia.
Qed.

Lemma sortByDependencies_Sorted_iff ms :
  (∃ order, sortByDependencies ms = Sorted order) ↔
  no_missing ms ∧ NoDup (ids ms) ∧ acyclic ms.
Proof.
  split.
  - intros [order Ho].
    assert (Hmiss : no_missing ms).
    { unfold sortByDependencies in Ho.
      destruct (build_graph (manifestMap_of ms) ms (Graph.mk ∅ ∅))
        as [[? ?]|g] eqn:Hg; [done|].
      intros m dep Hm Hdep Hopt. apply manifestMap_of_is_Some.
      by eapply build_graph_inr. }
    split; [done|].
    destruct (sortByDependencies_run ms Hmiss)
      as (done' & Hnd & Hsub & Hr & _ & _ & Heq).
    rewrite Ho in Heq.
    destruct (Nat.eqb_spec (length done') (length ms)) as [Hlen|]; [|done].
    assert (Hperm : done' ≡ₚ ids ms).
    { apply submseteq_length_Permutation.
      - by apply NoDup_submseteq.
      - unfold ids. rewrite length_map. lia. }
    split; [by rewrite <- Hperm|].
    apply (respects_edges_acyclic ms done'); [done| |done].
    intros v Hv. by rewrite Hperm.
  - intros (Hmiss & Hnd & Hac).
    destruct (sortByDependencies_run ms Hmiss)
      as (done' & Hnd' & Hsub & _ & _ & Hstuck & Heq).
    pose proof (stuck_all_done ms done' Hac Hstuck) as Hall.
    assert (Hperm : done' ≡ₚ ids ms).
    { apply NoDup_Permutation; [done|done|]. intros v. split; auto. }
    assert (Hlen : length done' = length ms).
    { rewrite Hperm. unfold ids. by rewrite length_map. }
    rewrite Hlen, Nat.eqb_refl in Heq. eauto.
Qed.

(** X27.  What [sortByDependencies] answers, on every list of
    manifests.  It always terminates with one of three answers.  It
    reports a missing dependency exactly when some manifest names a
    non-optional dependency whose id no manifest of the list has, and
    the pair it reports is such a manifest and dependency.  Otherwise it
    returns an order exactly when the ids are pairwise distinct and the
    edges form no cycle, and it reports a circular dependency in every
    other case: a cycle, or two manifests with the same id. *)
Theorem X27_sortByDependencies_outcomes (ms : list Manifest.t) :
  sortByDependencies ms ≠ OutOfFuel ∧
  (∀ id dep,
     sortByDependencies ms = MissingDependency id dep →
     ∃ m d, m ∈ ms ∧ d ∈ Manifest.Dependencies m ∧ Manifest.ID m = id ∧
            Dependency.ID d = dep ∧ Dependency.Optional d = false ∧
            dep ∉ ids ms) ∧
  ((∃ id dep, sortByDependencies ms = MissingDependency id dep) ↔
   ¬ no_missing ms) ∧
  ((∃ order, sortByDependencies ms = Sorted order) ↔
   no_missing ms ∧ NoDup (ids ms) ∧ acyclic ms) ∧
  (sortByDependencies ms = CircularDependency ↔
   no_missing ms ∧ ¬ (NoDup (ids ms) ∧ acyclic ms)).
Proof.
  assert (Hmissing : ∀ id dep,
            sortByDependencies ms = MissingDependency id dep →
            ∃ m d, m ∈ ms ∧ d ∈ Manifest.Dependencies m ∧ Manifest.ID m = id ∧
                   Dependency.ID d = dep ∧ Dependency.Optional d = false ∧
                   dep ∉ ids ms).
  { intros id dep Hs. unfold sortByDependencies in Hs.
    destruct (build_graph (manifestMap_of ms) ms (Graph.mk ∅ ∅))
      as [[id' dep']|g] eqn:Hg.
    - injection Hs as -> ->.
      apply build_graph_inl in Hg as (m & d & Hm & Hd & [= -> ->] & Ho & Hn).
      exists m, d. repeat split; try done.
      intros Hin%manifestMap_of_is_Some. rewrite Hn in Hin. by destruct Hin.
    - destruct (kahn_loop _ _ _ _ _ _); [|done].
      by destruct (_ =? _)%nat. }
  assert (Hcases : no_missing ms →
            (∃ order, sortByDependencies ms = Sorted order) ∨
            sortByDependencies ms = CircularDependency).
  { intros Hmiss.
    destruct (sortByDependencies_run ms Hmiss) as (done' & _ & _ & _ & _ & _ & ->).
    destruct (_ =? _)%nat; eauto. }
  assert (Hnm : (∀ id dep, sortByDependencies ms ≠ MissingDependency id dep) →
                no_missing ms).
  { intros Hno. unfold sortByDependencies in Hno.
    destruct (build_graph (manifestMap_of ms) ms (Graph.mk ∅ ∅))
      as [[id' dep']|g] eqn:Hg; [by destruct (Hno id' dep')|].
    intros m dep Hm Hdep Hopt. apply manifestMap_of_is_Some.
    by eapply build_graph_inr. }
  split; [|split; [done|split; [|split]]].
  - intros Hfuel. 
    assert (Hmiss : no_missing ms).
    { apply Hnm. intros id dep. by rewrite Hfuel. }
    destruct (Hcases Hmiss) as [[order Ho]|Hc]; congruence.
  - split.
    + intros (id & dep & Hs) Hmiss.
      destruct (Hmissing id dep Hs) as (m & d & Hm & Hd & _ & <- & Ho & Hn).
      apply Hn. by eapply Hmiss.
    + intros Hnot.
      destruct (sortByDependencies ms) as [order| id dep| |] eqn:Hs; [| eauto | |].
      all: exfalso; apply Hnot, Hnm; intros id dep; congruence.
  - apply sortByDependencies_Sorted_iff.
  - split.
    + intros Hc.
      assert (Hmiss : no_missing ms).
      { apply Hnm. intros id dep. by rewrite Hc. }
      split; [done|]. intros [Hnd Hac].
      destruct (proj2 (sortByDependencies_Sorted_iff ms)) as [order Ho];
        [done|congruence].
    + intros [Hmiss Hnot].
      destruct (Hcases Hmiss) as [[order Ho]|Hc]; [|done].
      exfalso. apply Hnot.
      destruct (proj1 (sortByDependencies_Sorted_iff ms)) as (_ & ? & ?);
        eauto.
Qed.

(** ** The loader's resolver *)

Lemma visit_S fuel pm id st :
  visit (S fuel) pm id st =
  if decide (id ∈ VisitState.visited st) then Some (inr st)
  else if decide (id ∈ VisitState.visiting st) then
    Some (inl ("circular dependency detected involving: " ++ id)%string)
  else
    match pm !! id with
    | None => Some (inr st)
    | Some dp =>
        match
          loader.visit_each (visit fuel pm) (loader.targets dp)
            (VisitState.mk (VisitState.sorted st) (VisitState.visited st)
               ({[id]} ∪ VisitState.visiting st))
        with
        | Some (inr st) =>
            Some (inr (VisitState.mk
                         (VisitState.sorted st ++ [dp])
                         ({[id]} ∪ VisitState.visited st)
                         (VisitState.visiting st ∖ {[id]})))
        | other => other
        end
    end.
Proof. reflexivity. Qed.

Lemma must_precede_target ms parent dp target :
  manifestMap_of ms !! parent = Some dp →
  target ∈ loader.targets dp →
  is_Some (manifestMap_of ms !! target) →
  must_precede ms target parent.
Proof.
  intros Hp Ht Hs. apply manifestMap_of_Some in Hp as [Hin Hid].
  split; [by apply manifestMap_of_is_Some|].
  exists dp. split; [done|]. split; [done|].
  unfold loader.targets in Ht. by apply elem_of_app in Ht.
Qed.

Lemma ids_snoc l m : ids (l ++ [m]) = ids l ++ [Manifest.ID m].
Proof. unfold ids. by rewrite map_app. Qed.

Lemma ids_prefix l k : l `prefix_of` k → ids l `prefix_of` ids k.
Proof. intros [t ->]. exists (ids t). unfold ids. by rewrite map_app. Qed.

Lemma visited_mono pm st st' x :
  loader.well_formed pm st → loader.well_formed pm st' →
  VisitState.sorted st `prefix_of` VisitState.sorted st' →
  x ∈ VisitState.visited st → x ∈ VisitState.visited st'.
Proof.
  intros (Ha & _) (Ha' & _) Hpre Hx. apply Ha'. apply Ha in Hx.
  apply ids_prefix in Hpre as [t ->]. apply elem_of_app. by left.
Qed.

Lemma visit_each_spec ms fuel parent dp :
  manifestMap_of ms !! parent = Some dp →
  (∀ id st,
     loader.well_formed (manifestMap_of ms) st →
     (size (dom (manifestMap_of ms) ∖ VisitState.visiting st) < fuel)%nat →
     (is_Some (manifestMap_of ms !! id) →
      ∀ v, v ∈ VisitState.visiting st → tc (must_precede ms) id v) →
     loader.visit_post ms [id] st (visit fuel (manifestMap_of ms) id st)) →
  ∀ ts st,
    (∀ t, t ∈ ts → t ∈ loader.targets dp) →
    loader.well_formed (manifestMap_of ms) st →
    (size (dom (manifestMap_of ms) ∖ VisitState.visiting st) < fuel)%nat →
    parent ∈ VisitState.visiting st →
    (∀ v, v ∈ VisitState.visiting st → v ≠ parent →
          tc (must_precede ms) parent v) →
    loader.visit_post ms ts st
      (loader.visit_each (visit fuel (manifestMap_of ms)) ts st).
Proof.
  intros Hp Hvisit. induction ts as [|t ts IH];
    intros st Hts Hwf Hsize Hpar Hpath.
  - simpl. split; [done|]. split; [done|]. split; [done|].
    by intros t ?%elem_of_nil.
  - simpl.
    assert (Hedge : is_Some (manifestMap_of ms !! t) →
                    ∀ v, v ∈ VisitState.visiting st →
                         tc (must_precede ms) t v).
    { intros Hs v Hv.
      assert (Hpt : must_precede ms t parent).
      { eapply must_precede_target; [done| |done]. apply Hts. by left. }
      destruct (decide (v = parent)) as [-> |Hne]; [by apply tc_once|].
      eapply tc_l; [done|]. by apply Hpath. }
    pose proof (Hvisit t st Hwf Hsize Hedge) as Hpost.
    destruct (visit fuel (manifestMap_of ms) t st) as [[e|st1]|];
      [done| |done].
    destruct Hpost as (Hwf1 & Hv1 & Hpre1 & Hin1).
    assert (Hrest : loader.visit_post ms ts st1
              (loader.visit_each (visit fuel (manifestMap_of ms)) ts st1)).
    { apply IH.
      - intros t' Ht'. apply Hts. by right.
      - done.
      - by rewrite Hv1.
      - by rewrite Hv1.
      - rewrite Hv1. done. }
    change ((fix go (targets : list string) (st0 : VisitState.t) {struct targets} :
               option (string + VisitState.t) :=
               match targets with
               | [] => Some (inr st0)
               | target :: rest =>
                   match visit fuel (manifestMap_of ms) target st0 with
                   | Some (inr st2) => go rest st2
                   | other => other
                   end
               end) ts st1)
      with (loader.visit_each (visit fuel (manifestMap_of ms)) ts st1).
    destruct (loader.visit_each (visit fuel (manifestMap_of ms)) ts st1)
      as [[e|st2]|]; [done| |done].
    destruct Hrest as (Hwf2 & Hv2 & Hpre2 & Hin2).
    split; [done|]. split; [congruence|]. split; [by etransitivity|].
    intros t' [-> |Ht']%elem_of_cons Hs; [|by apply Hin2].
    eapply visited_mono; [exact Hwf1|exact Hwf2|exact Hpre2|].
    apply Hin1; [by left|done].
Qed.

Lemma visit_spec ms :
  ∀ fuel id st,
    loader.well_formed (manifestMap_of ms) st →
    (size (dom (manifestMap_of ms) ∖ VisitState.visiting st) < fuel)%nat →
    (is_Some (manifestMap_of ms !! id) →
     ∀ v, v ∈ VisitState.visiting st → tc (must_precede ms) id v) →
    loader.visit_post ms [id] st (visit fuel (manifestMap_of ms) id st).
Proof.
  induction fuel as [|fuel IH]; intros id st Hwf Hsize Hpath; [lia|].
  rewrite visit_S.
  destruct (decide (id ∈ VisitState.visited st)) as [Hvd|Hnvd].
  { split; [done|]. split; [done|]. split; [done|].
    by intros t ->%list_elem_of_singleton. }
  destruct (decide (id ∈ VisitState.visiting st)) as [Hvg|Hnvg].
  { exists id. destruct Hwf as (_ & _ & _ & _ & He).
    apply Hpath; [by apply He|done]. }
  destruct (manifestMap_of ms !! id) as [dp|] eqn:Hid.
  2:{ split; [done|]. split; [done|]. split; [done|].
      intros t ->%list_elem_of_singleton [? Hs]. congruence. }
  set (st1 := VisitState.mk (VisitState.sorted st) (VisitState.visited st)
                ({[id]} ∪ VisitState.visiting st)).
  assert (Hwf1 : loader.well_formed (manifestMap_of ms) st1).
  { destruct Hwf as (Ha & Hb & Hc & Hd & He).
    split; [done|]. split; [done|]. split; [done|]. split; [done|].
    intros x [->%elem_of_singleton|Hx]%elem_of_union; [|by apply He].
    split; [done|]. by rewrite Hid. }
  assert (Hsize1 : (size (dom (manifestMap_of ms) ∖ VisitState.visiting st1)
                    < fuel)%nat).
  { assert (Hin : id ∈ dom (manifestMap_of ms) ∖ VisitState.visiting st).
    { apply elem_of_difference. split; [|done].
      apply elem_of_dom. by rewrite Hid. }
    assert (Heq : dom (manifestMap_of ms) ∖ VisitState.visiting st1
                  = (dom (manifestMap_of ms) ∖ VisitState.visiting st)
                      ∖ {[id]}).
    { subst st1. simpl. apply set_eq. intros x.
      rewrite !elem_of_difference, elem_of_union, elem_of_singleton. tauto. }
    rewrite Heq, size_difference by (by apply singleton_subseteq_l).
    rewrite size_singleton.
    assert (size (dom (manifestMap_of ms) ∖ VisitState.visiting st) ≠ 0)%nat.
    { apply size_non_empty_iff. intros Hemp.
      apply (not_elem_of_empty (C:=gset string) id). by rewrite <- Hemp. }
    lia. }
  pose proof (visit_each_spec ms fuel id dp Hid IH (loader.targets dp) st1
                (λ t H, H) Hwf1 Hsize1) as Heach.
  destruct (loader.visit_each (visit fuel (manifestMap_of ms))
              (loader.targets dp) st1) as [[e|st2]|].
  - apply Heach.
    + subst st1. simpl. apply elem_of_union. left. by apply elem_of_singleton.
    + subst st1. simpl.
      intros v [->%elem_of_singleton|Hv]%elem_of_union Hne; [done|].
      apply Hpath; [by eexists|done].
  - destruct Heach as (Hwf2 & Hv2 & Hpre2 & Hin2).
    { subst st1. simpl. apply elem_of_union. left. by apply elem_of_singleton. }
    { subst st1. simpl.
      intros v [->%elem_of_singleton|Hv]%elem_of_union Hne; [done|].
      apply Hpath; [by eexists|done]. }
    simpl in Hv2, Hpre2.
    apply manifestMap_of_Some in Hid as Hdp. destruct Hdp as [Hdpin Hdpid].
    destruct Hwf2 as (Ha & Hb & Hc & Hd & He).
    assert (Hidv : id ∈ VisitState.visiting st2).
    { rewrite Hv2. apply elem_of_union. left. by apply elem_of_singleton. }
    assert (Hidn : id ∉ ids (VisitState.sorted st2)).
    { intros Hin. apply Ha in Hin. by apply (He id Hidv). }
    split; [|split; [|split]].
    + split; [|split; [|split; [|split]]]; simpl.
      * intros x. rewrite ids_snoc, elem_of_app, list_elem_of_singleton,
          elem_of_union, elem_of_singleton, Ha, Hdpid. tauto.
      * rewrite ids_snoc. apply NoDup_app. split; [done|].
        split; [|apply NoDup_singleton].
        intros x Hx ->%list_elem_of_singleton. by rewrite Hdpid in Hx.
      * intros m [Hm| ->%list_elem_of_singleton]%elem_of_app; [by apply Hc|].
        by rewrite Hdpid.
      * intros i m b Hi Hbt Hs. rewrite ids_snoc.
        destruct (decide (i < length (VisitState.sorted st2))%nat)
          as [Hlt|Hge].
        -- rewrite lookup_app_l in Hi by done.
           rewrite take_app_le
             by (unfold ids; rewrite length_map; lia).
           by eapply Hd.
        -- assert (i = length (VisitState.sorted st2)) as ->.
           { apply lookup_lt_Some in Hi. rewrite length_app in Hi.
             simpl in Hi. lia. }
           rewrite list_lookup_middle in Hi by done. injection Hi as <-.
           replace (length (VisitState.sorted st2))
             with (length (ids (VisitState.sorted st2)))
             by (unfold ids; by rewrite length_map).
           rewrite take_app_length. apply Ha. by apply Hin2.
      * intros x [Hx Hne]%elem_of_difference.
        destruct (He x Hx) as [Hnv Hs]. split; [|done].
        intros [?%elem_of_singleton|?]%elem_of_union; [|done].
        by apply Hne, elem_of_singleton.
    + simpl. rewrite Hv2. apply set_eq. intros x.
      rewrite elem_of_difference, elem_of_union, elem_of_singleton.
      split; [by intros [[?|?] ?]|]. intros Hx. split; [by right|].
      by intros ->.
    + simpl. etransitivity; [exact Hpre2|]. by apply prefix_app_r.
    + simpl. intros t ->%list_elem_of_singleton _.
      apply elem_of_union. left. by apply elem_of_singleton.
  - apply Heach.
    + subst st1. simpl. apply elem_of_union. left. by apply elem_of_singleton.
    + subst st1. simpl.
      intros v [->%elem_of_singleton|Hv]%elem_of_union Hne; [done|].
      apply Hpath; [by eexists|done].
Qed.

Lemma manifestMap_of_size ms :
  (size (dom (manifestMap_of ms)) ≤ length ms)%nat.
Proof.
  induction ms as [|m ms IH] using rev_ind.
  - unfold manifestMap_of. simpl. by rewrite dom_empty_L, size_empty.
  - rewrite manifestMap_of_snoc, dom_insert_L, size_union_alt, size_singleton,
      length_app.
    simpl.
    assert (size (dom (manifestMap_of ms) ∖ {[Manifest.ID m]})
            ≤ size (dom (manifestMap_of ms)))%nat
      by (apply subseteq_size, subseteq_difference_l; reflexivity).
    lia.
Qed.

Lemma manifestMap_of_NoDup ms m :
  NoDup (ids ms) → m ∈ ms → manifestMap_of ms !! Manifest.ID m = Some m.
Proof.
  induction ms as [|x ms IH] using rev_ind; [by intros _ ?%elem_of_nil|].
  rewrite ids_snoc, manifestMap_of_snoc.
  intros (Hnd & Hx & _)%NoDup_app [Hm| ->%list_elem_of_singleton]%elem_of_app.
  - rewrite lookup_insert_ne; [by apply IH|].
    intros Heq. apply (Hx (Manifest.ID m)).
    + unfold ids. apply list_elem_of_In, in_map. by apply list_elem_of_In.
    + rewrite Heq. by left.
  - by rewrite lookup_insert_eq.
Qed.

Lemma first_missing_None pm ps :
  first_missing pm ps = None →
  ∀ m dep, m ∈ ps → dep ∈ Manifest.Dependencies m →
           Dependency.Optional dep = false →
           is_Some (pm !! Dependency.ID dep).
Proof.
  induction ps as [|dp ps IH]; simpl; [by intros _ m dep ?%elem_of_nil|].
  destruct (find _ (Manifest.Dependencies dp)) as [d|] eqn:Hf; [done|].
  intros Hrest m dep [-> |Hm]%elem_of_cons Hdep Hopt; [|by eapply IH].
  apply list_elem_of_In in Hdep.
  pose proof (find_none _ _ Hf dep Hdep) as Hn. simpl in Hn.
  rewrite Hopt, andb_true_r in Hn. apply negb_false_iff in Hn.
  by apply bool_decide_eq_true in Hn.
Qed.

Lemma first_missing_Some pm ps id dep :
  first_missing pm ps = Some (id, dep) →
  ∃ m d, m ∈ ps ∧ d ∈ Manifest.Dependencies m ∧ Manifest.ID m = id ∧
         Dependency.ID d = dep ∧ Dependency.Optional d = false ∧
         pm !! dep = None.
Proof.
  induction ps as [|dp ps IH]; simpl; [done|].
  destruct (find _ (Manifest.Dependencies dp)) as [d|] eqn:Hf.
  - intros [= <- <-]. apply find_some in Hf as [Hin Hc].
    apply andb_true_iff in Hc as [He Ho].
    apply negb_true_iff in He, Ho. apply bool_decide_eq_false in He.
    exists dp, d. split; [by left|]. split; [by apply list_elem_of_In|].
    repeat split; try done. by apply eq_None_not_Some.
  - intros (m & d & Hm & ?)%IH. exists m, d. split; [by right|done].
Qed.

Lemma visit_plugins_spec ms fuel :
  (size (dom (manifestMap_of ms)) < fuel)%nat →
  ∀ ps st,
    loader.well_formed (manifestMap_of ms) st →
    VisitState.visiting st = ∅ →
    match visit_plugins fuel (manifestMap_of ms) ps st with
    | ResolveOutOfFuel => False
    | ResolveError _ => ∃ x, tc (must_precede ms) x x
    | Resolved sorted =>
        ∃ st', sorted = VisitState.sorted st' ∧
               loader.well_formed (manifestMap_of ms) st' ∧
               VisitState.sorted st `prefix_of` VisitState.sorted st' ∧
               ∀ dp, dp ∈ ps →
                     is_Some (manifestMap_of ms !! Manifest.ID dp) →
                     Manifest.ID dp ∈ VisitState.visited st'
    end.
Proof.
  intros Hfuel. induction ps as [|dp ps IH]; intros st Hwf Hv; simpl.
  - exists st. split; [done|]. split; [done|]. split; [done|].
    by intros dp ?%elem_of_nil.
  - pose proof (visit_spec ms fuel (Manifest.ID dp) st Hwf) as Hpost.
    destruct (visit fuel (manifestMap_of ms) (Manifest.ID dp) st)
      as [[e|st1]|].
    + apply Hpost.
      * rewrite Hv, difference_empty_L. done.
      * intros _ v. rewrite Hv. by intros ?%elem_of_empty.
    + destruct Hpost as (Hwf1 & Hv1 & Hpre1 & Hin1).
      { rewrite Hv, difference_empty_L. done. }
      { intros _ v. rewrite Hv. by intros ?%elem_of_empty. }
      specialize (IH st1 Hwf1 ltac:(congruence)).
      destruct (visit_plugins fuel (manifestMap_of ms) ps st1)
        as [sorted|msg|]; [|done|done].
      destruct IH as (st' & -> & Hwf' & Hpre' & Hin').
      exists st'. split; [done|]. split; [done|].
      split; [by etransitivity|].
      intros dp' [-> |Hdp']%elem_of_cons Hs; [|by apply Hin'].
      eapply visited_mono; [exact Hwf1|exact Hwf'|exact Hpre'|].
      apply Hin1; [by left|done].
    + apply Hpost.
      * rewrite Hv, difference_empty_L. done.
      * intros _ v. rewrite Hv. by intros ?%elem_of_empty.
Qed.

Lemma ResolveDependencies_Resolved ms sorted :
  ResolveDependencies ms = Resolved sorted →
  no_missing ms ∧ NoDup (ids sorted) ∧
  (∀ id, id ∈ ids sorted ↔ id ∈ ids ms) ∧
  (∀ m, m ∈ sorted → manifestMap_of ms !! Manifest.ID m = Some m) ∧
  (∀ i m b, sorted !! i = Some m → b ∈ loader.targets m → b ∈ ids ms →
            b ∈ take i (ids sorted)).
Proof.
  unfold ResolveDependencies.
  destruct (first_missing (manifestMap_of ms) ms) as [[id dep]|] eqn:Hfm;
    [done|].
  intros Hres.
  assert (Hmiss : no_missing ms).
  { intros m dep Hm Hdep Hopt. apply manifestMap_of_is_Some.
    by eapply first_missing_None. }
  split; [done|].
  pose proof (visit_plugins_spec ms (S (length ms))
                ltac:(pose proof (manifestMap_of_size ms); lia)
                ms (VisitState.mk [] ∅ ∅)) as Hspec.
  rewrite Hres in Hspec.
  destruct Hspec as (st' & -> & (Ha & Hb & Hc & Hd & He) & _ & Hin).
  { split; [|split; [|split; [|split]]]; simpl.
    - intros x. split; [by intros ?%elem_of_empty|by intros ?%elem_of_nil].
    - constructor.
    - by intros m ?%elem_of_nil.
    - by intros i m b ?.
    - by intros x ?%elem_of_empty. }
  { done. }
  split; [done|]. split; [|split; [done|]].
  - intros id. split.
    + unfold ids. intros (m & <- & Hm)%list_elem_of_In%in_map_iff.
      apply list_elem_of_In in Hm. apply manifestMap_of_is_Some.
      rewrite (Hc m Hm). by eexists.
    + intros Hid. apply Ha.
      unfold ids in Hid.
      apply list_elem_of_In, in_map_iff in Hid as (m & <- & Hm).
      apply list_elem_of_In in Hm. apply Hin; [done|].
      apply manifestMap_of_is_Some. unfold ids.
      apply list_elem_of_In, in_map. by apply list_elem_of_In.
  - intros i m b Hi Hb' Hbin. eapply Hd; [done|done|].
    by apply manifestMap_of_is_Some.
Qed.

Lemma ResolveDependencies_total ms :
  ResolveDependencies ms ≠ ResolveOutOfFuel ∧
  (∀ msg, ResolveDependencies ms = ResolveError msg →
          ¬ no_missing ms ∨ ¬ acyclic ms).
Proof.
  unfold ResolveDependencies.
  destruct (first_missing (manifestMap_of ms) ms) as [[id dep]|] eqn:Hfm.
  - split; [done|]. intros msg _. left. intros Hmiss.
    apply first_missing_Some in Hfm as (m & d & Hm & Hd & _ & <- & Ho & Hn).
    assert (Hin : Dependency.ID d ∈ ids ms) by (by eapply Hmiss).
    apply manifestMap_of_is_Some in Hin. rewrite Hn in Hin. by destruct Hin.
  - pose proof (visit_plugins_spec ms (S (length ms))
                  ltac:(pose proof (manifestMap_of_size ms); lia)
                  ms (VisitState.mk [] ∅ ∅)) as Hspec.
    destruct (visit_plugins (S (length ms)) (manifestMap_of ms) ms _)
      as [sorted|msg|].
    + split; [done|]. by intros msg.
    + split; [done|]. intros _ _. right. intros Hac.
      destruct Hspec as (x & Hx).
      { split; [|split; [|split; [|split]]]; simpl.
        - intros x. split; [by intros ?%elem_of_empty|by intros ?%elem_of_nil].
        - constructor.
        - by intros m ?%elem_of_nil.
        - by intros i m b ?.
        - by intros x ?%elem_of_empty. }
      { done. }
      by apply (Hac x).
    + exfalso. apply Hspec; [|done].
      split; [|split; [|split; [|split]]]; simpl.
      * intros x. split; [by intros ?%elem_of_empty|by intros ?%elem_of_nil].
      * constructor.
      * by intros m ?%elem_of_nil.
      * by intros i m b ?.
      * by intros x ?%elem_of_empty.
Qed.

(** X28.  The loader's depth-first resolver, on every list of
    discovered plugins.  It always terminates, with an order or an
    error.  An order it returns holds every discovered id once, each
    entry being the plugin discovered last under its id, and every
    entry stands behind the discovered plugins it names as a dependency
    (optional or not) or in [load_after]; no non-optional dependency is
    missing then.  An error means that a non-optional dependency is
    missing or that the edges form a cycle.  When the ids are pairwise
    distinct, it returns an order exactly when no non-optional
    dependency is missing and there is no cycle, which is exactly when
    [Manager.sortByDependencies] returns one, and the order is a
    rearrangement of the plugins given. *)
Theorem X28_ResolveDependencies_outcomes (ms : list Manifest.t) :
  ResolveDependencies ms ≠ ResolveOutOfFuel ∧
  (∀ sorted,
     ResolveDependencies ms = Resolved sorted →
     no_missing ms ∧ NoDup (ids sorted) ∧
     (∀ id, id ∈ ids sorted ↔ id ∈ ids ms) ∧
     (∀ m, m ∈ sorted → manifestMap_of ms !! Manifest.ID m = Some m) ∧
     (∀ i m b, sorted !! i = Some m → b ∈ loader.targets m → b ∈ ids ms →
               b ∈ take i (ids sorted))) ∧
  (∀ msg, ResolveDependencies ms = ResolveError msg →
          ¬ no_missing ms ∨ ¬ acyclic ms) ∧
  (NoDup (ids ms) →
   ((∃ sorted, ResolveDependencies ms = Resolved sorted) ↔
    no_missing ms ∧ acyclic ms) ∧
   ((∃ sorted, ResolveDependencies ms = Resolved sorted) ↔
    (∃ order, sortByDependencies ms = Sorted order)) ∧
   (∀ sorted, ResolveDependencies ms = Resolved sorted → sorted ≡ₚ ms)).
Proof.
  destruct (ResolveDependencies_total ms) as [Hfuel Herr].
  split; [done|]. split; [apply ResolveDependencies_Resolved|].
  split; [done|]. intros Hnd.
  assert (Hiff : (∃ sorted, ResolveDependencies ms = Resolved sorted) ↔
                 no_missing ms ∧ acyclic ms).
  { split.
    - intros [sorted Hs].
      destruct (ResolveDependencies_Resolved ms sorted Hs)
        as (Hmiss & Hnds & Hids & Hpm & Hord).
      split; [done|].
      apply (respects_edges_acyclic ms (ids sorted)); [done|by apply Hids|].
      intros i a b Hi (Hb & m & Hm & <- & Hor).
      unfold ids in Hi.
      change (map Manifest.ID sorted) with (Manifest.ID <$> sorted) in Hi.
      rewrite list_lookup_fmap in Hi.
      destruct (sorted !! i) as [m'|] eqn:Hi'; [|done].
      simpl in Hi. injection Hi as Hid.
      assert (m' = m) as ->.
      { pose proof (Hpm m' (list_elem_of_lookup_2 _ _ _ Hi')) as H1.
        pose proof (manifestMap_of_NoDup ms m Hnd Hm) as H2.
        rewrite Hid in H1. congruence. }
      eapply Hord; [done| |done].
      unfold loader.targets. by apply elem_of_app.
    - intros [Hmiss Hac].
      destruct (ResolveDependencies ms) as [sorted|msg|] eqn:Hr;
        [eauto| |done].
      destruct (Herr msg eq_refl); done. }
  split; [done|]. split.
  - rewrite Hiff, sortByDependencies_Sorted_iff. tauto.
  - intros sorted Hs.
    destruct (ResolveDependencies_Resolved ms sorted Hs)
      as (Hmiss & Hnds & Hids & Hpm & Hord).
    apply submseteq_length_Permutation.
    + apply NoDup_submseteq.
      * by apply (NoDup_fmap_1 Manifest.ID).
      * intros m Hm. by apply (manifestMap_of_Some ms (Manifest.ID m)), Hpm.
    + assert (Hperm : ids sorted ≡ₚ ids ms)
        by (by apply NoDup_Permutation).
      apply Permutation_length in Hperm. unfold ids in Hperm.
      rewrite !length_map in Hperm. lia.
Qed.

(** ** The life cycle of the plugins of a manager *)

Lemma gentle_refl m : lifecycle.gentle m m.
Proof.
  unfold lifecycle.gentle. repeat split; try done.
  - intros q. destruct (lifecycle.Manager.heap m !! q); eauto.
  - auto.
Qed.

Lemma registered_same m m' q :
  lifecycle.Manager.plugins m' = lifecycle.Manager.plugins m →
  lifecycle.registered m' q ↔ lifecycle.registered m q.
Proof. unfold lifecycle.registered. by intros ->. Qed.

Lemma gentle_trans m1 m2 m3 :
  lifecycle.gentle m1 m2 → lifecycle.gentle m2 m3 → lifecycle.gentle m1 m3.
Proof.
  intros (Hd & Hp & Hl & Hh & Ht) (Hd' & Hp' & Hl' & Hh' & Ht').
  unfold lifecycle.gentle.
  split; [congruence|]. split; [congruence|]. split; [congruence|]. split.
  - intros q. specialize (Hh q). specialize (Hh' q).
    destruct (lifecycle.Manager.heap m3 !! q) as [o3|].
    + destruct Hh' as (o2 & Ho2 & Hor'). rewrite Ho2 in Hh.
      destruct Hh as (o1 & Ho1 & Hor). exists o1. split; [done|].
      destruct Hor' as [-> |(Hr & Hm & Hc & Hs)]; [done|]. right.
      apply (registered_same m1 m2 q Hp) in Hr. split; [done|].
      destruct Hor as [-> |(_ & Hm1 & Hc1 & _)]; [done|].
      split; [congruence|]. split; [congruence|done].
    + by rewrite Hh' in Hh.
  - intros c [Hc| ->]%Ht'; [by apply Ht|by right].
Qed.

Lemma gentle_inv closure m m' :
  lifecycle.manager_inv closure m → lifecycle.gentle m m' →
  lifecycle.manager_inv closure m'.
Proof.
  intros (I1 & I2 & I3 & I4 & I5 & I6 & I7) (Hd & Hp & Hl & Hh & Ht).
  unfold lifecycle.manager_inv. rewrite Hd, Hp, Hl.
  split; [done|]. split; [done|]. split; [|split; [done|split; [|split]]].
  - intros id p Hid. destruct (I3 id p Hid) as (o & Ho & Hm & Hc & Hs).
    specialize (Hh p). rewrite Ho in Hh.
    destruct (lifecycle.Manager.heap m' !! p) as [o'|]; [|done].
    destruct Hh as (o0 & [= <-] & Hor). exists o'. split; [done|].
    destruct Hor as [-> |(_ & -> & -> & ?)]; done.
  - intros p o' Ho' Hnr. specialize (Hh p). rewrite Ho' in Hh.
    destruct Hh as (o & Ho & Hor).
    assert (Hnr' : ¬ lifecycle.registered m p).
    { intros Hr. by apply Hnr, (registered_same m m' p Hp). }
    destruct Hor as [-> |(Hr & _)]; [by apply (I5 p)|done].
  - done.
  - intros c [Hc| ->]%Ht; [by apply I7|done].
Qed.

Lemma alter_alter {A} (f g : A → A) p (l : list A) :
  alter f p (alter g p l) = alter (λ x, f (g x)) p l.
Proof.
  apply list_eq. intros q. destruct (decide (q = p)) as [-> |Hne].
  - rewrite !list_lookup_alter_eq. by destruct (l !! p).
  - by rewrite !list_lookup_alter_ne.
Qed.

Ltac heap_at q p Hp :=
  destruct (decide (q = p)) as [-> |?];
  [rewrite ?list_lookup_alter_eq, ?Hp; simpl
  |rewrite ?list_lookup_alter_ne by done].

Lemma gentle_shape m p o F T m' :
  lifecycle.registered m p →
  lifecycle.Manager.heap m !! p = Some o →
  lifecycle.Loaded.Manifest (F o) = lifecycle.Loaded.Manifest o →
  lifecycle.Loaded.closes (F o) = lifecycle.Loaded.closes o →
  lifecycle.settled (lifecycle.Loaded.State (F o)) = true →
  (∀ c, c ∈ T → lifecycle.GuestCall.on_closed c = false) →
  lifecycle.Manager.dispatcher m' = lifecycle.Manager.dispatcher m →
  lifecycle.Manager.plugins m' = lifecycle.Manager.plugins m →
  lifecycle.Manager.loadOrder m' = lifecycle.Manager.loadOrder m →
  lifecycle.Manager.heap m' = alter F p (lifecycle.Manager.heap m) →
  lifecycle.Manager.trace m' = lifecycle.Manager.trace m ++ T →
  lifecycle.gentle m m'.
Proof.
  intros Hreg Hp HF1 HF2 HF3 HT Hd' Hp' Hl' Hh' Ht'.
  unfold lifecycle.gentle. rewrite Hd', Hp', Hl', Hh', Ht'.
  split; [done|]. split; [done|]. split; [done|]. split.
  - intros q. heap_at q p Hp.
    + exists o. split; [done|]. right. done.
    + destruct (lifecycle.Manager.heap m !! q); eauto.
  - intros c [?|?]%elem_of_app; auto.
Qed.

Lemma EnablePlugin_gentle closure m id g now :
  lifecycle.manager_inv closure m →
  lifecycle.gentle m (fst (lifecycle.EnablePlugin m id g now)).
Proof.
  intros (I1 & I2 & I3 & I4 & I5 & I6 & I7). unfold lifecycle.EnablePlugin.
  destruct (lifecycle.Manager.plugins m !! id) as [p|] eqn:Hid;
    [|apply gentle_refl].
  destruct (I3 id p Hid) as (o & Hp & Hm & Hc & Hs). rewrite Hp.
  assert (Hreg : lifecycle.registered m p) by (by exists id).
  destruct (lifecycle.Loaded.State o) eqn:Hst; try apply gentle_refl.
  all: destruct (instance.Guest.FunctionExists g "on_enable");
    [destruct (instance.Guest.Call g "on_enable" []) as [out [err|]]|];
    simpl.
  all: match goal with
       | |- context [lifecycle.record_error ?e] =>
           eapply (gentle_shape m p o
                     (λ o, lifecycle.record_error e now
                             (lifecycle.set_State StateError
                                (lifecycle.set_State StateEnabling o)))
                     [lifecycle.GuestCall.mk p "on_enable" [] false])
       | |- context [lifecycle.guest_call] =>
           eapply (gentle_shape m p o
                     (λ o, lifecycle.set_State StateEnabled
                             (lifecycle.set_State StateEnabling o))
                     [lifecycle.GuestCall.mk p "on_enable" [] false])
       | |- _ =>
           eapply (gentle_shape m p o
                     (λ o, lifecycle.set_State StateEnabled
                             (lifecycle.set_State StateEnabling o)) [])
       end;
    try done;
    try (by intros c ->%list_elem_of_singleton);
    try (by intros c ?%elem_of_nil);
    try (simpl; by rewrite !alter_alter);
    try (simpl; by rewrite app_nil_r).
  all: simpl; unfold lifecycle.is_closed; simpl;
    rewrite list_lookup_alter_eq, Hp; simpl; by rewrite Hc.
Qed.

Lemma DisablePlugin_gentle closure m id g :
  lifecycle.manager_inv closure m →
  lifecycle.gentle m (fst (lifecycle.DisablePlugin m id g)).
Proof.
  intros (I1 & I2 & I3 & I4 & I5 & I6 & I7). unfold lifecycle.DisablePlugin.
  destruct (lifecycle.Manager.plugins m !! id) as [p|] eqn:Hid;
    [|apply gentle_refl].
  destruct (I3 id p Hid) as (o & Hp & Hm & Hc & Hs). rewrite Hp.
  assert (Hreg : lifecycle.registered m p) by (by exists id).
  destruct (lifecycle.Loaded.State o) eqn:Hst; try apply gentle_refl.
  destruct (instance.Guest.FunctionExists g "on_disable"); simpl.
  - eapply (gentle_shape m p o
              (λ o, lifecycle.set_State StateDisabled
                      (lifecycle.set_State StateDisabling o))
              [lifecycle.GuestCall.mk p "on_disable" [] false]);
      try done.
    + by intros c ->%list_elem_of_singleton.
    + simpl. by rewrite !alter_alter.
    + simpl. unfold lifecycle.is_closed. simpl.
      rewrite list_lookup_alter_eq, Hp. simpl. by rewrite Hc.
  - eapply (gentle_shape m p o
              (λ o, lifecycle.set_State StateDisabled
                      (lifecycle.set_State StateDisabling o)) []);
      try done.
    + by intros c ?%elem_of_nil.
    + simpl. by rewrite !alter_alter.
    + simpl. by rewrite app_nil_r.
Qed.

Lemma fold_gentle closure (f : lifecycle.Manager.t → string →
                               lifecycle.Manager.t) ids :
  (∀ m id, lifecycle.manager_inv closure m → lifecycle.gentle m (f m id)) →
  ∀ m, lifecycle.manager_inv closure m →
       lifecycle.gentle m (fold_left f ids m).
Proof.
  intros Hf. induction ids as [|id ids IH]; intros m Hinv; simpl.
  - apply gentle_refl.
  - eapply gentle_trans; [by apply Hf|].
    apply IH. eapply gentle_inv; [done|by apply Hf].
Qed.

Lemma EnableAll_gentle closure m g now :
  lifecycle.manager_inv closure m →
  lifecycle.gentle m (lifecycle.EnableAll m g now).
Proof.
  intros Hinv. unfold lifecycle.EnableAll.
  apply (fold_gentle closure
           (λ m id, fst (lifecycle.EnablePlugin m id (g id) now))); [|done].
  intros m' id. apply EnablePlugin_gentle.
Qed.

Lemma DisableAll_gentle closure m g :
  lifecycle.manager_inv closure m →
  lifecycle.gentle m (lifecycle.DisableAll m g).
Proof.
  intros Hinv. unfold lifecycle.DisableAll.
  apply (fold_gentle closure
           (λ m id, fst (lifecycle.DisablePlugin m id (g id)))); [|done].
  intros m' id. apply DisablePlugin_gentle.
Qed.

Lemma alter_last {A} (f : A → A) (l : list A) x :
  alter f (length l) (l ++ [x]) = l ++ [f x].
Proof.
  rewrite alter_app_r_alt by lia. by rewrite Nat.sub_diag.
Qed.

Lemma registerEventHandlers_subs closure d p manifest e sub :
  sub ∈ subs_of (lifecycle.registerEventHandlers closure d p manifest) e →
  sub ∈ subs_of d e ∨
  (Subscription.PluginID sub = lifecycle.FullManifest.ID manifest ∧
   Subscription.Handler sub = closure p e).
Proof.
  unfold lifecycle.registerEventHandlers.
  generalize (lifecycle.FullManifest.Events manifest). intros evs.
  revert d. induction evs as [|x evs IH]; intros d; simpl; [auto|].
  intros [Hin|Hnew]%IH; [|by right].
  destruct (decide (manifest.EventSubscription.Event x = e)) as [<- |Hne].
  - rewrite subs_of_Subscribe in Hin. unfold SortFunc in Hin.
    rewrite insertionSortCmpFunc_Permutation in Hin.
    apply elem_of_app in Hin as [?| ->%list_elem_of_singleton]; [by left|].
    by right.
  - rewrite Subscribe_other_event in Hin by done. by left.
Qed.

Lemma loadPlugin_cases closure m manifest mkdir_ok new_plugin init_err
    init_ctx_done :
  let p0 := length (lifecycle.Manager.heap m) in
  let id := lifecycle.FullManifest.ID manifest in
  let r := lifecycle.loadPlugin closure m manifest mkdir_ok new_plugin
             init_err init_ctx_done in
  let init := lifecycle.GuestCall.mk p0 "plugin_init" [] false in
  (snd r ≠ None ∧
   lifecycle.Manager.dispatcher (fst r) = lifecycle.Manager.dispatcher m ∧
   lifecycle.Manager.plugins (fst r) = lifecycle.Manager.plugins m ∧
   lifecycle.Manager.loadOrder (fst r) = lifecycle.Manager.loadOrder m ∧
   (lifecycle.Manager.heap (fst r) = lifecycle.Manager.heap m ∨
    lifecycle.Manager.heap (fst r)
      = lifecycle.Manager.heap m ++
        [lifecycle.Loaded.mk manifest StateLoading metrics.NewMetrics 1]) ∧
   (lifecycle.Manager.trace (fst r) = lifecycle.Manager.trace m ∨
    lifecycle.Manager.trace (fst r) = lifecycle.Manager.trace m ++ [init])) ∨
  (snd r = None ∧ lifecycle.Manager.plugins m !! id = None ∧
   fst r = lifecycle.Manager.mk
             (lifecycle.registerEventHandlers closure
                (lifecycle.Manager.dispatcher m) p0 manifest)
             (<[id := p0]> (lifecycle.Manager.plugins m))
             (lifecycle.Manager.loadOrder m ++ [id])
             (lifecycle.Manager.heap m ++
              [lifecycle.Loaded.mk manifest StateLoaded metrics.NewMetrics 0])
             (lifecycle.Manager.trace m ++ [init])).
Proof.
  intros p0 id r init. subst r. unfold lifecycle.loadPlugin. fold id.
  destruct (lifecycle.Manager.plugins m !! id) eqn:Hid;
    [left; simpl; auto 10|].
  destruct mkdir_ok; simpl; [|left; auto 10].
  destruct new_plugin as [exports|]; [|left; simpl; auto 10].
  fold p0.
  assert (Hfresh : ∀ o tr,
            lifecycle.is_closed
              (lifecycle.Manager.mk (lifecycle.Manager.dispatcher m)
                 (lifecycle.Manager.plugins m) (lifecycle.Manager.loadOrder m)
                 (lifecycle.Manager.heap m ++
                  [lifecycle.Loaded.mk manifest o metrics.NewMetrics 0]) tr)
              p0 = false).
  { intros o tr. unfold lifecycle.is_closed. simpl.
    by rewrite list_lookup_middle. }
  destruct (exports "plugin_init"); simpl.
  2:{ left. unfold lifecycle.update. simpl. subst p0. rewrite alter_last.
      auto 10. }
  destruct (exports "handle_event"); simpl.
  2:{ left. unfold lifecycle.update. simpl. subst p0. rewrite alter_last.
      auto 10. }
  unfold lifecycle.guest_call. rewrite Hfresh. simpl.
  destruct init_err as [err|]; simpl.
  - left. unfold lifecycle.update. simpl. subst p0. rewrite alter_last.
    split; [by destruct init_ctx_done|]. auto 10.
  - right. split; [done|]. split; [done|].
    unfold lifecycle.update. simpl. subst p0. by rewrite alter_last.
Qed.

Lemma manager_inv_heap_bound closure m id p :
  lifecycle.manager_inv closure m →
  lifecycle.Manager.plugins m !! id = Some p →
  (p < length (lifecycle.Manager.heap m))%nat.
Proof.
  intros (_ & _ & I3 & _) Hid. destruct (I3 id p Hid) as (o & Ho & _).
  by apply lookup_lt_Some in Ho.
Qed.

Lemma loadPlugin_inv closure m manifest mkdir_ok new_plugin init_err
    init_ctx_done :
  lifecycle.manager_inv closure m →
  lifecycle.manager_inv closure
    (fst (lifecycle.loadPlugin closure m manifest mkdir_ok new_plugin init_err
            init_ctx_done)).
Proof.
  intros Hinv.
  pose proof (λ id p, manager_inv_heap_bound closure m id p Hinv) as Hbound.
  destruct Hinv as (I1 & I2 & I3 & I4 & I5 & I6 & I7).
  destruct (loadPlugin_cases closure m manifest mkdir_ok new_plugin init_err
              init_ctx_done)
    as [(_ & Hd & Hp & Hl & Hh & Ht)|(_ & Hid & Heq)].
  - (* a failed load *)
    set (m' := fst (lifecycle.loadPlugin closure m manifest mkdir_ok new_plugin
                      init_err init_ctx_done)) in *.
    assert (Hreg : ∀ q, lifecycle.registered m' q ↔ lifecycle.registered m q)
      by (intros q; by apply registered_same).
    unfold lifecycle.manager_inv. rewrite Hd, Hp, Hl.
    split; [done|]. split; [done|]. split; [|split; [done|split; [|split]]].
    + intros id p Hidp. destruct (I3 id p Hidp) as (o & Ho & ?).
      exists o. split; [|done].
      destruct Hh as [-> | ->]; [done|]. by apply lookup_app_l_Some.
    + intros q o Ho Hnr. rewrite Hreg in Hnr.
      destruct Hh as [Hh|Hh]; rewrite Hh in Ho; [by apply (I5 q)|].
      apply lookup_app_Some in Ho as [Ho|[Hge Ho]]; [by apply (I5 q)|].
      destruct (q - length (lifecycle.Manager.heap m))%nat; [|done].
      simpl in Ho. injection Ho as <-. simpl. auto.
    + done.
    + intros c Hc. destruct Ht as [Ht|Ht]; rewrite Ht in Hc; [by apply I7|].
      apply elem_of_app in Hc as [?| ->%list_elem_of_singleton]; [|done].
      by apply I7.
  - (* a successful load *)
    rewrite Heq. clear Heq.
    set (id := lifecycle.FullManifest.ID manifest) in *.
    set (p0 := length (lifecycle.Manager.heap m)).
    assert (Hnl : id ∉ lifecycle.Manager.loadOrder m).
    { intros Hin%I2. rewrite Hid in Hin. by destruct Hin. }
    unfold lifecycle.manager_inv, lifecycle.registered. simpl.
    split; [|split; [|split; [|split; [|split; [|split]]]]].
    + apply NoDup_app. split; [done|]. split; [|apply NoDup_singleton].
      by intros x Hx ->%list_elem_of_singleton.
    + intros id'. rewrite elem_of_app, list_elem_of_singleton, I2.
      destruct (decide (id = id')) as [<- |Hne].
      * rewrite lookup_insert_eq. split; [by eexists|auto].
      * rewrite lookup_insert_ne by done. split; [|auto].
        intros [?| ->]; done.
    + intros id' p Hp. destruct (decide (id = id')) as [<- |Hne].
      * rewrite lookup_insert_eq in Hp. injection Hp as <-.
        eexists. split; [by apply list_lookup_middle|done].
      * rewrite lookup_insert_ne in Hp by done.
        destruct (I3 id' p Hp) as (o & Ho & ?). exists o.
        split; [by apply lookup_app_l_Some|done].
    + intros id1 id2 p H1 H2.
      destruct (decide (id = id1)) as [<- |Hne1];
        destruct (decide (id = id2)) as [<- |Hne2]; [done| | |].
      * rewrite lookup_insert_eq in H1. injection H1 as <-.
        rewrite lookup_insert_ne in H2 by done. apply Hbound in H2.
        unfold p0 in H2. lia.
      * rewrite lookup_insert_eq in H2. injection H2 as <-.
        rewrite lookup_insert_ne in H1 by done. apply Hbound in H1.
        unfold p0 in H1. lia.
      * rewrite lookup_insert_ne in H1, H2 by done. eauto.
    + intros q o Ho Hnr.
      apply lookup_app_Some in Ho as [Ho|[Hge Ho]].
      * apply (I5 q o Ho). intros [id' Hid']. apply Hnr. exists id'.
        rewrite lookup_insert_ne; [done|]. intros <-. congruence.
      * exfalso. apply Hnr. exists id.
        destruct (q - length (lifecycle.Manager.heap m))%nat eqn:Hq; [|done].
        replace q with p0 by (unfold p0; lia). apply lookup_insert_eq.
    + intros e sub [Hold|[Hpid Hh]]%registerEventHandlers_subs.
      * destruct (I6 e sub Hold) as (p & Hp & ?). exists p. split; [|done].
        rewrite lookup_insert_ne; [done|]. intros Heq. fold id in Heq.
        congruence.
      * exists p0. rewrite Hpid. fold id. by rewrite lookup_insert_eq.
    + intros c [?| ->%list_elem_of_singleton]%elem_of_app; [|done].
      by apply I7.
Qed.

Lemma UnloadPlugin_inv closure m id g :
  lifecycle.manager_inv closure m →
  lifecycle.manager_inv closure (fst (lifecycle.UnloadPlugin m id g)).
Proof.
  intros Hinv. unfold lifecycle.UnloadPlugin.
  destruct (lifecycle.Manager.plugins m !! id) as [p|] eqn:Hid; [|done].
  pose proof Hinv as (_ & _ & I3 & _).
  destruct (I3 id p Hid) as (o & Hp & _). rewrite Hp.
  set (r := match lifecycle.Loaded.State o with
            | StateEnabled => lifecycle.DisablePlugin m id g
            | _ => (m, None)
            end).
  assert (Hg : lifecycle.gentle m (fst r)).
  { subst r. destruct (lifecycle.Loaded.State o); try apply gentle_refl.
    by eapply DisablePlugin_gentle. }
  pose proof (gentle_inv closure m (fst r) Hinv Hg) as Hinv1.
  destruct Hg as (_ & Hpl & _).
  destruct r as [m1 [e|]]; simpl in *; [done|].
  clear Hinv I3 Hp o.
  destruct Hinv1 as (I1 & I2 & I3 & I4 & I5 & I6 & I7).
  rewrite <- Hpl in Hid.
  destruct (I3 id p Hid) as (o & Hp & Hm & Hc & Hs).
  assert (Hreg : ∀ q,
            (∃ id', delete id (lifecycle.Manager.plugins m1) !! id' = Some q)
            ↔ lifecycle.registered m1 q ∧ q ≠ p).
  { intros q. split.
    - intros [id' [Hne Hid']%lookup_delete_Some].
      split; [by exists id'|]. intros ->. apply Hne. eauto.
    - intros [[id' Hid'] Hne]. exists id'. apply lookup_delete_Some.
      split; [|done]. intros <-. congruence. }
  unfold lifecycle.manager_inv, lifecycle.registered. simpl.
  rewrite alter_alter.
  split; [|split; [|split; [|split; [|split; [|split]]]]].
  - unfold dispatcher.DeleteFunc. apply NoDup_ListNoDup, List.NoDup_filter. by apply NoDup_ListNoDup.
  - intros id'. unfold dispatcher.DeleteFunc.
    rewrite list_elem_of_In, filter_In, <- list_elem_of_In, I2,
      negb_true_iff, String.eqb_neq.
    split.
    + intros [[q Hq] Hne]. exists q. by apply lookup_delete_Some.
    + intros [q [Hne Hq]%lookup_delete_Some]. split; [by exists q|done].
  - intros id' q [Hne Hq]%lookup_delete_Some.
    destruct (I3 id' q Hq) as (o' & Ho' & ?). exists o'. split; [|done].
    rewrite list_lookup_alter_ne; [done|]. intros <-. apply Hne. eauto.
  - intros id1 id2 q [_ H1]%lookup_delete_Some [_ H2]%lookup_delete_Some.
    eauto.
  - intros q o' Ho' Hnr. rewrite Hreg in Hnr.
    destruct (decide (p = q)) as [<- |Hne].
    + rewrite list_lookup_alter_eq, Hp in Ho'. simpl in Ho'.
      injection Ho' as <-. simpl. rewrite Hc. auto.
    + rewrite list_lookup_alter_ne in Ho' by done.
      apply (I5 q o' Ho'). intros Hr. apply Hnr. split; [done|].
      by intros ->.
  - intros e sub Hsub. rewrite subs_of_Unsubscribe in Hsub.
    apply list_elem_of_In in Hsub.
    pose proof (DeleteFunc_not_owned _ _ _ Hsub) as Hne.
    unfold dispatcher.DeleteFunc in Hsub. apply filter_In in Hsub as [Hsub _].
    apply list_elem_of_In in Hsub.
    destruct (I6 e sub Hsub) as (q & Hq & ?). exists q. split; [|done].
    by apply lookup_delete_Some.
  - done.
Qed.

Lemma load_each_inv closure outcome sorted m :
  lifecycle.manager_inv closure m →
  lifecycle.manager_inv closure (lifecycle.load_each closure outcome sorted m).
Proof.
  unfold lifecycle.load_each. revert m.
  induction sorted as [|x sorted IH]; intros m Hinv; [done|].
  simpl. by apply IH, loadPlugin_inv.
Qed.

Lemma LoadAll_inv closure m enabled disabled dir outcome :
  lifecycle.manager_inv closure m →
  lifecycle.manager_inv closure
    (fst (lifecycle.LoadAll closure m enabled disabled dir outcome)).
Proof.
  intros Hinv. unfold lifecycle.LoadAll. destruct dir as [ok| |entries];
    [done|done|].
  destruct (manager.sortByDependencies _); try done.
  simpl. by apply load_each_inv.
Qed.

Lemma lifecycle_step_inv closure m op :
  lifecycle.manager_inv closure m →
  lifecycle.manager_inv closure (lifecycle.step closure m op).
Proof.
  intros Hinv. destruct op as [manifest o|id g now|id g|id g|g now|g|en dis dir out]; simpl.
  - by apply loadPlugin_inv.
  - eapply gentle_inv; [done|by eapply EnablePlugin_gentle].
  - eapply gentle_inv; [done|by eapply DisablePlugin_gentle].
  - by apply UnloadPlugin_inv.
  - eapply gentle_inv; [done|by eapply EnableAll_gentle].
  - eapply gentle_inv; [done|by eapply DisableAll_gentle].
  - by apply LoadAll_inv.
Qed.

Lemma lifecycle_run_inv closure ops m :
  lifecycle.manager_inv closure m →
  lifecycle.manager_inv closure (lifecycle.run closure ops m).
Proof.
  revert m. induction ops as [|op ops IH]; intros m Hinv; [done|].
  simpl. by apply IH, lifecycle_step_inv.
Qed.

Lemma lifecycle_New_inv closure : lifecycle.manager_inv closure lifecycle.New.
Proof.
  unfold lifecycle.manager_inv, lifecycle.registered, lifecycle.New. simpl.
  split; [constructor|]. split.
  { intros id. rewrite lookup_empty. split; [by intros ?%elem_of_nil|].
    by intros [? ?]. }
  split; [intros id p H; by rewrite lookup_empty in H|].
  split; [intros id id' p H; by rewrite lookup_empty in H|].
  split; [by intros p o H|].
  split; [|by intros c ?%elem_of_nil].
  intros e sub Hs. rewrite subs_of_NewDispatcher in Hs.
  by apply elem_of_nil in Hs.
Qed.

Lemma call_handler_gentle closure m p e timed_out ctx_err answer data
    elapsed now m' r :
  lifecycle.manager_inv closure m → lifecycle.registered m p →
  lifecycle.call_handler m p e timed_out ctx_err answer data elapsed now
    = Some (m', r) →
  lifecycle.gentle m m'.
Proof.
  intros (I1 & I2 & I3 & I4 & I5 & I6 & I7) Hreg.
  pose proof Hreg as [id Hid].
  destruct (I3 id p Hid) as (o & Hp & Hm & Hc & Hs).
  unfold lifecycle.call_handler. rewrite Hp.
  destruct (metrics.createEventHandler_metrics _ _ _ _ _ _ _ _) as [ms|];
    [|done].
  intros [= <- _].
  set (F := λ o : lifecycle.Loaded.t,
              lifecycle.Loaded.mk (lifecycle.Loaded.Manifest o)
                (lifecycle.Loaded.State o) ms (lifecycle.Loaded.closes o)).
  assert (Hopen : lifecycle.is_closed m p = false).
  { unfold lifecycle.is_closed. rewrite Hp. by rewrite Hc. }
  destruct (lifecycle.Loaded.State o) eqn:Hst; try done.
  all: lazymatch goal with
       | |- context [lifecycle.guest_call] =>
           eapply (gentle_shape m p o F
                     [lifecycle.GuestCall.mk p "handle_event"
                        (manager.envelope e data) false]); try done;
           [by subst F; simpl; rewrite Hst
           |by intros c ->%list_elem_of_singleton
           |simpl; by rewrite Hopen]
       | |- _ =>
           eapply (gentle_shape m p o F []); try done;
           [by subst F; simpl; rewrite Hst
           |by intros c ?%elem_of_nil
           |simpl; by rewrite app_nil_r]
       end.
Qed.

Lemma reachable_inv closure m :
  lifecycle.distinct_closures closure → lifecycle.reachable closure m →
  lifecycle.manager_inv closure m.
Proof.
  intros Hdis. induction 1 as [|m op _ IH _|m e sub p t ce a d el now m' r _ IH
                                 Hsub Hh Hcall].
  - apply lifecycle_New_inv.
  - by apply lifecycle_step_inv.
  - pose proof IH as (_ & _ & _ & _ & _ & I6 & _).
    destruct (I6 e sub Hsub) as (q & Hq & Hh'). rewrite Hh in Hh'.
    apply Hdis in Hh' as ->.
    eapply gentle_inv; [done|]. eapply call_handler_gentle; [done| |done].
    by eexists.
Qed.

Lemma DisablePlugin_states closure m id g q o' :
  lifecycle.manager_inv closure m →
  lifecycle.Manager.heap (fst (lifecycle.DisablePlugin m id g)) !! q
    = Some o' →
  ∃ o, lifecycle.Manager.heap m !! q = Some o ∧
       (lifecycle.Loaded.State o ≠ StateEnabled →
        lifecycle.Loaded.State o' ≠ StateEnabled) ∧
       (lifecycle.Manager.plugins m !! id = Some q →
        lifecycle.Loaded.State o' ≠ StateEnabled).
Proof.
  intros (I1 & I2 & I3 & I4 & I5 & I6 & I7). unfold lifecycle.DisablePlugin.
  destruct (lifecycle.Manager.plugins m !! id) as [p|] eqn:Hid;
    [|intros Ho'; exists o'; by repeat split].
  destruct (I3 id p Hid) as (o & Hp & Hm & Hc & Hs). rewrite Hp.
  assert (Hsame : lifecycle.Loaded.State o ≠ StateEnabled →
            lifecycle.Manager.heap m !! q = Some o' →
            ∃ o0, lifecycle.Manager.heap m !! q = Some o0 ∧
              (lifecycle.Loaded.State o0 ≠ StateEnabled →
               lifecycle.Loaded.State o' ≠ StateEnabled) ∧
              (Some p = Some q → lifecycle.Loaded.State o' ≠ StateEnabled)).
  { intros Hne Ho'. exists o'. split; [done|]. split; [done|].
    intros [= <-]. congruence. }
  destruct (lifecycle.Loaded.State o) eqn:Hst; try (by apply Hsame).
  assert (Hheap : ∀ m0 : lifecycle.Manager.t,
            lifecycle.Manager.heap
              (if instance.Guest.FunctionExists g "on_disable"
               then lifecycle.guest_call p "on_disable" [] m0 else m0)
            = lifecycle.Manager.heap m0).
  { intros m0. by destruct (instance.Guest.FunctionExists g "on_disable"). }
  simpl. rewrite Hheap. simpl. rewrite alter_alter.
  heap_at q p Hp.
  - intros [= <-]. exists o. by repeat split.
  - intros Ho'. exists o'. split; [done|]. split; [done|]. congruence.
Qed.

Lemma fold_DisablePlugin_states closure g ids m q o' :
  lifecycle.manager_inv closure m →
  lifecycle.Manager.heap
    (fold_left (λ m id, fst (lifecycle.DisablePlugin m id (g id))) ids m) !! q
    = Some o' →
  ∃ o, lifecycle.Manager.heap m !! q = Some o ∧
       (lifecycle.Loaded.State o ≠ StateEnabled →
        lifecycle.Loaded.State o' ≠ StateEnabled) ∧
       (∀ id, id ∈ ids → lifecycle.Manager.plugins m !! id = Some q →
              lifecycle.Loaded.State o' ≠ StateEnabled).
Proof.
  revert m. induction ids as [|x ids IH]; intros m Hinv; simpl.
  - intros Ho'. exists o'. split; [done|]. split; [done|].
    by intros id ?%elem_of_nil.
  - intros Ho'.
    pose proof (DisablePlugin_gentle closure m x (g x) Hinv) as Hg.
    pose proof (gentle_inv closure _ _ Hinv Hg) as Hinv1.
    destruct (IH _ Hinv1 Ho') as (o1 & Ho1 & Hkeep & Hids).
    destruct (DisablePlugin_states closure m x (g x) q o1 Hinv Ho1)
      as (o & Ho & Hkeep0 & Hx).
    exists o. split; [done|]. split; [auto|].
    intros id [-> |Hin]%elem_of_cons Hid; [auto|].
    apply (Hids id Hin). destruct Hg as (_ & -> & _). done.
Qed.

Lemma DisableAll_none_enabled closure m g id p o :
  lifecycle.manager_inv closure m →
  lifecycle.Manager.plugins m !! id = Some p →
  lifecycle.Manager.heap (lifecycle.DisableAll m g) !! p = Some o →
  lifecycle.Loaded.State o ≠ StateEnabled.
Proof.
  intros Hinv Hid Ho. unfold lifecycle.DisableAll in Ho.
  destruct (fold_DisablePlugin_states closure g _ m p o Hinv Ho)
    as (o0 & _ & _ & Hids).
  apply (Hids id); [|done]. apply list_elem_of_In. rewrite <- in_rev.
  apply list_elem_of_In.
  destruct Hinv as (_ & I2 & _). apply I2. by eexists.
Qed.

Lemma GetAllPlugins_registered closure m :
  lifecycle.manager_inv closure m →
  Forall is_Some (lifecycle.GetAllPlugins m) ∧
  length (lifecycle.GetAllPlugins m) = size (lifecycle.Manager.plugins m).
Proof.
  intros (I1 & I2 & _). unfold lifecycle.GetAllPlugins. split.
  - apply Forall_forall. intros x (id & -> & Hid)%list_elem_of_fmap.
    by apply I2.
  - rewrite length_map, <- size_dom.
    replace (dom (lifecycle.Manager.plugins m))
      with (list_to_set (C:=gset string) (lifecycle.Manager.loadOrder m)).
    + by rewrite size_list_to_set.
    + apply set_eq. intros id.
      by rewrite elem_of_list_to_set, elem_of_dom, I2.
Qed.

Lemma tagged_closures_distinct :
  lifecycle.distinct_closures
    (λ p _ _, (None, Some (string_of_list_ascii (repeat "x"%char p)))).
Proof.
  intros p q _ Heq. apply (f_equal (λ h, h [])) in Heq.
  injection Heq as Heq. apply (f_equal list_ascii_of_string) in Heq.
  rewrite !list_ascii_of_string_of_list_ascii in Heq.
  apply (f_equal (@length _)) in Heq. by rewrite !repeat_length in Heq.
Qed.

(** X29.  The manager between calls, whatever was called on it before
    short of [Close]: [loadPlugin], [LoadAll], [EnablePlugin],
    [DisablePlugin], [UnloadPlugin], [EnableAll], [DisableAll] in any
    order and with any outcome of the guests and of the file system, and
    any calls of the handlers the dispatcher holds, while no list of
    subscriptions grows beyond the twelve entries that
    [slices.SortFunc] sorts by insertion.  The load order
    lists the keys of the plugin map, each once, so [GetAllPlugins]
    returns as many pointers as there are plugins and none is nil; the
    object of a key carries that id, its instance is open and its state
    is loaded, enabled, disabled or error; an instance that is not in
    the map, because its load failed after it was created or because it
    was unloaded, was closed exactly once; every subscription of the
    dispatcher belongs to a plugin of the map and holds a closure of its
    object, so none is left of an unloaded plugin and none was made by a
    failed load; and no export of a closed instance was ever called. *)
Theorem X29_manager_keeps_plugins_consistent
    (closure : nat → EventType → Handler) (m : lifecycle.Manager.t) :
  lifecycle.distinct_closures closure →
  lifecycle.reachable closure m →
  lifecycle.manager_inv closure m ∧
  Forall is_Some (lifecycle.GetAllPlugins m) ∧
  length (lifecycle.GetAllPlugins m) = size (lifecycle.Manager.plugins m).
Proof.
  intros Hdis Hreach. pose proof (reachable_inv closure m Hdis Hreach) as Hinv.
  split; [done|]. by apply (GetAllPlugins_registered closure).
Qed.

Lemma X29_manager_keeps_plugins_consistent_witness :
  let closure : nat → EventType → Handler :=
    λ p _ _, (None, Some (string_of_list_ascii (repeat "x"%char p))) in
  let guard :=
    lifecycle.FullManifest.mk "guard" "Guard" "guard.wasm"
      [manifest.EventSubscription.mk plugin.EventPlayerChat 0 false] []
      plugin.DefaultResourceLimits [] in
  let broken :=
    lifecycle.FullManifest.mk "broken" "Broken" "broken.wasm"
      [manifest.EventSubscription.mk plugin.EventPlayerChat 100 false] []
      plugin.DefaultResourceLimits [] in
  let loads := lifecycle.LoadOutcome.mk true (Some (λ _, true)) None false in
  let fails :=
    lifecycle.LoadOutcome.mk true (Some (λ _, true)) (Some "trap") false in
  let g := instance.Guest.mk (λ _, true) (λ _ _, ([], None)) in
  let m1 :=
    lifecycle.step closure
      (lifecycle.step closure
         (lifecycle.step closure lifecycle.New (lifecycle.OpLoad guard loads))
         (lifecycle.OpLoad broken fails))
      (lifecycle.OpEnable "guard" g 0) in
  let m2 :=
    lifecycle.update 0
      (λ o, lifecycle.Loaded.mk (lifecycle.Loaded.Manifest o)
              (lifecycle.Loaded.State o)
              (metrics.RecordError (lifecycle.Loaded.Metrics o) "deadline" 7)
              (lifecycle.Loaded.closes o))
      (lifecycle.guest_call 0 "handle_event"
         (manager.envelope plugin.EventPlayerChat []) m1) in
  lifecycle.GetAllPlugins m2 = [Some 0%nat] ∧
  lifecycle.manager_inv closure m2.
Proof.
  intros closure guard broken loads fails g m1 m2.
  assert (Hreach : lifecycle.reachable closure m2).
  { apply (lifecycle.reach_handle closure m1 plugin.EventPlayerChat
             (Subscription.mk "guard" 0 (closure 0%nat plugin.EventPlayerChat)
                false)
             0%nat true "deadline" ([], None) [] 5 7 m2
             (None, Some "handler timeout for player_chat"%string)).
    - repeat (apply lifecycle.reach_step; [|vm_compute; reflexivity]).
      apply lifecycle.reach_New.
    - vm_compute. apply list_elem_of_here.
    - reflexivity.
    - vm_compute. reflexivity. }
  split; [vm_compute; reflexivity|].
  apply (X29_manager_keeps_plugins_consistent closure m2
           tagged_closures_distinct Hreach).
Defined.

(** X30.  [Manager.Close] on a manager in any of the states above.  It
    disables what is enabled, closes the instance of every plugin of the
    map and empties the map, and that is all: afterwards every instance
    the manager ever created has been closed exactly once and no plugin
    is enabled, but the load order and the dispatcher are as before.
    So [GetAllPlugins] returns a nil pointer for every id that was
    loaded, and every handler is still subscribed and still holds its
    object.  Such a handler, when it is called and does not panic,
    returns nil and nil without calling the guest when its plugin was
    disabled or in error, and calls [handle_event] on the closed
    instance when its plugin was loaded and never enabled. *)
Theorem X30_close_leaves_handlers
    (closure : nat → EventType → Handler) (m : lifecycle.Manager.t)
    (g : string → instance.Guest.t) :
  lifecycle.distinct_closures closure →
  lifecycle.reachable closure m →
  let m' := lifecycle.Close m g in
  lifecycle.Manager.plugins m' = ∅ ∧
  lifecycle.Manager.loadOrder m' = lifecycle.Manager.loadOrder m ∧
  lifecycle.Manager.dispatcher m' = lifecycle.Manager.dispatcher m ∧
  lifecycle.GetAllPlugins m'
    = replicate (length (lifecycle.Manager.loadOrder m)) None ∧
  (∀ p o, lifecycle.Manager.heap m' !! p = Some o →
          lifecycle.Loaded.closes o = 1%nat ∧
          lifecycle.Loaded.State o ≠ StateEnabled) ∧
  (∀ e sub, sub ∈ subs_of (lifecycle.Manager.dispatcher m') e →
     ∃ p o, Subscription.Handler sub = closure p e ∧
            lifecycle.Manager.heap m' !! p = Some o ∧
            ∀ timed_out ctx_err answer data elapsed now m'' r,
              lifecycle.call_handler m' p e timed_out ctx_err answer data
                elapsed now = Some (m'', r) →
              match lifecycle.Loaded.State o with
              | StateLoaded =>
                  lifecycle.Manager.trace m''
                  = lifecycle.Manager.trace m' ++
                    [lifecycle.GuestCall.mk p "handle_event"
                       (manager.envelope e data) true]
              | _ =>
                  lifecycle.Manager.trace m'' = lifecycle.Manager.trace m' ∧
                  r = (None, None)
              end).
Proof.
  intros Hdis Hreach m'.
  pose proof (reachable_inv closure m Hdis Hreach) as Hinv.
  pose proof (DisableAll_gentle closure m g Hinv) as Hg.
  pose proof (gentle_inv closure _ _ Hinv Hg) as Hinv1.
  pose proof Hg as (Hd & Hp & Hl & _).
  pose proof Hinv1 as (I1 & I2 & I3 & I4 & I5 & I6 & I7).
  assert (Hheap : ∀ p,
            lifecycle.Manager.heap m' !! p
            = (λ o, if decide (lifecycle.registered (lifecycle.DisableAll m g) p)
                    then lifecycle.close_instance o else o)
              <$> lifecycle.Manager.heap (lifecycle.DisableAll m g) !! p).
  { intros p. subst m'. unfold lifecycle.Close. simpl.
    by rewrite list_lookup_imap. }
  split; [done|]. split; [done|]. split; [done|]. split; [|split].
  - subst m'. unfold lifecycle.GetAllPlugins, lifecycle.Close. simpl.
    rewrite Hl. clear. induction (lifecycle.Manager.loadOrder m) as [|x l IH];
      [done|].
    simpl. by rewrite IH, lookup_empty.
  - intros p o. rewrite Hheap.
    destruct (lifecycle.Manager.heap (lifecycle.DisableAll m g) !! p)
      as [o1|] eqn:Ho1; [|done].
    simpl. intros [= <-].
    destruct (decide (lifecycle.registered (lifecycle.DisableAll m g) p))
      as [[id Hid]|Hnr].
    + destruct (I3 id p Hid) as (o' & Ho' & _ & Hc & _).
      rewrite Ho1 in Ho'. injection Ho' as <-. simpl. rewrite Hc.
      split; [done|]. rewrite Hp in Hid.
      by apply (DisableAll_none_enabled closure m g id p o1).
    + destruct (I5 p o1 Ho1 Hnr) as [Hc Hst]. split; [done|].
      destruct Hst as [-> | ->]; done.
  - intros e sub Hsub.
    change (lifecycle.Manager.dispatcher m')
      with (lifecycle.Manager.dispatcher (lifecycle.DisableAll m g)) in Hsub.
    destruct (I6 e sub Hsub) as (p & Hid & Hh).
    destruct (I3 _ p Hid) as (o1 & Ho1 & _ & Hc & Hs).
    assert (Hne : lifecycle.Loaded.State o1 ≠ StateEnabled).
    { rewrite Hp in Hid.
      by apply (DisableAll_none_enabled closure m g _ p o1 Hinv Hid). }
    assert (Hp' : lifecycle.Manager.heap m' !! p
                  = Some (lifecycle.close_instance o1)).
    { rewrite Hheap, Ho1. simpl. rewrite decide_True; [done|by eexists]. }
    exists p, (lifecycle.close_instance o1). split; [done|]. split; [done|].
    intros timed_out ctx_err answer data elapsed now m'' r.
    unfold lifecycle.call_handler. rewrite Hp'. simpl.
    assert (Hcl : lifecycle.is_closed m' p = true).
    { unfold lifecycle.is_closed. rewrite Hp'. simpl. by rewrite Hc. }
    destruct (lifecycle.Loaded.State o1) eqn:Hst; try done; simpl.
    + destruct (metrics.createEventHandler_metrics _ _ _ _ _ _ _ _);
        [|done].
      intros [= <- _]. simpl. by rewrite Hcl.
    + intros [= <- <-]. done.
    + intros [= <- <-]. done.
Qed.

Lemma X30_close_leaves_handlers_witness :
  let closure : nat → EventType → Handler :=
    λ p _ _, (None, Some (string_of_list_ascii (repeat "x"%char p))) in
  let guard :=
    lifecycle.FullManifest.mk "guard" "Guard" "guard.wasm"
      [manifest.EventSubscription.mk plugin.EventPlayerChat 0 false] []
      plugin.DefaultResourceLimits [] in
  let loads := lifecycle.LoadOutcome.mk true (Some (λ _, true)) None false in
  let g : string → instance.Guest.t :=
    λ _, instance.Guest.mk (λ _, true) (λ _ _, ([], None)) in
  let m :=
    lifecycle.step closure lifecycle.New (lifecycle.OpLoad guard loads) in
  lifecycle.GetAllPlugins m = [Some 0%nat] ∧
  lifecycle.GetAllPlugins (lifecycle.Close m g) = [None] ∧
  lifecycle.Manager.dispatcher (lifecycle.Close m g)
  = lifecycle.Manager.dispatcher m.
Proof.
  intros closure guard loads g m.
  assert (Hreach : lifecycle.reachable closure m).
  { apply lifecycle.reach_step; [apply lifecycle.reach_New|].
    vm_compute. reflexivity. }
  destruct (X30_close_leaves_handlers closure m g tagged_closures_distinct
              Hreach) as (_ & _ & Hd & Hall & _).
  split; [vm_compute; reflexivity|]. split; [exact Hall|exact Hd].
Defined.
